(** * Alaris runtime core: shared ring buffer, memory pool, task scheduler,
      event logger.

    A shallow embedding of the C++ sources under [src/quantlib] together with
    the properties stated about them.

    Conventions.
    - [uint64_t] and [size_t] values are integers in [Z] kept in [0, 2^64);
      every unsigned operation of the source is followed by [u64], the
      reduction modulo [2^64].
    - [std::chrono::nanoseconds] and clock readings are signed 64-bit tick
      counts: integers in [Z] kept in [-2^63, 2^63).  Every signed operation
      of the source that can leave that range is followed by [i64], the
      reduction to the two's complement value the compiled code computes.
    - Pointers are addresses in [Z], [nullptr] being [0].
    - Calls to the clock, to [mmap] and to [sysconf] are inputs of the
      operation that performs them. *)

From Stdlib Require Import ZArith Lia QArith Permutation Sorted.
From Stdlib Require Import Floats.SpecFloat.
From stdpp Require Import base numbers list gmap strings pretty.

Local Open Scope Z_scope.

Definition u64 (z : Z) : Z := z mod 2 ^ 64.

Definition u32 (z : Z) : Z := z mod 2 ^ 32.

Definition i64 (z : Z) : Z := (z + 2 ^ 63) mod 2 ^ 64 - 2 ^ 63.

(** The sum of [f] over a list. *)
Definition sumZ {A} (f : A -> Z) (l : list A) : Z :=
  fold_right (fun x acc => f x + acc) 0 l.

(** ** src/quantlib/ipc/shared_ring_buffer.h, src/quantlib/ipc/shared_memory.cpp *)

Module Ring.

Section SharedRingBuffer.

(** The record type [T] (trivially copyable). *)
Variable T : Type.

(** [T()], the value every slot is initialised with by the owner. *)
Variable T_init : T.

(** The template parameter [Size]. *)
Variable Size : Z.

(** The two [static_assert]s of the class template, with the range of
    [size_t]. *)
Definition static_asserts : bool :=
  (Z.land Size (Size - 1) =? 0) && (64 <=? Size) && (Size <? 2 ^ 64).

Definition MASK : Z := Size - 1.

(** [struct Header]: six atomic 64-bit counters. *)
Record Header := mkHeader {
  write_index : Z;
  read_index : Z;
  total_writes : Z;
  total_reads : Z;
  contention_events : Z;
  max_queue_depth : Z
}.

(** The mapped region [Header | slot[0] | ... | slot[Size-1]].  It is shared:
    every handle opened on the same name operates on the same region. *)
Record Region := mkRegion {
  header : Header;
  buffer : list T
}.

(** The per-process object.  [header_] is [true] when the pointers
    [header_] and [buffer_] point into the mapped region, and [false] when
    they are null. *)
Record SharedRingBuffer := mkHandle {
  header_ : bool;
  is_owner_ : bool;
  last_access_time_ : Z;
  consecutive_empty_reads_ : Z;
  consecutive_full_writes_ : Z
}.

Definition set_write_index (v : Z) (h : Header) : Header :=
  mkHeader v (read_index h) (total_writes h) (total_reads h)
           (contention_events h) (max_queue_depth h).

Definition set_read_index (v : Z) (h : Header) : Header :=
  mkHeader (write_index h) v (total_writes h) (total_reads h)
           (contention_events h) (max_queue_depth h).

Definition set_total_writes (v : Z) (h : Header) : Header :=
  mkHeader (write_index h) (read_index h) v (total_reads h)
           (contention_events h) (max_queue_depth h).

Definition set_total_reads (v : Z) (h : Header) : Header :=
  mkHeader (write_index h) (read_index h) (total_writes h) v
           (contention_events h) (max_queue_depth h).

Definition set_contention_events (v : Z) (h : Header) : Header :=
  mkHeader (write_index h) (read_index h) (total_writes h) (total_reads h)
           v (max_queue_depth h).

Definition set_max_queue_depth (v : Z) (h : Header) : Header :=
  mkHeader (write_index h) (read_index h) (total_writes h) (total_reads h)
           (contention_events h) v.

Definition set_last_access_time (now : Z) (rb : SharedRingBuffer) : SharedRingBuffer :=
  mkHandle (header_ rb) (is_owner_ rb) now
           (consecutive_empty_reads_ rb) (consecutive_full_writes_ rb).

Definition set_consecutive_empty_reads (v : Z) (rb : SharedRingBuffer) : SharedRingBuffer :=
  mkHandle (header_ rb) (is_owner_ rb) (last_access_time_ rb)
           v (consecutive_full_writes_ rb).

Definition set_consecutive_full_writes (v : Z) (rb : SharedRingBuffer) : SharedRingBuffer :=
  mkHandle (header_ rb) (is_owner_ rb) (last_access_time_ rb)
           (consecutive_empty_reads_ rb) v.

(** The region as the owner's constructor leaves it: [Header()] and
    [Size] slots holding [T()]. *)
Definition fresh_region : Region :=
  mkRegion (mkHeader 0 0 0 0 0 0) (replicate (Z.to_nat Size) T_init).

(** The handle at the end of a successful constructor. *)
Definition open_handle (create : bool) (now : Z) : SharedRingBuffer :=
  mkHandle true create now 0 0.

(** The moved-from object after [SharedRingBuffer(SharedRingBuffer&&)];
    the new object is a copy of [other]. *)
Definition move_from (other : SharedRingBuffer) : SharedRingBuffer * SharedRingBuffer :=
  (other,
   mkHandle false false (last_access_time_ other)
            (consecutive_empty_reads_ other) (consecutive_full_writes_ other)).

(** [buffer_[i]] and [memcpy(&buffer_[i], &item, sizeof(T))]. *)
Definition slot (idx : Z) : nat := Z.to_nat (Z.land idx MASK).

Definition load_slot (buf : list T) (idx : Z) : T :=
  default T_init (buf !! slot idx).

Definition store_slot (buf : list T) (idx : Z) (item : T) : list T :=
  <[slot idx := item]> buf.

Definition size (rb : SharedRingBuffer) (m : Region) : Z :=
  if negb (header_ rb) then 0
  else u64 (write_index (header m) - read_index (header m)).

Definition empty (rb : SharedRingBuffer) (m : Region) : bool :=
  if negb (header_ rb) then true
  else write_index (header m) =? read_index (header m).

Definition full (rb : SharedRingBuffer) (m : Region) : bool :=
  if negb (header_ rb) then false
  else Size <=? u64 (write_index (header m) - read_index (header m)).

Definition get_total_writes (rb : SharedRingBuffer) (m : Region) : Z :=
  if header_ rb then total_writes (header m) else 0.

Definition get_total_reads (rb : SharedRingBuffer) (m : Region) : Z :=
  if header_ rb then total_reads (header m) else 0.

(** [update_metrics_on_write]: the compare-exchange loop ends with
    [max_queue_depth] raised to the current size when that is larger. *)
Definition update_metrics_on_write (now : Z) (rb : SharedRingBuffer) (m : Region)
  : SharedRingBuffer * Region :=
  let h1 := set_total_writes (u64 (total_writes (header m) + 1)) (header m) in
  let rb1 := set_last_access_time now rb in
  let current_size := size rb1 (mkRegion h1 (buffer m)) in
  let current_max := max_queue_depth h1 in
  let h2 := if current_max <? current_size
            then set_max_queue_depth current_size h1 else h1 in
  (rb1, mkRegion h2 (buffer m)).

Definition update_metrics_on_read (now : Z) (rb : SharedRingBuffer) (m : Region)
  : SharedRingBuffer * Region :=
  (set_last_access_time now rb,
   mkRegion (set_total_reads (u64 (total_reads (header m) + 1)) (header m)) (buffer m)).

Definition update_metrics_on_contention (m : Region) : Region :=
  mkRegion (set_contention_events (u64 (contention_events (header m) + 1)) (header m))
           (buffer m).

Definition try_write (item : T) (now : Z) (rb : SharedRingBuffer) (m : Region)
  : bool * SharedRingBuffer * Region :=
  if negb (header_ rb) then (false, rb, m) else
  let current_write_idx := write_index (header m) in
  let current_read_idx := read_index (header m) in
  if Size <=? u64 (current_write_idx - current_read_idx) then
    (false,
     set_consecutive_full_writes (u64 (consecutive_full_writes_ rb + 1)) rb,
     update_metrics_on_contention m)
  else
    let rb1 := set_consecutive_full_writes 0 rb in
    let buf := store_slot (buffer m) current_write_idx item in
    let h1 := set_write_index (u64 (current_write_idx + 1)) (header m) in
    let '(rb2, m2) := update_metrics_on_write now rb1 (mkRegion h1 buf) in
    (true, rb2, m2).

(** [try_read(T& item)]: [Some item] when it returns [true] with [item]
    filled in, [None] when it returns [false] and leaves [item] alone. *)
Definition try_read (now : Z) (rb : SharedRingBuffer) (m : Region)
  : option T * SharedRingBuffer * Region :=
  if negb (header_ rb) then (None, rb, m) else
  let current_read_idx := read_index (header m) in
  let current_write_idx := write_index (header m) in
  if current_read_idx =? current_write_idx then
    (None, set_consecutive_empty_reads (u64 (consecutive_empty_reads_ rb + 1)) rb, m)
  else
    let rb1 := set_consecutive_empty_reads 0 rb in
    let item := load_slot (buffer m) current_read_idx in
    let h1 := set_read_index (u64 (current_read_idx + 1)) (header m) in
    let '(rb2, m2) := update_metrics_on_read now rb1 (mkRegion h1 (buffer m)) in
    (Some item, rb2, m2).

(** The copy loop of [try_write_batch]: [items[i]] goes to slot
    [(current_write_idx + i) & MASK]. *)
Fixpoint copy_in (buf : list T) (start i : Z) (items : list T) : list T :=
  match items with
  | [] => buf
  | x :: rest => copy_in (store_slot buf (u64 (start + i)) x) start (i + 1) rest
  end.

(** The copy loop of [try_read_batch]. *)
Definition copy_out (buf : list T) (start : Z) (n : Z) : list T :=
  (fun i => load_slot buf (u64 (start + i))) <$> seqZ 0 n.

(** [try_write_batch(items, count)] with [count = length items]; the result
    is the number of records written. *)
Definition try_write_batch (items : list T) (now : Z) (rb : SharedRingBuffer) (m : Region)
  : Z * SharedRingBuffer * Region :=
  let count := u64 (Z.of_nat (length items)) in
  if negb (header_ rb) || (count =? 0) then (0, rb, m) else
  let current_write_idx := write_index (header m) in
  let current_read_idx := read_index (header m) in
  let available_slots := u64 (Size - u64 (current_write_idx - current_read_idx)) in
  let num_to_write := Z.min count available_slots in
  if num_to_write =? 0 then
    (0,
     set_consecutive_full_writes (u64 (consecutive_full_writes_ rb + 1)) rb,
     update_metrics_on_contention m)
  else
    let rb1 := set_consecutive_full_writes 0 rb in
    let buf := copy_in (buffer m) current_write_idx 0 (take (Z.to_nat num_to_write) items) in
    let h1 := set_write_index (u64 (current_write_idx + num_to_write)) (header m) in
    let h2 := set_total_writes (u64 (total_writes h1 + num_to_write)) h1 in
    (num_to_write, set_last_access_time now rb1, mkRegion h2 buf).

(** [try_read_batch(items, count)]: the result is the list of records
    copied to [items[0 .. num_to_read)]; [count] is a [size_t]. *)
Definition try_read_batch (count : Z) (now : Z) (rb : SharedRingBuffer) (m : Region)
  : list T * SharedRingBuffer * Region :=
  let count := u64 count in
  if negb (header_ rb) || (count =? 0) then ([], rb, m) else
  let current_read_idx := read_index (header m) in
  let current_write_idx := write_index (header m) in
  let available_items := u64 (current_write_idx - current_read_idx) in
  let num_to_read := Z.min count available_items in
  if num_to_read =? 0 then
    ([], set_consecutive_empty_reads (u64 (consecutive_empty_reads_ rb + 1)) rb, m)
  else
    let rb1 := set_consecutive_empty_reads 0 rb in
    let out := copy_out (buffer m) current_read_idx num_to_read in
    let h1 := set_read_index (u64 (current_read_idx + num_to_read)) (header m) in
    let h2 := set_total_reads (u64 (total_reads h1 + num_to_read)) h1 in
    (out, set_last_access_time now rb1, mkRegion h2 (buffer m)).

Definition reset_tta_metrics (now : Z) (rb : SharedRingBuffer) (m : Region)
  : SharedRingBuffer * Region :=
  if negb (header_ rb) then (rb, m) else
  let h := header m in
  (mkHandle (header_ rb) (is_owner_ rb) now 0 0,
   mkRegion (mkHeader (write_index h) (read_index h) 0 0 0 0) (buffer m)).

(** *** One producer, one consumer, one region *)

Record System := mkSystem {
  producer : SharedRingBuffer;
  consumer : SharedRingBuffer;
  region : Region
}.

Definition fresh_system (now : Z) : System :=
  mkSystem (open_handle true now) (open_handle false now) fresh_region.

(** The operations of the two ends; each carries the clock reading it
    makes.  Writes go through the producer's handle and reads through the
    consumer's. *)
Inductive op :=
| TryWrite (item : T) (now : Z)
| TryRead (now : Z)
| TryWriteBatch (items : list T) (now : Z)
| TryReadBatch (count : Z) (now : Z)
| ResetProducer (now : Z)
| ResetConsumer (now : Z).

(** What an operation hands back to its caller. *)
Inductive ret :=
| RetBool (b : bool)
| RetItem (r : option T)
| RetCount (n : Z)
| RetItems (l : list T)
| RetVoid.

Definition step (o : op) (s : System) : ret * System :=
  match o with
  | TryWrite item now =>
      let '(b, p, m) := try_write item now (producer s) (region s) in
      (RetBool b, mkSystem p (consumer s) m)
  | TryRead now =>
      let '(r, c, m) := try_read now (consumer s) (region s) in
      (RetItem r, mkSystem (producer s) c m)
  | TryWriteBatch items now =>
      let '(n, p, m) := try_write_batch items now (producer s) (region s) in
      (RetCount n, mkSystem p (consumer s) m)
  | TryReadBatch count now =>
      let '(l, c, m) := try_read_batch count now (consumer s) (region s) in
      (RetItems l, mkSystem (producer s) c m)
  | ResetProducer now =>
      let '(p, m) := reset_tta_metrics now (producer s) (region s) in
      (RetVoid, mkSystem p (consumer s) m)
  | ResetConsumer now =>
      let '(c, m) := reset_tta_metrics now (consumer s) (region s) in
      (RetVoid, mkSystem (producer s) c m)
  end.

(** Running a sequence of operations, collecting what each returned. *)
Fixpoint run (ops : list op) (s : System) : list ret * System :=
  match ops with
  | [] => ([], s)
  | o :: rest =>
      let '(r, s1) := step o s in
      let '(rs, s2) := run rest s1 in
      (r :: rs, s2)
  end.

(** The records accepted from the producer by an operation, given what it
    returned, and the records delivered to the consumer. *)
Definition accepted (o : op) (r : ret) : list T :=
  match o, r with
  | TryWrite item _, RetBool true => [item]
  | TryWriteBatch items _, RetCount n => take (Z.to_nat n) items
  | _, _ => []
  end.

Definition delivered (r : ret) : list T :=
  match r with
  | RetItem (Some x) => [x]
  | RetItems l => l
  | _ => []
  end.

Fixpoint written_log (ops : list op) (rs : list ret) : list T :=
  match ops, rs with
  | o :: ops', r :: rs' => accepted o r ++ written_log ops' rs'
  | _, _ => []
  end.

Definition read_log (rs : list ret) : list T :=
  concat (delivered <$> rs).

Definition is_reset (o : op) : bool :=
  match o with
  | ResetProducer _ | ResetConsumer _ => true
  | _ => false
  end.

(** The current depth as the header gives it. *)
Definition depth (m : Region) : Z :=
  u64 (write_index (header m) - read_index (header m)).

(** The records currently queued, oldest first. *)
Definition queued (m : Region) : list T :=
  copy_out (buffer m) (read_index (header m)) (depth m).

(** *** Statement vocabulary *)

(** A producer that only calls [try_write], once per record of [items],
    each record paired with the clock reading of its call. *)
Definition writes (items : list (T * Z)) : list op :=
  (fun p => TryWrite p.1 p.2) <$> items.

Definition len (l : list T) : Z := Z.of_nat (length l).

(** Both ends hold non-null [header_] pointers. *)
Definition attached (s : System) : Prop :=
  header_ (producer s) = true /\ header_ (consumer s) = true.

(** The state of the region after the producer's records [W] were accepted
    and the consumer's records [R] were delivered, the totals having been
    reset last when [bw] records had been accepted and [br] delivered. *)
Record Inv (W R : list T) (bw br : Z) (m : Region) : Prop := mkInv {
  inv_length : length (buffer m) = Z.to_nat Size;
  inv_write : write_index (header m) = u64 (len W);
  inv_read : read_index (header m) = u64 (len R);
  inv_total_writes : total_writes (header m) = u64 (len W - bw);
  inv_total_reads : total_reads (header m) = u64 (len R - br);
  inv_prefix : R = take (length R) W;
  inv_bound : len R <= len W <= len R + Size;
  inv_slots : forall i : nat, (length R <= i < length W)%nat ->
                buffer m !! slot (u64 (Z.of_nat i)) = W !! i
}.

(** The depth the buffer had at the last [reset_tta_metrics] of a run, [d]
    when the run has none. *)
Fixpoint last_reset_depth (ops : list op) (s : System) (d : Z) : Z :=
  match ops with
  | [] => d
  | o :: rest =>
      let s1 := (step o s).2 in
      last_reset_depth rest s1 (if is_reset o then depth (region s1) else d)
  end.

End SharedRingBuffer.

Arguments mkRegion {T} _ _.
Arguments header {T} _.
Arguments buffer {T} _.
Arguments fresh_region {T} _ _.
Arguments load_slot {T} _ _ _ _.
Arguments store_slot {T} _ _ _ _.
Arguments size {T} _ _.
Arguments empty {T} _ _.
Arguments full {T} _ _ _.
Arguments get_total_writes {T} _ _.
Arguments get_total_reads {T} _ _.
Arguments update_metrics_on_write {T} _ _ _.
Arguments update_metrics_on_read {T} _ _ _.
Arguments update_metrics_on_contention {T} _.
Arguments try_write {T} _ _ _ _ _.
Arguments try_read {T} _ _ _ _ _.
Arguments copy_in {T} _ _ _ _ _.
Arguments copy_out {T} _ _ _ _ _.
Arguments try_write_batch {T} _ _ _ _ _.
Arguments try_read_batch {T} _ _ _ _ _ _.
Arguments reset_tta_metrics {T} _ _ _.
Arguments mkSystem {T} _ _ _.
Arguments producer {T} _.
Arguments consumer {T} _.
Arguments region {T} _.
Arguments fresh_system {T} _ _ _.
Arguments TryWrite {T} _ _.
Arguments TryRead {T} _.
Arguments TryWriteBatch {T} _ _.
Arguments TryReadBatch {T} _ _.
Arguments ResetProducer {T} _.
Arguments ResetConsumer {T} _.
Arguments RetBool {T} _.
Arguments RetItem {T} _.
Arguments RetCount {T} _.
Arguments RetItems {T} _.
Arguments RetVoid {T}.
Arguments step {T} _ _ _ _.
Arguments run {T} _ _ _ _.
Arguments accepted {T} _ _.
Arguments delivered {T} _.
Arguments written_log {T} _ _.
Arguments read_log {T} _.
Arguments is_reset {T} _.
Arguments depth {T} _.
Arguments queued {T} _ _ _.
Arguments writes {T} _.
Arguments len {T} _.
Arguments attached {T} _.
Arguments Inv {T} _ _ _ _ _ _.
Arguments last_reset_depth {T} _ _ _ _ _.

(** Scenario 4 of the specification: 5000 records offered to a buffer of
    capacity 4096 that nobody reads. *)
Definition scenario4_items : list (Z * Z) := (fun i => (i, i)) <$> seqZ 0 5000.

(** *** Consistent regions, draining and the metrics *)

Section Vocabulary.
Variable T : Type.
Variable T_init : T.
Variable Size : Z.

(** The four counters that record positions and totals hold 64-bit
    values. *)
Definition header_ok (h : Header) : Prop :=
  0 <= write_index h < 2 ^ 64 /\ 0 <= read_index h < 2 ^ 64
  /\ 0 <= total_writes h < 2 ^ 64 /\ 0 <= total_reads h < 2 ^ 64.

(** A mapped region in a consistent state: [Size] slots, 64-bit counters,
    and at most [Size] records between the two indices. *)
Definition region_ok (m : Region T) : Prop :=
  length (buffer m) = Z.to_nat Size /\ header_ok (header m) /\ depth m <= Size.

(** The loop [while (buffer->try_read(msg)) {}] of
    [SharedMemoryManager::clear_all_buffers], with at most [fuel] calls of
    [try_read]; [clock k] is the clock reading of call [k].  The result
    lists the records that passed through [msg]. *)
Fixpoint drain (fuel : nat) (clock : nat -> Z) (rb : SharedRingBuffer) (m : Region T)
  : option (list T * SharedRingBuffer * Region T) :=
  match fuel with
  | O => None
  | S fuel' =>
      let '(r, rb1, m1) := try_read T_init Size (clock O) rb m in
      match r with
      | None => Some ([], rb1, m1)
      | Some x =>
          match drain fuel' (fun k => clock (S k)) rb1 m1 with
          | Some (xs, rb2, m2) => Some (x :: xs, rb2, m2)
          | None => None
          end
      end
  end.

(** Whether a call was a write that found the buffer full: the calls on
    which [update_metrics_on_contention] runs. *)
Definition refused (o : op T) (r : ret T) : Z :=
  match o, r with
  | TryWrite _ _, RetBool false => 1
  | TryWriteBatch items _, RetCount 0 =>
      if u64 (Z.of_nat (length items)) =? 0 then 0 else 1
  | _, _ => 0
  end.

Fixpoint refusals (ops : list (op T)) (rs : list (ret T)) : Z :=
  match ops, rs with
  | o :: ops', r :: rs' => refused o r + refusals ops' rs'
  | _, _ => 0
  end.

(** The part of a run that follows its last [reset_tta_metrics]; the whole
    run when it has none. *)
Fixpoint since_reset (ops : list (op T)) (rs : list (ret T)) : list (op T) * list (ret T) :=
  match ops, rs with
  | o :: ops', r :: rs' =>
      if existsb is_reset ops' then since_reset ops' rs'
      else if is_reset o then (ops', rs') else (ops, rs)
  | _, _ => (ops, rs)
  end.

End Vocabulary.
Arguments refused {T} _ _.
Arguments refusals {T} _ _.
Arguments since_reset {T} _ _.
Arguments region_ok {T} _ _.
Arguments drain {T} _ _ _ _ _ _.

(** A capacity-64 region whose indices are about to wrap around [2^64]:
    one record, [7], is queued in slot 62. *)
Definition near_wrap_region : Region Z :=
  mkRegion (mkHeader (2 ^ 64 - 1) (2 ^ 64 - 2) 5 4 0 1) (<[62%nat := 7]> (replicate 64 0)).

End Ring.

(** ** src/quantlib/core/memory_pool.h, src/quantlib/core/memory_pool.cpp *)

Module Pool.

Definition NUM_SIZE_CLASSES : Z := 16.

Definition MIN_ALLOCATION_SIZE : Z := 64.

(** [sizeof(Block)] on an LP64 target: two [size_t], a [bool], a pointer and
    a [uint32_t], padded to a multiple of eight bytes. *)
Definition sizeof_Block : Z := 40.

Definition MAGIC : Z := 0xDEADBEEF.

Definition nullptr : Z := 0.

(** [struct MemoryPool::Block], the header placed in front of a data area. *)
Record Block := mkBlock {
  size : Z;
  size_class : Z;
  is_free : bool;
  next_free : Z;
  magic : Z
}.

(** [Block(sz, sc)]. *)
Definition new_Block (sz sc : Z) : Block := mkBlock sz sc true nullptr MAGIC.

Definition data (block : Z) : Z := u64 (block + sizeof_Block).

Definition is_valid (b : Block) : bool := magic b =? MAGIC.

(** [struct MemoryPool::Chunk]; [chunk_size] is its member [size]. *)
Record Chunk := mkChunk {
  memory : Z;
  chunk_size : Z;
  used : Z;
  is_arena_chunk : bool
}.

(** The pool object, with [blocks], the block headers that live inside the
    mapped chunks, keyed by their address. *)
Record MemoryPool := mkPool {
  chunks_ : list Chunk;
  free_lists_ : list Z;
  default_chunk_size_ : Z;
  total_allocated_ : Z;
  total_free_ : Z;
  allocation_count_ : Z;
  deallocation_count_ : Z;
  blocks : gmap Z Block
}.

(** What the operating system answers during one call: the value of
    [sysconf(_SC_PAGE_SIZE)], and for [mmap] of a given length the address
    of the new mapping, or [None] for [MAP_FAILED]. *)
Record OS := mkOS {
  sysconf_page_size : Z;
  mmap : Z -> option Z
}.

Inductive exn :=
| bad_alloc
| runtime_error (what : string).

(** How a call ends: it returns, an exception leaves it, an [assert] stops
    the program, or it reads a header where none was placed. *)
Inductive outcome (A : Type) :=
| Returned (a : A)
| Thrown (e : exn)
| Aborted
| Undefined.

Arguments Returned {A} _.
Arguments Thrown {A} _.
Arguments Aborted {A}.
Arguments Undefined {A}.

(** Computations on the pool that may end early. *)
Definition M (A : Type) : Type := MemoryPool -> outcome A * MemoryPool.

Definition ret {A} (a : A) : M A := fun p => (Returned a, p).

Definition throw {A} (e : exn) : M A := fun p => (Thrown e, p).

Definition bind {A B} (c : M A) (k : A -> M B) : M B :=
  fun p =>
    match c p with
    | (Returned a, p1) => k a p1
    | (Thrown e, p1) => (Thrown e, p1)
    | (Aborted, p1) => (Aborted, p1)
    | (Undefined, p1) => (Undefined, p1)
    end.

Notation "x <- c ;; k" := (bind c (fun x => k))
  (at level 90, c at level 89, k at level 90, right associativity).

Notation "c ;;; k" := (bind c (fun _ => k))
  (at level 90, k at level 90, right associativity).

(** [try { c } catch (const std::bad_alloc&) { h }]. *)
Definition catch_bad_alloc {A} (c : M A) (h : M A) : M A :=
  fun p =>
    match c p with
    | (Thrown bad_alloc, p1) => h p1
    | r => r
    end.

Definition get {A} (f : MemoryPool -> A) : M A := fun p => (Returned (f p), p).

Definition modify (f : MemoryPool -> MemoryPool) : M unit := fun p => (Returned tt, f p).

Definition assert_ (b : bool) : M unit :=
  fun p => if b then (Returned tt, p) else (Aborted, p).

(** Reading and writing the header at an address. *)
Definition load_block (addr : Z) : M Block :=
  fun p => match blocks p !! addr with
           | Some b => (Returned b, p)
           | None => (Undefined, p)
           end.

Definition set_blocks (f : gmap Z Block -> gmap Z Block) (p : MemoryPool) : MemoryPool :=
  mkPool (chunks_ p) (free_lists_ p) (default_chunk_size_ p) (total_allocated_ p)
         (total_free_ p) (allocation_count_ p) (deallocation_count_ p) (f (blocks p)).

Definition store_block (addr : Z) (b : Block) : M unit :=
  modify (set_blocks (fun h => <[addr := b]> h)).

Definition set_free_list (sc : Z) (v : Z) (p : MemoryPool) : MemoryPool :=
  mkPool (chunks_ p) (<[Z.to_nat sc := v]> (free_lists_ p)) (default_chunk_size_ p)
         (total_allocated_ p) (total_free_ p) (allocation_count_ p)
         (deallocation_count_ p) (blocks p).

Definition free_list (sc : Z) (p : MemoryPool) : Z :=
  default nullptr (free_lists_ p !! Z.to_nat sc).

Definition set_stats (allocated free nalloc : Z) (p : MemoryPool) : MemoryPool :=
  mkPool (chunks_ p) (free_lists_ p) (default_chunk_size_ p) allocated free nalloc
         (deallocation_count_ p) (blocks p).

Definition push_chunk (c : Chunk) (p : MemoryPool) : MemoryPool :=
  mkPool (chunks_ p ++ [c]) (free_lists_ p) (default_chunk_size_ p) (total_allocated_ p)
         (total_free_ p) (allocation_count_ p) (deallocation_count_ p) (blocks p).

(** [Chunk::Chunk(sz, is_arena)]: throws [std::bad_alloc] when [mmap]
    fails. *)
Definition new_Chunk (os : OS) (sz : Z) (is_arena : bool) : M Chunk :=
  match mmap os sz with
  | None => throw bad_alloc
  | Some addr => ret (mkChunk addr sz 0 is_arena)
  end.

Definition align_up (value alignment : Z) : Z :=
  u64 (Z.land (u64 (value + alignment - 1)) (Z.lnot (u64 (alignment - 1)))).

Definition is_power_of_two (value : Z) : bool :=
  negb (value =? 0) && (Z.land value (u64 (value - 1)) =? 0).

(** The doubling loop of [get_size_class], [n] iterations left. *)
Fixpoint size_class_loop (n : nat) (sc current_class_size sz : Z) : Z :=
  match n with
  | O => NUM_SIZE_CLASSES - 1
  | S n' =>
      if sz <=? current_class_size then sc
      else size_class_loop n' (sc + 1) (u64 (current_class_size * 2)) sz
  end.

Definition get_size_class (sz : Z) : Z :=
  if sz =? 0 then 0
  else if sz <? MIN_ALLOCATION_SIZE then 0
  else size_class_loop (Z.to_nat (NUM_SIZE_CLASSES - 1)) 0 MIN_ALLOCATION_SIZE sz.

Definition get_size_for_class (sc : Z) : Z :=
  let sc := if NUM_SIZE_CLASSES <=? sc then NUM_SIZE_CLASSES - 1 else sc in
  u64 (Z.shiftl MIN_ALLOCATION_SIZE sc).

Definition add_block_to_free_list (block : Z) : M unit :=
  assert_ (negb (block =? nullptr)) ;;;
  b <- load_block block ;;
  assert_ (is_valid b) ;;;
  let b1 := if is_free b then b
            else mkBlock (size b) (size_class b) true (next_free b) (magic b) in
  let sc := Z.min (size_class b1) (NUM_SIZE_CLASSES - 1) in
  head <- get (free_list sc) ;;
  store_block block (mkBlock (size b1) (size_class b1) (is_free b1) head (magic b1)) ;;;
  modify (set_free_list sc block).

Definition split_block (block_to_split : Z) (required_data_size : Z) : M Z :=
  assert_ (negb (block_to_split =? nullptr)) ;;;
  b <- load_block block_to_split ;;
  assert_ (is_valid b) ;;;
  let remaining_data_size := u64 (size b - required_data_size) in
  if u64 (sizeof_Block + MIN_ALLOCATION_SIZE) <=? remaining_data_size then
    let remainder_block_header := u64 (data block_to_split + required_data_size) in
    let remainder_block_data_size := u64 (remaining_data_size - sizeof_Block) in
    store_block remainder_block_header
      (new_Block remainder_block_data_size (get_size_class remainder_block_data_size)) ;;;
    add_block_to_free_list remainder_block_header ;;;
    store_block block_to_split
      (mkBlock required_data_size (get_size_class required_data_size) false nullptr (magic b)) ;;;
    ret block_to_split
  else
    store_block block_to_split
      (mkBlock (size b) (size_class b) false nullptr (magic b)) ;;;
    ret block_to_split.

(** The search of [allocate_from_size_class] through the larger classes
    [larger], in increasing order. *)
Fixpoint take_from_larger (size_class : Z) (larger : list Z) : M Z :=
  match larger with
  | [] => ret nullptr
  | larger_sc :: rest =>
      head <- get (free_list larger_sc) ;;
      if negb (head =? nullptr) then
        large_block <- load_block head ;;
        modify (set_free_list larger_sc (next_free large_block)) ;;;
        split_block head (get_size_for_class size_class)
      else take_from_larger size_class rest
  end.

Definition allocate_from_size_class (size_class : Z) : M Z :=
  if NUM_SIZE_CLASSES <=? size_class then ret nullptr else
  head <- get (free_list size_class) ;;
  if negb (head =? nullptr) then
    b <- load_block head ;;
    modify (set_free_list size_class (next_free b)) ;;;
    store_block head (mkBlock (size b) (Pool.size_class b) false nullptr (magic b)) ;;;
    ret head
  else
    take_from_larger size_class
      (seqZ (size_class + 1) (NUM_SIZE_CLASSES - (size_class + 1))).

Definition add_chunk (os : OS) (min_data_size : Z) : M unit :=
  let size_for_block_and_data := u64 (min_data_size + sizeof_Block) in
  default_chunk_size <- get default_chunk_size_ ;;
  let chunk_size_to_request := Z.max size_for_block_and_data default_chunk_size in
  let page_size_long :=
    if sysconf_page_size os <=? 0 then 4096 else sysconf_page_size os in
  let page_size := u64 page_size_long in
  let chunk_size_to_request := align_up chunk_size_to_request page_size in
  new_os_chunk <- new_Chunk os chunk_size_to_request false ;;
  if chunk_size_to_request <? sizeof_Block then
    throw (runtime_error
             "MemoryPool::add_chunk - Requested chunk size too small for Block metadata.")
  else
    let initial_block_header := memory new_os_chunk in
    let initial_block_data_size := u64 (chunk_size_to_request - sizeof_Block) in
    store_block initial_block_header
      (new_Block initial_block_data_size (get_size_class initial_block_data_size)) ;;;
    add_block_to_free_list initial_block_header ;;;
    modify (fun p => set_stats (total_allocated_ p)
                               (u64 (total_free_ p + initial_block_data_size))
                               (allocation_count_ p) p) ;;;
    modify (push_chunk (mkChunk (memory new_os_chunk) (chunk_size new_os_chunk)
                                chunk_size_to_request (is_arena_chunk new_os_chunk))).

(** [std::align(alignment, size, ptr, space)]: the aligned address, or
    [None] when it returns a null pointer. *)
Definition std_align (alignment sz ptr space : Z) : option Z :=
  if space <? sz then None
  else
    let aligned := Z.land (u64 (ptr - 1 + alignment)) (u64 (- alignment)) in
    let diff := u64 (aligned - ptr) in
    if u64 (space - sz) <? diff then None else Some aligned.

(** The alignment [allocate] works with: a request that is not a power of
    two falls back to [MIN_ALLOCATION_SIZE]. *)
Definition effective_alignment (alignment_bytes : Z) : Z :=
  if negb (is_power_of_two alignment_bytes) then
    if negb (is_power_of_two MIN_ALLOCATION_SIZE) then 64 else MIN_ALLOCATION_SIZE
  else alignment_bytes.

(** [effective_size_needed], with its overflow check. *)
Definition effective_size (size_bytes alignment_bytes : Z) : Z :=
  let effective_size_needed := u64 (size_bytes + alignment_bytes - 1) in
  if effective_size_needed <? size_bytes then size_bytes else effective_size_needed.

Definition allocate (os : OS) (size_bytes alignment_bytes : Z) : M Z :=
  if size_bytes =? 0 then ret nullptr else
  let alignment_bytes := effective_alignment alignment_bytes in
  let effective_size_needed := effective_size size_bytes alignment_bytes in
  let sc := get_size_class effective_size_needed in
  block_header <- allocate_from_size_class sc ;;
  block_header <-
    (if block_header =? nullptr then
       add_chunk os (u64 (sizeof_Block + effective_size_needed)) ;;;
       allocate_from_size_class sc
     else ret block_header) ;;
  if block_header =? nullptr then ret nullptr else
  b <- load_block block_header ;;
  assert_ (is_valid b && negb (is_free b)) ;;;
  assert_ ((effective_size_needed <=? size b) || (size_bytes <=? size b)) ;;;
  let data_start_ptr := data block_header in
  match std_align alignment_bytes size_bytes data_start_ptr (size b) with
  | None =>
      add_block_to_free_list block_header ;;;
      b1 <- load_block block_header ;;
      store_block block_header
        (mkBlock (size b1) (size_class b1) true (next_free b1) (magic b1)) ;;;
      ret nullptr
  | Some aligned_user_ptr =>
      modify (fun p =>
                set_stats (u64 (total_allocated_ p + size b))
                          (if size b <=? total_free_ p
                           then u64 (total_free_ p - size b) else 0)
                          (u64 (allocation_count_ p + 1)) p) ;;;
      ret aligned_user_ptr
  end.

(** [allocate_arena], the arena path, which catches the exception of the
    chunk constructor. *)
Definition allocate_arena (os : OS) (size_bytes : Z) : M Z :=
  if size_bytes =? 0 then ret nullptr else
  catch_bad_alloc
    (chunk <- new_Chunk os size_bytes true ;;
     let arena_memory := memory chunk in
     modify (fun p => set_stats (u64 (total_allocated_ p + size_bytes)) (total_free_ p)
                                (u64 (allocation_count_ p + 1)) p) ;;;
     modify (push_chunk (mkChunk (memory chunk) (chunk_size chunk) size_bytes
                                 (is_arena_chunk chunk))) ;;;
     ret arena_memory)
    (ret nullptr).

(** [MemoryPool(0)]: a pool that owns no chunk yet. *)
Definition empty_pool : MemoryPool :=
  mkPool [] (replicate (Z.to_nat NUM_SIZE_CLASSES) nullptr) (16 * 1024 * 1024)
         0 0 0 0 ∅.

(** An operating system that has no memory left to map. *)
Definition exhausted_os : OS := mkOS 4096 (fun _ => None).

(** The size class a request is served from. *)
Definition request_class (size_bytes alignment_bytes : Z) : Z :=
  get_size_class (effective_size size_bytes (effective_alignment alignment_bytes)).

(** No free list of class [sc] or above holds a block. *)
Definition no_suitable_block (sc : Z) (p : MemoryPool) : Prop :=
  forall k, sc <= k < NUM_SIZE_CLASSES -> free_list k p = nullptr.

(** *** Release and arenas *)

(** Pointer arithmetic below is exact: moving a pointer past the end of the
    address space is undefined in C++. *)

Definition set_release_stats (allocated free ndealloc : Z) (p : MemoryPool) : MemoryPool :=
  mkPool (chunks_ p) (free_lists_ p) (default_chunk_size_ p) allocated free
         (allocation_count_ p) ndealloc (blocks p).

Definition set_chunks (cs : list Chunk) (p : MemoryPool) : MemoryPool :=
  mkPool cs (free_lists_ p) (default_chunk_size_ p) (total_allocated_ p)
         (total_free_ p) (allocation_count_ p) (deallocation_count_ p) (blocks p).

(** [MemoryPool(initial_size_bytes)]. *)
Definition new_MemoryPool (os : OS) (initial_size_bytes : Z) : outcome unit * MemoryPool :=
  (if 0 <? initial_size_bytes then add_chunk os initial_size_bytes else ret tt) empty_pool.

(** [Chunk::contains(ptr)]. *)
Definition contains (c : Chunk) (ptr : Z) : bool :=
  (memory c <=? ptr) && (ptr <? memory c + chunk_size c).

(** [calculate_padding(ptr, alignment)]. *)
Definition calculate_padding (addr alignment : Z) : Z :=
  if negb (addr mod alignment =? 0) then u64 (alignment - addr mod alignment) else 0.

(** The [while] loop of [release] over the block headers of one chunk, with
    at most [fuel] iterations: the header whose data area holds [user_ptr],
    if the scan reaches one.  Running out of fuel is reported as
    [Undefined]. *)
Fixpoint scan_blocks (fuel : nat) (chunk_end current_scan_ptr user_ptr : Z) : M (option Z) :=
  match fuel with
  | O => fun p => (Undefined, p)
  | S fuel' =>
      if current_scan_ptr <? chunk_end then
        candidate_header <- load_block current_scan_ptr ;;
        if negb (is_valid candidate_header) then ret None
        else
          let data_start := data current_scan_ptr in
          let data_end := data_start + size candidate_header in
          if (data_start <=? user_ptr) && (user_ptr <? data_end)
          then ret (Some current_scan_ptr)
          else scan_blocks fuel' chunk_end
                 (current_scan_ptr + sizeof_Block + size candidate_header) user_ptr
      else ret None
  end.

(** Iterations that suffice for a chunk: every header moves the scan
    forward by at least [sizeof(Block)] bytes. *)
Definition scan_fuel (c : Chunk) : nat := Z.to_nat (used c / sizeof_Block + 2).

(** The [for] loop of [release] over the chunks. *)
Fixpoint find_block (chunks : list Chunk) (user_ptr : Z) : M (option Z) :=
  match chunks with
  | [] => ret None
  | chunk :: rest =>
      if contains chunk user_ptr then
        found <- scan_blocks (scan_fuel chunk) (memory chunk + used chunk)
                   (memory chunk) user_ptr ;;
        match found with
        | Some block => ret (Some block)
        | None => find_block rest user_ptr
        end
      else find_block rest user_ptr
  end.

Definition release (user_ptr : Z) : M unit :=
  if user_ptr =? nullptr then ret tt else
  chunks <- get chunks_ ;;
  found_block_header <- find_block chunks user_ptr ;;
  match found_block_header with
  | None => ret tt
  | Some block =>
      b <- load_block block ;;
      if is_valid b && negb (is_free b) then
        modify (fun p =>
                  set_release_stats
                    (if size b <=? total_allocated_ p
                     then u64 (total_allocated_ p - size b) else 0)
                    (u64 (total_free_ p + size b))
                    (u64 (deallocation_count_ p + 1)) p) ;;;
        store_block block (mkBlock (size b) (size_class b) true (next_free b) (magic b)) ;;;
        add_block_to_free_list block
      else ret tt
  end.

(** The predicate of the [std::find_if] in [release_arena]. *)
Definition is_arena_at (arena_ptr : Z) (c : Chunk) : bool :=
  is_arena_chunk c && (memory c =? arena_ptr).

Definition release_arena (arena_ptr : Z) : M unit :=
  if arena_ptr =? nullptr then ret tt else
  chunks <- get chunks_ ;;
  match list_find (fun c => is_arena_at arena_ptr c = true) chunks with
  | Some (it, chunk) =>
      modify (fun p =>
                set_release_stats
                  (if chunk_size chunk <=? total_allocated_ p
                   then u64 (total_allocated_ p - chunk_size chunk) else 0)
                  (total_free_ p)
                  (u64 (deallocation_count_ p + 1)) p) ;;;
      modify (set_chunks (delete it chunks))
  | None => ret tt
  end.

(** [MemoryPool::reset]: unmapping the chunks takes the block headers with
    them. *)
Definition reset : M unit :=
  modify (fun p => mkPool [] (replicate (length (free_lists_ p)) nullptr)
                          (default_chunk_size_ p) 0 0 0 0 ∅).

Definition pre_allocate (os : OS) (additional_bytes : Z) : M unit :=
  add_chunk os additional_bytes.

(** *** Statement vocabulary for release and arenas *)

(** Two heaps hold the same headers as far as the scan of [release] can
    tell: headers at the same addresses, with the same sizes and magic
    numbers. *)
Definition same_layout (h1 h2 : gmap Z Block) : Prop :=
  forall a, match h1 !! a, h2 !! a with
            | Some b1, Some b2 => size b1 = size b2 /\ magic b1 = magic b2
            | None, None => True
            | _, _ => False
            end.

(** Two address ranges [start, start + length) that share no byte. *)
Definition apart (r1 r2 : Z * Z) : Prop :=
  r1.1 + r1.2 <= r2.1 \/ r2.1 + r2.2 <= r1.1.

Definition extent (c : Chunk) : Z * Z := (memory c, chunk_size c).

(** The mappings of the pool are non-empty and pairwise apart, as mappings
    returned by [mmap] are. *)
Definition chunks_ok (p : MemoryPool) : Prop :=
  Forall (fun c => 0 < chunk_size c) (chunks_ p)
  /\ forall (i j : nat) c1 c2,
       chunks_ p !! i = Some c1 -> chunks_ p !! j = Some c2 -> i <> j ->
       apart (extent c1) (extent c2).

(** What [mmap] may answer while the pool is in state [p]: a mapping inside
    the address space and apart from the mappings the pool holds. *)
Definition os_ok (os : OS) (p : MemoryPool) : Prop :=
  forall n addr, mmap os n = Some addr ->
    0 < addr /\ addr + n <= 2 ^ 64
    /\ Forall (fun c => apart (addr, n) (extent c)) (chunks_ p).

(** An operating system that maps every request of up to 4 GiB at the
    address [addr] and refuses larger ones. *)
Definition mapping_at (addr : Z) : OS :=
  mkOS 4096 (fun n => if n <=? 2 ^ 32 then Some addr else None).

(** A pool created empty that has served one request of 200 bytes aligned
    to 128; the pointer it returned is [1048704]. *)
Definition one_allocation : MemoryPool :=
  (allocate (mapping_at 1048576) 200 128 empty_pool).2.

End Pool.

(** ** [class PerCycleAllocator], src/quantlib/core/memory_pool.h and memory_pool.cpp *)

Module PerCycle.

Import Pool.

(** Pointer arithmetic is exact: moving a pointer past the end of the
    address space is undefined in C++. *)

(** [class PerCycleAllocator]; the pool it refers to is passed along with
    it. *)
Record PerCycleAllocator := mkAllocator {
  current_arena_ : Z;
  arena_size_ : Z;
  arena_used_ : Z;
  allocated_arenas_ : list Z;
  default_arena_size_ : Z;
  allocations_this_cycle_ : Z;
  bytes_allocated_this_cycle_ : Z
}.

Definition new_PerCycleAllocator (default_arena_sz : Z) : PerCycleAllocator :=
  mkAllocator nullptr 0 0 [] (Z.max default_arena_sz 4096) 0 0.

(** [alignof(std::max_align_t)] on x86-64. *)
Definition alignof_max_align_t : Z := 16.

(** The result of a member function of the allocator: how the call ended,
    the allocator and the pool afterwards. *)
Definition cycle_result (A : Type) : Type := outcome A * PerCycleAllocator * MemoryPool.

Definition allocate_new_arena (os : OS) (min_size_needed : Z)
    (a : PerCycleAllocator) (p : MemoryPool) : cycle_result bool :=
  let size_to_request := Z.max min_size_needed (default_arena_size_ a) in
  match allocate_arena os size_to_request p with
  | (Returned new_arena_mem, p1) =>
      if new_arena_mem =? nullptr then (Returned false, a, p1)
      else
        (Returned true,
         mkAllocator new_arena_mem size_to_request 0
                     (allocated_arenas_ a ++ [new_arena_mem]) (default_arena_size_ a)
                     (allocations_this_cycle_ a) (bytes_allocated_this_cycle_ a),
         p1)
  | (Thrown e, p1) => (Thrown e, a, p1)
  | (Aborted, p1) => (Aborted, a, p1)
  | (Undefined, p1) => (Undefined, a, p1)
  end.

(** The end of [PerCycleAllocator::allocate]: the bump of [arena_used_]. *)
Definition bump (size_bytes current_free_ptr padding total_needed : Z)
    (a : PerCycleAllocator) (p : MemoryPool) : cycle_result Z :=
  (Returned (current_free_ptr + padding),
   mkAllocator (current_arena_ a) (arena_size_ a) (u64 (arena_used_ a + total_needed))
               (allocated_arenas_ a) (default_arena_size_ a)
               (u64 (allocations_this_cycle_ a + 1))
               (u64 (bytes_allocated_this_cycle_ a + size_bytes)),
   p).

Definition allocate (os : OS) (size_bytes alignment_bytes : Z)
    (a : PerCycleAllocator) (p : MemoryPool) : cycle_result Z :=
  if size_bytes =? 0 then (Returned nullptr, a, p) else
  let alignment_bytes :=
    if negb (is_power_of_two alignment_bytes) then alignof_max_align_t
    else alignment_bytes in
  let has_arena := negb (current_arena_ a =? nullptr) in
  let current_free_ptr :=
    if has_arena then current_arena_ a + arena_used_ a else nullptr in
  let padding :=
    if has_arena then calculate_padding current_free_ptr alignment_bytes else 0 in
  let padding :=
    if has_arena && (u64 (arena_used_ a + padding) <? arena_used_ a)
    then alignment_bytes else padding in
  let total_needed_in_current_arena := u64 (padding + size_bytes) in
  if negb has_arena
     || (u64 (arena_size_ a - arena_used_ a) <? total_needed_in_current_arena) then
    match allocate_new_arena os (u64 (size_bytes + alignment_bytes - 1)) a p with
    | (Returned false, a1, p1) => (Returned nullptr, a1, p1)
    | (Returned true, a1, p1) =>
        let current_free_ptr := current_arena_ a1 in
        let padding := calculate_padding current_free_ptr alignment_bytes in
        let total_needed_in_current_arena := u64 (padding + size_bytes) in
        if arena_size_ a1 <? total_needed_in_current_arena then (Returned nullptr, a1, p1)
        else bump size_bytes current_free_ptr padding total_needed_in_current_arena a1 p1
    | (Thrown e, a1, p1) => (Thrown e, a1, p1)
    | (Aborted, a1, p1) => (Aborted, a1, p1)
    | (Undefined, a1, p1) => (Undefined, a1, p1)
    end
  else bump size_bytes current_free_ptr padding total_needed_in_current_arena a p.

(** The [for] loop of [PerCycleAllocator::reset]. *)
Fixpoint release_arenas (arenas : list Z) : M unit :=
  match arenas with
  | [] => ret tt
  | arena_base_ptr :: rest => release_arena arena_base_ptr ;;; release_arenas rest
  end.

Definition reset (a : PerCycleAllocator) (p : MemoryPool) : cycle_result unit :=
  let '(o, p1) := release_arenas (allocated_arenas_ a) p in
  (o, mkAllocator nullptr 0 0 [] (default_arena_size_ a) 0 0, p1).

Definition has_space_for (size_bytes alignment_bytes : Z) (a : PerCycleAllocator) : bool :=
  if current_arena_ a =? nullptr then false
  else
    let current_free_ptr := current_arena_ a + arena_used_ a in
    let padding := calculate_padding current_free_ptr alignment_bytes in
    let total_needed := u64 (padding + size_bytes) in
    total_needed <=? u64 (arena_size_ a - arena_used_ a).

(** *** Statement vocabulary *)

(** The alignment [PerCycleAllocator::allocate] works with. *)
Definition cycle_alignment (alignment_bytes : Z) : Z :=
  if negb (is_power_of_two alignment_bytes) then alignof_max_align_t else alignment_bytes.

(** One call of [PerCycleAllocator::allocate]: the answers of the operating
    system during the call, the size and the alignment asked for. *)
Record request := mkRequest {
  req_os : OS;
  req_size : Z;
  req_alignment : Z
}.

Definition request_ok (r : request) : Prop :=
  0 < req_size r /\ 0 <= req_alignment r < 2 ^ 64
  /\ req_size r + cycle_alignment (req_alignment r) <= 2 ^ 64.

(** A memory range handed out: address, size and the alignment it was
    asked with. *)
Record grant := mkGrant {
  grant_ptr : Z;
  grant_size : Z;
  grant_alignment : Z
}.

(** The calls of one cycle, with the ranges handed out, oldest first. *)
Fixpoint cycle_run (reqs : list request) (a : PerCycleAllocator) (p : MemoryPool)
  : list grant * PerCycleAllocator * MemoryPool :=
  match reqs with
  | [] => ([], a, p)
  | r :: rest =>
      let '(o, a1, p1) := allocate (req_os r) (req_size r) (req_alignment r) a p in
      let '(gs, a2, p2) := cycle_run rest a1 p1 in
      (match o with
       | Returned ptr =>
           if ptr =? nullptr then gs
           else mkGrant ptr (req_size r) (req_alignment r) :: gs
       | _ => gs
       end, a2, p2)
  end.

(** Every answer of [mmap] during the run is a fresh mapping. *)
Fixpoint fresh_run (reqs : list request) (a : PerCycleAllocator) (p : MemoryPool) : Prop :=
  match reqs with
  | [] => True
  | r :: rest =>
      os_ok (req_os r) p /\
      let '(_, a1, p1) := allocate (req_os r) (req_size r) (req_alignment r) a p in
      fresh_run rest a1 p1
  end.

Definition grant_range (g : grant) : Z * Z := (grant_ptr g, grant_size g).

(** A range handed out lies in one mapping of the pool and, when that is
    the current arena, below the bump pointer. *)
Definition grant_ok (a : PerCycleAllocator) (p : MemoryPool) (g : grant) : Prop :=
  0 < grant_ptr g /\ 0 < grant_size g /\ grant_ptr g + grant_size g <= 2 ^ 64
  /\ grant_ptr g mod cycle_alignment (grant_alignment g) = 0
  /\ exists c, c ∈ chunks_ p
       /\ memory c <= grant_ptr g
       /\ grant_ptr g + grant_size g <= memory c + chunk_size c
       /\ (memory c = current_arena_ a ->
           grant_ptr g + grant_size g <= current_arena_ a + arena_used_ a).

(** The current arena, when there is one, is a mapping of the pool and the
    bump pointer is inside it. *)
Definition arena_ok (a : PerCycleAllocator) (p : MemoryPool) : Prop :=
  current_arena_ a = nullptr
  \/ (0 < current_arena_ a /\ 0 <= arena_used_ a <= arena_size_ a
      /\ current_arena_ a + arena_size_ a <= 2 ^ 64
      /\ mkChunk (current_arena_ a) (arena_size_ a) (arena_size_ a) true ∈ chunks_ p).

(** The state of a cycle that started on a pool holding [chunks0], after
    the ranges [gs] were handed out. *)
Record cycle_inv (chunks0 : list Chunk) (gs : list grant)
    (a : PerCycleAllocator) (p : MemoryPool) : Prop := mkCycleInv {
  ci_default : 0 <= default_arena_size_ a < 2 ^ 64;
  ci_chunks : chunks_ok p;
  ci_arenas : exists cs, chunks_ p = chunks0 ++ cs
                /\ memory <$> cs = allocated_arenas_ a
                /\ Forall (fun c => is_arena_chunk c = true /\ 0 < memory c) cs;
  ci_current : arena_ok a p;
  ci_grants : Forall (grant_ok a p) gs;
  ci_apart : ForallOrdPairs (fun g1 g2 => apart (grant_range g1) (grant_range g2)) gs
}.

(** Three requests of one cycle: the first opens an arena, the second fits
    in it, the third needs a larger arena of its own. *)
Definition three_requests : list request :=
  [mkRequest (mapping_at 1048576) 100 64;
   mkRequest (mapping_at 16777216) 30 32;
   mkRequest (mapping_at 16777216) 5000 32].

End PerCycle.
(** ** src/quantlib/core/memory_pool.cpp: runs of [allocate] and [release] *)

Module PoolHeap.

Import Pool.

(** *** Statement vocabulary *)

(** A call on the pool.  [allocate] and [pre_allocate] come with what the
    operating system answers during the call. *)
Inductive heap_call :=
| Allocate (os : OS) (size_bytes alignment_bytes : Z)
| Release (user_ptr : Z)
| PreAllocate (os : OS) (additional_bytes : Z).

(** A memory range handed out by [allocate]: the pointer returned, and the
    size and the alignment asked for. *)
Record allocation := mkAllocation {
  alloc_ptr : Z;
  alloc_size : Z;
  alloc_alignment : Z
}.

Definition alloc_range (a : allocation) : Z * Z := (alloc_ptr a, alloc_size a).

(** One call, with the ranges handed out and not released so far.  A
    non-null result of [allocate] adds a range; [release] drops the range
    that starts at its argument.  An exception leaves the call and the
    program goes on; [None] when a failed [assert] or a read of a header
    that was never written stops it. *)
Definition heap_step (c : heap_call) (live : list allocation) (p : MemoryPool)
  : option (list allocation * MemoryPool) :=
  match c with
  | Allocate os size_bytes alignment_bytes =>
      match allocate os size_bytes alignment_bytes p with
      | (Returned ptr, p1) =>
          Some (if ptr =? nullptr then live
                else mkAllocation ptr size_bytes alignment_bytes :: live, p1)
      | (Thrown _, p1) => Some (live, p1)
      | (_, _) => None
      end
  | Release user_ptr =>
      match release user_ptr p with
      | (Returned _, p1) => Some (filter (fun a => alloc_ptr a <> user_ptr) live, p1)
      | (Thrown _, p1) => Some (live, p1)
      | (_, _) => None
      end
  | PreAllocate os additional_bytes =>
      match pre_allocate os additional_bytes p with
      | (Returned _, p1) => Some (live, p1)
      | (Thrown _, p1) => Some (live, p1)
      | (_, _) => None
      end
  end.

(** A sequence of calls, as far as the program gets. *)
Fixpoint heap_run (calls : list heap_call) (live : list allocation) (p : MemoryPool)
  : option (list allocation * MemoryPool) :=
  match calls with
  | [] => Some (live, p)
  | c :: rest =>
      match heap_step c live p with
      | Some (live1, p1) => heap_run rest live1 p1
      | None => None
      end
  end.

(** What is asked of a call: the arguments are [size_t] values, [mmap]
    answers with fresh mappings, and [release] is given a pointer that
    [allocate] returned and that was not released since, or a null
    pointer. *)
Definition call_ok (c : heap_call) (live : list allocation) (p : MemoryPool) : Prop :=
  match c with
  | Allocate os size_bytes alignment_bytes =>
      os_ok os p /\ 0 <= size_bytes < 2 ^ 64 /\ 0 <= alignment_bytes < 2 ^ 64
  | Release user_ptr => user_ptr = nullptr \/ user_ptr ∈ alloc_ptr <$> live
  | PreAllocate os additional_bytes => os_ok os p /\ 0 <= additional_bytes < 2 ^ 64
  end.

Fixpoint run_ok (calls : list heap_call) (live : list allocation) (p : MemoryPool) : Prop :=
  match calls with
  | [] => True
  | c :: rest =>
      call_ok c live p /\
      match heap_step c live p with
      | Some (live1, p1) => run_ok rest live1 p1
      | None => True
      end
  end.

(** *** The shape of the heap *)

(** The block headers at the addresses [l] tile the bytes from [a] to [e]:
    each header is followed by its data area and then by the next
    header. *)
Fixpoint tiled (h : gmap Z Block) (a e : Z) (l : list Z) : Prop :=
  match l with
  | [] => a = e
  | x :: l' =>
      x = a /\ exists b, h !! a = Some b /\ is_valid b = true /\ 0 <= size b
                         /\ tiled h (a + sizeof_Block + size b) e l'
  end.

(** The free list that starts at [a] links the blocks [l] and ends in a
    null pointer. *)
Fixpoint chain (h : gmap Z Block) (a : Z) (l : list Z) : Prop :=
  match l with
  | [] => a = nullptr
  | x :: l' =>
      x = a /\ a <> nullptr /\ exists b, h !! a = Some b /\ chain h (next_free b) l'
  end.

(** A range handed out lies in the data area of the block at [block],
    which is marked as not free, and is aligned as asked. *)
Definition owns (h : gmap Z Block) (al : allocation) (block : Z) : Prop :=
  exists b, h !! block = Some b /\ is_free b = false
            /\ 0 < alloc_size al
            /\ block + sizeof_Block <= alloc_ptr al
            /\ alloc_ptr al + alloc_size al <= block + sizeof_Block + size b
            /\ alloc_ptr al mod effective_alignment (alloc_alignment al) = 0.

(** The state of a pool that serves [allocate] and [release]: [tiles] lists
    the header addresses chunk by chunk, [owned] the ranges handed out with
    their blocks. *)
Record heap_inv (tiles : list (list Z)) (owned : list (allocation * Z)) (p : MemoryPool)
  : Prop := mkHeapInv {
  hi_chunks : chunks_ok p;
  hi_space : Forall (fun c => 0 < memory c /\ memory c + chunk_size c <= 2 ^ 64
                              /\ used c = chunk_size c) (chunks_ p);
  hi_tiles : Forall2 (fun c l => tiled (blocks p) (memory c) (memory c + chunk_size c) l)
                     (chunks_ p) tiles;
  hi_dom : forall a, is_Some (blocks p !! a) -> a ∈ concat tiles;
  hi_class : forall a b, blocks p !! a = Some b -> size_class b = get_size_class (size b);
  hi_length : length (free_lists_ p) = Z.to_nat NUM_SIZE_CLASSES;
  hi_lists : forall sc, 0 <= sc < NUM_SIZE_CLASSES ->
               exists l, chain (blocks p) (free_list sc p) l /\ NoDup l
                         /\ forall a, a ∈ l ->
                              exists b, blocks p !! a = Some b /\ is_free b = true
                                        /\ size_class b = sc;
  hi_owned : Forall (fun o => owns (blocks p) o.1 o.2) owned;
  hi_distinct : NoDup (snd <$> owned)
}.

(** The block at [a] is in no free list. *)
Definition unlisted (p : MemoryPool) (a : Z) : Prop :=
  forall sc l, 0 <= sc < NUM_SIZE_CLASSES -> chain (blocks p) (free_list sc p) l -> a ∉ l.

(** The result of a search in the free lists: no block, or a block that
    is marked as not free and backs no range handed out. *)
Definition taken (owned : list (allocation * Z)) (p : MemoryPool) (a : Z) : Prop :=
  a = nullptr \/ (a ∉ snd <$> owned) /\ exists b, blocks p !! a = Some b /\ is_free b = false.

(** A run on a pool created with one chunk mapped at [1048576]: two
    allocations, the release of the first, a third allocation that is
    served from the block released, and a second chunk. *)
Definition sample_pool : MemoryPool := (new_MemoryPool (mapping_at 1048576) 4096).2.

Definition sample_calls : list heap_call :=
  [Allocate exhausted_os 200 128;
   Allocate exhausted_os 1000 8;
   Release 1048704;
   Allocate exhausted_os 300 64;
   PreAllocate (mapping_at 4294967296) 4096;
   Release nullptr].

Definition sample_live : list allocation :=
  [mkAllocation 1048640 300 64; mkAllocation 1049168 1000 8].

Definition sample_final : MemoryPool :=
  match heap_run sample_calls [] sample_pool with
  | Some (_, p) => p
  | None => sample_pool
  end.

End PoolHeap.

(** ** src/quantlib/core/task_scheduler.h, src/quantlib/core/task_scheduler.cpp *)

Module Sched.

(** [Duration = std::chrono::nanoseconds]: a count of nanoseconds in an
    [int64_t]. *)
Definition Duration : Type := Z.

(** *** IEEE 754 binary64 arithmetic, as [double] computes it *)

Definition double : Type := spec_float.

(** [static_cast<double>(n)] for a 64-bit integer: round to nearest, ties
    to even. *)
Definition double_of_Z (n : Z) : double := binary_normalize 53 1024 n 0 false.

Definition fadd : double -> double -> double := SFadd 53 1024.

Definition fdiv : double -> double -> double := SFdiv 53 1024.

Definition fmul : double -> double -> double := SFmul 53 1024.

(** [a > b] on doubles; false when either is a NaN. *)
Definition fgt (a b : double) : bool := SFltb b a.

Definition double_zero : double := S754_zero false.

Definition double_one : double := double_of_Z 1.

(** *** Data *)

(** [struct TaskDefinition]; the task function itself is not represented,
    it is only called once the schedule runs. *)
Record TaskDefinition := mkTask {
  name : string;
  period : Duration;
  worst_case_execution_time : Duration;
  deadline : Duration;
  priority : Z;
  is_critical : bool
}.

(** The constructor of [TaskDefinition]: a zero deadline means "the
    period". *)
Definition new_TaskDefinition (task_name : string) (per wcet dead : Duration)
    (prio : Z) (critical : bool) : TaskDefinition :=
  mkTask task_name per wcet (if dead =? 0 then per else dead) prio critical.

Record ScheduledExecution := mkExec {
  task_id : nat;
  start_time : Duration;
  end_time : Duration;
  instance_number : Z
}.

Inductive warning :=
| HighCpuUtilization (percent : double)
| LongHyperperiod (milliseconds : Z).

(** [struct SchedulabilityReport].  The numeric members have no
    initialiser: they are [None] until [finalize_schedule] assigns them. *)
Record SchedulabilityReport := mkReport {
  is_schedulable : bool;
  hyperperiod : option Duration;
  basic_time_unit : option Duration;
  cpu_utilization : option double;
  total_executions_per_hyperperiod : option Z;
  conflicts : list string;
  warnings : list warning
}.

Record TaskMetrics := mkMetrics {
  executions_completed : Z;
  deadline_misses : Z;
  total_execution_time : Duration;
  max_execution_time : Duration;
  last_execution_time : Duration
}.

Record TaskScheduler := mkScheduler {
  basic_time_unit_ : Duration;
  hyperperiod_ : Duration;
  task_definitions_ : list TaskDefinition;
  schedule_table_ : list ScheduledExecution;
  task_name_to_id_ : gmap string nat;
  is_running_ : bool;
  task_metrics_ : list TaskMetrics
}.

(** [TaskScheduler(basic_time_unit)]. *)
Definition new_TaskScheduler (basic_time_unit : Duration) : TaskScheduler :=
  mkScheduler (if basic_time_unit <=? 0 then 100000 else basic_time_unit)
              0 [] [] ∅ false [].

(** [task_definitions_[id]]. *)
Definition task_at (tasks : list TaskDefinition) (id : nat) : TaskDefinition :=
  default (mkTask "" 0 0 0 0 false) (tasks !! id).

(** *** Helpers of the schedule computation *)

(** [compute_lcm], that is [std::lcm] on the two [int64_t] counts.  The
    library computes [|a| / gcd(a, b) * |b|] and keeps the low 64 bits of
    the product; the result is the least common multiple when that fits
    the type, and zero when an argument is zero. *)
Definition compute_lcm (a b : Duration) : Duration :=
  if (a =? 0) || (b =? 0) then 0
  else i64 (Z.abs a / Z.gcd a b * Z.abs b).

(** [compute_hyperperiod]; the warning it may print is not represented. *)
Definition compute_hyperperiod (s : TaskScheduler) : Duration :=
  match task_definitions_ s with
  | [] => basic_time_unit_ s
  | t0 :: rest => fold_left (fun hp t => compute_lcm hp (period t)) rest (period t0)
  end.

Definition validate_task_definition (s : TaskScheduler) (task : TaskDefinition) : bool :=
  if negb (Z.rem (period task) (basic_time_unit_ s) =? 0) then false
  else if period task <? worst_case_execution_time task then false
  else if period task <? deadline task then false
  else if period task <=? 0 then false
  else true.

(** The sum accumulated by the loop of [check_schedulability] and again by
    [finalize_schedule]. *)
Definition total_utilization (tasks : list TaskDefinition) : double :=
  fold_left
    (fun total task =>
       fadd total (fdiv (double_of_Z (worst_case_execution_time task))
                        (double_of_Z (period task))))
    tasks double_zero.

(** [check_schedulability].  The Liu and Layland bound only decides whether
    a warning is printed. *)
Definition check_schedulability (s : TaskScheduler) : bool :=
  if fgt (total_utilization (task_definitions_ s)) double_one then false else true.

Definition has_timing_conflict (exec1 exec2 : ScheduledExecution) : bool :=
  negb ((end_time exec1 <=? start_time exec2) || (end_time exec2 <=? start_time exec1)).

(** The instances of task [id] within a hyperperiod [hp].  The product
    [instance * period] is formed in [uint64_t] and stored in a
    [Duration]. *)
Definition task_instances (hp : Duration) (id : nat) (task : TaskDefinition)
  : list ScheduledExecution :=
  let executions_per_hyperperiod := u64 (Z.quot hp (period task)) in
  (fun instance =>
     let start := i64 (instance * period task) in
     mkExec id start (i64 (start + worst_case_execution_time task)) instance)
  <$> seqZ 0 executions_per_hyperperiod.

Definition all_instances (hp : Duration) (tasks : list TaskDefinition)
  : list ScheduledExecution :=
  concat (imap (task_instances hp) tasks).

(** The comparator of the first [std::sort]: by start time, then higher
    priority first. *)
Definition release_order (tasks : list TaskDefinition) (a b : ScheduledExecution) : bool :=
  if start_time a =? start_time b
  then priority (task_at tasks (task_id b)) <? priority (task_at tasks (task_id a))
  else start_time a <? start_time b.

(** The comparator of the final [std::sort]. *)
Definition start_order (a b : ScheduledExecution) : bool :=
  start_time a <? start_time b.

Definition conflicts_with (table : list ScheduledExecution) (e : ScheduledExecution) : bool :=
  existsb (has_timing_conflict e) table.

(** The [while (next_slot < hyperperiod_ && !found_slot)] loop between two
    passes: it goes on from [next_slot], or it is over, with the slot it
    found if any. *)
Inductive search :=
| Searching (next_slot : Duration)
| Over (found : option ScheduledExecution).

(** One pass: the test of the [while] and the loop body.  [btu] is
    [basic_time_unit_], [tasks] is [task_definitions_], [hp] is
    [hyperperiod_] and [e] is the instance to place. *)
Definition reschedule_pass (btu : Duration) (tasks : list TaskDefinition)
    (hp : Duration) (table : list ScheduledExecution) (e : ScheduledExecution)
    (next_slot : Duration) : search :=
  if next_slot <? hp then
    let next_slot := i64 (next_slot + btu) in
    let task := task_at tasks (task_id e) in
    let test_exec :=
      mkExec (task_id e) next_slot
             (i64 (next_slot + worst_case_execution_time task)) (instance_number e) in
    let release_time := i64 (instance_number e * period task) in
    if i64 (release_time + deadline task) <? end_time test_exec then Over None
    else if conflicts_with table test_exec then Searching next_slot
    else Over (Some test_exec)
  else Over None.

(** Up to [2 ^ k] passes: the loop is followed until it is over. *)
Fixpoint reschedule_passes (k : nat) (btu : Duration) (tasks : list TaskDefinition)
    (hp : Duration) (table : list ScheduledExecution) (e : ScheduledExecution)
    (st : search) : search :=
  match st with
  | Over _ => st
  | Searching next_slot =>
      match k with
      | O => reschedule_pass btu tasks hp table e next_slot
      | S k' =>
          reschedule_passes k' btu tasks hp table e
            (reschedule_passes k' btu tasks hp table e st)
      end
  end.

(** The loop, started at the release time of the instance: the slot found,
    if any.  [next_slot] moves by the same step in every pass, so after
    [2 ^ 64] passes it is back at the value it had; a loop that is not over
    by then never is, and the call does not return.  The model has [None]
    for that case as well. *)
Definition reschedule (btu : Duration) (tasks : list TaskDefinition) (hp : Duration)
    (table : list ScheduledExecution) (e : ScheduledExecution)
  : option ScheduledExecution :=
  match reschedule_passes 64 btu tasks hp table e (Searching (start_time e)) with
  | Over found => found
  | Searching _ => None
  end.

(** One iteration of the placement loop. *)
Definition place (btu : Duration) (tasks : list TaskDefinition) (hp : Duration)
    (table : list ScheduledExecution) (e : ScheduledExecution)
  : list ScheduledExecution :=
  if negb (conflicts_with table e) then table ++ [e]
  else
    match reschedule btu tasks hp table e with
    | Some test_exec => table ++ [test_exec]
    | None => table
    end.

Section WithSort.

(** [std::sort] on a vector of [ScheduledExecution] with a comparator: the
    standard fixes its result up to the order of equivalent elements. *)
Variable std_sort :
  (ScheduledExecution -> ScheduledExecution -> bool) ->
  list ScheduledExecution -> list ScheduledExecution.

(** [generate_schedule_table], reading [hyperperiod_] from [hp]; the result
    is the new [schedule_table_]. *)
Definition generate_schedule_table (s : TaskScheduler) (hp : Duration)
  : list ScheduledExecution :=
  match task_definitions_ s with
  | [] => []
  | _ =>
      let all_executions :=
        std_sort (release_order (task_definitions_ s))
                 (all_instances hp (task_definitions_ s)) in
      std_sort start_order
        (fold_left (place (basic_time_unit_ s) (task_definitions_ s) hp)
                   all_executions [])
  end.

Definition set_schedule (hp : Duration) (table : list ScheduledExecution)
    (s : TaskScheduler) : TaskScheduler :=
  mkScheduler (basic_time_unit_ s) hp (task_definitions_ s) table
              (task_name_to_id_ s) (is_running_ s) (task_metrics_ s).

Definition expected_executions (hp : Duration) (tasks : list TaskDefinition) : Z :=
  fold_left (fun acc task => u64 (acc + u64 (Z.quot hp (period task)))) tasks 0.

Definition finalize_schedule (s : TaskScheduler) : SchedulabilityReport * TaskScheduler :=
  match task_definitions_ s with
  | [] => (mkReport false None None None None ["No tasks defined"] [], s)
  | _ =>
      let hp := compute_hyperperiod s in
      let s1 := set_schedule hp (schedule_table_ s) s in
      if negb (check_schedulability s1) then
        (mkReport false (Some hp) (Some (basic_time_unit_ s)) None None
                  ["Failed Liu & Layland schedulability test"] [],
         s1)
      else
        let table := generate_schedule_table s1 hp in
        let s2 := set_schedule hp table s1 in
        let utilization := total_utilization (task_definitions_ s) in
        let total := Z.of_nat (length table) in
        if total <? expected_executions hp (task_definitions_ s) then
          (mkReport false (Some hp) (Some (basic_time_unit_ s)) (Some utilization)
                    (Some total) ["Some task instances could not be scheduled"] [],
           s2)
        else
          (mkReport true (Some hp) (Some (basic_time_unit_ s)) (Some utilization)
                    (Some total) []
                    ((if fgt utilization (fdiv (double_of_Z 8) (double_of_Z 10))
                      then [HighCpuUtilization (fmul utilization (double_of_Z 100))]
                      else [])
                     ++ (if 10 * 1000000000 <? hp
                         then [LongHyperperiod (Z.quot hp 1000000)] else [])),
           s2)
  end.

End WithSort.

Definition add_task (task : TaskDefinition) (s : TaskScheduler) : bool * TaskScheduler :=
  if is_running_ s then (false, s)
  else if bool_decide (is_Some (task_name_to_id_ s !! name task)) then (false, s)
  else if negb (validate_task_definition s task) then (false, s)
  else
    let task_id := length (task_definitions_ s) in
    (true,
     mkScheduler (basic_time_unit_ s) (hyperperiod_ s)
                 (task_definitions_ s ++ [task]) (schedule_table_ s)
                 (<[name task := task_id]> (task_name_to_id_ s))
                 (is_running_ s)
                 (task_metrics_ s ++ [mkMetrics 0 0 0 0 0])).

(** The simplified overload of [add_task]. *)
Definition add_task_simple (task_name : string) (per wcet : Duration) (prio : Z)
    (s : TaskScheduler) : bool * TaskScheduler :=
  add_task (new_TaskDefinition task_name per wcet 0 prio false) s.

(** Adding tasks one after the other, as [TaskSetBuilder::build_scheduler]
    does; [None] as soon as one is refused. *)
Fixpoint add_tasks (tasks : list TaskDefinition) (s : TaskScheduler) : option TaskScheduler :=
  match tasks with
  | [] => Some s
  | task :: rest =>
      let '(ok, s1) := add_task task s in
      if ok then add_tasks rest s1 else None
  end.

(** *** Statement vocabulary *)

(** What the standard requires of [std::sort]: the result is a
    rearrangement of the input, and no two neighbours are out of order
    when the comparator is asymmetric. *)
Record is_std_sort
    (sort : (ScheduledExecution -> ScheduledExecution -> bool) ->
            list ScheduledExecution -> list ScheduledExecution) : Prop := mkStdSort {
  sort_permutation : forall lt l, Permutation (sort lt l) l;
  sort_sorted : forall lt l,
    (forall a b, lt a b = true -> lt b a = false) ->
    Sorted (fun a b => lt b a = false) (sort lt l)
}.

(** Insertion sort, one function that meets the requirement. *)
Fixpoint insert_sorted (lt : ScheduledExecution -> ScheduledExecution -> bool)
    (x : ScheduledExecution) (l : list ScheduledExecution) : list ScheduledExecution :=
  match l with
  | [] => [x]
  | y :: l' => if lt x y then x :: y :: l' else y :: insert_sorted lt x l'
  end.

Definition insertion_sort (lt : ScheduledExecution -> ScheduledExecution -> bool)
    (l : list ScheduledExecution) : list ScheduledExecution :=
  fold_right (insert_sorted lt) [] l.

(** The total utilization as an exact rational number. *)
Definition exact_utilization (tasks : list TaskDefinition) : Q :=
  fold_right (fun task acc => Qplus (Qmake (worst_case_execution_time task)
                                           (Z.to_pos (period task))) acc)
             (0 # 1)%Q tasks.

(** The least common multiple of the periods, as an exact integer. *)
Definition periods_lcm (tasks : list TaskDefinition) : Z :=
  fold_right (fun task acc => Z.lcm (period task) acc) 1 tasks.

(** The durations of the tasks are values of [int64_t]. *)
Definition durations_typed (tasks : list TaskDefinition) : Prop :=
  Forall (fun task => - 2 ^ 63 <= period task < 2 ^ 63
                      /\ - 2 ^ 63 <= worst_case_execution_time task < 2 ^ 63
                      /\ - 2 ^ 63 <= deadline task < 2 ^ 63) tasks.

(** The times the schedule computation forms stay within [int64_t]: the
    latest is the end of an execution that starts at the hyperperiod. *)
Definition times_fit (tasks : list TaskDefinition) : Prop :=
  Forall (fun task => periods_lcm tasks + Z.max 0 (worst_case_execution_time task) < 2 ^ 63)
         tasks.

(** The number of instances in a hyperperiod [hp], as an exact sum. *)
Definition instance_count (hp : Duration) (tasks : list TaskDefinition) : Z :=
  fold_right (fun task acc => hp / period task + acc) 0 tasks.

(** Every task passed the validation of [add_task]. *)
Definition all_valid (s : TaskScheduler) : Prop :=
  Forall (fun task => validate_task_definition s task = true) (task_definitions_ s).

(** The pairs (task, instance) a complete table has: instance [0] to
    [hp / period - 1] of every task. *)
Definition expected_entries (hp : Duration) (tasks : list TaskDefinition) : list (nat * Z) :=
  concat (imap (fun id task => (fun k => (id, k)) <$> seqZ 0 (hp / period task)) tasks).

Definition entry_key (e : ScheduledExecution) : nat * Z := (task_id e, instance_number e).

(** The checks of [validate_task_definition] that do not involve the basic
    time unit. *)
Definition tasks_checked (tasks : list TaskDefinition) : Prop :=
  Forall (fun t => worst_case_execution_time t <= period t /\ deadline t <= period t
                   /\ 0 < period t) tasks.

(** [e] is instance [instance_number e] of task [task_id e], released at
    its nominal offset. *)
Definition is_instance (tasks : list TaskDefinition) (hp : Duration)
    (e : ScheduledExecution) : Prop :=
  exists task,
    tasks !! task_id e = Some task /\
    0 <= instance_number e < hp / period task /\
    start_time e = instance_number e * period task /\
    end_time e = start_time e + worst_case_execution_time task.

Definition wcet_of (tasks : list TaskDefinition) (e : ScheduledExecution) : Duration :=
  worst_case_execution_time (task_at tasks (task_id e)).

(** A table entry lasts the execution time of its task and, when that is
    positive, lies within the hyperperiod. *)
Definition entry_ok (tasks : list TaskDefinition) (hp : Duration)
    (e : ScheduledExecution) : Prop :=
  end_time e = start_time e + wcet_of tasks e /\
  (0 < wcet_of tasks e -> 0 <= start_time e /\ end_time e <= hp).

(** The entries of a table do not conflict with one another and are
    well placed. *)
Definition table_ok (tasks : list TaskDefinition) (hp : Duration)
    (table : list ScheduledExecution) : Prop :=
  ForallOrdPairs (fun a b => has_timing_conflict b a = false) table /\
  Forall (entry_ok tasks hp) table.

(** Scenario 1 of the specification, in milliseconds. *)
Definition scenario1_tasks : list TaskDefinition :=
  [new_TaskDefinition "A" 10 2 0 10 false;
   new_TaskDefinition "B" 20 3 0 5 false;
   new_TaskDefinition "C" 50 4 0 1 false].

(** Scenario 2 of the specification. *)
Definition scenario2_tasks : list TaskDefinition :=
  [new_TaskDefinition "A" 10 8 0 0 false;
   new_TaskDefinition "B" 10 5 0 0 false].

Definition scenario1_scheduler : TaskScheduler :=
  default (new_TaskScheduler 1) (add_tasks scenario1_tasks (new_TaskScheduler 1)).

Definition scenario2_scheduler : TaskScheduler :=
  default (new_TaskScheduler 1) (add_tasks scenario2_tasks (new_TaskScheduler 1)).

(** Two tasks with periods of [2^32] and [2^32 + 1] nanoseconds, about 4.3
    seconds each: the least common multiple of the periods is beyond
    [int64_t]. *)
Definition long_period_tasks : list TaskDefinition :=
  [new_TaskDefinition "A" (2 ^ 32) 1 0 0 false;
   new_TaskDefinition "B" (2 ^ 32 + 1) 1 0 0 false].

Definition long_period_scheduler : TaskScheduler :=
  default (new_TaskScheduler 1) (add_tasks long_period_tasks (new_TaskScheduler 1)).

(** A task that takes all of its period and a second task with a period of
    [2^54 + 1] nanoseconds: the utilization is above one by less than a
    [double] resolves, and the least common multiple of the periods is
    beyond [int64_t]. *)
Definition overloaded_tasks : list TaskDefinition :=
  [new_TaskDefinition "A" 1024 1024 0 0 false;
   new_TaskDefinition "B" (2 ^ 54 + 1) 1 0 0 false].

Definition overloaded_scheduler : TaskScheduler :=
  default (new_TaskScheduler 1) (add_tasks overloaded_tasks (new_TaskScheduler 1)).

(** Two tasks with a period of [2^62] nanoseconds, one of which takes all
    of its period: the hyperperiod fits [int64_t], the end of an execution
    that starts at the hyperperiod does not. *)
Definition late_slot_tasks : list TaskDefinition :=
  [new_TaskDefinition "A" (2 ^ 62) (2 ^ 62) 0 0 false;
   new_TaskDefinition "B" (2 ^ 62) 1 0 1 false].

Definition late_slot_scheduler : TaskScheduler :=
  default (new_TaskScheduler (2 ^ 62))
          (add_tasks late_slot_tasks (new_TaskScheduler (2 ^ 62))).

(** *** Looking up the metrics *)

(** What an indexing into [task_metrics_] gives: the element, a failed
    [assert], or a read past the end of the vector. *)
Inductive metrics_lookup :=
| Metrics (m : TaskMetrics)
| AssertionFailed
| OutOfBounds.

(** [get_task_metrics(size_t task_id)]. *)
Definition get_task_metrics (s : TaskScheduler) (task_id : nat) : metrics_lookup :=
  match task_metrics_ s !! task_id with
  | Some m => Metrics m
  | None => AssertionFailed
  end.

(** [get_task_metrics(const std::string& task_name)]: only the name is
    asserted to be known, the index is used unchecked. *)
Definition get_task_metrics_by_name (s : TaskScheduler) (task_name : string)
  : metrics_lookup :=
  match task_name_to_id_ s !! task_name with
  | None => AssertionFailed
  | Some id =>
      match task_metrics_ s !! id with
      | Some m => Metrics m
      | None => OutOfBounds
      end
  end.

(** *** Starting, stopping and running the schedule *)

Definition set_running (running : bool) (s : TaskScheduler) : TaskScheduler :=
  mkScheduler (basic_time_unit_ s) (hyperperiod_ s) (task_definitions_ s)
              (schedule_table_ s) (task_name_to_id_ s) running (task_metrics_ s).

Definition set_metrics (metrics : list TaskMetrics) (s : TaskScheduler) : TaskScheduler :=
  mkScheduler (basic_time_unit_ s) (hyperperiod_ s) (task_definitions_ s)
              (schedule_table_ s) (task_name_to_id_ s) (is_running_ s) metrics.

(** [start_execution], without the thread it detaches. *)
Definition start_execution (s : TaskScheduler) : bool * TaskScheduler :=
  match schedule_table_ s with
  | [] => (false, s)
  | _ => if is_running_ s then (false, s) else (true, set_running true s)
  end.

Definition stop_execution (s : TaskScheduler) : TaskScheduler := set_running false s.

(** How a call of a task function ends: it returns, it throws an exception
    derived from [std::exception], or it throws something else. *)
Inductive task_exit := Returns | ThrowsStdException | ThrowsOther.

(** What one iteration of the loop of [execute_one_hyperperiod] reads from
    its environment: the flag [is_running_], which another thread may
    clear, the clock before and after the call, and how the call ends. *)
Record observation := mkObservation {
  running : bool;
  actual_start : Z;
  actual_end : Z;
  exit : task_exit
}.

Definition actual_execution_time (o : observation) : Duration :=
  i64 (actual_end o - actual_start o).

(** [elapsed_since_release] of the loop body. *)
Definition elapsed_since_release (hyperperiod_start : Z) (task : TaskDefinition)
    (execution : ScheduledExecution) (o : observation) : Duration :=
  i64 (actual_end o
       - i64 (hyperperiod_start + i64 (instance_number execution * period task))).

(** The metric updates of one iteration. *)
Definition update_metrics (hyperperiod_start : Z) (task : TaskDefinition)
    (execution : ScheduledExecution) (o : observation) (m : TaskMetrics) : TaskMetrics :=
  mkMetrics (u64 (executions_completed m + 1))
            (if deadline task <? elapsed_since_release hyperperiod_start task execution o
             then u64 (deadline_misses m + 1) else deadline_misses m)
            (i64 (total_execution_time m + actual_execution_time o))
            (Z.max (max_execution_time m) (actual_execution_time o))
            (actual_execution_time o).

(** How [execute_one_hyperperiod] ends. *)
Inductive run_exit :=
| Completed            (* the loop ran to the end of the table or saw the flag cleared *)
| Propagated           (* an exception of a task function left the function *)
| BadIndex.            (* [task_id] is not an index of both vectors *)

(** The loop of [execute_one_hyperperiod] over the entries of the table,
    one observation per iteration that starts; the loop is followed for as
    many iterations as there are observations. *)
Fixpoint execute_entries (tasks : list TaskDefinition) (hyperperiod_start : Z)
    (table : list ScheduledExecution) (obs : list observation)
    (metrics : list TaskMetrics) : run_exit * list TaskMetrics :=
  match table, obs with
  | [], _ => (Completed, metrics)
  | _ :: _, [] => (Completed, metrics)
  | execution :: table', o :: obs' =>
      if negb (running o) then (Completed, metrics)
      else
        match tasks !! task_id execution, metrics !! task_id execution with
        | Some task, Some m =>
            match exit o with
            | ThrowsOther => (Propagated, metrics)
            | _ =>
                execute_entries tasks hyperperiod_start table' obs'
                  (<[task_id execution :=
                       update_metrics hyperperiod_start task execution o m]> metrics)
            end
        | _, _ => (BadIndex, metrics)
        end
  end.

(** [execute_one_hyperperiod]. *)
Definition execute_one_hyperperiod (hyperperiod_start : Z) (obs : list observation)
    (s : TaskScheduler) : run_exit * TaskScheduler :=
  let '(e, metrics) :=
    execute_entries (task_definitions_ s) hyperperiod_start (schedule_table_ s) obs
                    (task_metrics_ s) in
  (e, set_metrics metrics s).

(** *** [validate_task_set] and [TaskSetBuilder] *)

Definition invalid_task_report (task : TaskDefinition) : SchedulabilityReport :=
  mkReport false None None None None ["Invalid task: " +:+ name task] [].

Record TaskSetBuilder := mkBuilder {
  tasks_ : list TaskDefinition;
  builder_basic_time_unit_ : Duration
}.

Definition new_TaskSetBuilder (basic_time_unit : Duration) : TaskSetBuilder :=
  mkBuilder [] basic_time_unit.

Definition add_periodic_task (task_name : string) (per wcet : Duration) (prio : Z)
    (b : TaskSetBuilder) : TaskSetBuilder :=
  mkBuilder (tasks_ b ++ [new_TaskDefinition task_name per wcet 0 prio false])
            (builder_basic_time_unit_ b).

Definition add_critical_task (task_name : string) (per wcet : Duration) (prio : Z)
    (b : TaskSetBuilder) : TaskSetBuilder :=
  mkBuilder (tasks_ b ++ [new_TaskDefinition task_name per wcet 0 prio true])
            (builder_basic_time_unit_ b).

Section WithSortMore.

Variable std_sort :
  (ScheduledExecution -> ScheduledExecution -> bool) ->
  list ScheduledExecution -> list ScheduledExecution.

(** The loop of [validate_task_set] on its temporary scheduler. *)
Fixpoint validate_tasks (tasks : list TaskDefinition) (temp_scheduler : TaskScheduler)
  : SchedulabilityReport :=
  match tasks with
  | [] => (finalize_schedule std_sort temp_scheduler).1
  | task :: rest =>
      let '(ok, temp_scheduler) := add_task task temp_scheduler in
      if ok then validate_tasks rest temp_scheduler else invalid_task_report task
  end.

Definition validate_task_set (tasks : list TaskDefinition) (basic_time_unit : Duration)
  : SchedulabilityReport :=
  validate_tasks tasks (new_TaskScheduler basic_time_unit).

(** [TaskSetBuilder::validate]. *)
Definition validate (b : TaskSetBuilder) : SchedulabilityReport :=
  validate_task_set (tasks_ b) (builder_basic_time_unit_ b).

(** The loop of [TaskSetBuilder::build_scheduler] followed by its call of
    [finalize_schedule]. *)
Fixpoint build_tasks (tasks : list TaskDefinition) (scheduler : TaskScheduler)
  : bool * TaskScheduler :=
  match tasks with
  | [] =>
      let '(report, scheduler) := finalize_schedule std_sort scheduler in
      (is_schedulable report, scheduler)
  | task :: rest =>
      let '(ok, scheduler) := add_task task scheduler in
      if ok then build_tasks rest scheduler else (false, scheduler)
  end.

Definition build_scheduler (b : TaskSetBuilder) (scheduler : TaskScheduler)
  : bool * TaskScheduler :=
  build_tasks (tasks_ b) scheduler.

End WithSortMore.

(** *** Statement vocabulary for the registry, the timeline and the metrics *)

(** Calling [add_task] for each task of a list, whatever it answers. *)
Definition add_each (tasks : list TaskDefinition) (s : TaskScheduler) : TaskScheduler :=
  fold_left (fun s task => (add_task task s).2) tasks s.

(** The first task of [tasks] that repeats a name seen before it or fails
    the checks of [validate_task_definition], with its position. *)
Fixpoint first_refused (s : TaskScheduler) (seen : list string) (position : nat)
    (tasks : list TaskDefinition) : option (nat * TaskDefinition) :=
  match tasks with
  | [] => None
  | task :: rest =>
      if bool_decide (name task ∈ seen) || negb (validate_task_definition s task)
      then Some (position, task)
      else first_refused s (name task :: seen) (S position) rest
  end.

(** The entry is instance [instance_number e] of its task, starts at the
    release time of that instance or a whole number of basic time units
    later, runs for the execution time of the task and ends within the
    period of the instance. *)
Definition in_window (btu : Duration) (tasks : list TaskDefinition) (hp : Duration)
    (e : ScheduledExecution) : Prop :=
  exists task,
    tasks !! task_id e = Some task /\
    0 <= instance_number e < hp / period task /\
    instance_number e * period task <= start_time e /\
    (btu | start_time e - instance_number e * period task) /\
    end_time e = start_time e + worst_case_execution_time task /\
    end_time e <= instance_number e * period task + period task.

(** The observations of the iterations that ran task [id], in order. *)
Definition runs_of (id : nat) (table : list ScheduledExecution) (obs : list observation)
  : list (ScheduledExecution * observation) :=
  filter (fun eo => task_id eo.1 = id) (zip table obs).

(** A run ended later than the deadline of its task after its release. *)
Definition late (hyperperiod_start : Z) (task : TaskDefinition)
    (eo : ScheduledExecution * observation) : bool :=
  deadline task <? elapsed_since_release hyperperiod_start task eo.1 eo.2.

(** The name map lists exactly the tasks of [task_definitions_] under their
    indices, and every task has its metrics. *)
Record registry_ok (s : TaskScheduler) : Prop := mkRegistryOk {
  reg_names : forall n id, task_name_to_id_ s !! n = Some id
                      <-> exists t, task_definitions_ s !! id = Some t /\ name t = n;
  reg_metrics : length (task_metrics_ s) = length (task_definitions_ s)
}.


(** The metrics of a task after the runs [runs] of it. *)
Definition after_runs (hyperperiod_start : Z) (task : TaskDefinition)
    (runs : list (ScheduledExecution * observation)) (m : TaskMetrics) : TaskMetrics :=
  fold_left (fun m eo => update_metrics hyperperiod_start task eo.1 eo.2 m) runs m.

End Sched.

(** ** src/quantlib/core/event_log.h, src/quantlib/core/event_log.cpp *)

Module EventLog.

Inductive EventType :=
| UNKNOWN
| MARKET_DATA_UPDATE
| TRADING_SIGNAL_GENERATED
| CONTROL_MESSAGE_RECEIVED
| STRATEGY_PARAMETER_CHANGE
| VOLATILITY_MODEL_UPDATE
| PRICING_ENGINE_REQUEST
| PRICING_ENGINE_RESULT
| ORDER_EVENT_FROM_EXCHANGE
| SYSTEM_STATUS_CHANGE
| PERFORMANCE_METRIC_LOG
| ERROR_LOG
| WARNING_LOG
| INFO_LOG
| DEBUG_LOG
| CUSTOM_STRATEGY_EVENT.

(** [static_cast<uint32_t>(type)]. *)
Definition EventType_value (t : EventType) : Z :=
  match t with
  | UNKNOWN => 0
  | MARKET_DATA_UPDATE => 1
  | TRADING_SIGNAL_GENERATED => 2
  | CONTROL_MESSAGE_RECEIVED => 3
  | STRATEGY_PARAMETER_CHANGE => 4
  | VOLATILITY_MODEL_UPDATE => 5
  | PRICING_ENGINE_REQUEST => 6
  | PRICING_ENGINE_RESULT => 7
  | ORDER_EVENT_FROM_EXCHANGE => 8
  | SYSTEM_STATUS_CHANGE => 9
  | PERFORMANCE_METRIC_LOG => 10
  | ERROR_LOG => 11
  | WARNING_LOG => 12
  | INFO_LOG => 13
  | DEBUG_LOG => 14
  | CUSTOM_STRATEGY_EVENT => 100
  end.

Record EventHeader := mkEventHeader {
  timestamp_ns : Z;
  sequence_number : Z;
  event_type : EventType;
  data_size_bytes : Z;
  data_checksum : Z
}.

(** [sizeof(EventHeader)]: 28 bytes of members, aligned to eight. *)
Definition sizeof_EventHeader : Z := 32.

(** The eight shift-and-xor rounds applied for each byte. *)
Fixpoint crc_rounds (j : nat) (crc : Z) : Z :=
  match j with
  | O => crc
  | S j' =>
      crc_rounds j'
        (if Z.land crc 1 =? 0 then Z.shiftr crc 1
         else Z.lxor (Z.shiftr crc 1) 0xEDB88320)
  end.

Definition internal_calculate_checksum_eventlog (data : list Z) (initial_crc : Z) : Z :=
  Z.lxor (fold_left (fun crc b => crc_rounds 8 (Z.lxor crc b)) data initial_crc)
         0xFFFFFFFF.

Definition calculate_data_checksum (data : list Z) : Z :=
  internal_calculate_checksum_eventlog data 0xFFFFFFFF.

(** What reaches the file, one item per [write] or [<<] of the logger. *)
Inductive file_item :=
| Prefix (text : string)
| BinaryFrame (h : EventHeader) (payload : list Z)
| TextLine (h : EventHeader) (line : string).

(** The [std::ofstream]: whether a file is open, whether no error bit is
    set, and what has been written to the current file through it. *)
Record ofstream := mkStream {
  is_open : bool;
  good : bool;
  output : list file_item
}.

Record EventLogger := mkLogger {
  log_file_stream_ : ofstream;
  current_sequence_number_ : Z;
  log_filename_ : string;
  use_binary_format_ : bool;
  total_events_logged_count_ : Z;
  total_bytes_written_count_ : Z
}.

Definition binary_header_magic : string := "ALARISLOG_V1B".

Definition newline : string := String (Ascii.ascii_of_nat 10) EmptyString.

Definition double_quote : string := String (Ascii.ascii_of_nat 34) EmptyString.

Definition text_header : string :=
  "# Alaris Event Log V1.0 (Text Format)" +:+ newline +:+
  "# Timestamp(ns),Sequence,EventType,DataSize,Checksum,Payload(Hex)" +:+ newline.

Definition strlen (s : string) : Z := Z.of_nat (String.length s).

(** Writing through the stream: nothing happens unless it is open and in a
    good state; the write itself succeeds when [disk_ok], and sets an error
    bit otherwise. *)
Definition stream_write (disk_ok : bool) (item : file_item) (f : ofstream) : ofstream :=
  if is_open f && good f then
    if disk_ok then mkStream true true (output f ++ [item])
    else mkStream true false (output f)
  else f.

(** [open(filename, out | app)] on a closed stream, then the prefix when the
    file is empty ([tellp() == 0]). *)
Definition stream_open (open_ok : bool) : ofstream :=
  if open_ok then mkStream true true [] else mkStream false false [].

Definition write_file_prefix (binary : bool) (file_empty disk_ok : bool) (f : ofstream)
  : ofstream :=
  if file_empty then
    stream_write disk_ok (Prefix (if binary then binary_header_magic else text_header)) f
  else f.

(** [EventLogger(filename, binary_mode)]; [None] when the constructor
    throws because the file cannot be opened. *)
Definition new_EventLogger (filename : string) (binary_mode : bool)
    (open_ok file_empty disk_ok : bool) : option EventLogger :=
  let f := stream_open open_ok in
  if negb (is_open f) then None
  else
    let f1 := write_file_prefix binary_mode file_empty disk_ok f in
    let bytes :=
      if file_empty
      then strlen (if binary_mode then binary_header_magic else text_header)
      else 0 in
    Some (mkLogger f1 0 filename binary_mode 0 (u64 bytes)).

Definition hex_digit (d : Z) : string :=
  String.substring (Z.to_nat d) 1 "0123456789abcdef".

(** [std::setw(2) << std::hex] of one byte. *)
Definition hex_byte (b : Z) : string := hex_digit (b / 16) +:+ hex_digit (b mod 16).

Definition string_of_bytes (data : list Z) : string :=
  fold_right (fun b s => String (Ascii.ascii_of_nat (Z.to_nat b)) s) EmptyString data.

Definition is_text_event (t : EventType) : bool :=
  match t with
  | SYSTEM_STATUS_CHANGE | ERROR_LOG | WARNING_LOG | INFO_LOG | DEBUG_LOG => true
  | _ => false
  end.

(** The line built in [oss] for the text format. *)
Definition render_text_line (h : EventHeader) (payload : list Z) : string :=
  pretty (timestamp_ns h) +:+ "," +:+
  pretty (sequence_number h) +:+ "," +:+
  pretty (EventType_value (event_type h)) +:+ "," +:+
  pretty (data_size_bytes h) +:+ "," +:+
  pretty (data_checksum h) +:+ "," +:+
  (if is_text_event (event_type h)
   then (if decide (payload = []) then ""
         else double_quote +:+ string_of_bytes payload +:+ double_quote)
   else fold_right (fun b s => hex_byte b +:+ s) "" payload) +:+
  newline.

(** What one call of [write_log_entry] did with the frame it built: it
    reached the stream, it was dropped with a message on [std::cerr] because
    the stream was closed or in an error state, or the write failed. *)
Inductive outcome :=
| Logged (h : EventHeader)
| Lost (h : EventHeader)
| WriteFailed (h : EventHeader).

Definition outcome_header (o : outcome) : EventHeader :=
  match o with
  | Logged h | Lost h | WriteFailed h => h
  end.

(** [write_log_entry(type, data_payload, payload_size)].  [data_payload] is
    [None] for a null pointer and otherwise holds the [payload_size] bytes
    pointed to; [now] is the clock reading. *)
Definition write_log_entry (now : Z) (disk_ok : bool) (type : EventType)
    (data_payload : option (list Z)) (payload_size : Z) (lg : EventLogger)
  : outcome * EventLogger :=
  let payload :=
    match data_payload with
    | Some bytes => if 0 <? payload_size then take (Z.to_nat payload_size) bytes else []
    | None => []
    end in
  let header :=
    mkEventHeader (u64 now) (current_sequence_number_ lg) type (u32 payload_size)
      (if (0 <? payload_size) && bool_decide (is_Some data_payload)
       then calculate_data_checksum payload else 0) in
  let seq' := u64 (current_sequence_number_ lg + 1) in
  let f := log_file_stream_ lg in
  if negb (is_open f) || negb (good f) then
    (Lost header,
     mkLogger f seq' (log_filename_ lg) (use_binary_format_ lg)
              (total_events_logged_count_ lg) (total_bytes_written_count_ lg))
  else
    let item :=
      if use_binary_format_ lg then BinaryFrame header payload
      else TextLine header (render_text_line header payload) in
    let bytes_written_this_event :=
      if use_binary_format_ lg then u64 (sizeof_EventHeader + payload_size)
      else strlen (render_text_line header payload) in
    (if disk_ok then Logged header else WriteFailed header,
     mkLogger (stream_write disk_ok item f) seq' (log_filename_ lg)
              (use_binary_format_ lg)
              (u64 (total_events_logged_count_ lg + 1))
              (u64 (total_bytes_written_count_ lg + bytes_written_this_event))).

(** [rotate_log_file(new_filename)]; the flag is [true] when it throws
    because the new file cannot be opened. *)
Definition rotate_log_file (new_filename : string) (open_ok file_empty disk_ok : bool)
    (lg : EventLogger) : bool * EventLogger :=
  let f := stream_open open_ok in
  let f1 := if is_open f
            then write_file_prefix (use_binary_format_ lg) file_empty disk_ok f
            else f in
  (negb (is_open f),
   mkLogger f1 (current_sequence_number_ lg) new_filename (use_binary_format_ lg)
            (total_events_logged_count_ lg) (total_bytes_written_count_ lg)).

Definition is_healthy (lg : EventLogger) : bool :=
  is_open (log_file_stream_ lg) && good (log_file_stream_ lg).

(** *** Statement vocabulary *)

(** The calls made on one logger, each with the answers of its
    environment. *)
Inductive call :=
| WriteLogEntry (now : Z) (disk_ok : bool) (type : EventType)
    (data_payload : option (list Z)) (payload_size : Z)
| RotateLogFile (new_filename : string) (open_ok file_empty disk_ok : bool).

(** Running the calls; the result lists the outcome of every
    [write_log_entry], in call order. *)
Fixpoint run (calls : list call) (lg : EventLogger) : list outcome * EventLogger :=
  match calls with
  | [] => ([], lg)
  | WriteLogEntry now disk_ok type data_payload payload_size :: rest =>
      let '(o, lg1) := write_log_entry now disk_ok type data_payload payload_size lg in
      let '(os, lg2) := run rest lg1 in
      (o :: os, lg2)
  | RotateLogFile new_filename open_ok file_empty disk_ok :: rest =>
      run rest (rotate_log_file new_filename open_ok file_empty disk_ok lg).2
  end.

Definition is_logged (o : outcome) : bool :=
  match o with
  | Logged _ => true
  | _ => false
  end.

(** The sequence numbers assigned, call after call. *)
Definition assigned (os : list outcome) : list Z :=
  (fun o => sequence_number (outcome_header o)) <$> os.

(** The sequence numbers of the frames that reached a file. *)
Definition logged (os : list outcome) : list Z :=
  assigned (filter (fun o => is_logged o = true) os).

(** A run in which the disk fails during the second entry, the third is
    dropped because the stream is in an error state, and logging resumes
    after a rotation. *)
Definition faulty_disk_calls : list call :=
  [WriteLogEntry 1000 true INFO_LOG (Some [104; 105]) 2;
   WriteLogEntry 2000 false MARKET_DATA_UPDATE (Some [1; 2; 3]) 3;
   WriteLogEntry 3000 true ERROR_LOG None 0;
   RotateLogFile "events.1.log" true true true;
   WriteLogEntry 4000 true DEBUG_LOG (Some [111; 107]) 2].

Definition faulty_disk_logger : EventLogger :=
  default (mkLogger (stream_open false) 0 "" true 0 0)
          (new_EventLogger "events.log" true true true true).

End EventLog.

(** ** src/quantlib/core/event_log.cpp: the bytes of the log file and
       [EventReplayEngine] *)

Module EventReplay.

Import EventLog.

(** *** Bytes *)

(** An [unsigned char]. *)
Definition is_byte (b : Z) : Prop := 0 <= b < 256.

(** The value of a sequence of bytes read as an unsigned integer, least
    significant byte first. *)
Fixpoint le_value (bytes : list Z) : Z :=
  match bytes with
  | [] => 0
  | b :: rest => b + 256 * le_value rest
  end.

(** The [n] bytes of an unsigned integer, least significant first. *)
Fixpoint le_bytes (n : nat) (z : Z) : list Z :=
  match n with
  | O => []
  | S n' => z mod 256 :: le_bytes n' (z / 256)
  end.

Definition string_bytes (s : string) : list Z :=
  (fun a => Z.of_nat (Ascii.nat_of_ascii a)) <$> String.list_ascii_of_string s.

(** The object representation of an [EventHeader], as [write] copies it to
    the file from [&header]: the members in declaration order, each least
    significant byte first, then the four bytes that pad the struct to
    [sizeof(EventHeader)]; nothing determines the values of these. *)
Definition header_bytes (h : EventHeader) (padding : list Z) : list Z :=
  le_bytes 8 (timestamp_ns h) ++ le_bytes 8 (sequence_number h) ++
  le_bytes 4 (EventType_value (event_type h)) ++ le_bytes 4 (data_size_bytes h) ++
  le_bytes 4 (data_checksum h) ++ padding.

(** The bytes a file holds after the items written to it. *)
Inductive file_image : list file_item -> list Z -> Prop :=
| image_nil : file_image [] []
| image_prefix text items bytes :
    file_image items bytes ->
    file_image (Prefix text :: items) (string_bytes text ++ bytes)
| image_frame h payload padding items bytes :
    length padding = 4%nat -> Forall is_byte padding ->
    file_image items bytes ->
    file_image (BinaryFrame h payload :: items) (header_bytes h padding ++ payload ++ bytes)
| image_line h line items bytes :
    file_image items bytes ->
    file_image (TextLine h line :: items) (string_bytes line ++ bytes).

(** *** The input stream *)

(** The [std::ifstream] of the replay engine: the bytes of the file, the
    read position, and the state bits that reading can set. *)
Record ifstream := mkInput {
  in_is_open : bool;
  content : list Z;
  position : nat;
  eofbit : bool;
  failbit : bool
}.

Definition in_good (f : ifstream) : bool := negb (eofbit f) && negb (failbit f).

(** [read(buffer, n)]: the bytes extracted, [gcount()] being their number.
    Reaching the end of the file before [n] bytes sets [eofbit] and
    [failbit]; a stream that is not good extracts nothing. *)
Definition stream_read (n : nat) (f : ifstream) : list Z * ifstream :=
  if in_good f then
    let available := drop (position f) (content f) in
    if (n <=? length available)%nat then
      (take n available,
       mkInput (in_is_open f) (content f) (position f + n) (eofbit f) (failbit f))
    else
      (available, mkInput (in_is_open f) (content f) (length (content f)) true true)
  else ([], mkInput (in_is_open f) (content f) (position f) (eofbit f) true).

(** [clear()] followed by [seekg(0, std::ios::beg)]. *)
Definition rewind (f : ifstream) : ifstream :=
  mkInput (in_is_open f) (content f) 0 false false.

(** The check of the 13 bytes of [binary_header_magic] made by the
    constructor and again by [start_replay]: a file that does not start
    with them is read from its first byte. *)
Definition skip_magic (f : ifstream) : ifstream :=
  let '(binary_header_check, f1) := stream_read 13 f in
  if failbit f1 || negb (length binary_header_check =? 13)%nat
     || negb (bool_decide (binary_header_check = string_bytes binary_header_magic))
  then rewind f1
  else f1.

(** *** Reading events *)

(** An [EventHeader] as read back from a file: [event_type] is kept as the
    stored number, which need not be the value of an enumerator. *)
Record StoredHeader := mkStored {
  stored_timestamp_ns : Z;
  stored_sequence_number : Z;
  stored_event_type : Z;
  stored_data_size_bytes : Z;
  stored_data_checksum : Z
}.

(** The header that [read] fills from [sizeof(EventHeader)] bytes. *)
Definition decode_header (bytes : list Z) : StoredHeader :=
  mkStored (le_value (take 8 bytes))
           (le_value (take 8 (drop 8 bytes)))
           (le_value (take 4 (drop 16 bytes)))
           (le_value (take 4 (drop 20 bytes)))
           (le_value (take 4 (drop 24 bytes))).

(** [validate_event_checksum]. *)
Definition validate_event_checksum (header : StoredHeader) (data_buffer : list Z) : bool :=
  if (stored_data_size_bytes header =? 0) && bool_decide (data_buffer = [])
  then stored_data_checksum header =? calculate_data_checksum []
  else if negb (stored_data_size_bytes header =? Z.of_nat (length data_buffer)) then false
  else stored_data_checksum header =? calculate_data_checksum data_buffer.

Definition MAX_EVENT_DATA_SIZE : Z := 16 * 1024 * 1024.

(** [read_next_event]: the header and the payload when it returns true.
    [alloc_ok] tells whether [resize] of the buffer succeeds.  A checksum
    that does not validate only prints a warning. *)
Definition read_next_event (alloc_ok : bool) (f : ifstream)
  : option (StoredHeader * list Z) * ifstream :=
  if negb (in_is_open f) || negb (in_good f) || eofbit f then (None, f)
  else
    let '(header_image, f1) := stream_read (Z.to_nat sizeof_EventHeader) f in
    if negb (Z.of_nat (length header_image) =? sizeof_EventHeader) then (None, f1)
    else
      let out_header := decode_header header_image in
      if 0 <? stored_data_size_bytes out_header then
        if MAX_EVENT_DATA_SIZE <? stored_data_size_bytes out_header then (None, f1)
        else if negb alloc_ok then (None, f1)
        else
          let '(out_data_buffer, f2) :=
            stream_read (Z.to_nat (stored_data_size_bytes out_header)) f1 in
          if negb (Z.of_nat (length out_data_buffer) =? stored_data_size_bytes out_header)
          then (None, f2)
          else (Some (out_header, out_data_buffer), f2)
      else (Some (out_header, []), f1).

(** *** The replay engine *)

(** [EventReplayEngine].  [has_callback] tells whether [event_callback_]
    holds a function; the members that only pace the replay are not
    represented. *)
Record EventReplayEngine := mkEngine {
  log_file_stream_ : ifstream;
  has_callback : bool;
  is_replaying_ : bool;
  is_paused_ : bool;
  replay_speed_factor_ : spec_float;
  current_replay_sequence_number_ : Z
}.

Definition float_zero : spec_float := S754_zero false.

Definition float_one : spec_float := Eval cbv in binary_normalize 53 1024 1 0 false.

(** [EventReplayEngine(log_filename, callback)] on a file holding [file];
    [None] when the constructor throws because the file cannot be opened. *)
Definition new_EventReplayEngine (open_ok : bool) (file : list Z) (callback : bool)
  : option EventReplayEngine :=
  if negb open_ok then None
  else Some (mkEngine (skip_magic (mkInput true file 0 false false)) callback
                      false false float_one 0).

(** [set_replay_speed]: [std::max(0.0, speed_factor)]. *)
Definition set_replay_speed (speed_factor : spec_float) (e : EventReplayEngine)
  : EventReplayEngine :=
  mkEngine (log_file_stream_ e) (has_callback e) (is_replaying_ e) (is_paused_ e)
           (if SFltb float_zero speed_factor then speed_factor else float_zero)
           (current_replay_sequence_number_ e).

(** The loop of [replay_loop].  [stop_after] is the number of iterations
    that find [is_replaying_] set, [stop_replay] clearing it afterwards;
    waiting while paused and sleeping until an event is due take time only.
    The result lists the events passed to the callback, oldest first. *)
Fixpoint replay_iterations (stop_after : nat) (alloc_ok : bool) (start_sequence_num : Z)
    (found_start_seq : bool) (e : EventReplayEngine)
  : list (StoredHeader * list Z) * EventReplayEngine :=
  match stop_after with
  | O => ([], e)
  | S stop_after' =>
      match read_next_event alloc_ok (log_file_stream_ e) with
      | (None, f) =>
          ([], mkEngine f (has_callback e) (is_replaying_ e) (is_paused_ e)
                        (replay_speed_factor_ e) (current_replay_sequence_number_ e))
      | (Some (header, data_buffer), f) =>
          let e1 := mkEngine f (has_callback e) (is_replaying_ e) (is_paused_ e)
                             (replay_speed_factor_ e) (stored_sequence_number header) in
          if found_start_seq || (start_sequence_num <=? stored_sequence_number header) then
            let e2 := mkEngine f (has_callback e) (is_replaying_ e)
                               (if SFeqb (replay_speed_factor_ e) float_zero
                                then true else is_paused_ e)
                               (replay_speed_factor_ e) (stored_sequence_number header) in
            let '(dispatched, e3) :=
              replay_iterations stop_after' alloc_ok start_sequence_num true e2 in
            (if has_callback e then (header, data_buffer) :: dispatched else dispatched, e3)
          else replay_iterations stop_after' alloc_ok start_sequence_num false e1
      end
  end.

(** [replay_loop(start_sequence_num)]. *)
Definition replay_loop (stop_after : nat) (alloc_ok : bool) (start_sequence_num : Z)
    (e : EventReplayEngine) : list (StoredHeader * list Z) * EventReplayEngine :=
  let '(dispatched, e1) :=
    replay_iterations stop_after alloc_ok start_sequence_num (start_sequence_num =? 0) e in
  (dispatched,
   mkEngine (log_file_stream_ e1) (has_callback e1) false false
            (replay_speed_factor_ e1) (current_replay_sequence_number_ e1)).

(** How [start_replay] ends. *)
Inductive start_result :=
| Started (e : EventReplayEngine)
| AlreadyReplaying (e : EventReplayEngine)
| StartThrows (e : EventReplayEngine).

(** [start_replay], up to the creation of the thread that runs
    [replay_loop]. *)
Definition start_replay (e : EventReplayEngine) : start_result :=
  if is_replaying_ e then AlreadyReplaying e
  else if negb (in_is_open (log_file_stream_ e)) || negb (in_good (log_file_stream_ e))
  then StartThrows e
  else
    Started (mkEngine (skip_magic (rewind (log_file_stream_ e))) (has_callback e)
                      true false (replay_speed_factor_ e)
                      (current_replay_sequence_number_ e)).

(** [start_replay] and the run of the thread it creates. *)
Definition replay (stop_after : nat) (alloc_ok : bool) (start_sequence_number : Z)
    (e : EventReplayEngine) : option (list (StoredHeader * list Z) * EventReplayEngine) :=
  match start_replay e with
  | Started e1 => Some (replay_loop stop_after alloc_ok start_sequence_number e1)
  | _ => None
  end.

(** *** Statement vocabulary *)

(** Calling [read_next_event] until it returns false, at most [fuel]
    times: the events read. *)
Fixpoint read_events (fuel : nat) (alloc_ok : bool) (f : ifstream)
  : list (StoredHeader * list Z) * ifstream :=
  match fuel with
  | O => ([], f)
  | S fuel' =>
      match read_next_event alloc_ok f with
      | (None, f1) => ([], f1)
      | (Some event, f1) =>
          let '(events, f2) := read_events fuel' alloc_ok f1 in
          (event :: events, f2)
      end
  end.

(** An entry to log: the clock reading, the type and the payload. *)
Record entry := mkEntry {
  entry_now : Z;
  entry_type : EventType;
  entry_payload : list Z
}.

(** The payload is made of bytes and within the size a reader accepts. *)
Definition entry_ok (en : entry) : Prop :=
  Forall is_byte (entry_payload en)
  /\ Z.of_nat (length (entry_payload en)) <= MAX_EVENT_DATA_SIZE.

(** [log_custom_binary_event] for each entry, every write succeeding. *)
Definition log_entries (entries : list entry) (lg : EventLogger) : EventLogger :=
  fold_left
    (fun lg en =>
       (write_log_entry (entry_now en) true (entry_type en) (Some (entry_payload en))
                        (Z.of_nat (length (entry_payload en))) lg).2)
    entries lg.

(** The event a reader is to find for the entry logged as number [seq]. *)
Definition event_of (seq : nat) (en : entry) : StoredHeader * list Z :=
  (mkStored (u64 (entry_now en)) (Z.of_nat seq) (EventType_value (entry_type en))
            (Z.of_nat (length (entry_payload en)))
            (calculate_data_checksum (entry_payload en)),
   entry_payload en).

(** The header [write_log_entry] builds for an entry when the sequence
    counter is [seq]. *)
Definition logged_header (seq : Z) (en : entry) : EventHeader :=
  mkEventHeader (u64 (entry_now en)) seq (entry_type en)
                (u32 (Z.of_nat (length (entry_payload en))))
                (if 0 <? Z.of_nat (length (entry_payload en))
                 then calculate_data_checksum (entry_payload en) else 0).

(** The item it writes, in the binary or in the text format. *)
Definition logged_item (binary : bool) (seq : Z) (en : entry) : file_item :=
  if binary then BinaryFrame (logged_header seq en) (entry_payload en)
  else TextLine (logged_header seq en)
                (render_text_line (logged_header seq en) (entry_payload en)).

(** The items written for a list of entries, the counter starting at
    [seq]. *)
Fixpoint items_from (binary : bool) (seq : Z) (entries : list entry) : list file_item :=
  match entries with
  | [] => []
  | en :: rest => logged_item binary seq en :: items_from binary (u64 (seq + 1)) rest
  end.

(** The number of bytes of an item. *)
Definition item_size (item : file_item) : Z :=
  match item with
  | Prefix text => strlen text
  | BinaryFrame _ payload => sizeof_EventHeader + Z.of_nat (length payload)
  | TextLine _ line => strlen line
  end.

(** A header as a reader finds it. *)
Definition stored (h : EventHeader) : StoredHeader :=
  mkStored (timestamp_ns h) (sequence_number h) (EventType_value (event_type h))
           (data_size_bytes h) (data_checksum h).

(** The events a reader finds for the binary items of a list of entries. *)
Fixpoint events_from (seq : Z) (entries : list entry) : list (StoredHeader * list Z) :=
  match entries with
  | [] => []
  | en :: rest =>
      (stored (logged_header seq en), entry_payload en) :: events_from (u64 (seq + 1)) rest
  end.

(** The events [replay_loop] passes on: those from the first one whose
    sequence number reaches [start_sequence_num]. *)
Fixpoint dispatch_from (start_sequence_num : Z) (found_start_seq : bool)
    (events : list (StoredHeader * list Z)) : list (StoredHeader * list Z) :=
  match events with
  | [] => []
  | event :: rest =>
      if found_start_seq || (start_sequence_num <=? stored_sequence_number event.1)
      then event :: dispatch_from start_sequence_num true rest
      else dispatch_from start_sequence_num false rest
  end.

(** The image of a file in which every header is padded with [padding]. *)
Definition file_bytes (padding : list Z) (items : list file_item) : list Z :=
  concat ((fun item =>
             match item with
             | Prefix text => string_bytes text
             | BinaryFrame h payload => header_bytes h padding ++ payload
             | TextLine _ line => string_bytes line
             end) <$> items).

(** The stream of a file, open and good, at position [pos]. *)
Definition stream_at (file : list Z) (pos : nat) : ifstream :=
  mkInput true file pos false false.

(** The stream once a read has met the end of the file. *)
Definition stream_end (file : list Z) : ifstream :=
  mkInput true file (length file) true true.

Definition three_entries : list entry :=
  [mkEntry 1000 INFO_LOG [104; 105];
   mkEntry 2000 MARKET_DATA_UPDATE [];
   mkEntry 3000 CUSTOM_STRATEGY_EVENT [1; 2; 3; 255]].

(** The logger, the file and the engine of a run that logs
    [three_entries] to an empty file and opens the file for replay. *)
Definition three_entries_logger : EventLogger :=
  default (mkLogger (stream_open false) 0 "" true 0 0)
          (new_EventLogger "events.log" true true true true).

Definition three_entries_file : list Z :=
  file_bytes [0; 0; 0; 0]
    (output (EventLog.log_file_stream_ (log_entries three_entries three_entries_logger))).

Definition three_entries_engine : EventReplayEngine :=
  default (mkEngine (stream_at [] 0) false false false float_zero 0)
          (new_EventReplayEngine true three_entries_file true).

End EventReplay.
(** * Properties *)

(** ** Arithmetic of 64-bit counters *)

(** A positive integer with [n & (n - 1) = 0] is a power of two. *)
Lemma land_pred_pow2 (n : Z) :
  0 < n → Z.land n (n - 1) = 0 → ∃ k, 0 ≤ k ∧ n = 2 ^ k.
Proof.
  intros Hpos. assert (Hn : 0 ≤ n) by lia. revert Hpos.
  pattern n. apply Z_lt_induction; [| exact Hn]. clear n Hn.
  intros n IH Hpos Hland.
  destruct (Z.eq_dec n 1) as [-> | Hne]; [exists 0; split; [lia | reflexivity] |].
  assert (Hshift : Z.land (n / 2) ((n - 1) / 2) = 0).
  { assert (Hs : ∀ a, a / 2 = Z.shiftr a 1)
      by (intros a; rewrite Z.shiftr_div_pow2 by lia; reflexivity).
    rewrite !Hs, <- Z.shiftr_land, Hland. apply Z.shiftr_0_l. }
  pose proof (Z.div_mod n 2 ltac:(lia)) as Hdm.
  pose proof (Z.mod_pos_bound n 2 ltac:(lia)) as Hb.
  destruct (Z.eq_dec (n mod 2) 0) as [Hev | Hod].
  - assert (Hq : (n - 1) / 2 = n / 2 - 1).
    { symmetry. apply (Z.div_unique _ _ _ 1); lia. }
    rewrite Hq in Hshift.
    destruct (IH (n / 2)) as (k & Hk & Hpow); [lia | lia | exact Hshift |].
    exists (k + 1). split; [lia |].
    rewrite Z.pow_add_r, <- Hpow by lia. lia.
  - assert (Hq : (n - 1) / 2 = n / 2).
    { symmetry. apply (Z.div_unique _ _ _ 0); lia. }
    rewrite Hq, Z.land_diag in Hshift. lia.
Qed.

Lemma u64_range z : 0 ≤ u64 z < 2 ^ 64.
Proof. unfold u64. apply Z.mod_pos_bound. lia. Qed.

Lemma u64_small z : 0 ≤ z < 2 ^ 64 → u64 z = z.
Proof. unfold u64. intros. apply Z.mod_small. lia. Qed.

Lemma u64_add_l a b : u64 (u64 a + b) = u64 (a + b).
Proof. unfold u64. apply Zplus_mod_idemp_l. Qed.

Lemma u64_add_r a b : u64 (a + u64 b) = u64 (a + b).
Proof. unfold u64. apply Zplus_mod_idemp_r. Qed.

Lemma u64_sub_l a b : u64 (u64 a - b) = u64 (a - b).
Proof. unfold u64. apply Zminus_mod_idemp_l. Qed.

Lemma u64_sub_r a b : u64 (a - u64 b) = u64 (a - b).
Proof. unfold u64. apply Zminus_mod_idemp_r. Qed.

Lemma u64_sub_both a b : u64 (u64 a - u64 b) = u64 (a - b).
Proof. by rewrite u64_sub_l, u64_sub_r. Qed.

Lemma i64_range z : - 2 ^ 63 ≤ i64 z < 2 ^ 63.
Proof. unfold i64. pose proof (Z.mod_pos_bound (z + 2 ^ 63) (2 ^ 64) ltac:(lia)). lia. Qed.

Lemma i64_small z : - 2 ^ 63 ≤ z < 2 ^ 63 → i64 z = z.
Proof. unfold i64. intros. rewrite Z.mod_small by lia. lia. Qed.

Lemma i64_add_l a b : i64 (i64 a + b) = i64 (a + b).
Proof.
  unfold i64. f_equal.
  replace (((a + 2 ^ 63) mod 2 ^ 64 - 2 ^ 63 + b + 2 ^ 63))
    with ((a + 2 ^ 63) mod 2 ^ 64 + b) by lia.
  rewrite Zplus_mod_idemp_l. f_equal. lia.
Qed.

Lemma i64_add_r a b : i64 (a + i64 b) = i64 (a + b).
Proof. rewrite (Z.add_comm a (i64 b)), i64_add_l. f_equal. lia. Qed.

(** ** Sums over lists *)

Lemma sumZ_app {A} (f : A → Z) l1 l2 : sumZ f (l1 ++ l2) = sumZ f l1 + sumZ f l2.
Proof. induction l1 as [| x l1 IH]; simpl; [done |]. rewrite IH. lia. Qed.

Lemma sumZ_perm {A} (f : A → Z) l1 l2 : Permutation l1 l2 → sumZ f l1 = sumZ f l2.
Proof. induction 1; simpl; lia. Qed.

Lemma sumZ_fmap {A B} (g : A → B) (f : B → Z) l : sumZ f (g <$> l) = sumZ (f ∘ g) l.
Proof.
  induction l as [| x l IH]; [done |].
  rewrite fmap_cons. unfold sumZ in *. simpl. by rewrite IH.
Qed.

Lemma sumZ_ext {A} (f g : A → Z) l : (∀ x, x ∈ l → f x = g x) → sumZ f l = sumZ g l.
Proof.
  induction l as [| x l IH]; intros H; simpl; [done |].
  rewrite (H x), IH; [done | | apply list_elem_of_here].
  intros y Hy. apply H. by apply list_elem_of_further.
Qed.

Lemma sumZ_const {A} (c : Z) (l : list A) : sumZ (λ _, c) l = Z.of_nat (length l) * c.
Proof. induction l as [| x l IH]; simpl; [done |]. rewrite IH. lia. Qed.
(** ** Shared ring buffer *)

Module RingFacts.
Import Ring.

Section Facts.

Context {T : Type}.
Variable T_init : T.
Variable Size : Z.
Hypothesis Size_ok : static_asserts Size = true.
Implicit Types (m : Region T) (s : System T) (W R : list T).


Lemma Size_pow2 : ∃ k, 6 ≤ k ≤ 63 ∧ Size = 2 ^ k.
Proof.
  unfold static_asserts in Size_ok.
  apply andb_prop in Size_ok as [H12 H3]. apply andb_prop in H12 as [H1 H2].
  apply Z.eqb_eq in H1. apply Z.leb_le in H2. apply Z.ltb_lt in H3.
  destruct (land_pred_pow2 Size) as (k & Hk & Hpow); [lia | exact H1 |].
  exists k. split; [| exact Hpow]. split.
  - destruct (Z.lt_ge_cases k 6) as [Hlt | ?]; [| lia].
    assert (2 ^ k ≤ 2 ^ 5) by (apply Z.pow_le_mono_r; lia). lia.
  - destruct (Z.lt_ge_cases k 64) as [? | Hge]; [lia |].
    assert (2 ^ 64 ≤ 2 ^ k) by (apply Z.pow_le_mono_r; lia). lia.
Qed.

Lemma Size_bounds : 64 ≤ Size < 2 ^ 64.
Proof.
  unfold static_asserts in Size_ok.
  apply andb_prop in Size_ok as [H12 H3]. apply andb_prop in H12 as [H1 H2].
  apply Z.leb_le in H2. apply Z.ltb_lt in H3. lia.
Qed.

Lemma Size_divides : (Size | 2 ^ 64).
Proof.
  destruct Size_pow2 as (k & Hk & ->).
  exists (2 ^ (64 - k)). rewrite <- Z.pow_add_r by lia. f_equal. lia.
Qed.

(** The mask picks the residue modulo [Size], and wrap-around of the
    64-bit index does not disturb it. *)
Lemma slot_u64 a : slot Size (u64 a) = Z.to_nat (a mod Size).
Proof.
  unfold slot, MASK, u64. f_equal.
  destruct Size_pow2 as (k & Hk & Hpow).
  replace (Size - 1) with (Z.ones k) by (rewrite Z.ones_equiv; lia).
  rewrite Z.land_ones by lia. rewrite <- Hpow.
  apply Z.mod_mod_divide. apply Size_divides.
Qed.

Lemma slot_lt a : (slot Size (u64 a) < Z.to_nat Size)%nat.
Proof.
  rewrite slot_u64. pose proof Size_bounds.
  pose proof (Z.mod_pos_bound a Size ltac:(lia)). lia.
Qed.

Lemma slot_ne a b : 0 < b - a < Size → slot Size (u64 a) ≠ slot Size (u64 b).
Proof.
  intros Hab. rewrite !slot_u64. pose proof Size_bounds as HS.
  pose proof (Z.mod_pos_bound a Size ltac:(lia)).
  pose proof (Z.mod_pos_bound b Size ltac:(lia)).
  intros Heq. apply Z2Nat.inj in Heq; [| lia | lia].
  assert (Hdiv : (b - a) mod Size = 0).
  { rewrite Zminus_mod, Heq, Z.sub_diag. apply Z.mod_0_l. lia. }
  rewrite Z.mod_small in Hdiv by lia. lia.
Qed.


Lemma inv_depth W R bw br m : Inv Size W R bw br m → depth m = len W - len R.
Proof.
  intros [? Hw Hr _ _ _ Hb _]. unfold depth. rewrite Hw, Hr, u64_sub_both.
  pose proof Size_bounds. apply u64_small. lia.
Qed.

Lemma try_write_full item now rb m :
  header_ rb = true → Size ≤ depth m →
  try_write Size item now rb m =
    (false, set_consecutive_full_writes (u64 (consecutive_full_writes_ rb + 1)) rb,
     update_metrics_on_contention m).
Proof.
  intros Hh Hd. unfold try_write, depth in *. rewrite Hh. simpl.
  destruct (Z.leb_spec Size (u64 (write_index (header m) - read_index (header m)))); [done | lia].
Qed.

Lemma try_write_room item now rb m :
  header_ rb = true → depth m < Size →
  ∃ rb' h',
    try_write Size item now rb m =
      (true, rb', mkRegion h' (store_slot Size (buffer m) (write_index (header m)) item))
    ∧ header_ rb' = true
    ∧ write_index h' = u64 (write_index (header m) + 1)
    ∧ read_index h' = read_index (header m)
    ∧ total_writes h' = u64 (total_writes (header m) + 1)
    ∧ total_reads h' = total_reads (header m)
    ∧ contention_events h' = contention_events (header m).
Proof.
  intros Hh Hd. unfold try_write, depth in *. rewrite Hh. simpl.
  destruct (Z.leb_spec Size (u64 (write_index (header m) - read_index (header m)))); [lia |].
  unfold update_metrics_on_write. simpl.
  match goal with |- context [if ?c then _ else _] => destruct c end;
    eexists _, _; (split; [reflexivity |]); simpl; rewrite ?Hh; auto 10.
Qed.

Lemma len_app (l1 l2 : list T) : len (l1 ++ l2) = len l1 + len l2.
Proof. unfold len. rewrite length_app. lia. Qed.

Lemma write_inv W R bw br m item now rb b rb' m' :
  header_ rb = true → Inv Size W R bw br m →
  try_write Size item now rb m = (b, rb', m') →
  header_ rb' = true ∧ Inv Size (W ++ (if b then [item] else [])) R bw br m'.
Proof.
  intros Hh HI Heq. pose proof (inv_depth _ _ _ _ _ HI) as Hd.
  pose proof Size_bounds as HS.
  destruct HI as [Hlen Hw Hr Htw Htr Hpre Hb Hsl].
  destruct (Z.lt_ge_cases (depth m) Size) as [Hroom | Hfull].
  - destruct (try_write_room item now rb m Hh Hroom)
      as (rb1 & h1 & E & Hh1 & Ew & Er & Etw & Etr & _).
    rewrite E in Heq. injection Heq as <- <- <-. split; [exact Hh1 |].
    constructor; simpl; unfold len in *.
    + unfold store_slot. by rewrite length_insert.
    + rewrite Ew, Hw, u64_add_l, length_app. simpl. f_equal. lia.
    + by rewrite Er.
    + rewrite Etw, Htw, u64_add_l, length_app. simpl. f_equal. lia.
    + by rewrite Etr.
    + rewrite take_app_le by lia. exact Hpre.
    + rewrite length_app. simpl. lia.
    + intros i Hi. rewrite length_app in Hi. simpl in Hi.
      unfold store_slot. rewrite Hw.
      destruct (decide (i = length W)) as [-> | Hne].
      * rewrite list_lookup_insert_eq by (rewrite Hlen; apply slot_lt).
        by rewrite list_lookup_middle.
      * rewrite list_lookup_insert_ne by (apply not_eq_sym, slot_ne; lia).
        rewrite lookup_app_l by lia. apply Hsl. lia.
  - rewrite (try_write_full item now rb m Hh Hfull) in Heq.
    injection Heq as <- <- <-. split; [exact Hh |].
    rewrite app_nil_r. by constructor.
Qed.

Lemma inv_load W R bw br m (i : nat) :
  Inv Size W R bw br m → (length R ≤ i < length W)%nat →
  ∃ x, W !! i = Some x ∧ load_slot T_init Size (buffer m) (u64 (Z.of_nat i)) = x.
Proof.
  intros HI Hi. destruct (lookup_lt_is_Some_2 W i) as [x Hx]; [lia |].
  exists x. split; [exact Hx |].
  destruct HI as [_ _ _ _ _ _ _ Hsl].
  unfold load_slot. by rewrite (Hsl i Hi), Hx.
Qed.

Lemma read_inv W R bw br m now rb r rb' m' :
  header_ rb = true → Inv Size W R bw br m →
  try_read T_init Size now rb m = (r, rb', m') →
  header_ rb' = true ∧ Inv Size W (R ++ from_option (λ x, [x]) [] r) bw br m'.
Proof.
  intros Hh HI Heq. pose proof Size_bounds as HS.
  unfold try_read in Heq. rewrite Hh in Heq. simpl in Heq.
  destruct (Z.eqb_spec (read_index (header m)) (write_index (header m))) as [He | Hne].
  - injection Heq as <- <- <-. split; [exact Hh |]. simpl. by rewrite app_nil_r.
  - injection Heq as <- <- <-. split; [exact Hh |].
    destruct HI as [Hlen Hw Hr Htw Htr Hpre Hb Hsl].
    assert (Hlt : (length R < length W)%nat).
    { unfold len in *. destruct (decide (length R = length W)) as [E | ?]; [| lia].
      exfalso. apply Hne. rewrite Hr, Hw. unfold len. by rewrite E. }
    destruct (inv_load W R bw br m (length R)) as (x & Hx & Hload);
      [by constructor | lia |].
    rewrite Hr. unfold len at 1. rewrite Hload. simpl.
    constructor; simpl; unfold len in *.
    + exact Hlen.
    + exact Hw.
    + rewrite u64_add_l, length_app. simpl. f_equal. lia.
    + exact Htw.
    + rewrite Htr, u64_add_l, length_app. simpl. f_equal. lia.
    + rewrite length_app. simpl. rewrite Nat.add_1_r.
      rewrite (take_S_r _ _ _ Hx). by rewrite <- Hpre.
    + rewrite length_app. simpl. lia.
    + intros i Hi. rewrite length_app in Hi. simpl in Hi. apply Hsl. lia.
Qed.

Lemma copy_in_length items : ∀ (buf : list T) start i,
  length (copy_in Size buf start i items) = length buf.
Proof.
  induction items as [| x rest IH]; intros buf start i; simpl; [done |].
  rewrite IH. unfold store_slot. by rewrite length_insert.
Qed.

Lemma copy_in_miss items : ∀ (buf : list T) start i (k : nat),
  (∀ j : nat, (j < length items)%nat → slot Size (u64 (start + i + Z.of_nat j)) ≠ k) →
  copy_in Size buf start i items !! k = buf !! k.
Proof.
  induction items as [| x rest IH]; intros buf start i k Hk; simpl; [done |].
  rewrite IH.
  - unfold store_slot. apply list_lookup_insert_ne.
    specialize (Hk 0%nat ltac:(simpl; lia)). by rewrite Z.add_0_r in Hk.
  - intros j Hj. specialize (Hk (S j) ltac:(simpl; lia)).
    by replace (start + (i + 1) + Z.of_nat j) with (start + i + Z.of_nat (S j)) by lia.
Qed.

Lemma copy_in_hit items : ∀ (buf : list T) start i (j : nat),
  length buf = Z.to_nat Size → len items ≤ Size → (j < length items)%nat →
  copy_in Size buf start i items !! slot Size (u64 (start + i + Z.of_nat j)) = items !! j.
Proof.
  induction items as [| x rest IH]; intros buf start i j Hlen Hsz Hj; simpl in *; [lia |].
  unfold len in Hsz. simpl in Hsz.
  destruct j as [| j].
  - rewrite copy_in_miss.
    + unfold store_slot. rewrite Z.add_0_r.
      apply list_lookup_insert_eq. rewrite Hlen. apply slot_lt.
    + intros j' Hj'. apply not_eq_sym, slot_ne. lia.
  - replace (start + i + Z.of_nat (S j)) with (start + (i + 1) + Z.of_nat j) by lia.
    apply IH; [| unfold len; lia | lia].
    unfold store_slot. by rewrite length_insert.
Qed.

Lemma write_batch_inv W R bw br m items now rb n rb' m' :
  header_ rb = true → Inv Size W R bw br m →
  try_write_batch Size items now rb m = (n, rb', m') →
  header_ rb' = true ∧ 0 ≤ n ≤ len items ∧
  Inv Size (W ++ take (Z.to_nat n) items) R bw br m'.
Proof.
  intros Hh HI Heq. pose proof (inv_depth _ _ _ _ _ HI) as Hd.
  pose proof Size_bounds as HS.
  destruct HI as [Hlen Hw Hr Htw Htr Hpre Hb Hsl].
  unfold try_write_batch in Heq. rewrite Hh in Heq. simpl in Heq.
  fold (depth m) in Heq. fold (len items) in Heq.
  assert (Hcount : 0 ≤ u64 (len items) ≤ len items).
  { unfold u64, len. pose proof (Z.mod_pos_bound (Z.of_nat (length items)) (2 ^ 64) ltac:(lia)).
    pose proof (Z.mod_le (Z.of_nat (length items)) (2 ^ 64) ltac:(lia) ltac:(lia)). lia. }
  destruct (Z.eqb_spec (u64 (len items)) 0) as [Hz | Hnz].
  { injection Heq as <- <- <-. split; [exact Hh |]. split; [lia |].
    simpl. rewrite app_nil_r. by constructor. }
  rewrite (u64_small (Size - depth m)) in Heq by lia.
  set (num := Z.min (u64 (len items)) (Size - depth m)) in *.
  destruct (Z.eqb_spec num 0) as [Hz | Hnz'].
  { injection Heq as <- <- <-. split; [exact Hh |]. split; [lia |].
    simpl. rewrite app_nil_r. by constructor. }
  injection Heq as <- <- <-. split; [exact Hh |].
  assert (Hnum : 0 < num ≤ len items ∧ num ≤ Size - depth m) by lia.
  split; [lia |].
  assert (Hlt : length (take (Z.to_nat num) items) = Z.to_nat num)
    by (apply length_take_le; unfold len in *; lia).
  constructor; simpl; unfold len in *.
  - by rewrite copy_in_length.
  - rewrite Hw, u64_add_l, length_app, Hlt. f_equal. lia.
  - exact Hr.
  - rewrite Htw, u64_add_l, length_app, Hlt. f_equal. lia.
  - exact Htr.
  - rewrite take_app_le by lia. exact Hpre.
  - rewrite length_app, Hlt. lia.
  - intros i Hi. rewrite length_app, Hlt in Hi. rewrite Hw.
    destruct (decide (i < length W)%nat) as [Hlo | Hhi].
    + rewrite copy_in_miss.
      * rewrite lookup_app_l by lia. apply Hsl. lia.
      * intros j Hj. rewrite Hlt in Hj. rewrite Z.add_0_r, u64_add_l.
        apply not_eq_sym, slot_ne. lia.
    + rewrite lookup_app_r by lia.
      replace (u64 (Z.of_nat i))
        with (u64 (u64 (Z.of_nat (length W)) + 0 + Z.of_nat (i - length W)))
        by (rewrite Z.add_0_r, u64_add_l; f_equal; lia).
      apply copy_in_hit; [exact Hlen | unfold len; lia | lia].
Qed.

Lemma copy_out_inv W R bw br m n :
  Inv Size W R bw br m → 0 ≤ n ≤ depth m →
  copy_out T_init Size (buffer m) (read_index (header m)) n
  = take (Z.to_nat n) (drop (length R) W).
Proof.
  intros HI Hn. pose proof (inv_depth _ _ _ _ _ HI) as Hd.
  assert (Hr : read_index (header m) = u64 (len R)) by (by destruct HI).
  unfold copy_out, len in *. apply list_eq. intros i.
  rewrite list_lookup_fmap.
  destruct (decide (Z.of_nat i < n)) as [Hlt | Hge].
  - rewrite lookup_seqZ_lt by lia. simpl.
    rewrite lookup_take_lt by lia. rewrite lookup_drop.
    rewrite Hr, u64_add_l, Z.add_0_l, <- Nat2Z.inj_add.
    destruct (inv_load W R bw br m (length R + i) HI) as (x & Hx & ->); [lia |].
    by rewrite Hx.
  - rewrite lookup_seqZ_ge by lia. simpl.
    by rewrite lookup_take_ge by lia.
Qed.

Lemma read_batch_inv W R bw br m count now rb out rb' m' :
  header_ rb = true → Inv Size W R bw br m →
  try_read_batch T_init Size count now rb m = (out, rb', m') →
  header_ rb' = true ∧ Inv Size W (R ++ out) bw br m'.
Proof.
  intros Hh HI Heq. pose proof (inv_depth _ _ _ _ _ HI) as Hd.
  pose proof Size_bounds as HS. pose proof (u64_range count) as Hc.
  unfold try_read_batch in Heq. rewrite Hh in Heq. simpl in Heq.
  fold (depth m) in Heq.
  destruct (Z.eqb_spec (u64 count) 0) as [Hz | Hnz].
  { injection Heq as <- <- <-. split; [exact Hh |]. by rewrite app_nil_r. }
  set (num := Z.min (u64 count) (depth m)) in *.
  destruct (Z.eqb_spec num 0) as [Hz | Hnz'].
  { injection Heq as <- <- <-. split; [exact Hh |]. by rewrite app_nil_r. }
  injection Heq as <- <- <-. split; [exact Hh |].
  assert (Hb' : len R ≤ len W ≤ len R + Size) by (by destruct HI).
  assert (Hnum : 0 < num ≤ depth m) by lia.
  rewrite (copy_out_inv W R bw br m num HI) by lia.
  destruct HI as [Hlen Hw Hr Htw Htr Hpre Hb Hsl].
  assert (Hlt : length (take (Z.to_nat num) (drop (length R) W)) = Z.to_nat num).
  { apply length_take_le. rewrite length_drop. unfold len in *. lia. }
  constructor; simpl; unfold len in *.
  - exact Hlen.
  - exact Hw.
  - rewrite Hr, u64_add_l, length_app, Hlt. f_equal. lia.
  - exact Htw.
  - rewrite Htr, u64_add_l, length_app, Hlt. f_equal. lia.
  - rewrite length_app, Hlt, <- take_take_drop. by rewrite <- Hpre.
  - rewrite length_app, Hlt. lia.
  - intros i Hi. rewrite length_app, Hlt in Hi. apply Hsl. lia.
Qed.

Lemma reset_inv W R bw br m now rb rb' m' :
  header_ rb = true → Inv Size W R bw br m →
  reset_tta_metrics now rb m = (rb', m') →
  header_ rb' = true ∧ Inv Size W R (len W) (len R) m' ∧ depth m' = depth m
  ∧ total_writes (header m') = 0 ∧ total_reads (header m') = 0.
Proof.
  intros Hh HI Heq. unfold reset_tta_metrics in Heq. rewrite Hh in Heq. simpl in Heq.
  injection Heq as <- <-. split; [done |]. split; [| done].
  destruct HI as [Hlen Hw Hr Htw Htr Hpre Hb Hsl].
  constructor; simpl; try done; by rewrite Z.sub_diag.
Qed.

Lemma queued_inv W R bw br m : Inv Size W R bw br m → R ++ queued T_init Size m = W.
Proof.
  intros HI. pose proof (inv_depth _ _ _ _ _ HI) as Hd. unfold queued.
  assert (Hb' : len R ≤ len W ≤ len R + Size) by (by destruct HI).
  rewrite (copy_out_inv W R bw br m _ HI) by lia.
  rewrite take_ge by (rewrite length_drop; unfold len in *; lia).
  destruct HI as [_ _ _ _ _ Hpre _ _]. rewrite Hpre at 1. apply take_drop.
Qed.

Lemma fresh_inv : Inv Size [] [] 0 0 (fresh_region T_init Size).
Proof.
  constructor; simpl; try done.
  - by rewrite length_replicate.
  - pose proof Size_bounds. unfold len. simpl. lia.
  - intros i Hi. simpl in Hi. lia.
Qed.

Lemma step_inv o s r s' W R bw br :
  attached s → Inv Size W R bw br (region s) →
  step T_init Size o s = (r, s') →
  attached s' ∧ ∃ bw' br',
    Inv Size (W ++ accepted o r) (R ++ delivered r) bw' br' (region s')
    ∧ bw' - br' = (if is_reset o then depth (region s') else bw - br).
Proof.
  intros [Hp Hc] HI Heq. destruct o as [item now | now | items now | count now | now | now];
    simpl in Heq.
  - destruct (try_write Size item now (producer s) (region s)) as [[b p] m] eqn:E.
    injection Heq as <- <-.
    destruct (write_inv _ _ _ _ _ _ _ _ _ _ _ Hp HI E) as [Hp' HI'].
    split; [done |]. exists bw, br. simpl. rewrite app_nil_r.
    split; [| done]. by destruct b.
  - destruct (try_read T_init Size now (consumer s) (region s)) as [[x c] m] eqn:E.
    injection Heq as <- <-.
    destruct (read_inv _ _ _ _ _ _ _ _ _ _ Hc HI E) as [Hc' HI'].
    split; [done |]. exists bw, br. simpl. rewrite app_nil_r.
    split; [| done]. by destruct x.
  - destruct (try_write_batch Size items now (producer s) (region s)) as [[n p] m] eqn:E.
    injection Heq as <- <-.
    destruct (write_batch_inv _ _ _ _ _ _ _ _ _ _ _ Hp HI E) as (Hp' & _ & HI').
    split; [done |]. exists bw, br. simpl. by rewrite app_nil_r.
  - destruct (try_read_batch T_init Size count now (consumer s) (region s)) as [[l c] m] eqn:E.
    injection Heq as <- <-.
    destruct (read_batch_inv _ _ _ _ _ _ _ _ _ _ _ Hc HI E) as [Hc' HI'].
    split; [done |]. exists bw, br. simpl. by rewrite app_nil_r.
  - destruct (reset_tta_metrics now (producer s) (region s)) as [p m] eqn:E.
    injection Heq as <- <-.
    destruct (reset_inv _ _ _ _ _ _ _ _ _ Hp HI E) as (Hp' & HI' & _).
    split; [done |]. exists (len W), (len R). simpl. rewrite !app_nil_r.
    split; [done |]. by rewrite (inv_depth _ _ _ _ _ HI').
  - destruct (reset_tta_metrics now (consumer s) (region s)) as [c m] eqn:E.
    injection Heq as <- <-.
    destruct (reset_inv _ _ _ _ _ _ _ _ _ Hc HI E) as (Hc' & HI' & _).
    split; [done |]. exists (len W), (len R). simpl. rewrite !app_nil_r.
    split; [done |]. by rewrite (inv_depth _ _ _ _ _ HI').
Qed.

Lemma run_inv ops : ∀ s rs s' W R bw br,
  attached s → Inv Size W R bw br (region s) →
  run T_init Size ops s = (rs, s') →
  attached s' ∧ ∃ bw' br',
    Inv Size (W ++ written_log ops rs) (R ++ read_log rs) bw' br' (region s')
    ∧ bw' - br' = last_reset_depth T_init Size ops s (bw - br).
Proof.
  induction ops as [| o rest IH]; intros s rs s' W R bw br Ha HI Heq; simpl in Heq.
  - injection Heq as <- <-. split; [done |]. exists bw, br.
    unfold read_log. simpl. by rewrite !app_nil_r.
  - destruct (step T_init Size o s) as [r s1] eqn:Es.
    destruct (run T_init Size rest s1) as [rs1 s2] eqn:Er.
    injection Heq as <- <-.
    destruct (step_inv _ _ _ _ _ _ _ _ Ha HI Es) as (Ha1 & bw1 & br1 & HI1 & Hb1).
    destruct (IH _ _ _ _ _ _ _ Ha1 HI1 Er) as (Ha2 & bw2 & br2 & HI2 & Hb2).
    split; [done |]. exists bw2, br2. simpl. rewrite Es. simpl.
    unfold read_log in *. simpl. rewrite !app_assoc. split; [done |].
    by rewrite Hb2, Hb1.
Qed.

Lemma last_reset_depth_none ops : ∀ s d,
  forallb (λ o, negb (is_reset o)) ops = true →
  last_reset_depth T_init Size ops s d = d.
Proof.
  induction ops as [| o rest IH]; intros s d Hn; simpl in *; [done |].
  apply andb_prop in Hn as [Ho Hrest]. rewrite IH by done.
  by destruct (is_reset o).
Qed.

Lemma fresh_attached now : attached (fresh_system T_init Size now).
Proof. by split. Qed.

(** C1, amended for [reset_tta_metrics]: in every state reached from a freshly
    created buffer by any sequence of [try_write], [try_read],
    [try_write_batch], [try_read_batch] and [reset_tta_metrics] calls, the
    depth [write_index - read_index] (in 64-bit unsigned arithmetic) lies
    between [0] and [Size]; [total_writes - total_reads] equals the depth
    minus the depth the buffer had at the last reset; and when the sequence
    holds no reset, [total_writes - total_reads] equals the depth. *)
Theorem ring_conservation now0 (ops : list (op T)) :
  let s := (run T_init Size ops (fresh_system T_init Size now0)).2 in
  let h := header (region s) in
  0 ≤ u64 (write_index h - read_index h) ≤ Size
  ∧ u64 (total_writes h - total_reads h)
    = u64 (depth (region s) - last_reset_depth T_init Size ops (fresh_system T_init Size now0) 0)
  ∧ (forallb (λ o, negb (is_reset o)) ops = true →
     u64 (total_writes h - total_reads h) = u64 (write_index h - read_index h)).
Proof.
  destruct (run T_init Size ops (fresh_system T_init Size now0)) as [rs s] eqn:E. simpl.
  destruct (run_inv ops _ _ _ [] [] 0 0 (fresh_attached now0) fresh_inv E)
    as (_ & bw & br & HI & Hlr).
  change (0 - 0) with 0 in Hlr.
  pose proof (inv_depth _ _ _ _ _ HI) as Hd. unfold depth in *.
  assert (Hdiff : u64 (total_writes (header (region s)) - total_reads (header (region s)))
                  = u64 (u64 (write_index (header (region s)) - read_index (header (region s)))
                         - last_reset_depth T_init Size ops (fresh_system T_init Size now0) 0)).
  { rewrite Hd, <- Hlr. destruct HI as [_ _ _ Htw Htr _ _ _].
    rewrite Htw, Htr, u64_sub_both. f_equal. lia. }
  split; [| split].
  - rewrite Hd. destruct HI as [_ _ _ _ _ _ Hb _]. lia.
  - exact Hdiff.
  - intros Hn. rewrite Hdiff, last_reset_depth_none by done.
    rewrite Z.sub_0_r. apply u64_small, u64_range.
Qed.

(** C6: for every sequence of operations on a fresh buffer, the records
    handed out by the successful reads, followed by the records still queued
    in the slots, are exactly the records accepted by the successful writes,
    in write order.  So the records read are a prefix of the records
    written: the k-th record read is the k-th record written, unchanged,
    none is reordered, none is delivered twice, and none that was accepted
    is lost. *)
Theorem ring_fifo now0 (ops : list (op T)) :
  let '(rs, s) := run T_init Size ops (fresh_system T_init Size now0) in
  read_log rs ++ queued T_init Size (region s) = written_log ops rs
  ∧ read_log rs `prefix_of` written_log ops rs
  ∧ ∀ (n : nat) (x : T), read_log rs !! n = Some x → written_log ops rs !! n = Some x.
Proof.
  destruct (run T_init Size ops (fresh_system T_init Size now0)) as [rs s] eqn:E.
  destruct (run_inv ops _ _ _ [] [] 0 0 (fresh_attached now0) fresh_inv E)
    as (_ & bw & br & HI & _).
  simpl in HI. pose proof (queued_inv _ _ _ _ _ HI) as Hq.
  split; [exact Hq |]. split.
  - exists (queued T_init Size (region s)). by rewrite Hq.
  - intros n x Hn. rewrite <- Hq. by apply lookup_app_l_Some.
Qed.


Lemma depth_after_write (h h' : Header) :
  write_index h' = u64 (write_index h + 1) → read_index h' = read_index h →
  u64 (write_index h - read_index h) < Size →
  u64 (write_index h' - read_index h') = u64 (write_index h - read_index h) + 1.
Proof.
  intros -> -> Hlt. pose proof Size_bounds.
  pose proof (u64_range (write_index h - read_index h)).
  rewrite u64_sub_l.
  replace (write_index h + 1 - read_index h) with (write_index h - read_index h + 1) by lia.
  rewrite <- u64_add_l. apply u64_small. lia.
Qed.

Lemma run_writes items : ∀ s rs s',
  header_ (producer s) = true → depth (region s) ≤ Size →
  0 ≤ contention_events (header (region s)) < 2 ^ 64 →
  run T_init Size (writes items) s = (rs, s') →
  let room := Z.to_nat (Size - depth (region s)) in
  rs = replicate (room `min` length items) (RetBool true)
       ++ replicate (length items - room) (RetBool false)
  ∧ contention_events (header (region s'))
    = u64 (contention_events (header (region s)) + Z.of_nat (length items - room))
  ∧ depth (region s') = Z.min Size (depth (region s) + Z.of_nat (length items)).
Proof.
  pose proof Size_bounds as HS.
  induction items as [| [item now] rest IH]; intros s rs s' Hp Hd Hc Heq; simpl in Heq.
  - injection Heq as <- <-. simpl. rewrite Nat.min_0_r. simpl.
    rewrite !Z.add_0_r. split; [done |]. split; [by rewrite u64_small | lia].
  - destruct (try_write Size item now (producer s) (region s)) as [[b p] m] eqn:E.
    destruct (run T_init Size (writes rest) (mkSystem p (consumer s) m)) as [rs1 s1] eqn:Er.
    injection Heq as <- <-.
    pose proof (u64_range (write_index (header (region s)) - read_index (header (region s)))) as Hr.
    fold (depth (region s)) in Hr.
    destruct (Z.lt_ge_cases (depth (region s)) Size) as [Hroom | Hfull].
    + destruct (try_write_room item now _ _ Hp Hroom)
        as (rb1 & h1 & E1 & Hh1 & Ew & Erd & _ & _ & Ec).
      rewrite E1 in E. injection E as <- <- <-.
      assert (Hd1 : depth (mkRegion h1 (store_slot Size (buffer (region s))
                      (write_index (header (region s))) item)) = depth (region s) + 1)
        by (by apply depth_after_write).
      set (m1 := mkRegion h1 _) in *.
      assert (Hle1 : depth m1 ≤ Size) by lia.
      assert (Hc1 : 0 ≤ contention_events (header m1) < 2 ^ 64) by (simpl; lia).
      specialize (IH (mkSystem rb1 (consumer s) m1) _ _ Hh1 Hle1 Hc1 Er).
      simpl in IH. rewrite Hd1, Ec in IH. destruct IH as (-> & -> & ->). simpl.
      replace (Z.to_nat (Size - depth (region s)))
        with (S (Z.to_nat (Size - (depth (region s) + 1)))) by lia.
      simpl. split; [done |]. split; [done | lia].
    + rewrite (try_write_full item now _ _ Hp Hfull) in E. injection E as <- <- <-.
      apply IH in Er; [| exact Hp | exact Hd | apply u64_range].
      simpl in Er. change (depth (update_metrics_on_contention (region s)))
        with (depth (region s)) in Er.
      destruct Er as (-> & -> & ->). simpl.
      replace (Z.to_nat (Size - depth (region s))) with 0%nat by lia.
      simpl. rewrite Nat.sub_0_r. split; [done |].
      split; [rewrite u64_add_l; f_equal; lia | lia].
Qed.

Lemma written_log_writes (items : list (T * Z)) : ∀ a b : nat,
  written_log (writes items) (replicate a (RetBool true) ++ replicate b (RetBool false))
  = (take a items).*1.
Proof.
  induction items as [| [item now] rest IH]; intros a b; simpl.
  - by rewrite take_nil.
  - destruct a as [| a]; simpl.
    + destruct b as [| b]; simpl; [done |]. apply (IH 0%nat b).
    + f_equal. apply IH.
Qed.

Lemma read_log_bools (a b : nat) :
  read_log (replicate a (@RetBool T true) ++ replicate b (RetBool false)) = [].
Proof.
  unfold read_log. rewrite fmap_app, concat_app.
  assert (H : ∀ n v, concat (delivered <$> replicate n (@RetBool T v)) = []).
  { intros n v. induction n; simpl; done. }
  by rewrite !H.
Qed.

Lemma inv_full_buffer W bw br m :
  Inv Size W [] bw br m → len W = Size → buffer m = W.
Proof.
  intros [Hlen _ _ _ _ _ _ Hsl] HW. pose proof Size_bounds as HS. unfold len in HW.
  apply list_eq. intros i.
  destruct (decide (i < length W)%nat) as [Hlt | Hge].
  - rewrite <- (Hsl i) by (simpl; lia). rewrite slot_u64.
    rewrite Z.mod_small by lia. by rewrite Nat2Z.id.
  - rewrite !lookup_ge_None_2; [done | lia | lia].
Qed.

(** C7: when at least [Size] single writes are made on a fresh buffer and
    nothing is read, exactly the first [Size] return [true] and all the
    others return [false]; afterwards [contention_events] is the number of
    refused writes, the depth and [write_index] are [Size], and the slots
    hold the first [Size] records.  Any [try_write] on a full buffer returns
    [false], adds one to [contention_events] and leaves [write_index] and
    the slots as they were. *)
Theorem ring_backpressure now0 (items : list (T * Z)) :
  Size ≤ Z.of_nat (length items) →
  let '(rs, s) := run T_init Size (writes items) (fresh_system T_init Size now0) in
  rs = replicate (Z.to_nat Size) (RetBool true)
       ++ replicate (length items - Z.to_nat Size) (RetBool false)
  ∧ contention_events (header (region s)) = u64 (Z.of_nat (length items) - Size)
  ∧ depth (region s) = Size
  ∧ write_index (header (region s)) = Size
  ∧ buffer (region s) = (take (Z.to_nat Size) items).*1
  ∧ ∀ item now rb (m : Region T),
      header_ rb = true → Size ≤ depth m →
      let '(b, _, m') := try_write Size item now rb m in
      b = false
      ∧ contention_events (header m') = u64 (contention_events (header m) + 1)
      ∧ write_index (header m') = write_index (header m)
      ∧ buffer m' = buffer m.
Proof.
  intros HW. pose proof Size_bounds as HS.
  destruct (run T_init Size (writes items) (fresh_system T_init Size now0)) as [rs s] eqn:E.
  assert (Hd0 : depth (region (fresh_system T_init Size now0)) = 0) by reflexivity.
  destruct (run_writes items (fresh_system T_init Size now0) rs s) as (Hrs & Hc & Hd);
    [reflexivity | lia | simpl; lia | exact E |].
  rewrite Hd0 in *. simpl in Hc. rewrite Z.sub_0_r in *.
  rewrite Nat.min_l in Hrs by lia.
  destruct (run_inv _ _ _ _ [] [] 0 0 (fresh_attached now0) fresh_inv E)
    as (_ & bw & br & HI & _).
  rewrite Hrs, written_log_writes, read_log_bools in HI. simpl in HI.
  assert (HlenW : len (take (Z.to_nat Size) items).*1 = Size).
  { unfold len. rewrite length_fmap, length_take_le by lia. lia. }
  split; [exact Hrs |]. split; [rewrite Hc; f_equal; lia |]. split; [lia |].
  split; [| split].
  - destruct HI as [_ Hw _ _ _ _ _ _]. rewrite Hw, HlenW. apply u64_small. lia.
  - by apply (inv_full_buffer _ bw br).
  - intros item now rb m Hh Hfull. by rewrite (try_write_full item now rb m Hh Hfull).
Qed.

End Facts.

(** C10: on a handle whose header pointer is null every public operation
    returns its neutral value and touches neither the handle nor the shared
    region: [try_write] and [try_read] return [false] (no record),
    [try_write_batch] and [try_read_batch] return [0] (no records), [size]
    is [0], [empty] is [true], [full] is [false], the two totals are [0],
    and [reset_tta_metrics] does nothing. *)
Theorem null_header_neutral {T : Type} (T_init : T) (Size : Z)
    (rb : SharedRingBuffer) (m : Region T) (item : T) (items : list T) (count now : Z) :
  header_ rb = false →
  try_write Size item now rb m = (false, rb, m)
  ∧ try_read T_init Size now rb m = (None, rb, m)
  ∧ try_write_batch Size items now rb m = (0, rb, m)
  ∧ try_read_batch T_init Size count now rb m = ([], rb, m)
  ∧ size rb m = 0
  ∧ empty rb m = true
  ∧ full Size rb m = false
  ∧ get_total_writes rb m = 0
  ∧ get_total_reads rb m = 0
  ∧ reset_tta_metrics now rb m = (rb, m).
Proof.
  intros Hh.
  unfold try_write, try_read, try_write_batch, try_read_batch, size, empty, full,
    get_total_writes, get_total_reads, reset_tta_metrics.
  rewrite Hh. simpl. done.
Qed.


Lemma ring_conservation_witness :
  static_asserts 64 = true
  ∧ (let s := (run 0 64 [TryWrite 7 1; TryWriteBatch [8; 9] 2; TryRead 3; ResetConsumer 4; TryReadBatch 5 5]
                 (fresh_system 0 64 0)).2 in
     let h := header (region s) in
     0 ≤ u64 (write_index h - read_index h) ≤ 64
     ∧ u64 (total_writes h - total_reads h)
       = u64 (depth (region s)
              - last_reset_depth 0 64 [TryWrite 7 1; TryWriteBatch [8; 9] 2; TryRead 3; ResetConsumer 4; TryReadBatch 5 5]
                  (fresh_system 0 64 0) 0)
     ∧ (forallb (λ o, negb (is_reset o))
          [TryWrite 7 1; TryWriteBatch [8; 9] 2; TryRead 3; ResetConsumer 4; TryReadBatch 5 5] = true →
        u64 (total_writes h - total_reads h) = u64 (write_index h - read_index h))).
Proof.
  split; [reflexivity |].
  exact (ring_conservation 0 64 eq_refl 0
           [TryWrite 7 1; TryWriteBatch [8; 9] 2; TryRead 3; ResetConsumer 4; TryReadBatch 5 5]).
Defined.

(** C1 as stated fails after a reset: one write followed by
    [reset_tta_metrics] leaves one record queued while both totals are
    zero. *)
Lemma ring_conservation_reset_counterexample :
  let s := (run 0 64 [TryWrite 7 1; ResetProducer 2] (fresh_system 0 64 0)).2 in
  let h := header (region s) in
  static_asserts 64 = true
  ∧ write_index h - read_index h = 1
  ∧ total_writes h - total_reads h = 0
  ∧ total_writes h - total_reads h ≠ write_index h - read_index h
  ∧ u64 (total_writes h - total_reads h) ≠ u64 (write_index h - read_index h).
Proof. vm_compute. repeat split; discriminate. Qed.

Lemma ring_fifo_witness :
  static_asserts 64 = true
  ∧ (let '(rs, s) := run 0 64 [TryWrite 7 1; TryWriteBatch [8; 9] 2; TryRead 3; TryReadBatch 1 4]
                       (fresh_system 0 64 0) in
     read_log rs ++ queued 0 64 (region s)
     = written_log [TryWrite 7 1; TryWriteBatch [8; 9] 2; TryRead 3; TryReadBatch 1 4] rs
     ∧ read_log rs `prefix_of`
         written_log [TryWrite 7 1; TryWriteBatch [8; 9] 2; TryRead 3; TryReadBatch 1 4] rs
     ∧ ∀ (n : nat) (x : Z), read_log rs !! n = Some x →
         written_log [TryWrite 7 1; TryWriteBatch [8; 9] 2; TryRead 3; TryReadBatch 1 4] rs !! n
         = Some x).
Proof.
  split; [reflexivity |].
  exact (ring_fifo 0 64 eq_refl 0 [TryWrite 7 1; TryWriteBatch [8; 9] 2; TryRead 3; TryReadBatch 1 4]).
Defined.

Lemma ring_backpressure_witness :
  static_asserts 4096 = true
  ∧ 4096 ≤ Z.of_nat (length scenario4_items)
  ∧ (let '(rs, s) := run 0 4096 (writes scenario4_items) (fresh_system 0 4096 0) in
     rs = replicate 4096 (RetBool true) ++ replicate 904 (RetBool false)
     ∧ contention_events (header (region s)) = 904
     ∧ depth (region s) = 4096).
Proof.
  assert (H1 : static_asserts 4096 = true) by reflexivity.
  assert (H2 : 4096 ≤ Z.of_nat (length scenario4_items)) by (vm_compute; discriminate).
  split; [exact H1 |]. split; [exact H2 |].
  pose proof (ring_backpressure 0 4096 H1 0 scenario4_items H2) as H.
  destruct (run 0 4096 (writes scenario4_items) (fresh_system 0 4096 0)) as [rs s].
  destruct H as (Hrs & Hc & Hd & _).
  split; [exact Hrs |]. split; [exact Hc | exact Hd].
Defined.

Lemma null_header_neutral_witness :
  let moved := (move_from (open_handle true 0)).2 in
  header_ moved = false
  ∧ try_write 64 7 1 moved (fresh_region 0 64) = (false, moved, fresh_region 0 64)
  ∧ size moved (fresh_region 0 64) = 0.
Proof.
  split; [reflexivity |].
  destruct (null_header_neutral 0 64 (move_from (open_handle true 0)).2
              (fresh_region 0 64) 7 [7] 1 1 eq_refl) as (H1 & _ & _ & _ & H5 & _).
  split; [exact H1 | exact H5].
Defined.

Section MoreFacts.
Context {T : Type}.
Variable T_init : T.
Variable Size : Z.
Hypothesis Size_ok : static_asserts Size = true.

Lemma length_copy_out (buf : list T) start n :
  length (copy_out T_init Size buf start n) = Z.to_nat n.
Proof. unfold copy_out. by rewrite length_fmap, length_seqZ. Qed.

Lemma length_queued (m : Region T) : len (queued T_init Size m) = depth m.
Proof.
  unfold len, queued. rewrite length_copy_out.
  pose proof (u64_range (write_index (header m) - read_index (header m))).
  unfold depth. lia.
Qed.

(** Ghost lists for a consistent region: [read_index] dummy records already
    delivered, followed by the queued ones. *)
Lemma region_ok_inv (m : Region T) :
  region_ok Size m →
  let R := replicate (Z.to_nat (read_index (header m))) T_init in
  let W := R ++ queued T_init Size m in
  Inv Size W R (len W - total_writes (header m)) (len R - total_reads (header m)) m.
Proof.
  intros (Hlen & (Hw & Hr & Htw & Htr) & Hd) R W.
  pose proof (length_queued m) as Hq.
  assert (HlR : len R = read_index (header m)).
  { unfold len, R. rewrite length_replicate. lia. }
  assert (HlW : len W = read_index (header m) + depth m).
  { unfold W. rewrite len_app. lia. }
  pose proof (u64_range (write_index (header m) - read_index (header m))) as Hdr.
  fold (depth m) in Hdr.
  constructor.
  - done.
  - rewrite HlW. unfold depth. rewrite u64_add_r.
    replace (read_index (header m) + (write_index (header m) - read_index (header m)))
      with (write_index (header m)) by lia.
    symmetry. by apply u64_small.
  - rewrite HlR. symmetry. by apply u64_small.
  - replace (len W - (len W - total_writes (header m))) with (total_writes (header m)) by lia.
    symmetry. by apply u64_small.
  - replace (len R - (len R - total_reads (header m))) with (total_reads (header m)) by lia.
    symmetry. by apply u64_small.
  - unfold W. by rewrite take_app_length.
  - lia.
  - intros i Hi. unfold W. rewrite lookup_app_r by lia.
    unfold queued, copy_out. rewrite list_lookup_fmap.
    assert (Hi' : Z.of_nat (i - length R) < depth m).
    { unfold len in Hq. unfold W in Hi. rewrite length_app in Hi. lia. }
    rewrite lookup_seqZ_lt by lia. simpl. unfold load_slot.
    replace (read_index (header m) + (0 + Z.of_nat (i - length R))) with (Z.of_nat i)
      by (unfold len in HlR; lia).
    destruct (buffer m !! slot Size (u64 (Z.of_nat i))) eqn:E; [done |].
    apply lookup_ge_None_1 in E. pose proof (slot_lt Size Size_ok (Z.of_nat i)). lia.
Qed.

Lemma inv_region_ok W R bw br (m : Region T) : Inv Size W R bw br m → region_ok Size m.
Proof.
  intros HI. pose proof HI as Hd. apply inv_depth in Hd; [| done].
  destruct HI as [Hl Hw Hr Htw Htr _ Hb _].
  split; [done |]. split; [| lia].
  unfold header_ok. rewrite Hw, Hr, Htw, Htr. repeat split; apply u64_range.
Qed.


Lemma try_write_queue (m : Region T) (rb : SharedRingBuffer) (item : T) (now : Z) b rb' m' :
  region_ok Size m → header_ rb = true →
  try_write Size item now rb m = (b, rb', m') →
  b = negb (full Size rb m)
  ∧ queued T_init Size m' = queued T_init Size m ++ (if b then [item] else [])
  ∧ region_ok Size m' ∧ header_ rb' = true.
Proof.
  intros Hok Hh E. pose proof (region_ok_inv m Hok) as HI. cbv zeta in HI.
  destruct (write_inv Size Size_ok _ _ _ _ _ _ _ _ _ _ _ Hh HI E) as [Hh' HI'].
  pose proof (queued_inv T_init Size Size_ok _ _ _ _ _ HI') as Hq'.
  rewrite <- app_assoc in Hq'. apply app_inv_head in Hq'.
  split; [| split; [exact Hq' | split; [by eapply inv_region_ok | done]]].
  unfold full. rewrite Hh. simpl. fold (depth m).
  destruct (Z.leb_spec Size (depth m)) as [Hf | Hf].
  - rewrite try_write_full in E by done. by injection E as <- _ _.
  - destruct (try_write_room Size item now rb m Hh Hf) as (rb1 & h1 & E1 & _).
    rewrite E1 in E. by injection E as <- _ _.
Qed.

Lemma try_read_queue (m : Region T) (rb : SharedRingBuffer) (now : Z) r rb' m' :
  region_ok Size m → header_ rb = true →
  try_read T_init Size now rb m = (r, rb', m') →
  r = head (queued T_init Size m)
  ∧ queued T_init Size m' = tail (queued T_init Size m)
  ∧ region_ok Size m' ∧ header_ rb' = true
  ∧ write_index (header m') = write_index (header m)
  ∧ buffer m' = buffer m.
Proof.
  intros Hok Hh E. pose proof (region_ok_inv m Hok) as HI. cbv zeta in HI.
  destruct (read_inv T_init Size Size_ok _ _ _ _ _ _ _ _ _ _ Hh HI E) as [Hh' HI'].
  pose proof (queued_inv T_init Size Size_ok _ _ _ _ _ HI') as Hq'.
  rewrite <- app_assoc in Hq'. apply app_inv_head in Hq'.
  assert (Hnone : r = None → queued T_init Size m = []).
  { intros ->. unfold try_read in E. rewrite Hh in E. simpl in E.
    destruct (read_index (header m) =? write_index (header m)) eqn:Eq; [| discriminate E].
    apply Z.eqb_eq in Eq. unfold queued, depth. by rewrite Eq, Z.sub_diag. }
  assert (Hsame : write_index (header m') = write_index (header m) ∧ buffer m' = buffer m).
  { unfold try_read in E. rewrite Hh in E. simpl in E.
    destruct (read_index (header m) =? write_index (header m)); by injection E as _ _ <-. }
  split; [| split; [| split; [by eapply inv_region_ok | done]]].
  - destruct r as [x |]; [by rewrite <- Hq' | by rewrite Hnone].
  - destruct r as [x |]; [by rewrite <- Hq' |].
    simpl in Hq'. rewrite Hq'. by rewrite Hnone.
Qed.

Lemma write_batch_queue (m : Region T) (rb : SharedRingBuffer) (items : list T) (now : Z)
    n rb' m' :
  region_ok Size m → header_ rb = true → len items < 2 ^ 64 →
  try_write_batch Size items now rb m = (n, rb', m') →
  n = Z.min (len items) (Size - depth m)
  ∧ queued T_init Size m' = queued T_init Size m ++ take (Z.to_nat n) items
  ∧ region_ok Size m' ∧ header_ rb' = true.
Proof.
  intros Hok Hh Hlen E. pose proof (region_ok_inv m Hok) as HI. cbv zeta in HI.
  destruct (write_batch_inv Size Size_ok _ _ _ _ _ _ _ _ _ _ _ Hh HI E) as (Hh' & Hn & HI').
  pose proof (queued_inv T_init Size Size_ok _ _ _ _ _ HI') as Hq'.
  rewrite <- app_assoc in Hq'. apply app_inv_head in Hq'.
  split; [| split; [exact Hq' | split; [by eapply inv_region_ok | done]]].
  destruct Hok as (_ & _ & Hd).
  pose proof (u64_range (write_index (header m) - read_index (header m))) as Hdr.
  fold (depth m) in Hdr.
  unfold try_write_batch in E. rewrite Hh in E. simpl in E. fold (len items) in E.
  fold (depth m) in E.
  rewrite (u64_small (len items)) in E by (unfold len in *; lia).
  rewrite (u64_small (Size - depth m)) in E by (pose proof (Size_bounds Size Size_ok); lia).
  destruct (len items =? 0) eqn:E0.
  { injection E as <- _ _. apply Z.eqb_eq in E0. lia. }
  destruct (Z.min (len items) (Size - depth m) =? 0) eqn:E1.
  { injection E as <- _ _. apply Z.eqb_eq in E1. lia. }
  by injection E as <- _ _.
Qed.

Lemma read_batch_queue (m : Region T) (rb : SharedRingBuffer) (count now : Z) out rb' m' :
  region_ok Size m → header_ rb = true →
  try_read_batch T_init Size count now rb m = (out, rb', m') →
  out = take (Z.to_nat (u64 count)) (queued T_init Size m)
  ∧ queued T_init Size m' = drop (Z.to_nat (u64 count)) (queued T_init Size m)
  ∧ region_ok Size m' ∧ header_ rb' = true.
Proof.
  intros Hok Hh E. pose proof (region_ok_inv m Hok) as HI. cbv zeta in HI.
  destruct (read_batch_inv T_init Size Size_ok _ _ _ _ _ _ _ _ _ _ _ Hh HI E) as (Hh' & HI').
  pose proof (queued_inv T_init Size Size_ok _ _ _ _ _ HI') as Hq'.
  rewrite <- app_assoc in Hq'. apply app_inv_head in Hq'.
  pose proof (length_queued m) as Hlq. unfold len in Hlq.
  pose proof (u64_range count) as Hc.
  assert (Hout : length out = Z.to_nat (Z.min (u64 count) (depth m))).
  { unfold try_read_batch in E. rewrite Hh in E. simpl in E. fold (depth m) in E.
    destruct (u64 count =? 0) eqn:E0.
    { injection E as <- _ _. apply Z.eqb_eq in E0. rewrite E0.
      pose proof (u64_range (write_index (header m) - read_index (header m))).
      unfold depth. simpl. lia. }
    destruct (Z.min (u64 count) (depth m) =? 0) eqn:E1.
    { injection E as <- _ _. apply Z.eqb_eq in E1. by rewrite E1. }
    injection E as <- _ _. apply length_copy_out. }
  assert (Htake : take (Z.to_nat (u64 count)) (queued T_init Size m) = out).
  { rewrite <- Hq'. destruct (Z.le_ge_cases (u64 count) (depth m)) as [Hle | Hge].
    - rewrite Z.min_l in Hout by done. rewrite <- Hout. by rewrite take_app_length.
    - rewrite take_ge; [| rewrite Hq'; lia].
      rewrite Z.min_r in Hout by done.
      assert (length (queued T_init Size m') = 0%nat).
      { apply (f_equal length) in Hq'. rewrite length_app in Hq'. lia. }
      destruct (queued T_init Size m'); [by rewrite app_nil_r | done]. }
  split; [done |]. split; [| split; [by eapply inv_region_ok | done]].
  rewrite <- Htake in Hq'. rewrite <- (take_drop (Z.to_nat (u64 count)) (queued T_init Size m)) in Hq' at 2.
  by apply app_inv_head in Hq'.
Qed.

Lemma reachable_region_ok now0 (ops : list (op T)) :
  region_ok Size (region (run T_init Size ops (fresh_system T_init Size now0)).2).
Proof.
  destruct (run T_init Size ops (fresh_system T_init Size now0)) as [rs s] eqn:E.
  destruct (run_inv T_init Size Size_ok ops _ _ _ [] [] 0 0
              (fresh_attached T_init Size now0) (fresh_inv T_init Size Size_ok) E)
    as (_ & bw & br & HI & _).
  simpl. by eapply inv_region_ok.
Qed.

(** X1: on a consistent region, wherever the two indices stand in the
    64-bit range, [try_write] succeeds exactly when the buffer is not full
    and then appends the record to the queued records, and [try_read]
    returns the oldest queued record, if any, and removes it; both leave
    the region consistent. *)
Theorem queue_single_ops (m : Region T) (rb : SharedRingBuffer) (item : T) (now : Z) :
  region_ok Size m → header_ rb = true →
  (let '(b, rb', m') := try_write Size item now rb m in
   b = negb (full Size rb m)
   ∧ queued T_init Size m' = queued T_init Size m ++ (if b then [item] else [])
   ∧ region_ok Size m' ∧ header_ rb' = true)
  ∧ (let '(r, rb', m') := try_read T_init Size now rb m in
     r = head (queued T_init Size m)
     ∧ queued T_init Size m' = tail (queued T_init Size m)
     ∧ region_ok Size m' ∧ header_ rb' = true).
Proof.
  intros Hok Hh. split.
  - destruct (try_write Size item now rb m) as [[b rb'] m'] eqn:E.
    by apply (try_write_queue m rb item now).
  - destruct (try_read T_init Size now rb m) as [[r rb'] m'] eqn:E.
    destruct (try_read_queue m rb now r rb' m' Hok Hh E) as (? & ? & ? & ? & _). done.
Qed.

(** X2: on a consistent region, [try_write_batch] accepts the first
    [min(count, Size - depth)] records of the batch and appends them in
    order, and [try_read_batch] returns the first [min(count, depth)] queued
    records in order and leaves the others queued. *)
Theorem queue_batch_ops (m : Region T) (rb : SharedRingBuffer) (items : list T)
    (count now : Z) :
  region_ok Size m → header_ rb = true → len items < 2 ^ 64 →
  (let '(n, rb', m') := try_write_batch Size items now rb m in
   n = Z.min (len items) (Size - depth m)
   ∧ queued T_init Size m' = queued T_init Size m ++ take (Z.to_nat n) items
   ∧ region_ok Size m' ∧ header_ rb' = true)
  ∧ (let '(out, rb', m') := try_read_batch T_init Size count now rb m in
     out = take (Z.to_nat (u64 count)) (queued T_init Size m)
     ∧ queued T_init Size m' = drop (Z.to_nat (u64 count)) (queued T_init Size m)
     ∧ region_ok Size m' ∧ header_ rb' = true).
Proof.
  intros Hok Hh Hlen. split.
  - destruct (try_write_batch Size items now rb m) as [[n rb'] m'] eqn:E.
    by apply (write_batch_queue m rb items now).
  - destruct (try_read_batch T_init Size count now rb m) as [[out rb'] m'] eqn:E.
    by apply (read_batch_queue m rb count now).
Qed.

(** X3: in every state reached from a fresh buffer, [size] is the number
    of queued records and lies between [0] and [Size], [empty] holds
    exactly when it is [0], and [full] exactly when it is [Size]. *)
Theorem observers_agree now0 (ops : list (op T)) (rb : SharedRingBuffer) :
  header_ rb = true →
  let m := region (run T_init Size ops (fresh_system T_init Size now0)).2 in
  size rb m = len (queued T_init Size m)
  ∧ 0 ≤ size rb m ≤ Size
  ∧ (empty rb m = true ↔ size rb m = 0)
  ∧ (full Size rb m = true ↔ size rb m = Size).
Proof.
  intros Hh m. pose proof (reachable_region_ok now0 ops) as Hok. fold m in Hok.
  destruct Hok as (_ & (Hw & Hr & _) & Hd).
  pose proof (u64_range (write_index (header m) - read_index (header m))) as Hdr.
  unfold size, empty, full. rewrite Hh. simpl. fold (depth m) in *.
  rewrite length_queued. split; [done |]. split; [lia |]. split.
  - rewrite Z.eqb_eq. unfold depth. split.
    + intros ->. by rewrite Z.sub_diag.
    + intros H0. unfold u64 in H0.
      apply Z.mod_divide in H0; [| done]. destruct H0 as [k Hk]. lia.
  - rewrite Z.leb_le. lia.
Qed.

(** X4: the drain loop of [clear_all_buffers] on a consistent region ends
    after one call of [try_read] more than there are queued records; it
    passes exactly the queued records through, oldest first, leaves the
    buffer empty and touches neither [write_index] nor the slots. *)
Theorem drain_empties (fuel : nat) : ∀ (clock : nat → Z) (rb : SharedRingBuffer) (m : Region T),
  region_ok Size m → header_ rb = true → (Z.to_nat (depth m) < fuel)%nat →
  ∃ rb' m',
    drain T_init Size fuel clock rb m = Some (queued T_init Size m, rb', m')
    ∧ queued T_init Size m' = []
    ∧ empty rb' m' = true
    ∧ region_ok Size m'
    ∧ write_index (header m') = write_index (header m)
    ∧ buffer m' = buffer m.
Proof.
  induction fuel as [| fuel IH]; intros clock rb m Hok Hh Hfuel; [lia |].
  simpl. destruct (try_read T_init Size (clock 0%nat) rb m) as [[r rb1] m1] eqn:E.
  destruct (try_read_queue m rb _ r rb1 m1 Hok Hh E) as (Hr & Hq & Hok1 & Hh1 & Hw1 & Hb1).
  pose proof (length_queued m) as Hlq. pose proof (length_queued m1) as Hlq1.
  unfold len in *.
  destruct r as [x |].
  - destruct (queued T_init Size m) as [| y q] eqn:Eq; [done |].
    simpl in Hr, Hq. injection Hr as ->.
    destruct (IH (λ k, clock (S k)) rb1 m1 Hok1 Hh1) as (rb2 & m2 & -> & Hq2 & He2 & Hok2 & Hw2 & Hb2).
    { rewrite Hq in Hlq1. simpl in Hlq. lia. }
    exists rb2, m2. rewrite Hq.
    split; [done |]. split; [done |]. split; [done |]. split; [done |].
    split; congruence.
  - exists rb1, m1. destruct (queued T_init Size m) as [| y q] eqn:Eq; [| done].
    simpl in Hq. split; [done |]. split; [done |]. split; [| done].
    unfold empty. rewrite Hh1. simpl. apply Z.eqb_eq.
    rewrite Hq in Hlq1. simpl in Hlq1. destruct Hok1 as (_ & (Hw & Hr' & _) & _).
    unfold depth, u64 in Hlq1. symmetry in Hlq1. apply Z.mod_divide in Hlq1; [| done].
    destruct Hlq1 as [k Hk]. lia.
Qed.


Lemma step_region_ok o (s : System T) r s' :
  attached s → region_ok Size (region s) → step T_init Size o s = (r, s') →
  attached s' ∧ region_ok Size (region s').
Proof.
  intros Ha Hok E. pose proof (region_ok_inv _ Hok) as HI. cbv zeta in HI.
  destruct (step_inv T_init Size Size_ok o s r s' _ _ _ _ Ha HI E) as (Ha' & bw' & br' & HI' & _).
  split; [done |]. by eapply inv_region_ok.
Qed.

Lemma len_take_le (l : list T) n : 0 ≤ n ≤ len l → len (take (Z.to_nat n) l) = n.
Proof. unfold len. intros Hn. rewrite length_take_le by lia. lia. Qed.

Local Ltac metrics_done :=
  unfold len; simpl; rewrite ?Z.add_0_r, ?u64_add_l; repeat split; (done || lia).

Lemma step_metrics o (s : System T) r s' tw tr c :
  attached s → region_ok Size (region s) →
  total_writes (header (region s)) = u64 tw →
  total_reads (header (region s)) = u64 tr →
  contention_events (header (region s)) = u64 c →
  0 ≤ max_queue_depth (header (region s)) ≤ Size →
  step T_init Size o s = (r, s') →
  0 ≤ max_queue_depth (header (region s')) ≤ Size
  ∧ total_writes (header (region s'))
    = (if is_reset o then 0 else u64 (tw + len (accepted o r)))
  ∧ total_reads (header (region s'))
    = (if is_reset o then 0 else u64 (tr + len (delivered r)))
  ∧ contention_events (header (region s'))
    = (if is_reset o then 0 else u64 (c + refused o r)).
Proof.
  intros [Hp Hc] Hok Htw Htr Hce Hmax E.
  pose proof (Size_bounds Size Size_ok) as HS.
  pose proof Hok as (_ & _ & Hd).
  pose proof (u64_range (write_index (header (region s)) - read_index (header (region s)))) as Hdr.
  fold (depth (region s)) in Hdr.
  destruct o as [item now | now | items now | count now | now | now]; simpl in E.
  - (* try_write *)
    destruct (try_write Size item now (producer s) (region s)) as [[b p] m] eqn:Ew.
    injection E as <- <-. simpl.
    unfold try_write in Ew. rewrite Hp in Ew. simpl in Ew.
    fold (depth (region s)) in Ew.
    destruct (Z.leb_spec Size (depth (region s))) as [Hf | Hf].
    + injection Ew as <- _ <-. simpl. rewrite Htw, Htr, Hce, u64_add_l.
      metrics_done.
    + injection Ew as <- _ <-. simpl.
      set (h1 := set_total_writes _ _).
      assert (Hsz : u64 (write_index h1 - read_index h1) = depth (region s) + 1).
      { apply (depth_after_write Size Size_ok (header (region s)) h1); done. }
      repeat match goal with
      | |- context [size ?a ?b] =>
          replace (size a b) with (depth (region s) + 1)
            by (unfold size; simpl; rewrite Hp; simpl; symmetry; exact Hsz)
      end.
      assert (Hrest : total_writes h1 = u64 (tw + len [item])
                      ∧ total_reads h1 = u64 (tr + len (@nil T))
                      ∧ contention_events h1 = u64 (c + 0)
                      ∧ max_queue_depth h1 = max_queue_depth (header (region s))).
      { subst h1. simpl. rewrite Htw, Htr, Hce. metrics_done. }
      destruct Hrest as (H1 & H2 & H3 & H4).
      rewrite <- H4.
      destruct (max_queue_depth h1 <? depth (region s) + 1) eqn:Em; simpl;
        rewrite ?H1, ?H2, ?H3, ?H4; (split; [lia | done]).
  - (* try_read *)
    destruct (try_read T_init Size now (consumer s) (region s)) as [[x p] m] eqn:Er.
    injection E as <- <-. simpl.
    unfold try_read in Er. rewrite Hc in Er. simpl in Er.
    destruct (read_index (header (region s)) =? write_index (header (region s))).
    + injection Er as <- _ <-. simpl. rewrite Htw, Htr, Hce.
      metrics_done.
    + injection Er as <- _ <-. simpl. rewrite Htw, Htr, Hce, u64_add_l.
      metrics_done.
  - (* try_write_batch *)
    destruct (try_write_batch Size items now (producer s) (region s)) as [[n p] m] eqn:Ew.
    injection E as <- <-. simpl.
    pose proof (region_ok_inv _ Hok) as HI. cbv zeta in HI.
    destruct (write_batch_inv Size Size_ok _ _ _ _ _ _ _ _ _ _ _ Hp HI Ew) as (_ & Hn & _).
    rewrite len_take_le by done.
    unfold try_write_batch in Ew. rewrite Hp in Ew. simpl in Ew.
    fold (depth (region s)) in Ew.
    destruct (u64 (Z.of_nat (length items)) =? 0) eqn:E0.
    { injection Ew as <- _ <-. rewrite Htw, Htr, Hce.
      metrics_done. }
    destruct (Z.min _ _ =? 0) eqn:E1.
    { injection Ew as <- _ <-. simpl. rewrite Htw, Htr, Hce, u64_add_l.
      metrics_done. }
    injection Ew as <- _ <-. simpl. rewrite Htw, Htr, Hce, u64_add_l.
    apply Z.eqb_neq in E1.
    destruct (Z.min _ _) eqn:Emin; [done | |];
      metrics_done.
  - (* try_read_batch *)
    destruct (try_read_batch T_init Size count now (consumer s) (region s)) as [[out p] m] eqn:Er.
    injection E as <- <-. simpl.
    unfold try_read_batch in Er. rewrite Hc in Er. simpl in Er.
    fold (depth (region s)) in Er.
    destruct (u64 count =? 0) eqn:E0.
    { injection Er as <- _ <-. rewrite Htw, Htr, Hce.
      metrics_done. }
    destruct (Z.min _ _ =? 0) eqn:E1.
    { injection Er as <- _ <-. simpl. rewrite Htw, Htr, Hce.
      metrics_done. }
    injection Er as <- _ <-. simpl. rewrite Htw, Htr, Hce, u64_add_l.
    unfold len. rewrite length_copy_out.
    pose proof (u64_range count).
    rewrite Z2Nat.id by lia.
    metrics_done.
  - destruct (reset_tta_metrics now (producer s) (region s)) as [p m] eqn:Er.
    injection E as <- <-. simpl.
    unfold reset_tta_metrics in Er. rewrite Hp in Er. simpl in Er.
    injection Er as _ <-. simpl. lia.
  - destruct (reset_tta_metrics now (consumer s) (region s)) as [p m] eqn:Er.
    injection E as <- <-. simpl.
    unfold reset_tta_metrics in Er. rewrite Hc in Er. simpl in Er.
    injection Er as _ <-. simpl. lia.
Qed.

Lemma since_reset_none (ops : list (op T)) : ∀ rs,
  existsb is_reset ops = false → since_reset ops rs = (ops, rs).
Proof.
  induction ops as [| o rest IH]; intros rs Hn; [done |].
  simpl in Hn. apply orb_false_elim in Hn as [Ho Hrest].
  destruct rs as [| r rs']; [done |]. simpl. by rewrite Hrest, Ho.
Qed.

Lemma run_metrics (ops : list (op T)) : ∀ s rs s' tw tr c,
  attached s → region_ok Size (region s) →
  total_writes (header (region s)) = u64 tw →
  total_reads (header (region s)) = u64 tr →
  contention_events (header (region s)) = u64 c →
  0 ≤ max_queue_depth (header (region s)) ≤ Size →
  run T_init Size ops s = (rs, s') →
  let sr := since_reset ops rs in
  let z := existsb is_reset ops in
  0 ≤ max_queue_depth (header (region s')) ≤ Size
  ∧ total_writes (header (region s'))
    = u64 ((if z then 0 else tw) + len (written_log sr.1 sr.2))
  ∧ total_reads (header (region s'))
    = u64 ((if z then 0 else tr) + len (read_log sr.2))
  ∧ contention_events (header (region s'))
    = u64 ((if z then 0 else c) + refusals sr.1 sr.2).
Proof.
  induction ops as [| o rest IH]; intros s rs s' tw tr c Ha Hok Htw Htr Hce Hmax E.
  { simpl in E. injection E as <- <-. simpl. unfold read_log, len. simpl.
    rewrite !Z.add_0_r. done. }
  simpl in E. destruct (step T_init Size o s) as [r s1] eqn:Es.
  destruct (run T_init Size rest s1) as [rs1 s2] eqn:Er. injection E as <- <-.
  destruct (step_region_ok o s r s1 Ha Hok Es) as [Ha1 Hok1].
  destruct (step_metrics o s r s1 tw tr c Ha Hok Htw Htr Hce Hmax Es)
    as (Hmax1 & Htw1 & Htr1 & Hce1).
  cbv zeta. simpl.
  destruct (existsb is_reset rest) eqn:Hz.
  - rewrite orb_true_r.
    assert (H0 : ∀ z, (if is_reset o then 0 else u64 z) = u64 (if is_reset o then 0 else u64 z)).
    { intros z. destruct (is_reset o); [done |]. symmetry. apply u64_small, u64_range. }
    rewrite H0 in Htw1, Htr1, Hce1.
    specialize (IH s1 rs1 s2 _ _ _ Ha1 Hok1 Htw1 Htr1 Hce1 Hmax1 Er).
    cbv zeta in IH. exact IH.
  - rewrite orb_false_r.
    destruct (is_reset o) eqn:Ho.
    + specialize (IH s1 rs1 s2 0 0 0 Ha1 Hok1 Htw1 Htr1 Hce1 Hmax1 Er).
      cbv zeta in IH. rewrite since_reset_none in IH by done. exact IH.
    + assert (H0 : ∀ z, u64 z = u64 (u64 z)).
      { intros z. symmetry. apply u64_small, u64_range. }
      rewrite H0 in Htw1, Htr1, Hce1.
      specialize (IH s1 rs1 s2 _ _ _ Ha1 Hok1 Htw1 Htr1 Hce1 Hmax1 Er).
      cbv zeta in IH. rewrite since_reset_none in IH by done. simpl in IH.
      destruct IH as (IH1 & IH2 & IH3 & IH4).
      split; [done |]. simpl. unfold read_log. rewrite fmap_cons. simpl.
      fold (read_log rs1). rewrite !len_app.
      rewrite IH2, IH3, IH4, !u64_add_l. repeat split; f_equal; lia.
Qed.

(** X5: after any run on a fresh buffer, [total_writes] is the number of
    records accepted since the last [reset_tta_metrics] (since creation
    when there was none), [total_reads] the number delivered, and
    [contention_events] the number of write calls refused because the
    buffer was full, all modulo [2^64]; [max_queue_depth] never exceeds
    [Size]. *)
Theorem ring_metrics now0 (ops : list (op T)) :
  let '(rs, s) := run T_init Size ops (fresh_system T_init Size now0) in
  let '(ops', rs') := since_reset ops rs in
  let h := header (region s) in
  total_writes h = u64 (len (written_log ops' rs'))
  ∧ total_reads h = u64 (len (read_log rs'))
  ∧ contention_events h = u64 (refusals ops' rs')
  ∧ 0 ≤ max_queue_depth h ≤ Size.
Proof.
  destruct (run T_init Size ops (fresh_system T_init Size now0)) as [rs s] eqn:E.
  pose proof (Size_bounds Size Size_ok) as HS.
  pose proof (run_metrics ops _ rs s 0 0 0 (fresh_attached T_init Size now0)
                (inv_region_ok _ _ _ _ _ (fresh_inv T_init Size Size_ok))
                eq_refl eq_refl eq_refl ltac:(simpl; lia) E) as H.
  cbv zeta in H. destruct (since_reset ops rs) as [ops' rs']. simpl in H.
  destruct H as (H1 & H2 & H3 & H4).
  destruct (existsb is_reset ops); simpl in *; done.
Qed.

End MoreFacts.

Lemma near_wrap_region_ok : region_ok 64 near_wrap_region.
Proof. repeat split; by vm_compute. Qed.

Lemma queue_single_ops_witness :
  static_asserts 64 = true
  ∧ region_ok 64 near_wrap_region
  ∧ header_ (open_handle true 0) = true
  ∧ (try_write 64 9 1 (open_handle true 0) near_wrap_region).1.1 = true
  ∧ write_index (header (try_write 64 9 1 (open_handle true 0) near_wrap_region).2) = 0
  ∧ ((let '(b, rb', m') := try_write 64 9 1 (open_handle true 0) near_wrap_region in
      b = negb (full 64 (open_handle true 0) near_wrap_region)
      ∧ queued 0 64 m' = queued 0 64 near_wrap_region ++ (if b then [9] else [])
      ∧ region_ok 64 m' ∧ header_ rb' = true)
     ∧ (let '(r, rb', m') := try_read 0 64 1 (open_handle true 0) near_wrap_region in
        r = head (queued 0 64 near_wrap_region)
        ∧ queued 0 64 m' = tail (queued 0 64 near_wrap_region)
        ∧ region_ok 64 m' ∧ header_ rb' = true)).
Proof.
  split; [reflexivity |]. split; [exact near_wrap_region_ok |]. split; [reflexivity |].
  split; [reflexivity |]. split; [reflexivity |].
  exact (queue_single_ops 0 64 eq_refl near_wrap_region (open_handle true 0) 9 1
           near_wrap_region_ok eq_refl).
Defined.

Lemma queue_batch_ops_witness :
  static_asserts 64 = true
  ∧ region_ok 64 near_wrap_region
  ∧ header_ (open_handle true 0) = true
  ∧ len [8; 9; 10] < 2 ^ 64
  ∧ (try_read_batch 0 64 3 2 (open_handle false 0)
       (try_write_batch 64 [8; 9; 10] 1 (open_handle true 0) near_wrap_region).2).1.1
    = [7; 8; 9]
  ∧ ((let '(n, rb', m') := try_write_batch 64 [8; 9; 10] 1 (open_handle true 0)
                             near_wrap_region in
      n = Z.min (len [8; 9; 10]) (64 - depth near_wrap_region)
      ∧ queued 0 64 m' = queued 0 64 near_wrap_region ++ take (Z.to_nat n) [8; 9; 10]
      ∧ region_ok 64 m' ∧ header_ rb' = true)
     ∧ (let '(out, rb', m') := try_read_batch 0 64 3 1 (open_handle true 0)
                                 near_wrap_region in
        out = take (Z.to_nat (u64 3)) (queued 0 64 near_wrap_region)
        ∧ queued 0 64 m' = drop (Z.to_nat (u64 3)) (queued 0 64 near_wrap_region)
        ∧ region_ok 64 m' ∧ header_ rb' = true)).
Proof.
  split; [reflexivity |]. split; [exact near_wrap_region_ok |]. split; [reflexivity |].
  split; [reflexivity |]. split; [reflexivity |].
  exact (queue_batch_ops 0 64 eq_refl near_wrap_region (open_handle true 0) [8; 9; 10] 3 1
           near_wrap_region_ok eq_refl eq_refl).
Defined.

Lemma observers_agree_witness :
  static_asserts 64 = true
  ∧ header_ (open_handle false 0) = true
  ∧ (let m := region (run 0 64 [TryWrite 7 1; TryWriteBatch [8; 9] 2; TryRead 3]
                        (fresh_system 0 64 0)).2 in
     size (open_handle false 0) m = len (queued 0 64 m)
     ∧ 0 ≤ size (open_handle false 0) m ≤ 64
     ∧ (empty (open_handle false 0) m = true ↔ size (open_handle false 0) m = 0)
     ∧ (full 64 (open_handle false 0) m = true ↔ size (open_handle false 0) m = 64)).
Proof.
  split; [reflexivity |]. split; [reflexivity |].
  exact (observers_agree 0 64 eq_refl 0 [TryWrite 7 1; TryWriteBatch [8; 9] 2; TryRead 3]
           (open_handle false 0) eq_refl).
Defined.

Lemma drain_empties_witness :
  static_asserts 64 = true
  ∧ region_ok 64 near_wrap_region
  ∧ header_ (open_handle false 0) = true
  ∧ (Z.to_nat (depth near_wrap_region) < 2)%nat
  ∧ ∃ rb' m',
      drain 0 64 2 (λ k, Z.of_nat k) (open_handle false 0) near_wrap_region
      = Some (queued 0 64 near_wrap_region, rb', m')
      ∧ queued 0 64 m' = []
      ∧ empty rb' m' = true
      ∧ region_ok 64 m'
      ∧ write_index (header m') = write_index (header near_wrap_region)
      ∧ buffer m' = buffer near_wrap_region.
Proof.
  assert (Hfuel : (Z.to_nat (depth near_wrap_region) < 2)%nat) by (vm_compute; lia).
  split; [reflexivity |]. split; [exact near_wrap_region_ok |]. split; [reflexivity |].
  split; [exact Hfuel |].
  exact (drain_empties 0 64 eq_refl 2 (λ k, Z.of_nat k) (open_handle false 0) near_wrap_region
           near_wrap_region_ok eq_refl Hfuel).
Defined.

Lemma ring_metrics_witness :
  static_asserts 64 = true
  ∧ (let '(rs, s) := run 0 64 [TryWrite 7 1; ResetProducer 2; TryWriteBatch [8; 9] 3; TryRead 4]
                       (fresh_system 0 64 0) in
     let '(ops', rs') := since_reset [TryWrite 7 1; ResetProducer 2; TryWriteBatch [8; 9] 3;
                                      TryRead 4] rs in
     let h := header (region s) in
     total_writes h = u64 (len (written_log ops' rs'))
     ∧ total_reads h = u64 (len (read_log rs'))
     ∧ contention_events h = u64 (refusals ops' rs')
     ∧ 0 ≤ max_queue_depth h ≤ 64).
Proof.
  split; [reflexivity |].
  exact (ring_metrics 0 64 eq_refl 0
           [TryWrite 7 1; ResetProducer 2; TryWriteBatch [8; 9] 3; TryRead 4]).
Defined.

End RingFacts.

(** ** Memory pool *)

Module PoolFacts.
Import Pool.

Lemma size_class_loop_range n : ∀ sc cur sz,
  0 ≤ sc → sc + Z.of_nat n ≤ NUM_SIZE_CLASSES - 1 →
  0 ≤ size_class_loop n sc cur sz ≤ NUM_SIZE_CLASSES - 1.
Proof.
  induction n as [| n IH]; intros sc cur sz Hsc Hn; simpl.
  - unfold NUM_SIZE_CLASSES. lia.
  - destruct (sz <=? cur); [lia |]. apply IH; lia.
Qed.

Lemma get_size_class_range sz : 0 ≤ get_size_class sz ≤ NUM_SIZE_CLASSES - 1.
Proof.
  unfold get_size_class. destruct (sz =? 0); [unfold NUM_SIZE_CLASSES; lia |].
  destruct (sz <? MIN_ALLOCATION_SIZE); [unfold NUM_SIZE_CLASSES; lia |].
  apply size_class_loop_range; unfold NUM_SIZE_CLASSES; lia.
Qed.

Lemma take_from_larger_none sc larger p :
  (∀ k, k ∈ larger → free_list k p = nullptr) →
  take_from_larger sc larger p = (Returned nullptr, p).
Proof.
  induction larger as [| k rest IH]; intros Hnone; simpl; [done |].
  unfold bind at 1, get. rewrite (Hnone k) by apply list_elem_of_here. simpl.
  apply IH. intros k' Hk'. apply Hnone. by apply list_elem_of_further.
Qed.

(** With every free list from class [sc] upwards empty, the search finds
    nothing and touches nothing. *)
Lemma allocate_from_size_class_none sc p :
  0 ≤ sc → no_suitable_block sc p →
  allocate_from_size_class sc p = (Returned nullptr, p).
Proof.
  intros Hsc Hnone. unfold allocate_from_size_class.
  destruct (Z.leb_spec NUM_SIZE_CLASSES sc) as [Hge | Hlt]; [done |].
  unfold bind at 1, get. rewrite (Hnone sc) by lia. simpl.
  apply take_from_larger_none. intros k Hk.
  apply elem_of_seqZ in Hk. apply Hnone. lia.
Qed.

(** C2: what [allocate] does when no free list can serve the request and
    the operating system refuses to map a new chunk: the exception thrown by
    the chunk constructor leaves [allocate]; no null pointer is returned. *)
Theorem allocate_mmap_failure_throws os size_bytes alignment_bytes p :
  0 < size_bytes < 2 ^ 64 →
  no_suitable_block (request_class size_bytes alignment_bytes) p →
  (∀ n, mmap os n = None) →
  allocate os size_bytes alignment_bytes p = (Thrown bad_alloc, p).
Proof.
  intros Hsz Hnone Hmmap. unfold allocate.
  destruct (Z.eqb_spec size_bytes 0) as [? | _]; [lia |].
  fold (request_class size_bytes alignment_bytes).
  unfold bind at 1.
  rewrite allocate_from_size_class_none;
    [| apply get_size_class_range | exact Hnone].
  simpl. unfold bind at 1. unfold bind at 1.
  unfold add_chunk. unfold bind at 1. unfold get at 1.
  unfold bind at 1. unfold new_Chunk. by rewrite Hmmap.
Qed.

Lemma allocate_mmap_failure_throws_witness :
  0 < 200 < 2 ^ 64
  ∧ no_suitable_block (request_class 200 128) empty_pool
  ∧ (∀ n, mmap exhausted_os n = None)
  ∧ allocate exhausted_os 200 128 empty_pool = (Thrown bad_alloc, empty_pool).
Proof.
  assert (H1 : 0 < 200 < 2 ^ 64) by lia.
  assert (H2 : no_suitable_block (request_class 200 128) empty_pool).
  { intros k Hk. unfold free_list.
    change (free_lists_ empty_pool) with (replicate (Z.to_nat NUM_SIZE_CLASSES) nullptr).
    destruct (lookup_lt_is_Some_2 (replicate (Z.to_nat NUM_SIZE_CLASSES) nullptr) (Z.to_nat k))
      as [x Hx]; [rewrite length_replicate; unfold NUM_SIZE_CLASSES in *; lia |].
    rewrite Hx. simpl. by apply lookup_replicate in Hx as [-> _]. }
  assert (H3 : ∀ n, mmap exhausted_os n = None) by done.
  split; [exact H1 |]. split; [exact H2 |]. split; [exact H3 |].
  exact (allocate_mmap_failure_throws exhausted_os 200 128 empty_pool H1 H2 H3).
Defined.

(** The arena path of the same pool catches that exception and returns a
    null pointer. *)
Lemma allocate_arena_mmap_failure os size_bytes p :
  (∀ n, mmap os n = None) →
  allocate_arena os size_bytes p = (Returned nullptr, p).
Proof.
  intros Hmmap. unfold allocate_arena. destruct (size_bytes =? 0); [done |].
  unfold catch_bad_alloc, bind, new_Chunk. by rewrite Hmmap.
Qed.

(** C9: a request for zero bytes returns a null pointer and leaves the pool
    as it was. *)
Theorem allocate_zero os alignment_bytes p :
  allocate os 0 alignment_bytes p = (Returned nullptr, p).
Proof. reflexivity. Qed.

(** *** Alignment helpers and size classes *)

Lemma is_power_of_two_pow2 (value : Z) :
  0 ≤ value < 2 ^ 64 → is_power_of_two value = true → ∃ k, 0 ≤ k < 64 ∧ value = 2 ^ k.
Proof.
  intros Hv. unfold is_power_of_two. rewrite andb_true_iff, negb_true_iff, Z.eqb_eq, Z.eqb_neq.
  intros [Hnz Hland]. rewrite u64_small in Hland by lia.
  destruct (land_pred_pow2 value ltac:(lia) Hland) as (k & Hk & ->).
  exists k. split; [| done]. split; [done |].
  destruct (Z.lt_ge_cases k 64) as [? | Hge]; [done |].
  pose proof (Z.pow_le_mono_r 2 64 k ltac:(lia) Hge). lia.
Qed.

(** X6: on 64-bit values, [is_power_of_two] holds exactly of the powers of
    two [2^0 .. 2^63]; in particular it rejects zero. *)
Theorem is_power_of_two_spec (value : Z) :
  0 ≤ value < 2 ^ 64 →
  is_power_of_two value = true ↔ ∃ k, 0 ≤ k < 64 ∧ value = 2 ^ k.
Proof.
  intros Hv. split; [by apply is_power_of_two_pow2 |].
  intros (k & Hk & ->). unfold is_power_of_two.
  rewrite andb_true_iff, negb_true_iff, Z.eqb_eq, Z.eqb_neq.
  pose proof (Z.pow_pos_nonneg 2 k ltac:(lia) ltac:(lia)).
  split; [lia |]. rewrite u64_small by lia.
  replace (2 ^ k - 1) with (Z.ones k) by (rewrite Z.ones_equiv; lia).
  rewrite Z.land_ones by lia. apply Z.mod_same. lia.
Qed.

(** X7: for a power-of-two alignment and a value that leaves room below
    [2^64], [align_up] returns the least multiple of the alignment that is
    not below the value. *)
Theorem align_up_spec (value alignment : Z) k :
  0 ≤ k → alignment = 2 ^ k → 0 ≤ value → value + alignment ≤ 2 ^ 64 →
  align_up value alignment = alignment * ((value + alignment - 1) / alignment)
  ∧ value ≤ align_up value alignment < value + alignment
  ∧ align_up value alignment mod alignment = 0.
Proof.
  intros Hk -> Hv Hno. pose proof (Z.pow_pos_nonneg 2 k ltac:(lia) Hk) as Hp.
  unfold align_up.
  rewrite (u64_small (value + 2 ^ k - 1)), (u64_small (2 ^ k - 1)) by lia.
  assert (E : Z.land (value + 2 ^ k - 1) (Z.lnot (2 ^ k - 1))
              = 2 ^ k * ((value + 2 ^ k - 1) / 2 ^ k)).
  { replace (2 ^ k - 1) with (Z.ones k) by (rewrite Z.ones_equiv; lia).
    rewrite <- Z.ldiff_land, Z.ldiff_ones_r by lia.
    rewrite Z.shiftr_div_pow2, Z.shiftl_mul_pow2 by lia. lia. }
  rewrite E.
  pose proof (Z.div_mod (value + 2 ^ k - 1) (2 ^ k) ltac:(lia)) as Hdm.
  pose proof (Z.mod_pos_bound (value + 2 ^ k - 1) (2 ^ k) Hp) as Hmb.
  rewrite u64_small by lia.
  split; [done |]. split; [lia |].
  rewrite Z.mul_comm. apply Z.mod_mul. lia.
Qed.

Lemma size_class_loop_spec n : ∀ sc sz,
  0 ≤ sc → sc + Z.of_nat n = 15 → (0 < sc → 64 * 2 ^ (sc - 1) < sz) →
  let c := size_class_loop n sc (64 * 2 ^ sc) sz in
  sc ≤ c ≤ 15 ∧ (c < 15 → sz ≤ 64 * 2 ^ c) ∧ (0 < c → 64 * 2 ^ (c - 1) < sz).
Proof.
  induction n as [| n IH]; intros sc sz Hsc Hn Hlow; simpl.
  - unfold NUM_SIZE_CLASSES. assert (sc = 15) as -> by lia. split; [lia |]. split; [lia |]. done.
  - destruct (Z.leb_spec sz (64 * 2 ^ sc)) as [Hle | Hgt].
    + split; [lia |]. done.
    + assert (Hpow : 64 * 2 ^ sc * 2 = 64 * 2 ^ (sc + 1)).
      { rewrite Z.pow_add_r by lia. lia. }
      assert (Hb : 0 < 2 ^ sc ≤ 2 ^ 15).
      { split; [apply Z.pow_pos_nonneg; lia | apply Z.pow_le_mono_r; lia]. }
      rewrite u64_small by lia. rewrite Hpow.
      destruct (IH (sc + 1) sz ltac:(lia) ltac:(lia)) as (H1 & H2 & H3).
      { intros _. by replace (sc + 1 - 1) with sc by lia. }
      split; [lia |]. done.
Qed.

Lemma get_size_for_class_eq c : 0 ≤ c ≤ 15 → get_size_for_class c = 64 * 2 ^ c.
Proof.
  intros Hc. unfold get_size_for_class, NUM_SIZE_CLASSES, MIN_ALLOCATION_SIZE.
  destruct (Z.leb_spec 16 c); [lia |].
  rewrite Z.shiftl_mul_pow2 by lia.
  assert (Hb : 0 < 2 ^ c ≤ 2 ^ 15).
  { split; [apply Z.pow_pos_nonneg; lia | apply Z.pow_le_mono_r; lia]. }
  apply u64_small. lia.
Qed.

Lemma get_size_class_spec sz :
  0 < sz →
  let c := get_size_class sz in
  0 ≤ c ≤ 15 ∧ (c < 15 → sz ≤ 64 * 2 ^ c) ∧ (0 < c → 64 * 2 ^ (c - 1) < sz).
Proof.
  intros Hsz. unfold get_size_class, MIN_ALLOCATION_SIZE, NUM_SIZE_CLASSES.
  destruct (Z.eqb_spec sz 0); [lia |].
  destruct (Z.ltb_spec sz 64).
  { simpl. split; [lia |]. split; [lia |]. lia. }
  apply (size_class_loop_spec 15 0 sz); simpl; lia.
Qed.

(** X8: a request of up to 2 MiB falls in the smallest size class whose
    block size, [64 << class], holds it; every larger request falls in the
    last class, whose block size is smaller than the request. *)
Theorem size_class_fits sz :
  0 < sz →
  let c := get_size_class sz in
  0 ≤ c < NUM_SIZE_CLASSES
  ∧ (sz ≤ 2097152 → sz ≤ get_size_for_class c
                    ∧ (0 < c → get_size_for_class (c - 1) < sz))
  ∧ (2097152 < sz → c = NUM_SIZE_CLASSES - 1 ∧ get_size_for_class c < sz).
Proof.
  intros Hsz c. destruct (get_size_class_spec sz Hsz) as (Hc & Hup & Hlow). fold c in Hc, Hup, Hlow.
  unfold NUM_SIZE_CLASSES. split; [lia |].
  rewrite get_size_for_class_eq by lia.
  change 2097152 with (64 * 2 ^ 15).
  split.
  - intros Hle. split.
    + destruct (Z.eq_dec c 15) as [-> | Hne]; [done |]. apply Hup. lia.
    + intros Hpos. rewrite get_size_for_class_eq by lia. by apply Hlow.
  - intros Hgt. destruct (Z.eq_dec c 15) as [-> | Hne]; [done |].
    specialize (Hup ltac:(lia)).
    assert (2 ^ c ≤ 2 ^ 15) by (apply Z.pow_le_mono_r; lia). lia.
Qed.

(** *** Steps of the pool monad *)

Lemma bind_modify {B} f (k : M B) p : (modify f ;;; k) p = k (f p).
Proof. done. Qed.

Lemma bind_get {A B} (f : MemoryPool → A) (k : A → M B) p : (x <- get f ;; k x) p = k (f p) p.
Proof. done. Qed.

Lemma bind_store {B} addr b (k : M B) p :
  (store_block addr b ;;; k) p = k (set_blocks (λ h, <[addr := b]> h) p).
Proof. done. Qed.

Lemma bind_load {B} addr (k : Block → M B) p b :
  blocks p !! addr = Some b → (x <- load_block addr ;; k x) p = k b p.
Proof. intros H. unfold bind, load_block. by rewrite H. Qed.

Lemma bind_assert_true {B} (k : M B) p : (assert_ true ;;; k) p = k p.
Proof. done. Qed.

Lemma bind_assert_false {B} (k : M B) p : (assert_ false ;;; k) p = (Aborted, p).
Proof. done. Qed.

Lemma bind_ret {A B} (a : A) (k : A → M B) p : (x <- ret a ;; k x) p = k a p.
Proof. done. Qed.

(** What [add_block_to_free_list] does to a valid header. *)
Lemma add_block_to_free_list_valid block p b :
  block ≠ nullptr → blocks p !! block = Some b → is_valid b = true →
  let sc := Z.min (size_class b) (NUM_SIZE_CLASSES - 1) in
  add_block_to_free_list block p
  = (Returned tt,
     set_free_list sc block
       (set_blocks (λ h, <[block := mkBlock (size b) (size_class b) true (free_list sc p)
                                            (magic b)]> h) p)).
Proof.
  intros Hnz Hb Hv sc. unfold add_block_to_free_list.
  destruct (Z.eqb_spec block nullptr); [done |]. simpl negb.
  rewrite bind_assert_true, (bind_load _ _ _ b Hb), Hv, bind_assert_true, bind_get.
  destruct (is_free b) eqn:Hf; simpl; fold sc; rewrite bind_store; unfold modify; simpl;
    by rewrite ?Hf.
Qed.

(** *** Arenas *)

Lemma release_arena_unknown arena_ptr p :
  list_find (λ c, is_arena_at arena_ptr c = true) (chunks_ p) = None →
  release_arena arena_ptr p = (Returned tt, p).
Proof.
  intros Hnone. unfold release_arena. destruct (arena_ptr =? nullptr); [done |].
  unfold bind, get. by rewrite Hnone.
Qed.

Lemma list_find_snoc_new {A} (P : A → Prop) `{∀ x, Decision (P x)} (l : list A) (x : A) :
  list_find P l = None → P x → list_find P (l ++ [x]) = Some (length l, x).
Proof.
  intros Hnone Hx. apply list_find_Some. split; [by apply list_lookup_middle |].
  split; [done |]. intros j y Hj Hlt. rewrite lookup_app_l in Hj by done.
  apply list_find_None in Hnone. rewrite Forall_forall in Hnone.
  apply Hnone. by eapply list_elem_of_lookup_2.
Qed.

Lemma delete_snoc {A} (l : list A) (x : A) : delete (length l) (l ++ [x]) = l.
Proof. induction l as [| y l IH]; simpl; [done | by rewrite IH]. Qed.

(** X9: when [mmap] succeeds, [allocate_arena] returns the mapped address
    and records the mapping as an arena chunk; [release_arena] of that
    address removes the chunk again, so that the pool has the chunks, the
    byte counts, the free lists and the block headers it had, and one
    allocation and one deallocation more on its counters. *)
Theorem arena_round_trip os size_bytes p addr :
  0 < size_bytes → mmap os size_bytes = Some addr → addr ≠ nullptr →
  list_find (λ c, is_arena_at addr c = true) (chunks_ p) = None →
  0 ≤ total_allocated_ p → total_allocated_ p + size_bytes < 2 ^ 64 →
  ∃ p1 p2,
    allocate_arena os size_bytes p = (Returned addr, p1)
    ∧ chunks_ p1 = chunks_ p ++ [mkChunk addr size_bytes size_bytes true]
    ∧ total_allocated_ p1 = total_allocated_ p + size_bytes
    ∧ release_arena addr p1 = (Returned tt, p2)
    ∧ chunks_ p2 = chunks_ p
    ∧ total_allocated_ p2 = total_allocated_ p
    ∧ total_free_ p2 = total_free_ p
    ∧ free_lists_ p2 = free_lists_ p
    ∧ blocks p2 = blocks p
    ∧ allocation_count_ p2 = u64 (allocation_count_ p + 1)
    ∧ deallocation_count_ p2 = u64 (deallocation_count_ p + 1).
Proof.
  intros Hsz Hmap Hnz Hfresh Hta Hno.
  unfold allocate_arena. destruct (Z.eqb_spec size_bytes 0); [lia |].
  unfold catch_bad_alloc, bind, new_Chunk. rewrite Hmap. simpl.
  eexists _, _. split; [reflexivity |]. simpl.
  split; [done |]. split; [apply u64_small; lia |].
  unfold release_arena. destruct (Z.eqb_spec addr nullptr); [done |].
  unfold bind, get. simpl.
  rewrite (list_find_snoc_new _ _ (mkChunk addr size_bytes size_bytes true) Hfresh).
  2:{ unfold is_arena_at. simpl. by rewrite Z.eqb_refl. }
  simpl. split; [reflexivity |]. simpl.
  rewrite delete_snoc. split; [done |].
  rewrite (u64_small (total_allocated_ p + size_bytes)) by lia.
  destruct (Z.leb_spec size_bytes (total_allocated_ p + size_bytes)); [| lia].
  replace (total_allocated_ p + size_bytes - size_bytes) with (total_allocated_ p) by lia.
  rewrite u64_small by lia. done.
Qed.

Lemma allocate_arena_cases os size_bytes p :
  size_bytes ≠ 0 →
  (mmap os size_bytes = None ∧ allocate_arena os size_bytes p = (Returned nullptr, p))
  ∨ ∃ addr p1,
      mmap os size_bytes = Some addr
      ∧ allocate_arena os size_bytes p = (Returned addr, p1)
      ∧ chunks_ p1 = chunks_ p ++ [mkChunk addr size_bytes size_bytes true]
      ∧ free_lists_ p1 = free_lists_ p ∧ blocks p1 = blocks p.
Proof.
  intros Hnz. unfold allocate_arena. destruct (Z.eqb_spec size_bytes 0); [done |].
  unfold catch_bad_alloc, bind, new_Chunk.
  destruct (mmap os size_bytes) as [addr |]; simpl; [right | by left].
  by eexists _, _.
Qed.

(** *** Release *)

Lemma scan_blocks_layout fuel : ∀ chunk_end cur user_ptr p q,
  same_layout (blocks p) (blocks q) →
  ∃ o, scan_blocks fuel chunk_end cur user_ptr p = (o, p)
       ∧ scan_blocks fuel chunk_end cur user_ptr q = (o, q).
Proof.
  induction fuel as [| fuel IH]; intros chunk_end cur user_ptr p q Hl; simpl.
  { by exists Undefined. }
  destruct (cur <? chunk_end); [| by exists (Returned None)].
  unfold bind, load_block. specialize (Hl cur) as Hc.
  destruct (blocks p !! cur) as [b1 |], (blocks q !! cur) as [b2 |]; try done.
  2:{ by exists Undefined. }
  destruct Hc as [Hs Hm]. unfold is_valid. rewrite Hs, Hm.
  destruct (negb (magic b2 =? MAGIC)); [by exists (Returned None) |].
  destruct ((data cur <=? user_ptr) && (user_ptr <? data cur + size b2)).
  { by exists (Returned (Some cur)). }
  by apply IH.
Qed.

Lemma find_block_layout chunks : ∀ user_ptr p q,
  same_layout (blocks p) (blocks q) →
  ∃ o, find_block chunks user_ptr p = (o, p) ∧ find_block chunks user_ptr q = (o, q).
Proof.
  induction chunks as [| c rest IH]; intros user_ptr p q Hl; simpl.
  { by exists (Returned None). }
  destruct (contains c user_ptr); [| by apply IH].
  unfold bind.
  destruct (scan_blocks_layout (scan_fuel c) (memory c + used c) (memory c) user_ptr p q Hl)
    as (o & -> & ->).
  destruct o as [[b |] | | |]; try by eexists.
  by apply IH.
Qed.

Lemma same_layout_refl h : same_layout h h.
Proof. intros a. by destruct (h !! a). Qed.

Lemma same_layout_insert h a b b' :
  h !! a = Some b → size b' = size b → magic b' = magic b →
  same_layout h (<[a := b']> h).
Proof.
  intros Ha Hs Hm x. destruct (decide (x = a)) as [-> | Hne].
  - rewrite Ha, lookup_insert_eq. done.
  - rewrite lookup_insert_ne by done. by destruct (h !! x).
Qed.

Lemma same_layout_trans h1 h2 h3 :
  same_layout h1 h2 → same_layout h2 h3 → same_layout h1 h3.
Proof.
  intros H12 H23 a. specialize (H12 a). specialize (H23 a).
  destruct (h1 !! a), (h2 !! a), (h3 !! a); try done.
  destruct H12, H23. split; congruence.
Qed.

(** What a release that frees a block does to the pool. *)
Lemma release_frees user_ptr p p1 :
  release user_ptr p = (Returned tt, p1) →
  p1 = p
  ∨ ∃ block b b1,
      find_block (chunks_ p) user_ptr p = (Returned (Some block), p)
      ∧ blocks p !! block = Some b ∧ is_free b = false
      ∧ blocks p1 = <[block := b1]> (blocks p)
      ∧ size b1 = size b ∧ magic b1 = magic b ∧ is_free b1 = true
      ∧ chunks_ p1 = chunks_ p.
Proof.
  unfold release. destruct (user_ptr =? nullptr).
  { intros E. left. by injection E. }
  rewrite bind_get. unfold bind at 1.
  destruct (find_block_layout (chunks_ p) user_ptr p p (same_layout_refl _)) as (o & Hf & _).
  rewrite Hf. destruct o as [[block |] | | |]; try discriminate.
  2:{ intros E. left. by injection E. }
  unfold bind at 1. unfold load_block at 1.
  destruct (blocks p !! block) as [b |] eqn:Hb; [| discriminate].
  destruct (is_valid b && negb (is_free b)) eqn:Hc.
  2:{ intros E. left. by injection E. }
  apply andb_prop in Hc as [Hv Hnf]. apply negb_true_iff in Hnf.
  rewrite bind_modify, bind_store.
  destruct (Z.eq_dec block nullptr) as [-> | Hnz].
  { unfold add_block_to_free_list. simpl. discriminate. }
  erewrite add_block_to_free_list_valid; [| done | simpl; apply lookup_insert_eq | done].
  intros E. injection E as <-. right. simpl.
  eexists block, b, _. split; [done |]. split; [done |]. split; [done |].
  split; [by rewrite insert_insert_eq |]. done.
Qed.

(** X10: releasing the same pointer a second time changes nothing: the
    block found is already free, so the statistics, the free lists and the
    headers stay as the first release left them. *)
Theorem release_twice user_ptr p p1 :
  release user_ptr p = (Returned tt, p1) →
  release user_ptr p1 = (Returned tt, p1).
Proof.
  intros E. destruct (release_frees user_ptr p p1 E)
    as [-> | (block & b & b1 & Hf & Hb & Hnf & Hbl & Hs & Hm & Hfree & Hch)]; [done |].
  unfold release. destruct (user_ptr =? nullptr); [done |].
  unfold bind at 1. unfold get. unfold bind at 1. rewrite Hch.
  destruct (find_block_layout (chunks_ p) user_ptr p p1) as (o & Hf1 & Hf2).
  { rewrite Hbl. by apply (same_layout_insert _ _ b). }
  rewrite Hf in Hf1. injection Hf1 as <-. rewrite Hf2.
  unfold bind, load_block. rewrite Hbl, lookup_insert_eq.
  by rewrite Hfree, andb_false_r.
Qed.

(** *** Mappings *)

Lemma calculate_padding_spec addr alignment :
  0 < alignment < 2 ^ 64 → 
  let padding := calculate_padding addr alignment in
  0 ≤ padding < alignment ∧ (addr + padding) mod alignment = 0.
Proof.
  intros Hal. unfold calculate_padding.
  pose proof (Z.mod_pos_bound addr alignment ltac:(lia)) as Hm.
  destruct (Z.eqb_spec (addr mod alignment) 0) as [E | E]; simpl.
  - split; [lia |]. by rewrite Z.add_0_r.
  - rewrite u64_small by lia. split; [lia |].
    pose proof (Z.div_mod addr alignment ltac:(lia)) as Hdm.
    replace (addr + (alignment - addr mod alignment))
      with ((addr / alignment + 1) * alignment) by lia.
    apply Z.mod_mul. lia.
Qed.

Lemma pairs_snoc {A} (R : A → A → Prop) l x :
  ForallOrdPairs R l → Forall (λ a, R a x) l → ForallOrdPairs R (l ++ [x]).
Proof.
  induction 1 as [| a l Ha Hl IH]; intros Hx; simpl.
  - repeat constructor.
  - apply Forall_cons in Hx as [Hax Hlx]. constructor; [| by apply IH].
    apply Forall_app. split; [exact Ha | by constructor].
Qed.

Lemma apart_within (r1 r2 c1 c2 : Z * Z) :
  apart c1 c2 →
  c1.1 ≤ r1.1 → r1.1 + r1.2 ≤ c1.1 + c1.2 →
  c2.1 ≤ r2.1 → r2.1 + r2.2 ≤ c2.1 + c2.2 →
  apart r1 r2.
Proof. unfold apart. lia. Qed.

Lemma chunks_ok_snoc p p1 addr n :
  chunks_ok p → 0 < n →
  Forall (λ c, apart (addr, n) (extent c)) (chunks_ p) →
  chunks_ p1 = chunks_ p ++ [mkChunk addr n n true] →
  chunks_ok p1.
Proof.
  intros [Hpos Hap] Hn Hfresh Hch. split; rewrite Hch.
  - apply Forall_app. split; [done |]. by repeat constructor.
  - intros i j c1 c2 Hi Hj Hne.
    rewrite Forall_forall in Hfresh.
    apply lookup_app_Some in Hi as [Hi1 | [Hil Hi2]];
      apply lookup_app_Some in Hj as [Hj1 | [Hjl Hj2]].
    + by eapply Hap.
    + apply list_lookup_singleton_Some in Hj2 as [_ <-].
      specialize (Hfresh c1 (list_elem_of_lookup_2 _ _ _ Hi1)).
      unfold apart, extent in *. simpl in *. lia.
    + apply list_lookup_singleton_Some in Hi2 as [_ <-].
      exact (Hfresh c2 (list_elem_of_lookup_2 _ _ _ Hj1)).
    + apply list_lookup_singleton_Some in Hi2 as [Hi2 _].
      apply list_lookup_singleton_Some in Hj2 as [Hj2 _]. lia.
Qed.

Lemma chunks_ok_distinct p (i j : nat) c1 c2 :
  chunks_ok p → chunks_ p !! i = Some c1 → chunks_ p !! j = Some c2 → i ≠ j →
  memory c1 ≠ memory c2.
Proof.
  intros [Hpos Hap] Hi Hj Hne. specialize (Hap i j c1 c2 Hi Hj Hne).
  rewrite Forall_forall in Hpos.
  pose proof (Hpos c1 (list_elem_of_lookup_2 _ _ _ Hi)).
  pose proof (Hpos c2 (list_elem_of_lookup_2 _ _ _ Hj)).
  unfold apart, extent in Hap. simpl in Hap. lia.
Qed.

(** *** Instances *)

Lemma is_power_of_two_spec_witness :
  0 ≤ 4096 < 2 ^ 64
  ∧ (is_power_of_two 4096 = true ↔ ∃ k, 0 ≤ k < 64 ∧ 4096 = 2 ^ k).
Proof.
  assert (H : 0 ≤ 4096 < 2 ^ 64) by lia.
  exact (conj H (is_power_of_two_spec 4096 H)).
Defined.

Lemma align_up_spec_witness :
  0 ≤ 12 ∧ 4096 = 2 ^ 12 ∧ 0 ≤ 16777296 ∧ 16777296 + 4096 ≤ 2 ^ 64
  ∧ align_up 16777296 4096 = 16781312
  ∧ (align_up 16777296 4096 = 4096 * ((16777296 + 4096 - 1) / 4096)
     ∧ 16777296 ≤ align_up 16777296 4096 < 16777296 + 4096
     ∧ align_up 16777296 4096 mod 4096 = 0).
Proof.
  assert (H1 : 0 ≤ 12) by lia. assert (H2 : 4096 = 2 ^ 12) by reflexivity.
  assert (H3 : 0 ≤ 16777296) by lia. assert (H4 : 16777296 + 4096 ≤ 2 ^ 64) by lia.
  split; [exact H1 |]. split; [exact H2 |]. split; [exact H3 |]. split; [exact H4 |].
  split; [reflexivity |].
  exact (align_up_spec 16777296 4096 12 H1 H2 H3 H4).
Defined.

Lemma size_class_fits_witness :
  0 < 327
  ∧ get_size_class 327 = 3
  ∧ (let c := get_size_class 327 in
     0 ≤ c < NUM_SIZE_CLASSES
     ∧ (327 ≤ 2097152 → 327 ≤ get_size_for_class c
                         ∧ (0 < c → get_size_for_class (c - 1) < 327))
     ∧ (2097152 < 327 → c = NUM_SIZE_CLASSES - 1 ∧ get_size_for_class c < 327)).
Proof.
  assert (H : 0 < 327) by lia.
  split; [exact H |]. split; [reflexivity |].
  exact (size_class_fits 327 H).
Defined.

Lemma arena_round_trip_witness :
  0 < 8192
  ∧ mmap (mapping_at 1048576) 8192 = Some 1048576
  ∧ 1048576 ≠ nullptr
  ∧ list_find (λ c, is_arena_at 1048576 c = true) (chunks_ empty_pool) = None
  ∧ 0 ≤ total_allocated_ empty_pool
  ∧ total_allocated_ empty_pool + 8192 < 2 ^ 64
  ∧ ∃ p1 p2,
      allocate_arena (mapping_at 1048576) 8192 empty_pool = (Returned 1048576, p1)
      ∧ chunks_ p1 = chunks_ empty_pool ++ [mkChunk 1048576 8192 8192 true]
      ∧ total_allocated_ p1 = total_allocated_ empty_pool + 8192
      ∧ release_arena 1048576 p1 = (Returned tt, p2)
      ∧ chunks_ p2 = chunks_ empty_pool
      ∧ total_allocated_ p2 = total_allocated_ empty_pool
      ∧ total_free_ p2 = total_free_ empty_pool
      ∧ free_lists_ p2 = free_lists_ empty_pool
      ∧ blocks p2 = blocks empty_pool
      ∧ allocation_count_ p2 = u64 (allocation_count_ empty_pool + 1)
      ∧ deallocation_count_ p2 = u64 (deallocation_count_ empty_pool + 1).
Proof.
  assert (H1 : 0 < 8192) by lia.
  assert (H2 : mmap (mapping_at 1048576) 8192 = Some 1048576) by reflexivity.
  assert (H3 : 1048576 ≠ nullptr) by (unfold nullptr; lia).
  assert (H4 : list_find (λ c, is_arena_at 1048576 c = true) (chunks_ empty_pool) = None)
    by reflexivity.
  assert (H5 : 0 ≤ total_allocated_ empty_pool) by (simpl; lia).
  assert (H6 : total_allocated_ empty_pool + 8192 < 2 ^ 64) by (simpl; lia).
  split; [exact H1 |]. split; [exact H2 |]. split; [exact H3 |]. split; [exact H4 |].
  split; [exact H5 |]. split; [exact H6 |].
  exact (arena_round_trip (mapping_at 1048576) 8192 empty_pool 1048576 H1 H2 H3 H4 H5 H6).
Defined.

Lemma release_twice_witness :
  let p1 := (release 1048704 one_allocation).2 in
  release 1048704 one_allocation = (Returned tt, p1)
  ∧ total_allocated_ one_allocation = 512
  ∧ total_allocated_ p1 = 0
  ∧ deallocation_count_ p1 = 1
  ∧ release 1048704 p1 = (Returned tt, p1).
Proof.
  intros p1.
  assert (H : release 1048704 one_allocation = (Returned tt, p1)) by (vm_compute; reflexivity).
  split; [exact H |]. split; [reflexivity |]. split; [reflexivity |]. split; [reflexivity |].
  exact (release_twice 1048704 one_allocation p1 H).
Defined.

End PoolFacts.

(** ** The per-cycle allocator *)

Module PerCycleFacts.

Import Pool PoolFacts PerCycle.



Lemma cycle_alignment_pow2 al :
  0 ≤ al < 2 ^ 64 → ∃ k, 0 ≤ k < 64 ∧ cycle_alignment al = 2 ^ k.
Proof.
  intros Hal. unfold cycle_alignment.
  destruct (is_power_of_two al) eqn:E; simpl.
  - by apply is_power_of_two_pow2.
  - exists 4. by vm_compute.
Qed.

(** The arithmetic of one bump inside an arena. *)
Lemma bump_arith cur used sz al k :
  0 < cur → 0 ≤ used → cur + used ≤ 2 ^ 64 →
  0 ≤ k < 64 → al = 2 ^ k → 0 < sz → sz + al ≤ 2 ^ 64 →
  let padding := calculate_padding (cur + used) al in
  0 ≤ padding < al
  ∧ (cur + used + padding) mod al = 0
  ∧ (u64 (used + padding) <? used) = false
  ∧ u64 (padding + sz) = padding + sz.
Proof.
  intros Hcur Hused Hend Hk -> Hsz Hno padding.
  assert (Hp : 0 < 2 ^ k) by (apply Z.pow_pos_nonneg; lia).
  destruct (calculate_padding_spec (cur + used) (2 ^ k) ltac:(lia)) as [Hpad Hmod].
  fold padding in Hpad, Hmod.
  assert (Hle : cur + used + padding ≤ 2 ^ 64).
  { apply Z.mod_divide in Hmod; [| lia]. destruct Hmod as [q Hq].
    assert (Hd : (2 ^ k | 2 ^ 64)).
    { exists (2 ^ (64 - k)). rewrite <- Z.pow_add_r by lia. f_equal. lia. }
    destruct Hd as [q' Hq']. rewrite Hq, Hq' in *.
    destruct (Z.le_gt_cases q q') as [Hqq | Hqq]; [nia |].
    assert (q' + 1 ≤ q) by lia. nia. }
  split; [done |]. split; [done |]. split.
  - apply Z.ltb_ge. rewrite u64_small by lia. lia.
  - apply u64_small. lia.
Qed.

Lemma cycle_allocate_inv chunks0 gs r a p :
  request_ok r → os_ok (req_os r) p → cycle_inv chunks0 gs a p →
  ∃ ptr a1 p1,
    allocate (req_os r) (req_size r) (req_alignment r) a p = (Returned ptr, a1, p1)
    ∧ cycle_inv chunks0
        (gs ++ (if ptr =? nullptr then []
                else [mkGrant ptr (req_size r) (req_alignment r)])) a1 p1
    ∧ default_arena_size_ a1 = default_arena_size_ a
    ∧ free_lists_ p1 = free_lists_ p ∧ blocks p1 = blocks p.
Proof.
  destruct r as [os sz al0]. unfold request_ok. simpl.
  intros (Hsz & Hal0 & Hno) Hos HI.
  pose proof HI as [Hdef Hch (cs & Hcs & Hmem & Har) Hcur Hgr Hap].

  destruct (cycle_alignment_pow2 al0 Hal0) as (k & Hk & Hal).
  assert (Hp : 0 < 2 ^ k) by (apply Z.pow_pos_nonneg; lia).
  unfold allocate. destruct (Z.eqb_spec sz 0); [lia |].
  fold (cycle_alignment al0). set (al := cycle_alignment al0) in *.
  (* the path through a new arena *)
  assert (Hnew :
    ∃ ptr a1 p1,
      match allocate_new_arena os (u64 (sz + al - 1)) a p with
      | (Returned false, a1, p1) => (Returned nullptr, a1, p1)
      | (Returned true, a1, p1) =>
          let current_free_ptr := current_arena_ a1 in
          let padding := calculate_padding current_free_ptr al in
          let total_needed_in_current_arena := u64 (padding + sz) in
          if arena_size_ a1 <? total_needed_in_current_arena then (Returned nullptr, a1, p1)
          else bump sz current_free_ptr padding total_needed_in_current_arena a1 p1
      | (Thrown e, a1, p1) => (Thrown e, a1, p1)
      | (Aborted, a1, p1) => (Aborted, a1, p1)
      | (Undefined, a1, p1) => (Undefined, a1, p1)
      end = (Returned ptr, a1, p1)
      ∧ cycle_inv chunks0
          (gs ++ (if ptr =? nullptr then [] else [mkGrant ptr sz al0])) a1 p1
      ∧ default_arena_size_ a1 = default_arena_size_ a
      ∧ free_lists_ p1 = free_lists_ p ∧ blocks p1 = blocks p).
  { unfold allocate_new_arena. rewrite u64_small by lia.
    set (str := Z.max (sz + al - 1) (default_arena_size_ a)).
    assert (Hstr : sz + al - 1 ≤ str ∧ 0 < str < 2 ^ 64) by (unfold str; lia).
    destruct (allocate_arena_cases os str p ltac:(lia))
      as [[Hnone ->] | (addr & p1 & Hmap & -> & Hch1 & Hfl1 & Hbl1)].
    { simpl. exists nullptr, a, p. split; [done |].
      split; [simpl; rewrite app_nil_r; exact HI | done]. }
    destruct (Hos str addr Hmap) as (Haddr & Hend & Hfresh).
    destruct (Z.eqb_spec addr nullptr); [unfold nullptr in *; lia |].
    cbv zeta. simpl.
    destruct (bump_arith addr 0 sz al k ltac:(lia) ltac:(lia) ltac:(lia) Hk Hal Hsz Hno)
      as (Hpad & Hmod & _ & Htot).
    rewrite Z.add_0_r in Hpad, Hmod, Htot. rewrite Htot.
    set (padding := calculate_padding addr al) in *.
    destruct (Z.ltb_spec str (padding + sz)); [lia |].
    unfold bump. simpl.
    eexists _, _, _. split; [reflexivity |].
    destruct (Z.eqb_spec (addr + padding) nullptr); [unfold nullptr in *; lia |].
    assert (Hch1ok : chunks_ok p1) by (eapply chunks_ok_snoc; [done | | done | done]; lia).
    assert (Hne : ∀ c, c ∈ chunks_ p → memory c ≠ addr).
    { intros c Hc. rewrite Forall_forall in Hfresh. specialize (Hfresh c Hc).
      destruct Hch as [Hpos _]. rewrite Forall_forall in Hpos. specialize (Hpos c Hc).
      unfold apart, extent in Hfresh. simpl in Hfresh. lia. }
    rewrite (u64_small (0 + (padding + sz))) by lia.
    split; [| done]. constructor; simpl.
    - done.
    - done.
    - exists (cs ++ [mkChunk addr str str true]). rewrite Hch1, Hcs, app_assoc.
      split; [done |]. rewrite fmap_app, Hmem. split; [done |].
      apply Forall_app. split; [done |]. by repeat constructor.
    - right. simpl. split; [lia |]. split; [lia |]. split; [lia |].
      rewrite Hch1. apply elem_of_app. right. apply list_elem_of_singleton. done.
    - apply Forall_app. split.
      + eapply Forall_impl; [exact Hgr |]. intros g (H1 & H2 & H3 & H4 & c & Hc & H5 & H6 & H7).
        split; [done |]. split; [done |]. split; [done |]. split; [done |].
        exists c. rewrite Hch1. split; [apply elem_of_app; by left |].
        split; [done |]. split; [done |]. simpl. intros Heq. by apply Hne in Hc.
      + repeat constructor; simpl; try lia.
        * fold al. rewrite Hal. rewrite <- Hal. done.
        * exists (mkChunk addr str str true). rewrite Hch1.
          split; [apply elem_of_app; right; by apply list_elem_of_singleton |].
          simpl. lia.
    - apply pairs_snoc; [done |].
      eapply Forall_impl; [exact Hgr |]. intros g (H1 & H2 & H3 & H4 & c & Hc & H5 & H6 & H7).
      rewrite Forall_forall in Hfresh. specialize (Hfresh c Hc).
      unfold apart, extent, grant_range in *. simpl in *. lia. }
  destruct (Z.eqb_spec (current_arena_ a) nullptr) as [Hnull | Hnn]; simpl.
  { exact Hnew. }
  destruct Hcur as [? | (Hcpos & Hused & Hcend & Hcin)]; [done |].
  destruct (bump_arith (current_arena_ a) (arena_used_ a) sz al k
              Hcpos ltac:(lia) ltac:(lia) Hk Hal Hsz Hno) as (Hpad & Hmod & Hchk & Htot).
  set (padding := calculate_padding (current_arena_ a + arena_used_ a) al) in *.
  rewrite Hchk. rewrite Htot. rewrite (u64_small (arena_size_ a - arena_used_ a)) by lia.
  destruct (Z.ltb_spec (arena_size_ a - arena_used_ a) (padding + sz)) as [Hfull | Hroom].
  { exact Hnew. }
  unfold bump. eexists _, _, _. split; [reflexivity |].
  destruct (Z.eqb_spec (current_arena_ a + arena_used_ a + padding) nullptr);
    [unfold nullptr in *; lia |].
  rewrite (u64_small (arena_used_ a + (padding + sz))) by lia.
  split; [| done]. constructor; simpl.
  - done.
  - done.
  - by exists cs.
  - right. simpl. split; [done |]. split; [lia |]. done.
  - apply Forall_app. split.
    + eapply Forall_impl; [exact Hgr |]. intros g (H1 & H2 & H3 & H4 & c & Hc & H5 & H6 & H7).
      split; [done |]. split; [done |]. split; [done |]. split; [done |].
      exists c. split; [done |]. split; [done |]. split; [done |]. simpl.
      intros Heq. specialize (H7 Heq). lia.
    + repeat constructor; simpl; try lia.
      * done.
      * exists (mkChunk (current_arena_ a) (arena_size_ a) (arena_size_ a) true).
        split; [done |]. simpl. lia.
  - apply pairs_snoc; [done |].
    eapply Forall_impl; [exact Hgr |]. intros g (H1 & H2 & H3 & H4 & c & Hc & H5 & H6 & H7).
    destruct (Z.eq_dec (memory c) (current_arena_ a)) as [Heq | Hneq].
    + specialize (H7 Heq). unfold apart, grant_range. simpl. lia.
    + apply list_elem_of_lookup in Hc as [i Hi]. apply list_elem_of_lookup in Hcin as [j Hj].
      assert (Hij : i ≠ j).
      { intros ->. rewrite Hi in Hj. injection Hj as ->. by simpl in Hneq. }
      destruct Hch as [_ Hpair]. specialize (Hpair i j _ _ Hi Hj Hij).
      unfold apart, extent, grant_range in *. simpl in *. lia.
Qed.

Lemma cycle_run_inv reqs : ∀ chunks0 gs a p,
  Forall request_ok reqs → fresh_run reqs a p → cycle_inv chunks0 gs a p →
  ∃ gs' a' p',
    cycle_run reqs a p = (gs', a', p')
    ∧ cycle_inv chunks0 (gs ++ gs') a' p'
    ∧ default_arena_size_ a' = default_arena_size_ a
    ∧ free_lists_ p' = free_lists_ p ∧ blocks p' = blocks p.
Proof.
  induction reqs as [| r rest IH]; intros chunks0 gs a p Hreq Hfresh HI; simpl.
  { eexists _, _, _. split; [done |]. by rewrite app_nil_r. }
  apply Forall_cons in Hreq as [Hr Hrest]. simpl in Hfresh. destruct Hfresh as [Hos Hfresh].
  destruct (cycle_allocate_inv chunks0 gs r a p Hr Hos HI)
    as (ptr & a1 & p1 & E & HI1 & Hd1 & Hf1 & Hb1).
  rewrite E in *.
  destruct (IH chunks0 _ a1 p1 Hrest Hfresh HI1) as (gs' & a' & p' & E' & HI' & Hd' & Hf' & Hb').
  rewrite E'. eexists _, _, _. split; [done |].
  split; [| split; [congruence | split; congruence]].
  destruct (ptr =? nullptr); [by rewrite app_nil_r in HI' |].
  by rewrite <- app_assoc in HI'.
Qed.

Lemma new_cycle_inv d p :
  0 ≤ d < 2 ^ 64 → chunks_ok p → cycle_inv (chunks_ p) [] (new_PerCycleAllocator d) p.
Proof.
  intros Hd Hch. constructor; simpl.
  - lia.
  - done.
  - exists []. by rewrite app_nil_r.
  - by left.
  - constructor.
  - constructor.
Qed.

(** X11: the ranges a [PerCycleAllocator] hands out during one cycle are
    pairwise disjoint; each starts at a multiple of the alignment in force
    and lies inside one mapping held by the pool.  The requests are
    non-empty and do not overflow the address arithmetic, and every
    mapping the operating system returns is a fresh one. *)
Theorem cycle_no_overlap d p reqs :
  0 ≤ d < 2 ^ 64 → chunks_ok p → Forall request_ok reqs →
  fresh_run reqs (new_PerCycleAllocator d) p →
  let '(gs, a', p') := cycle_run reqs (new_PerCycleAllocator d) p in
  ForallOrdPairs (λ g1 g2, apart (grant_range g1) (grant_range g2)) gs
  ∧ Forall (λ g, 0 < grant_ptr g
                 ∧ grant_ptr g mod cycle_alignment (grant_alignment g) = 0
                 ∧ ∃ c, c ∈ chunks_ p'
                     ∧ memory c ≤ grant_ptr g
                     ∧ grant_ptr g + grant_size g ≤ memory c + chunk_size c) gs.
Proof.
  intros Hd Hch Hreq Hfresh.
  destruct (cycle_run_inv reqs (chunks_ p) [] _ p Hreq Hfresh (new_cycle_inv d p Hd Hch))
    as (gs & a' & p' & -> & [_ _ _ Hcur Hgr Hap] & _).
  simpl in *. split; [done |].
  eapply Forall_impl; [exact Hgr |]. intros g (H1 & H2 & H3 & H4 & c & Hc & H5 & H6 & H7).
  split; [done |]. split; [done |]. by exists c.
Qed.

Lemma release_arenas_spec cs : ∀ p pre,
  chunks_ p = pre ++ cs →
  Forall (λ c, is_arena_chunk c = true ∧ 0 < memory c) cs →
  NoDup (memory <$> cs) →
  (∀ x, x ∈ pre → memory x ∉ memory <$> cs) →
  ∃ p', release_arenas (memory <$> cs) p = (Returned tt, p')
        ∧ chunks_ p' = pre
        ∧ free_lists_ p' = free_lists_ p ∧ blocks p' = blocks p.
Proof.
  induction cs as [| c cs IH]; intros p pre Hch Har Hnd Hpre; simpl.
  { exists p. by rewrite app_nil_r in Hch. }
  apply Forall_cons in Har as [[Hc Hcpos] Har]. rewrite fmap_cons in Hnd.
  apply NoDup_cons in Hnd as [Hnin Hnd].
  unfold bind at 1.
  assert (Hfind : list_find (λ x, is_arena_at (memory c) x = true) (chunks_ p)
                  = Some (length pre, c)).
  { rewrite Hch. apply list_find_Some. split; [by apply list_lookup_middle |].
    split; [unfold is_arena_at; by rewrite Hc, Z.eqb_refl |].
    intros j y Hj Hlt. rewrite lookup_app_l in Hj by done.
    unfold is_arena_at. intros Hy. apply andb_prop in Hy as [_ Hy]. apply Z.eqb_eq in Hy.
    apply (Hpre y (list_elem_of_lookup_2 _ _ _ Hj)). rewrite Hy, fmap_cons. by left. }
  assert (Hrel : ∃ p1, release_arena (memory c) p = (Returned tt, p1)
                       ∧ chunks_ p1 = pre ++ cs
                       ∧ free_lists_ p1 = free_lists_ p ∧ blocks p1 = blocks p).
  { unfold release_arena. destruct (Z.eqb_spec (memory c) nullptr); [unfold nullptr in *; lia |].
    rewrite bind_get, Hfind. rewrite bind_modify. unfold modify. simpl.
    eexists. split; [done |]. simpl. split; [| done].
    rewrite Hch. clear. induction pre as [| x pre IH]; simpl; [done | by rewrite IH]. }
  destruct Hrel as (p1 & -> & Hch1 & Hf1 & Hb1). cbv beta iota.
  destruct (IH p1 pre Hch1 Har Hnd) as (p' & E' & Hch' & Hf' & Hb').
  { intros x Hx Hin. apply (Hpre x Hx). rewrite fmap_cons. by right. }
  exists p'. split; [exact E' |]. split; [done |]. split; congruence.
Qed.

(** X12: [reset] after any cycle gives every arena of the cycle back to
    the pool: the allocator is as it was constructed, and the pool holds
    the chunks, the free lists and the block headers it held before the
    cycle. *)
Theorem cycle_reset_restores d p reqs :
  0 ≤ d < 2 ^ 64 → chunks_ok p → Forall request_ok reqs →
  fresh_run reqs (new_PerCycleAllocator d) p →
  let '(_, a', p') := cycle_run reqs (new_PerCycleAllocator d) p in
  ∃ p'',
    reset a' p' = (Returned tt, new_PerCycleAllocator d, p'')
    ∧ chunks_ p'' = chunks_ p
    ∧ free_lists_ p'' = free_lists_ p
    ∧ blocks p'' = blocks p.
Proof.
  intros Hd Hch Hreq Hfresh.
  destruct (cycle_run_inv reqs (chunks_ p) [] _ p Hreq Hfresh (new_cycle_inv d p Hd Hch))
    as (gs & a' & p' & -> & [_ Hch' (cs & Hcs & Hmem & Har) _ _ _] & Hdef & Hfl & Hbl).
  destruct (release_arenas_spec cs p' (chunks_ p) Hcs Har) as (p'' & Hrel & Hch'' & Hfl'' & Hbl'').
  - apply NoDup_alt. intros i j x Hi Hj.
    rewrite list_lookup_fmap in Hi, Hj.
    destruct (cs !! i) as [ci |] eqn:Eci; [| done].
    destruct (cs !! j) as [cj |] eqn:Ecj; [| done].
    simpl in Hi, Hj. injection Hi as Hi. injection Hj as Hj.
    destruct (decide (i = j)) as [| Hne]; [done |]. exfalso.
    apply (chunks_ok_distinct p' (length (chunks_ p) + i) (length (chunks_ p) + j) ci cj Hch').
    + rewrite Hcs, lookup_app_r by lia. by replace (length (chunks_ p) + i - length (chunks_ p))%nat with i by lia.
    + rewrite Hcs, lookup_app_r by lia. by replace (length (chunks_ p) + j - length (chunks_ p))%nat with j by lia.
    + lia.
    + congruence.
  - intros x Hx Hin. apply list_elem_of_fmap in Hin as (y & Hxy & Hy).
    apply list_elem_of_lookup in Hx as [i Hi]. apply list_elem_of_lookup in Hy as [j Hj].
    apply (chunks_ok_distinct p' i (length (chunks_ p) + j) x y Hch').
    + rewrite Hcs. by apply lookup_app_l_Some.
    + rewrite Hcs, lookup_app_r by lia. by replace (length (chunks_ p) + j - length (chunks_ p))%nat with j by lia.
    + apply lookup_lt_Some in Hi. lia.
    + done.
  - exists p''. unfold reset. rewrite <- Hmem, Hrel.
    split; [| split; [done | split; congruence]].
    unfold new_PerCycleAllocator in *. simpl in Hdef. by rewrite Hdef.
Qed.

(** X13: [has_space_for] predicts [allocate].  When it holds, [allocate]
    serves the request from the current arena at the next aligned address
    and leaves the pool alone; when it does not, [allocate] needs a new
    arena, and returns null if the operating system has none to give. *)
Theorem has_space_for_exact os sz al a p :
  arena_ok a p → 0 < sz → 0 ≤ al < 2 ^ 64 → is_power_of_two al = true →
  sz + al ≤ 2 ^ 64 →
  if has_space_for sz al a then
    let ptr := current_arena_ a + arena_used_ a
               + calculate_padding (current_arena_ a + arena_used_ a) al in
    ∃ a', allocate os sz al a p = (Returned ptr, a', p)
          ∧ ptr ≠ nullptr ∧ ptr mod al = 0
          ∧ current_arena_ a' = current_arena_ a
          ∧ arena_size_ a' = arena_size_ a
          ∧ allocated_arenas_ a' = allocated_arenas_ a
          ∧ current_arena_ a + arena_used_ a ≤ ptr
          ∧ ptr + sz = current_arena_ a + arena_used_ a'
          ∧ arena_used_ a' ≤ arena_size_ a
  else
    (∀ n, mmap os n = None) → allocate os sz al a p = (Returned nullptr, a, p).
Proof.
  intros Hcur Hsz Hal Hpow Hno.
  destruct (is_power_of_two_pow2 al Hal Hpow) as (k & Hk & Hk2).
  unfold has_space_for, allocate.
  destruct (Z.eqb_spec sz 0); [lia |]. rewrite Hpow. simpl negb. cbv iota.
  assert (Hfail : (∀ n, mmap os n = None) →
                  allocate_new_arena os (u64 (sz + al - 1)) a p = (Returned false, a, p)).
  { intros Hnone. unfold allocate_new_arena.
    by rewrite (allocate_arena_mmap_failure os _ p Hnone). }
  destruct (Z.eqb_spec (current_arena_ a) nullptr) as [Hnull | Hnn]; simpl.
  { intros Hnone. by rewrite Hfail. }
  destruct Hcur as [? | (Hcpos & Hused & Hcend & Hcin)]; [done |].
  destruct (bump_arith (current_arena_ a) (arena_used_ a) sz al k
              Hcpos ltac:(lia) ltac:(lia) Hk Hk2 Hsz Hno) as (Hpad & Hmod & Hchk & Htot).
  set (padding := calculate_padding (current_arena_ a + arena_used_ a) al) in *.
  rewrite Hchk, Htot, (u64_small (arena_size_ a - arena_used_ a)) by lia.
  destruct (Z.leb_spec (padding + sz) (arena_size_ a - arena_used_ a)) as [Hroom | Hfull].
  - destruct (Z.ltb_spec (arena_size_ a - arena_used_ a) (padding + sz)); [lia |].
    unfold bump. eexists. split; [reflexivity |]. simpl.
    rewrite (u64_small (arena_used_ a + (padding + sz))) by lia.
    unfold nullptr. repeat split; (done || lia).
  - destruct (Z.ltb_spec (arena_size_ a - arena_used_ a) (padding + sz)); [| lia].
    intros Hnone. by rewrite Hfail.
Qed.

(** *** Instances *)

Lemma mapping_at_ok addr p :
  0 < addr → addr + 2 ^ 32 ≤ 2 ^ 64 →
  Forall (λ c, memory c + chunk_size c ≤ addr ∨ addr + 2 ^ 32 ≤ memory c) (chunks_ p) →
  os_ok (mapping_at addr) p.
Proof.
  intros Hpos Hend Hall n a Hmap. unfold mapping_at in Hmap. cbn [mmap] in Hmap.
  destruct (Z.leb_spec n (2 ^ 32)); [| discriminate]. injection Hmap as <-.
  split; [done |]. split; [lia |].
  eapply Forall_impl; [exact Hall |]. intros c Hc. unfold apart, extent. cbn [fst snd]. cbv beta in Hc. lia.
Qed.

Lemma three_requests_ok : Forall request_ok three_requests.
Proof. repeat constructor; by vm_compute. Qed.

Lemma three_requests_fresh : fresh_run three_requests (new_PerCycleAllocator 0) empty_pool.
Proof.
  unfold three_requests, fresh_run.
  split; [apply mapping_at_ok; [lia | lia | constructor] |].
  match goal with
  | |- context [allocate ?o ?s ?al ?a ?p] =>
      let v := eval vm_compute in (allocate o s al a p) in
      change (allocate o s al a p) with v
  end.
  cbv beta iota.
  split; [apply mapping_at_ok; [lia | lia | repeat constructor; simpl; lia] |].
  match goal with
  | |- context [allocate ?o ?s ?al ?a ?p] =>
      let v := eval vm_compute in (allocate o s al a p) in
      change (allocate o s al a p) with v
  end.
  cbv beta iota.
  split; [apply mapping_at_ok; [lia | lia | repeat constructor; simpl; lia] |].
  by destruct (allocate _ _ _ _ _) as [[? ?] ?].
Qed.

Lemma empty_pool_chunks_ok : chunks_ok empty_pool.
Proof. split; [constructor |]. intros i j c1 c2 Hi. by simpl in Hi. Qed.

Lemma cycle_no_overlap_witness :
  0 ≤ 0 < 2 ^ 64
  ∧ chunks_ok empty_pool
  ∧ Forall request_ok three_requests
  ∧ fresh_run three_requests (new_PerCycleAllocator 0) empty_pool
  ∧ (cycle_run three_requests (new_PerCycleAllocator 0) empty_pool).1.1
    = [mkGrant 1048576 100 64; mkGrant 1048704 30 32; mkGrant 16777216 5000 32]
  ∧ (let '(gs, a', p') := cycle_run three_requests (new_PerCycleAllocator 0) empty_pool in
     ForallOrdPairs (λ g1 g2, apart (grant_range g1) (grant_range g2)) gs
     ∧ Forall (λ g, 0 < grant_ptr g
                    ∧ grant_ptr g mod cycle_alignment (grant_alignment g) = 0
                    ∧ ∃ c, c ∈ chunks_ p'
                        ∧ memory c ≤ grant_ptr g
                        ∧ grant_ptr g + grant_size g ≤ memory c + chunk_size c) gs).
Proof.
  assert (H : 0 ≤ 0 < 2 ^ 64) by lia.
  split; [exact H |]. split; [exact empty_pool_chunks_ok |].
  split; [exact three_requests_ok |]. split; [exact three_requests_fresh |].
  split; [reflexivity |].
  exact (cycle_no_overlap 0 empty_pool three_requests H empty_pool_chunks_ok
           three_requests_ok three_requests_fresh).
Defined.

Lemma cycle_reset_restores_witness :
  0 ≤ 0 < 2 ^ 64
  ∧ chunks_ok empty_pool
  ∧ Forall request_ok three_requests
  ∧ fresh_run three_requests (new_PerCycleAllocator 0) empty_pool
  ∧ length (chunks_ (cycle_run three_requests (new_PerCycleAllocator 0) empty_pool).2) = 2%nat
  ∧ (let '(_, a', p') := cycle_run three_requests (new_PerCycleAllocator 0) empty_pool in
     ∃ p'',
       reset a' p' = (Returned tt, new_PerCycleAllocator 0, p'')
       ∧ chunks_ p'' = chunks_ empty_pool
       ∧ free_lists_ p'' = free_lists_ empty_pool
       ∧ blocks p'' = blocks empty_pool).
Proof.
  assert (H : 0 ≤ 0 < 2 ^ 64) by lia.
  split; [exact H |]. split; [exact empty_pool_chunks_ok |].
  split; [exact three_requests_ok |]. split; [exact three_requests_fresh |].
  split; [reflexivity |].
  exact (cycle_reset_restores 0 empty_pool three_requests H empty_pool_chunks_ok
           three_requests_ok three_requests_fresh).
Defined.

Lemma has_space_for_exact_witness :
  let a := (allocate (mapping_at 1048576) 100 64 (new_PerCycleAllocator 0) empty_pool).1.2 in
  let p := (allocate (mapping_at 1048576) 100 64 (new_PerCycleAllocator 0) empty_pool).2 in
  arena_ok a p ∧ 0 < 30 ∧ 0 ≤ 32 < 2 ^ 64 ∧ is_power_of_two 32 = true ∧ 30 + 32 ≤ 2 ^ 64
  ∧ has_space_for 30 32 a = true
  ∧ has_space_for 5000 32 a = false
  ∧ (if has_space_for 30 32 a then
       let ptr := current_arena_ a + arena_used_ a
                  + calculate_padding (current_arena_ a + arena_used_ a) 32 in
       ∃ a', allocate exhausted_os 30 32 a p = (Returned ptr, a', p)
             ∧ ptr ≠ nullptr ∧ ptr mod 32 = 0
             ∧ current_arena_ a' = current_arena_ a
             ∧ arena_size_ a' = arena_size_ a
             ∧ allocated_arenas_ a' = allocated_arenas_ a
             ∧ current_arena_ a + arena_used_ a ≤ ptr
             ∧ ptr + 30 = current_arena_ a + arena_used_ a'
             ∧ arena_used_ a' ≤ arena_size_ a
     else
       (∀ n, mmap exhausted_os n = None) →
       allocate exhausted_os 30 32 a p = (Returned nullptr, a, p)).
Proof.
  intros a p.
  assert (H1 : arena_ok a p).
  { right. split; [by vm_compute |]. split; [by vm_compute |]. split; [by vm_compute |].
    vm_compute. apply list_elem_of_here. }
  assert (H2 : 0 < 30) by lia. assert (H3 : 0 ≤ 32 < 2 ^ 64) by lia.
  assert (H4 : is_power_of_two 32 = true) by reflexivity.
  assert (H5 : 30 + 32 ≤ 2 ^ 64) by lia.
  split; [exact H1 |]. split; [exact H2 |]. split; [exact H3 |]. split; [exact H4 |].
  split; [exact H5 |]. split; [reflexivity |]. split; [reflexivity |].
  exact (has_space_for_exact exhausted_os 30 32 a p H1 H2 H3 H4 H5).
Defined.

End PerCycleFacts.

(** ** Runs of [allocate] and [release] *)

Module PoolHeapFacts.

Import Pool PoolFacts PoolHeap.

(** *** Free lists *)

Lemma chain_unique h : ∀ l1 l2 a, chain h a l1 → chain h a l2 → l1 = l2.
Proof.
  induction l1 as [| x l1 IH]; intros [| y l2] a H1 H2; simpl in *.
  - done.
  - destruct H2 as (_ & Hn & _). done.
  - destruct H1 as (_ & Hn & _). done.
  - destruct H1 as (-> & _ & b1 & Hb1 & H1), H2 as (-> & _ & b2 & Hb2 & H2).
    assert (b2 = b1) as -> by congruence. f_equal. by eapply IH.
Qed.

(** A header outside a free list can change without the list noticing. *)
Lemma chain_insert h x b : ∀ l a, chain h a l → x ∉ l → chain (<[x := b]> h) a l.
Proof.
  induction l as [| y l IH]; intros a Hc Hx; simpl in *; [done |].
  destruct Hc as (-> & Hn & b1 & Hb1 & Hc).
  apply not_elem_of_cons in Hx as [Hne Hx].
  split; [done |]. split; [done |]. exists b1.
  split; [by rewrite lookup_insert_ne | by apply IH].
Qed.

Lemma chain_members h : ∀ l a x, chain h a l → x ∈ l → is_Some (h !! x) ∧ x ≠ nullptr.
Proof.
  induction l as [| y l IH]; intros a x Hc Hx; [by apply elem_of_nil in Hx |].
  simpl in Hc. destruct Hc as (-> & Hn & b1 & Hb1 & Hc).
  apply elem_of_cons in Hx as [-> | Hx]; [by split; [eexists |] |].
  by eapply IH.
Qed.

Lemma free_list_set_eq sc v p :
  0 ≤ sc → (Z.to_nat sc < length (free_lists_ p))%nat →
  free_list sc (set_free_list sc v p) = v.
Proof.
  intros Hsc Hl. unfold free_list, set_free_list. simpl.
  by rewrite list_lookup_insert_eq.
Qed.

Lemma free_list_set_ne sc sc' v p :
  0 ≤ sc → 0 ≤ sc' → sc ≠ sc' →
  free_list sc' (set_free_list sc v p) = free_list sc' p.
Proof.
  intros Hsc Hsc' Hne. unfold free_list, set_free_list. simpl.
  rewrite list_lookup_insert_ne; [done | lia].
Qed.

(** *** Tilings *)

Lemma tiled_le h : ∀ l a e, tiled h a e l → a ≤ e.
Proof.
  induction l as [| x l IH]; intros a e Ht; simpl in Ht; [lia |].
  destruct Ht as (_ & b & _ & _ & Hs & Ht). apply IH in Ht.
  unfold sizeof_Block in *. lia.
Qed.

(** Every tile has a valid header and lies between the ends. *)
Lemma tiled_elem h : ∀ l a e x,
  tiled h a e l → x ∈ l →
  ∃ b, h !! x = Some b ∧ is_valid b = true ∧ 0 ≤ size b
       ∧ a ≤ x ∧ x + sizeof_Block + size b ≤ e.
Proof.
  induction l as [| y l IH]; intros a e x Ht Hx; [by apply elem_of_nil in Hx |].
  simpl in Ht. destruct Ht as (-> & b & Hb & Hv & Hs & Ht).
  apply elem_of_cons in Hx as [-> | Hx].
  - exists b. apply tiled_le in Ht. repeat split; (done || lia).
  - destruct (IH _ _ x Ht Hx) as (b' & Hb' & Hv' & Hs' & Hlo & Hhi).
    exists b'. unfold sizeof_Block in *. repeat split; (done || lia).
Qed.

(** Two tiles at different addresses share no byte. *)
Lemma tiled_apart h : ∀ l a e x y bx by_,
  tiled h a e l → x ∈ l → y ∈ l → x ≠ y →
  h !! x = Some bx → h !! y = Some by_ →
  x + sizeof_Block + size bx ≤ y ∨ y + sizeof_Block + size by_ ≤ x.
Proof.
  induction l as [| z l IH]; intros a e x y bx by_ Ht Hx Hy Hne Hbx Hby;
    [by apply elem_of_nil in Hx |].
  simpl in Ht. destruct Ht as (-> & b & Hb & Hv & Hs & Ht).
  apply elem_of_cons in Hx as [-> | Hx]; apply elem_of_cons in Hy as [-> | Hy].
  - done.
  - left. assert (b = bx) as -> by congruence.
    destruct (tiled_elem _ _ _ _ y Ht Hy) as (? & _ & _ & _ & Hlo & _). lia.
  - right. assert (b = by_) as -> by congruence.
    destruct (tiled_elem _ _ _ _ x Ht Hx) as (? & _ & _ & _ & Hlo & _). lia.
  - by eapply IH.
Qed.

Lemma tiled_NoDup h : ∀ l a e, tiled h a e l → NoDup l.
Proof.
  induction l as [| x l IH]; intros a e Ht; [constructor |].
  simpl in Ht. destruct Ht as (-> & b & Hb & Hv & Hs & Ht).
  constructor; [| by eapply IH].
  intros Hin. destruct (tiled_elem _ _ _ _ a Ht Hin) as (? & _ & _ & _ & Hlo & _).
  unfold sizeof_Block in *. lia.
Qed.

Lemma tiled_length h : ∀ l a e, tiled h a e l → sizeof_Block * Z.of_nat (length l) ≤ e - a.
Proof.
  induction l as [| x l IH]; intros a e Ht; simpl in Ht.
  - subst. simpl. lia.
  - destruct Ht as (-> & b & Hb & Hv & Hs & Ht). apply IH in Ht.
    cbn [length]. unfold sizeof_Block in *. lia.
Qed.

(** Headers that keep their size and magic number keep the tiling. *)
Lemma tiled_layout h h' : ∀ l a e,
  (∀ x b, x ∈ l → h !! x = Some b →
          ∃ b', h' !! x = Some b' ∧ size b' = size b ∧ magic b' = magic b) →
  tiled h a e l → tiled h' a e l.
Proof.
  induction l as [| y l IH]; intros a e Hsame Ht; simpl in *; [done |].
  destruct Ht as (-> & b & Hb & Hv & Hs & Ht).
  destruct (Hsame a b (list_elem_of_here _ _) Hb) as (b' & Hb' & Hsz & Hm).
  split; [done |]. exists b'. split; [done |].
  split; [unfold is_valid in *; by rewrite Hm |]. split; [lia |].
  rewrite Hsz. apply IH; [| done].
  intros x bx Hx. apply Hsame. by apply list_elem_of_further.
Qed.

Lemma tiled_insert_other h x b l a e :
  x ∉ l → tiled h a e l → tiled (<[x := b]> h) a e l.
Proof.
  intros Hx. apply tiled_layout. intros y by_ Hy Hby. exists by_.
  split; [| done]. rewrite lookup_insert_ne; [done |]. by intros ->.
Qed.

Lemma tiled_insert_same h x b b0 l a e :
  h !! x = Some b0 → size b = size b0 → magic b = magic b0 →
  tiled h a e l → tiled (<[x := b]> h) a e l.
Proof.
  intros Hb0 Hs Hm. apply tiled_layout. intros y by_ Hy Hby.
  destruct (decide (y = x)) as [-> | Hne].
  - exists b. rewrite lookup_insert_eq. assert (by_ = b0) as -> by congruence. done.
  - exists by_. by rewrite lookup_insert_ne.
Qed.

(** Splitting the tile at [x] in two. *)
Lemma tiled_split h x r bx b1 b2 : ∀ l a e,
  tiled h a e l → x ∈ l → h !! x = Some bx →
  r = x + sizeof_Block + size b1 → 0 ≤ size b1 → 0 ≤ size b2 →
  size b1 + sizeof_Block + size b2 = size bx →
  is_valid b1 = true → is_valid b2 = true →
  ∃ l1 l2, l = l1 ++ x :: l2
           ∧ tiled (<[x := b1]> (<[r := b2]> h)) a e (l1 ++ x :: r :: l2).
Proof.
  induction l as [| y l IH]; intros a e Ht Hx Hbx -> H1 H2 Hsum Hv1 Hv2;
    [by apply elem_of_nil in Hx |].
  pose proof (tiled_NoDup _ _ _ _ Ht) as Hnd.
  assert (Hr : ∀ z, z ∈ y :: l → z ≠ x + sizeof_Block + size b1).
  { intros z Hz ->.
    destruct (tiled_elem _ _ _ _ _ Ht Hz) as (bz & Hbz & _ & Hsz & _).
    destruct (decide (x + sizeof_Block + size b1 = x)) as [E | Hne];
      [unfold sizeof_Block in E; lia |].
    destruct (tiled_apart _ _ _ _ _ _ _ _ Ht Hz Hx Hne Hbz Hbx) as [H | H];
      unfold sizeof_Block in *; lia. }
  simpl in Ht. destruct Ht as (-> & b & Hb & Hv & Hs & Ht).
  apply NoDup_cons in Hnd as [Hna Hnd].
  apply elem_of_cons in Hx as [-> | Hx].
  - assert (b = bx) as -> by congruence.
    exists [], l. split; [done |]. simpl.
    split; [done |]. exists b1. rewrite lookup_insert_eq.
    split; [done |]. split; [done |]. split; [done |].
    split; [done |]. exists b2.
    rewrite lookup_insert_ne by (unfold sizeof_Block; lia). rewrite lookup_insert_eq.
    split; [done |]. split; [done |]. split; [done |].
    replace (a + sizeof_Block + size b1 + sizeof_Block + size b2)
      with (a + sizeof_Block + size bx) by lia.
    apply tiled_insert_other; [done |].
    apply tiled_insert_other; [| done].
    intros Hin. apply (Hr _ (list_elem_of_further _ _ _ Hin)). done.
  - destruct (IH _ _ Ht Hx Hbx eq_refl H1 H2 Hsum Hv1 Hv2) as (l1 & l2 & -> & Ht').
    exists (a :: l1), l2. split; [done |]. simpl.
    split; [done |]. exists b.
    assert (a ≠ x) by (intros ->; done).
    rewrite !lookup_insert_ne; [| apply not_eq_sym, Hr, list_elem_of_here | done].
    done.
Qed.

(** *** The invariant *)

(** The invariant only reads the chunks, the free lists and the headers. *)
Lemma heap_inv_ext tiles owned p q :
  chunks_ q = chunks_ p → free_lists_ q = free_lists_ p → blocks q = blocks p →
  heap_inv tiles owned p → heap_inv tiles owned q.
Proof.
  intros Hc Hf Hb [H1 H2 H3 H4 H5 H6 H7 H8 H9].
  split; unfold chunks_ok, free_list in *; rewrite ?Hc, ?Hf, ?Hb; done.
Qed.

Lemma unlisted_ext p q a :
  free_lists_ q = free_lists_ p → blocks q = blocks p → unlisted p a → unlisted q a.
Proof. intros Hf Hb H sc l Hsc. unfold free_list. rewrite Hf, Hb. by apply H. Qed.

Lemma elem_of_concat {A} (x : A) (ls : list (list A)) :
  x ∈ concat ls ↔ ∃ l, x ∈ l ∧ l ∈ ls.
Proof.
  induction ls as [| l ls IH]; simpl.
  - split; [by intros ?%elem_of_nil | by intros (l & _ & ?%elem_of_nil)].
  - rewrite elem_of_app, IH. split.
    + intros [H | (l' & H1 & H2)].
      * exists l. split; [done | apply list_elem_of_here].
      * exists l'. split; [done | by apply list_elem_of_further].
    + intros (l' & H1 & H2). apply elem_of_cons in H2 as [-> | H2]; [by left |].
      right. by exists l'.
Qed.

Section Invariant.

Context (tiles : list (list Z)) (owned : list (allocation * Z)) (p : MemoryPool).
Hypothesis HI : heap_inv tiles owned p.

Lemma class_range a b : blocks p !! a = Some b → 0 ≤ size_class b < NUM_SIZE_CLASSES.
Proof.
  intros Hb. rewrite (hi_class _ _ _ HI a b Hb).
  pose proof (get_size_class_range (size b)). lia.
Qed.

(** What is known of a tile. *)
Lemma tile_facts a :
  a ∈ concat tiles →
  ∃ c l b, c ∈ chunks_ p ∧ l ∈ tiles ∧ a ∈ l
           ∧ tiled (blocks p) (memory c) (memory c + chunk_size c) l
           ∧ blocks p !! a = Some b ∧ is_valid b = true ∧ 0 ≤ size b
           ∧ memory c ≤ a ∧ a + sizeof_Block + size b ≤ memory c + chunk_size c
           ∧ 0 < a ∧ a + sizeof_Block + size b ≤ 2 ^ 64.
Proof.
  intros Ha. apply elem_of_concat in Ha as (l & Hal & Hl).
  apply list_elem_of_lookup in Hl as [i Hi].
  destruct (Forall2_lookup_r _ _ _ _ _ (hi_tiles _ _ _ HI) Hi) as (c & Hc & Ht).
  destruct (tiled_elem _ _ _ _ a Ht Hal) as (b & Hb & Hv & Hs & Hlo & Hhi).
  pose proof (hi_space _ _ _ HI) as Hsp. rewrite Forall_forall in Hsp.
  destruct (Hsp c (list_elem_of_lookup_2 _ _ _ Hc)) as (Hm & Hend & _).
  exists c, l, b. repeat split; try done; try lia.
  - by eapply list_elem_of_lookup_2.
  - by eapply list_elem_of_lookup_2.
Qed.

Lemma header_tile a b : blocks p !! a = Some b → a ∈ concat tiles.
Proof. intros Hb. apply (hi_dom _ _ _ HI). by eexists. Qed.

(** The extents of two blocks share no byte. *)
Lemma tiles_apart a1 a2 b1 b2 :
  blocks p !! a1 = Some b1 → blocks p !! a2 = Some b2 → a1 ≠ a2 →
  a1 + sizeof_Block + size b1 ≤ a2 ∨ a2 + sizeof_Block + size b2 ≤ a1.
Proof.
  intros Hb1 Hb2 Hne.
  pose proof (header_tile _ _ Hb1) as H1. pose proof (header_tile _ _ Hb2) as H2.
  apply elem_of_concat in H1 as (l1 & Hal1 & Hl1).
  apply elem_of_concat in H2 as (l2 & Hal2 & Hl2).
  apply list_elem_of_lookup in Hl1 as [i Hi]. apply list_elem_of_lookup in Hl2 as [j Hj].
  destruct (Forall2_lookup_r _ _ _ _ _ (hi_tiles _ _ _ HI) Hi) as (c1 & Hc1 & Ht1).
  destruct (Forall2_lookup_r _ _ _ _ _ (hi_tiles _ _ _ HI) Hj) as (c2 & Hc2 & Ht2).
  destruct (decide (i = j)) as [-> | Hij].
  - assert (l2 = l1) as -> by congruence.
    by eapply (tiled_apart _ _ _ _ a1 a2).
  - destruct (tiled_elem _ _ _ _ a1 Ht1 Hal1) as (b1' & Hb1' & _ & _ & Hlo1 & Hhi1).
    destruct (tiled_elem _ _ _ _ a2 Ht2 Hal2) as (b2' & Hb2' & _ & _ & Hlo2 & Hhi2).
    assert (b1' = b1) as -> by congruence. assert (b2' = b2) as -> by congruence.
    destruct (hi_chunks _ _ _ HI) as [_ Hap].
    destruct (Hap i j c1 c2 Hc1 Hc2 Hij) as [H | H]; unfold extent in H; simpl in H;
      unfold sizeof_Block in *; lia.
Qed.

(** The list of a class, and what follows for a block that is not free. *)
Lemma busy_unlisted a b : blocks p !! a = Some b → is_free b = false → unlisted p a.
Proof.
  intros Hb Hf sc l Hsc Hc Hin.
  destruct (hi_lists _ _ _ HI sc Hsc) as (l' & Hc' & _ & Hm).
  rewrite (chain_unique _ _ _ _ Hc Hc') in Hin.
  destruct (Hm a Hin) as (b' & Hb' & Hf' & _). congruence.
Qed.

Lemma absent_unlisted a : blocks p !! a = None → unlisted p a.
Proof.
  intros Hb sc l Hsc Hc Hin.
  destruct (chain_members _ _ _ _ Hc Hin) as [[b Hb'] _]. congruence.
Qed.

Lemma owned_busy al a : (al, a) ∈ owned → owns (blocks p) al a.
Proof.
  intros Hin. pose proof (hi_owned _ _ _ HI) as Ho. rewrite Forall_forall in Ho.
  exact (Ho _ Hin).
Qed.

Lemma free_not_owned a b :
  blocks p !! a = Some b → is_free b = true → a ∉ snd <$> owned.
Proof.
  intros Hb Hf Hin. apply list_elem_of_fmap in Hin as ([al a'] & -> & Hin).
  destruct (owned_busy _ _ Hin) as (b' & Hb' & Hf' & _). simpl in *. congruence.
Qed.

End Invariant.

(** *** How the steps of the operations change the heap *)

Lemma free_list_lookup sc p :
  0 ≤ sc < NUM_SIZE_CLASSES → length (free_lists_ p) = Z.to_nat NUM_SIZE_CLASSES →
  free_lists_ p !! Z.to_nat sc = Some (free_list sc p).
Proof.
  intros Hsc Hl. unfold free_list.
  destruct (lookup_lt_is_Some_2 (free_lists_ p) (Z.to_nat sc)) as [v Hv]; [lia |].
  by rewrite Hv.
Qed.

Lemma free_list_insert_eq sc v p q :
  0 ≤ sc < NUM_SIZE_CLASSES → length (free_lists_ p) = Z.to_nat NUM_SIZE_CLASSES →
  free_lists_ q = <[Z.to_nat sc := v]> (free_lists_ p) → free_list sc q = v.
Proof.
  intros Hsc Hl Hq. unfold free_list. rewrite Hq, list_lookup_insert_eq; [done | lia].
Qed.

Lemma free_list_insert_ne sc sc' v p q :
  0 ≤ sc → 0 ≤ sc' → sc ≠ sc' →
  free_lists_ q = <[Z.to_nat sc := v]> (free_lists_ p) → free_list sc' q = free_list sc' p.
Proof.
  intros Hsc Hsc' Hne Hq. unfold free_list. rewrite Hq, list_lookup_insert_ne; [done | lia].
Qed.

(** Taking the head of a free list off the list. *)
Lemma heap_inv_pop tiles owned p sc a b q :
  heap_inv tiles owned p → 0 ≤ sc < NUM_SIZE_CLASSES →
  free_list sc p = a → a ≠ nullptr → blocks p !! a = Some b →
  chunks_ q = chunks_ p → blocks q = blocks p →
  free_lists_ q = <[Z.to_nat sc := next_free b]> (free_lists_ p) →
  heap_inv tiles owned q ∧ unlisted q a ∧ is_free b = true ∧ size_class b = sc.
Proof.
  intros HI Hsc Hhead Hnz Hb Hcq Hbq Hfq.
  pose proof HI as [H1 H2 H3 H4 H5 H6 H7 H8 H9].
  destruct (H7 sc Hsc) as (l & Hchain & Hnd & Hmem).
  destruct l as [| x l'].
  { simpl in Hchain. congruence. }
  simpl in Hchain. destruct Hchain as (-> & _ & b' & Hb' & Hchain).
  rewrite Hhead in Hb'. assert (b' = b) as -> by congruence.
  rewrite Hhead in *. clear Hhead.
  apply NoDup_cons in Hnd as [Hna Hnd].
  destruct (Hmem a (list_elem_of_here _ _)) as (b0 & Hb0 & Hfree & Hclass).
  assert (b0 = b) as -> by congruence.
  assert (Hlists : ∀ sc', 0 ≤ sc' < NUM_SIZE_CLASSES →
            ∃ l, chain (blocks q) (free_list sc' q) l ∧ NoDup l
                 ∧ (∀ x, x ∈ l → ∃ bx, blocks q !! x = Some bx ∧ is_free bx = true
                                       ∧ size_class bx = sc')
                 ∧ a ∉ l).
  { intros sc' Hsc'. rewrite Hbq. destruct (decide (sc' = sc)) as [-> | Hne].
    - rewrite (free_list_insert_eq sc _ p q Hsc H6 Hfq).
      exists l'. split; [done |]. split; [done |]. split; [| done].
      intros x Hx. apply Hmem. by apply list_elem_of_further.
    - rewrite (free_list_insert_ne sc sc' _ p q ltac:(lia) ltac:(lia) ltac:(done) Hfq).
      destruct (H7 sc' Hsc') as (l & Hc & Hn & Hm).
      exists l. split; [done |]. split; [done |]. split; [done |].
      intros Hin. destruct (Hm a Hin) as (bx & Hbx & _ & Hcl).
      assert (bx = b) as -> by congruence. congruence. }
  split; [| split; [| done]].
  - split.
    + unfold chunks_ok. by rewrite Hcq.
    + by rewrite Hcq.
    + by rewrite Hcq, Hbq.
    + by rewrite Hbq.
    + by rewrite Hbq.
    + by rewrite Hfq, length_insert.
    + intros sc' Hsc'. destruct (Hlists sc' Hsc') as (l & Hc & Hn & Hm & _). by exists l.
    + by rewrite Hbq.
    + done.
  - intros sc' l Hsc' Hc. destruct (Hlists sc' Hsc') as (l0 & Hc0 & _ & _ & Hna0).
    by rewrite (chain_unique _ _ _ _ Hc Hc0).
Qed.

(** Rewriting the header of a block that is in no free list and not handed
    out, without touching its size, class or magic number. *)
Lemma heap_inv_mark tiles owned p a b0 b' q :
  heap_inv tiles owned p → unlisted p a → a ∉ snd <$> owned →
  blocks p !! a = Some b0 →
  size b' = size b0 → size_class b' = size_class b0 → magic b' = magic b0 →
  chunks_ q = chunks_ p → free_lists_ q = free_lists_ p →
  blocks q = <[a := b']> (blocks p) →
  heap_inv tiles owned q ∧ unlisted q a.
Proof.
  intros HI Hun Hno Hb0 Hs Hc Hm Hcq Hfq Hbq.
  pose proof HI as [H1 H2 H3 H4 H5 H6 H7 H8 H9].
  assert (Hlists : ∀ sc, 0 ≤ sc < NUM_SIZE_CLASSES →
            ∃ l, chain (blocks q) (free_list sc q) l ∧ NoDup l
                 ∧ (∀ x, x ∈ l → ∃ bx, blocks q !! x = Some bx ∧ is_free bx = true
                                       ∧ size_class bx = sc)
                 ∧ a ∉ l).
  { intros sc Hsc. destruct (H7 sc Hsc) as (l & Hch & Hn & Hmem).
    pose proof (Hun sc l Hsc Hch) as Hna.
    exists l. unfold free_list. rewrite Hfq, Hbq.
    split; [by apply chain_insert |]. split; [done |]. split; [| done].
    intros x Hx. rewrite lookup_insert_ne by (by intros ->). by apply Hmem. }
  split.
  - split.
    + unfold chunks_ok. by rewrite Hcq.
    + by rewrite Hcq.
    + rewrite Hcq, Hbq. eapply Forall2_impl; [exact H3 |].
      intros c l Ht. by eapply tiled_insert_same.
    + intros x Hx. rewrite Hbq in Hx. apply H4.
      destruct (decide (x = a)) as [-> | Hne]; [by eexists |].
      by rewrite lookup_insert_ne in Hx.
    + intros x bx Hx. rewrite Hbq in Hx. destruct (decide (x = a)) as [-> | Hne].
      * rewrite lookup_insert_eq in Hx. injection Hx as <-. rewrite Hs, Hc. by eapply H5.
      * rewrite lookup_insert_ne in Hx by done. by eapply H5.
    + by rewrite Hfq.
    + intros sc Hsc. destruct (Hlists sc Hsc) as (l & Hch & Hn & Hmem & _). by exists l.
    + rewrite Hbq. apply Forall_forall. intros [al x] Hin.
      destruct (proj1 (Forall_forall _ _) H8 _ Hin) as (bx & Hbx & Hrest).
      exists bx. split; [| done]. simpl in *. rewrite lookup_insert_ne; [done |].
      intros ->. apply Hno. apply list_elem_of_fmap. by exists (al, x).
    + done.
  - intros sc l Hsc Hch. destruct (Hlists sc Hsc) as (l0 & Hc0 & _ & _ & Hna0).
    by rewrite (chain_unique _ _ _ _ Hch Hc0).
Qed.

(** Making a free block that is in no free list the head of the list of
    its class. *)
Lemma heap_inv_link tiles owned p a b q :
  heap_inv tiles owned p → unlisted p a → a ≠ nullptr →
  blocks p !! a = Some b → is_free b = true →
  next_free b = free_list (size_class b) p →
  chunks_ q = chunks_ p → blocks q = blocks p →
  free_lists_ q = <[Z.to_nat (size_class b) := a]> (free_lists_ p) →
  heap_inv tiles owned q.
Proof.
  intros HI Hun Hnz Hb Hfree Hnext Hcq Hbq Hfq.
  pose proof HI as [H1 H2 H3 H4 H5 H6 H7 H8 H9].
  pose proof (class_range _ _ _ HI a b Hb) as Hsc.
  split.
  - unfold chunks_ok. by rewrite Hcq.
  - by rewrite Hcq.
  - by rewrite Hcq, Hbq.
  - by rewrite Hbq.
  - by rewrite Hbq.
  - by rewrite Hfq, length_insert.
  - intros sc' Hsc'. rewrite Hbq. destruct (decide (sc' = size_class b)) as [-> | Hne].
    + rewrite (free_list_insert_eq _ _ p q Hsc H6 Hfq).
      destruct (H7 _ Hsc) as (l & Hch & Hn & Hmem).
      exists (a :: l). split; [| split].
      * simpl. split; [done |]. split; [done |]. exists b. split; [done |]. by rewrite Hnext.
      * constructor; [by eapply Hun | done].
      * intros x Hx. apply elem_of_cons in Hx as [-> | Hx]; [by exists b | by apply Hmem].
    + rewrite (free_list_insert_ne (size_class b) sc' _ p q ltac:(lia) ltac:(lia)
                 ltac:(done) Hfq).
      by apply H7.
  - by rewrite Hbq.
  - done.
Qed.

(** [add_block_to_free_list] on a block that is in no list and not handed
    out. *)
Lemma heap_inv_push tiles owned p a b q :
  heap_inv tiles owned p → unlisted p a → a ∉ snd <$> owned → a ≠ nullptr →
  blocks p !! a = Some b →
  chunks_ q = chunks_ p →
  free_lists_ q = <[Z.to_nat (size_class b) := a]> (free_lists_ p) →
  blocks q = <[a := mkBlock (size b) (size_class b) true (free_list (size_class b) p)
                            (magic b)]> (blocks p) →
  heap_inv tiles owned q.
Proof.
  intros HI Hun Hno Hnz Hb Hcq Hfq Hbq.
  set (b' := mkBlock (size b) (size_class b) true (free_list (size_class b) p) (magic b)) in *.
  set (p1 := set_blocks (λ h, <[a := b']> h) p).
  destruct (heap_inv_mark tiles owned p a b b' p1 HI Hun Hno Hb eq_refl eq_refl eq_refl
              eq_refl eq_refl eq_refl) as [HI1 Hun1].
  apply (heap_inv_link tiles owned p1 a b' q HI1 Hun1 Hnz); try done.
  unfold p1. simpl. by rewrite lookup_insert_eq.
Qed.

Lemma chunks_ok_app p q c :
  chunks_ok p → 0 < chunk_size c →
  Forall (λ c', apart (extent c) (extent c')) (chunks_ p) →
  chunks_ q = chunks_ p ++ [c] → chunks_ok q.
Proof.
  intros [Hpos Hap] Hn Hfresh Hch. split; rewrite Hch.
  - apply Forall_app. split; [done |]. by repeat constructor.
  - intros i j c1 c2 Hi Hj Hne.
    rewrite Forall_forall in Hfresh.
    apply lookup_app_Some in Hi as [Hi1 | [Hil Hi2]];
      apply lookup_app_Some in Hj as [Hj1 | [Hjl Hj2]].
    + by eapply Hap.
    + apply list_lookup_singleton_Some in Hj2 as [_ <-].
      pose proof (Hfresh c1 (list_elem_of_lookup_2 _ _ _ Hi1)) as H.
      unfold apart in *. lia.
    + apply list_lookup_singleton_Some in Hi2 as [_ <-].
      exact (Hfresh c2 (list_elem_of_lookup_2 _ _ _ Hj1)).
    + apply list_lookup_singleton_Some in Hi2 as [Hi2 _].
      apply list_lookup_singleton_Some in Hj2 as [Hj2 _]. lia.
Qed.

(** A new chunk with its initial block. *)
Lemma heap_inv_new_chunk tiles owned p os n addr q :
  heap_inv tiles owned p → os_ok os p → mmap os n = Some addr → sizeof_Block ≤ n →
  chunks_ q = chunks_ p ++ [mkChunk addr n n false] →
  free_lists_ q = free_lists_ p →
  blocks q = <[addr := new_Block (n - sizeof_Block) (get_size_class (n - sizeof_Block))]>
               (blocks p) →
  heap_inv (tiles ++ [[addr]]) owned q ∧ unlisted q addr ∧ (addr ∉ snd <$> owned)
  ∧ addr ≠ nullptr.
Proof.
  intros HI Hos Hmap Hn Hcq Hfq Hbq.
  pose proof HI as [H1 H2 H3 H4 H5 H6 H7 H8 H9].
  destruct (Hos n addr Hmap) as (Hpos & Hend & Hfresh).
  assert (Hnew : blocks p !! addr = None).
  { destruct (blocks p !! addr) as [b |] eqn:Hb; [| done].
    destruct (tile_facts _ _ _ HI addr (header_tile _ _ _ HI _ _ Hb))
      as (c & l & b' & Hc & _ & _ & _ & _ & _ & Hs & Hlo & Hhi & _).
    rewrite Forall_forall in Hfresh. specialize (Hfresh c Hc).
    unfold apart, extent, sizeof_Block in *. simpl in Hfresh. lia. }
  assert (Hno : addr ∉ snd <$> owned).
  { intros Hin. apply list_elem_of_fmap in Hin as ([al x] & -> & Hin).
    destruct (owned_busy _ _ _ HI _ _ Hin) as (b & Hb & _). simpl in *. congruence. }
  assert (Hlists : ∀ sc, 0 ≤ sc < NUM_SIZE_CLASSES →
            ∃ l, chain (blocks q) (free_list sc q) l ∧ NoDup l
                 ∧ (∀ x, x ∈ l → ∃ bx, blocks q !! x = Some bx ∧ is_free bx = true
                                       ∧ size_class bx = sc)
                 ∧ addr ∉ l).
  { intros sc Hsc. destruct (H7 sc Hsc) as (l & Hch & Hnd & Hmem).
    pose proof (absent_unlisted p addr Hnew sc l Hsc Hch) as Hna.
    exists l. unfold free_list. rewrite Hfq, Hbq.
    split; [by apply chain_insert |]. split; [done |]. split; [| done].
    intros x Hx. rewrite lookup_insert_ne by (by intros ->). by apply Hmem. }
  split; [| split; [| split; [done | unfold nullptr; lia]]].
  - split.
    + eapply chunks_ok_app; [exact H1 | | | exact Hcq]; simpl; [unfold sizeof_Block in Hn; lia |].
      exact Hfresh.
    + rewrite Hcq. apply Forall_app. split; [done |].
      constructor; [| done]. simpl. lia.
    + rewrite Hcq, Hbq. apply Forall2_app.
      * eapply Forall2_impl; [exact H3 |]. intros c l Ht.
        apply tiled_insert_other; [| done].
        intros Hin. destruct (tiled_elem _ _ _ _ _ Ht Hin) as (b & Hb & _). congruence.
      * constructor; [| constructor]. simpl. split; [done |].
        eexists. rewrite lookup_insert_eq. split; [done |]. split; [done |].
        simpl. split; [lia |]. lia.
    + intros x Hx. rewrite Hbq in Hx. rewrite concat_app. apply elem_of_app.
      destruct (decide (x = addr)) as [-> | Hne].
      * right. simpl. apply list_elem_of_here.
      * left. apply H4. by rewrite lookup_insert_ne in Hx.
    + intros x bx Hx. rewrite Hbq in Hx. destruct (decide (x = addr)) as [-> | Hne].
      * rewrite lookup_insert_eq in Hx. by injection Hx as <-.
      * rewrite lookup_insert_ne in Hx by done. by eapply H5.
    + by rewrite Hfq.
    + intros sc Hsc. destruct (Hlists sc Hsc) as (l & Hch & Hnd & Hmem & _). by exists l.
    + rewrite Hbq. apply Forall_forall. intros [al x] Hin.
      destruct (proj1 (Forall_forall _ _) H8 _ Hin) as (bx & Hbx & Hrest).
      exists bx. split; [| done]. simpl in *. rewrite lookup_insert_ne; [done |].
      intros ->. congruence.
    + done.
  - intros sc l Hsc Hch. destruct (Hlists sc Hsc) as (l0 & Hc0 & _ & _ & Hna0).
    by rewrite (chain_unique _ _ _ _ Hch Hc0).
Qed.

Lemma tile_index tiles owned p a :
  heap_inv tiles owned p → a ∈ concat tiles →
  ∃ (i : nat) c l, chunks_ p !! i = Some c ∧ tiles !! i = Some l ∧ a ∈ l
                   ∧ tiled (blocks p) (memory c) (memory c + chunk_size c) l.
Proof.
  intros HI Ha. apply elem_of_concat in Ha as (l & Hal & Hl).
  apply list_elem_of_lookup in Hl as [i Hi].
  destruct (Forall2_lookup_r _ _ _ _ _ (hi_tiles _ _ _ HI) Hi) as (c & Hc & Ht).
  by exists i, c, l.
Qed.

(** A tile belongs to the list of one chunk only. *)
Lemma tile_one_chunk tiles owned p a (i j : nat) li lj :
  heap_inv tiles owned p → tiles !! i = Some li → tiles !! j = Some lj →
  a ∈ li → a ∈ lj → i = j.
Proof.
  intros HI Hi Hj Hai Haj. destruct (decide (i = j)) as [| Hne]; [done |]. exfalso.
  destruct (Forall2_lookup_r _ _ _ _ _ (hi_tiles _ _ _ HI) Hi) as (ci & Hci & Hti).
  destruct (Forall2_lookup_r _ _ _ _ _ (hi_tiles _ _ _ HI) Hj) as (cj & Hcj & Htj).
  destruct (tiled_elem _ _ _ _ a Hti Hai) as (b1 & Hb1 & _ & Hs1 & Hlo1 & Hhi1).
  destruct (tiled_elem _ _ _ _ a Htj Haj) as (b2 & Hb2 & _ & Hs2 & Hlo2 & Hhi2).
  destruct (hi_chunks _ _ _ HI) as [_ Hap].
  destruct (Hap i j ci cj Hci Hcj Hne) as [H | H]; unfold extent in H; simpl in H;
    unfold sizeof_Block in *; lia.
Qed.

(** Cutting a block in two: the first part keeps the address, the rest
    gets a new header behind the data of the first part. *)
Lemma heap_inv_carve tiles owned p a b required fr nx q :
  heap_inv tiles owned p → unlisted p a → a ∉ snd <$> owned →
  blocks p !! a = Some b →
  0 ≤ required → required + sizeof_Block + MIN_ALLOCATION_SIZE ≤ size b →
  let r := a + sizeof_Block + required in
  let rsize := size b - required - sizeof_Block in
  chunks_ q = chunks_ p → free_lists_ q = free_lists_ p →
  blocks q = <[a := mkBlock required (get_size_class required) fr nx (magic b)]>
               (<[r := new_Block rsize (get_size_class rsize)]> (blocks p)) →
  ∃ tiles', heap_inv tiles' owned q ∧ unlisted q a ∧ unlisted q r
            ∧ (r ∉ snd <$> owned) ∧ r ≠ nullptr ∧ blocks p !! r = None.
Proof.
  intros HI Hun Hno Hb Hreq Hroom r rsize Hcq Hfq Hbq.
  pose proof HI as [H1 H2 H3 H4 H5 H6 H7 H8 H9].
  destruct (tile_facts _ _ _ HI a (header_tile _ _ _ HI _ _ Hb))
    as (c0 & l0 & b0 & _ & _ & _ & _ & Hb0 & Hvalid & Hsize & _ & _ & Hapos & Haend).
  assert (b0 = b) as -> by congruence. clear Hb0.
  assert (Hnew : blocks p !! r = None).
  { destruct (blocks p !! r) as [br |] eqn:Hbr; [| done].
    destruct (tile_facts _ _ _ HI r (header_tile _ _ _ HI _ _ Hbr))
      as (_ & _ & br' & _ & _ & _ & _ & Hbr' & _ & Hsr & _).
    assert (br' = br) as -> by congruence.
    assert (Hne : a ≠ r) by (unfold r, sizeof_Block; lia).
    destruct (tiles_apart _ _ _ HI a r b br Hb Hbr Hne) as [H | H];
      unfold r, sizeof_Block, MIN_ALLOCATION_SIZE in *; lia. }
  assert (Har : a ≠ r) by (unfold r, sizeof_Block; lia).
  assert (Hrno : r ∉ snd <$> owned).
  { intros Hin. apply list_elem_of_fmap in Hin as ([al x] & Hx & Hin).
    destruct (owned_busy _ _ _ HI _ _ Hin) as (bx & Hbx & _). simpl in *. congruence. }
  destruct (tile_index _ _ _ a HI (header_tile _ _ _ HI _ _ Hb)) as (i & c & l & Hc & Hl & Hal & Ht).
  set (ba := mkBlock required (get_size_class required) fr nx (magic b)) in *.
  set (br := new_Block rsize (get_size_class rsize)) in *.
  destruct (tiled_split (blocks p) a r b ba br l _ _ Ht Hal Hb) as (l1 & l2 & Hl12 & Ht');
    try done; try (unfold r, rsize, ba, br, sizeof_Block, MIN_ALLOCATION_SIZE in *; simpl; lia).
  exists (<[i := l1 ++ a :: r :: l2]> tiles).
  assert (Hlists : ∀ sc, 0 ≤ sc < NUM_SIZE_CLASSES →
            ∃ l, chain (blocks q) (free_list sc q) l ∧ NoDup l
                 ∧ (∀ x, x ∈ l → ∃ bx, blocks q !! x = Some bx ∧ is_free bx = true
                                       ∧ size_class bx = sc)
                 ∧ (a ∉ l) ∧ (r ∉ l)).
  { intros sc Hsc. destruct (H7 sc Hsc) as (ls & Hch & Hnd & Hmem).
    pose proof (Hun sc ls Hsc Hch) as Hna.
    pose proof (absent_unlisted p r Hnew sc ls Hsc Hch) as Hnr.
    exists ls. unfold free_list. rewrite Hfq, Hbq.
    split; [apply chain_insert; [by apply chain_insert | done] |].
    split; [done |]. split; [| done].
    intros x Hx. rewrite !lookup_insert_ne by (by intros ->). by apply Hmem. }
  split; [| split; [| split; [| split; [done | split; [unfold r, nullptr, sizeof_Block; lia | done]]]]].
  - split.
    + unfold chunks_ok. by rewrite Hcq.
    + by rewrite Hcq.
    + rewrite Hcq, Hbq. apply Forall2_same_length_lookup_2.
      { rewrite length_insert. by eapply Forall2_length. }
      intros j cj lj Hcj Hlj. destruct (decide (j = i)) as [-> | Hji].
      * rewrite list_lookup_insert_eq in Hlj by (by eapply lookup_lt_Some).
        injection Hlj as <-. assert (cj = c) as -> by congruence. exact Ht'.
      * rewrite list_lookup_insert_ne in Hlj by done.
        pose proof (Forall2_lookup_lr _ _ _ _ _ _ H3 Hcj Hlj) as Htj.
        apply tiled_insert_other; [| apply tiled_insert_other; [| done]].
        -- intros Hin. apply Hji. by eapply (tile_one_chunk tiles owned p a j i).
        -- intros Hin. destruct (tiled_elem _ _ _ _ _ Htj Hin) as (bx & Hbx & _). congruence.
    + intros x Hx. rewrite Hbq in Hx. apply elem_of_concat.
      destruct (decide (x = a)) as [-> | Hxa].
      { exists (l1 ++ a :: r :: l2).
        split; [apply elem_of_app; right; apply list_elem_of_here |].
        apply list_elem_of_lookup. exists i. apply list_lookup_insert_eq. by eapply lookup_lt_Some. }
      destruct (decide (x = r)) as [-> | Hxr].
      { exists (l1 ++ a :: r :: l2).
        split; [apply elem_of_app; right; apply list_elem_of_further, list_elem_of_here |].
        apply list_elem_of_lookup. exists i. apply list_lookup_insert_eq. by eapply lookup_lt_Some. }
      rewrite !lookup_insert_ne in Hx by done.
      apply H4, elem_of_concat in Hx as (lx & Hxl & Hlx).
      apply list_elem_of_lookup in Hlx as [j Hj].
      destruct (decide (j = i)) as [-> | Hji].
      * exists (l1 ++ a :: r :: l2). split.
        -- assert (lx = l) as -> by congruence. rewrite Hl12 in Hxl.
           apply elem_of_app in Hxl as [Hx1 | Hx2]; apply elem_of_app; [by left | right].
           apply elem_of_cons in Hx2 as [-> | Hx2]; [apply list_elem_of_here |].
           by do 2 apply list_elem_of_further.
        -- apply list_elem_of_lookup. exists i. apply list_lookup_insert_eq. by eapply lookup_lt_Some.
      * exists lx. split; [done |]. apply list_elem_of_lookup. exists j.
        by rewrite list_lookup_insert_ne.
    + intros x bx Hx. rewrite Hbq in Hx.
      destruct (decide (x = a)) as [-> | Hxa].
      { rewrite lookup_insert_eq in Hx. by injection Hx as <-. }
      rewrite lookup_insert_ne in Hx by done.
      destruct (decide (x = r)) as [-> | Hxr].
      { rewrite lookup_insert_eq in Hx. by injection Hx as <-. }
      rewrite lookup_insert_ne in Hx by done. by eapply H5.
    + by rewrite Hfq.
    + intros sc Hsc. destruct (Hlists sc Hsc) as (ls & Hch & Hnd & Hmem & _). by exists ls.
    + rewrite Hbq. apply Forall_forall. intros [al x] Hin.
      destruct (proj1 (Forall_forall _ _) H8 _ Hin) as (bx & Hbx & Hrest).
      exists bx. split; [| done]. simpl in *.
      rewrite !lookup_insert_ne; [done | intros ->; congruence |].
      intros ->. apply Hno. apply list_elem_of_fmap. by exists (al, x).
    + done.
  - intros sc ls Hsc Hch. destruct (Hlists sc Hsc) as (l' & Hc' & _ & _ & Hna' & _).
    by rewrite (chain_unique _ _ _ _ Hch Hc').
  - intros sc ls Hsc Hch. destruct (Hlists sc Hsc) as (l' & Hc' & _ & _ & _ & Hnr').
    by rewrite (chain_unique _ _ _ _ Hch Hc').
Qed.

(** *** [std::align] *)

Lemma land_neg_pow2 w k :
  0 ≤ w < 2 ^ 64 → 0 ≤ k < 64 → Z.land w (u64 (- 2 ^ k)) = w - w mod 2 ^ k.
Proof.
  intros Hw Hk.
  assert (Hp : 0 < 2 ^ k < 2 ^ 64).
  { split; [apply Z.pow_pos_nonneg; lia | apply Z.pow_lt_mono_r; lia]. }
  assert (Hu : u64 (- 2 ^ k) = 2 ^ 64 - 2 ^ k).
  { unfold u64. symmetry. apply (Z.mod_unique_pos _ _ (-1)); lia. }
  rewrite Hu.
  assert (E : Z.land w (2 ^ 64 - 2 ^ k) = Z.ldiff w (Z.ones k)).
  { apply Z.bits_inj'. intros n Hn. rewrite Z.land_spec, Z.ldiff_spec.
    destruct (Z.lt_ge_cases n 64) as [Hlt | Hge].
    - f_equal.
      replace (2 ^ 64 - 2 ^ k) with (Z.ldiff (Z.ones 64) (Z.ones k)).
      + rewrite Z.ldiff_spec. rewrite (Z.ones_spec_low 64 n) by lia. done.
      + rewrite Z.ldiff_ones_r by lia. rewrite Z.shiftr_div_pow2, Z.shiftl_mul_pow2 by lia.
        rewrite Z.ones_equiv.
        replace (Z.pred (2 ^ 64)) with ((2 ^ (64 - k) - 1) * 2 ^ k + (2 ^ k - 1)).
        * rewrite Z.div_add_l by lia. rewrite Z.div_small by lia.
          rewrite Z.add_0_r, Z.mul_sub_distr_r, <- Z.pow_add_r by lia.
          replace (64 - k + k) with 64 by lia. lia.
        * rewrite Z.mul_sub_distr_r, <- Z.pow_add_r by lia.
          replace (64 - k + k) with 64 by lia. lia.
    - assert (Hwn : Z.testbit w n = false).
      { destruct (Z.eq_dec w 0) as [-> | Hnz]; [apply Z.bits_0 |].
        apply Z.bits_above_log2; [lia |].
        eapply Z.lt_le_trans; [| exact Hge]. apply Z.log2_lt_pow2; lia. }
      by rewrite Hwn. }
  rewrite E, Z.ldiff_ones_r by lia.
  rewrite Z.shiftr_div_pow2, Z.shiftl_mul_pow2 by lia.
  pose proof (Z.div_mod w (2 ^ k) ltac:(lia)). lia.
Qed.

(** When [std::align] succeeds, the address it returns is aligned and
    leaves room for the object inside the space given. *)
Lemma std_align_spec alignment sz ptr space aligned k :
  0 ≤ k < 64 → alignment = 2 ^ k → 0 < sz → 0 ≤ ptr → 0 ≤ space →
  ptr + space ≤ 2 ^ 64 →
  std_align alignment sz ptr space = Some aligned →
  ptr ≤ aligned ∧ aligned + sz ≤ ptr + space ∧ aligned mod alignment = 0.
Proof.
  intros Hk -> Hsz Hptr Hspace Hend. unfold std_align.
  assert (Hp : 0 < 2 ^ k < 2 ^ 64).
  { split; [apply Z.pow_pos_nonneg; lia | apply Z.pow_lt_mono_r; lia]. }
  destruct (Z.ltb_spec space sz) as [| Hfit]; [done |].
  pose proof (u64_range (ptr - 1 + 2 ^ k)) as Hw.
  rewrite (land_neg_pow2 _ k Hw Hk).
  set (w := u64 (ptr - 1 + 2 ^ k)) in *.
  pose proof (Z.mod_pos_bound w (2 ^ k) ltac:(lia)) as Hm.
  pose proof (Z.div_mod w (2 ^ k) ltac:(lia)) as Hdm.
  rewrite (u64_small (space - sz)) by lia.
  destruct (Z.lt_ge_cases (ptr - 1 + 2 ^ k) (2 ^ 64)) as [Hno | Hwrap].
  - assert (Hweq : w = ptr - 1 + 2 ^ k) by (unfold w; apply u64_small; lia).
    assert (Hlo : ptr ≤ w - w mod 2 ^ k).
    { rewrite Hweq. 
      pose proof (Z.div_mod (ptr - 1 + 2 ^ k) (2 ^ k) ltac:(lia)) as H1.
      pose proof (Z.mod_pos_bound (ptr - 1 + 2 ^ k) (2 ^ k) ltac:(lia)) as H2. lia. }
    rewrite (u64_small (w - w mod 2 ^ k - ptr)) by lia.
    destruct (Z.ltb_spec (space - sz) (w - w mod 2 ^ k - ptr)) as [| Hok]; [done |].
    intros [= <-]. split; [done |]. split; [lia |].
    replace (w - w mod 2 ^ k) with (w / 2 ^ k * 2 ^ k) by lia. apply Z.mod_mul. lia.
  - assert (Hweq : w = ptr - 1 + 2 ^ k - 2 ^ 64).
    { unfold w, u64. symmetry. apply (Z.mod_unique_pos _ _ 1); lia. }
    assert (Hd : u64 (w - w mod 2 ^ k - ptr) = w - w mod 2 ^ k - ptr + 2 ^ 64).
    { unfold u64. symmetry. apply (Z.mod_unique_pos _ _ (-1)); lia. }
    rewrite Hd.
    destruct (Z.ltb_spec (space - sz) (w - w mod 2 ^ k - ptr + 2 ^ 64)) as [| Hok]; [done |].
    pose proof (Z.div_pos w (2 ^ k) ltac:(lia) ltac:(lia)). exfalso. nia.
Qed.

Lemma effective_alignment_pow2 al :
  0 ≤ al < 2 ^ 64 → ∃ k, 0 ≤ k < 64 ∧ effective_alignment al = 2 ^ k.
Proof.
  intros Hal. unfold effective_alignment.
  destruct (is_power_of_two al) eqn:Hp; simpl.
  - by apply is_power_of_two_pow2.
  - exists 6. split; [lia | done].
Qed.

(** *** The operations *)

Lemma bind_returned {A B} (c : M A) (k : A → M B) p a p1 :
  c p = (Returned a, p1) → (x <- c ;; k x) p = k a p1.
Proof. intros H. unfold bind. by rewrite H. Qed.

Lemma block_bounds tiles owned p a b :
  heap_inv tiles owned p → blocks p !! a = Some b →
  is_valid b = true ∧ 0 ≤ size b ∧ 0 < a ∧ a + sizeof_Block + size b ≤ 2 ^ 64.
Proof.
  intros HI Hb.
  destruct (tile_facts _ _ _ HI a (header_tile _ _ _ HI _ _ Hb))
    as (_ & _ & b' & _ & _ & _ & _ & Hb' & Hv & Hs & _ & _ & Hpos & Hend).
  assert (b' = b) as -> by congruence. done.
Qed.

Lemma data_eq tiles owned p a b :
  heap_inv tiles owned p → blocks p !! a = Some b → 0 < size b → data a = a + sizeof_Block.
Proof.
  intros HI Hb Hs. destruct (block_bounds _ _ _ _ _ HI Hb) as (_ & _ & Hpos & Hend).
  unfold data. apply u64_small. unfold sizeof_Block in *. lia.
Qed.

(** [split_block] on a block taken off its free list. *)
Lemma split_block_inv tiles owned p a b required :
  heap_inv tiles owned p → unlisted p a → a ∉ snd <$> owned →
  blocks p !! a = Some b → 0 ≤ required ≤ size b → 0 < size b →
  ∃ p' tiles' b',
    split_block a required p = (Returned a, p')
    ∧ heap_inv tiles' owned p' ∧ chunks_ p' = chunks_ p
    ∧ blocks p' !! a = Some b' ∧ is_free b' = false.
Proof.
  intros HI Hun Hno Hb Hreq Hpos.
  destruct (block_bounds _ _ _ _ _ HI Hb) as (Hv & Hs & Hapos & Hend).
  pose proof (data_eq _ _ _ _ _ HI Hb Hpos) as Hdata.
  unfold split_block.
  destruct (Z.eqb_spec a nullptr) as [-> | Hnz]; [unfold nullptr in Hapos; lia |].
  cbn [negb]. rewrite bind_assert_true, (bind_load _ _ _ b Hb), Hv, bind_assert_true.
  assert (Hrem : u64 (size b - required) = size b - required).
  { apply u64_small. unfold sizeof_Block in *. lia. }
  cbv zeta. rewrite !Hrem. change (u64 (sizeof_Block + MIN_ALLOCATION_SIZE)) with 104.
  destruct (Z.leb_spec 104 (size b - required)) as [Hsplit | Hwhole].
  - set (r := a + sizeof_Block + required).
    set (rsize := size b - required - sizeof_Block).
    assert (Hr : u64 (data a + required) = r).
    { rewrite Hdata. apply u64_small. unfold r, sizeof_Block in *. lia. }
    assert (Hrs : u64 rsize = rsize).
    { apply u64_small. unfold rsize, sizeof_Block in *. lia. }
    rewrite Hr, Hrs.
    set (Rn := new_Block rsize (get_size_class rsize)).
    set (A' := mkBlock required (get_size_class required) false nullptr (magic b)).
    set (q1 := set_blocks (λ h, <[a := A']> (<[r := Rn]> h)) p).
    destruct (heap_inv_carve tiles owned p a b required false nullptr q1 HI Hun Hno Hb)
      as (tiles' & HI1 & Hun1a & Hun1r & Hrno & Hrnz & Hrnew);
      try done; try (unfold sizeof_Block, MIN_ALLOCATION_SIZE; lia).
    assert (Har : a ≠ r) by (unfold r, sizeof_Block; lia).
    assert (Hq1r : blocks q1 !! r = Some Rn).
    { unfold q1. simpl. rewrite lookup_insert_ne by done. by rewrite lookup_insert_eq. }
    pose proof (class_range _ _ _ HI1 r Rn Hq1r) as Hclass.
    rewrite bind_store.
    set (s1 := set_blocks (λ h, <[r := Rn]> h) p).
    assert (Hs1r : blocks s1 !! r = Some Rn) by (unfold s1; simpl; by rewrite lookup_insert_eq).
    rewrite (bind_returned _ _ _ _ _ (add_block_to_free_list_valid r s1 Rn Hrnz Hs1r eq_refl)).
    rewrite bind_store. unfold ret.
    replace (Z.min (size_class Rn) (NUM_SIZE_CLASSES - 1)) with (size_class Rn)
      by (unfold NUM_SIZE_CLASSES in *; lia).
    eexists _, tiles', A'. split; [reflexivity |]. split; [| split; [done | split; [| done]]].
    + eapply (heap_inv_push tiles' owned q1 r Rn); try done.
      simpl. rewrite insert_insert_eq.
      rewrite !(insert_insert_ne (blocks p) a r) by done. by rewrite insert_insert_eq.
    + simpl. by rewrite lookup_insert_eq.
  - rewrite bind_store. unfold ret.
    set (A' := mkBlock (size b) (size_class b) false nullptr (magic b)).
    destruct (heap_inv_mark tiles owned p a b A' (set_blocks (λ h, <[a := A']> h) p)
                HI Hun Hno Hb eq_refl eq_refl eq_refl eq_refl eq_refl eq_refl) as [HI1 _].
    eexists _, tiles, A'. split; [reflexivity |]. split; [done |]. split; [done |].
    split; [| done]. simpl. by rewrite lookup_insert_eq.
Qed.

Lemma free_head tiles owned p sc :
  heap_inv tiles owned p → 0 ≤ sc < NUM_SIZE_CLASSES → free_list sc p ≠ nullptr →
  ∃ b, blocks p !! free_list sc p = Some b.
Proof.
  intros HI Hsc Hnz. destruct (hi_lists _ _ _ HI sc Hsc) as (l & Hc & _).
  destruct l as [| x l]; simpl in Hc; [done |].
  destruct Hc as (_ & _ & b & Hb & _). by exists b.
Qed.

Lemma take_from_larger_inv tiles owned sc larger :
  0 ≤ sc → (∀ k, k ∈ larger → sc < k < NUM_SIZE_CLASSES) →
  ∀ p, heap_inv tiles owned p →
  ∃ a p' tiles', take_from_larger sc larger p = (Returned a, p')
                 ∧ heap_inv tiles' owned p' ∧ chunks_ p' = chunks_ p ∧ taken owned p' a.
Proof.
  intros Hsc. induction larger as [| k rest IH]; intros Hk p HI.
  { exists nullptr, p, tiles. split; [done |]. split; [done |]. split; [done | by left]. }
  assert (Hkr : sc < k < NUM_SIZE_CLASSES) by (apply Hk, list_elem_of_here).
  cbn [take_from_larger]. rewrite bind_get.
  destruct (Z.eqb_spec (free_list k p) nullptr) as [Hnull | Hnz]; cbn [negb].
  { apply IH; [| done]. intros k' Hk'. by apply Hk, list_elem_of_further. }
  destruct (free_head _ _ _ k HI ltac:(lia) Hnz) as [b Hb].
  rewrite (bind_load _ _ _ b Hb), bind_modify.
  set (q := set_free_list k (next_free b) p).
  destruct (heap_inv_pop tiles owned p k (free_list k p) b q HI ltac:(lia) eq_refl Hnz Hb
              eq_refl eq_refl eq_refl) as (HIq & Hun & Hfree & Hclass).
  pose proof (free_not_owned _ _ _ HI _ _ Hb Hfree) as Hno.
  destruct (block_bounds _ _ _ _ _ HI Hb) as (_ & Hs & _).
  rewrite (hi_class _ _ _ HI _ _ Hb) in Hclass.
  assert (Hpos : 0 < size b).
  { destruct (decide (size b = 0)) as [H0 | ]; [| lia].
    rewrite H0 in Hclass. change (get_size_class 0) with 0 in Hclass. lia. }
  pose proof (get_size_class_spec (size b) Hpos) as Hspec. cbv zeta in Hspec.
  rewrite Hclass in Hspec. destruct Hspec as (_ & _ & Hlow).
  unfold NUM_SIZE_CLASSES in Hkr.
  assert (Hreq : get_size_for_class sc ≤ size b).
  { rewrite get_size_for_class_eq by lia.
    assert (2 ^ sc ≤ 2 ^ (k - 1)) by (apply Z.pow_le_mono_r; lia). lia. }
  assert (0 < get_size_for_class sc).
  { rewrite get_size_for_class_eq by lia. assert (0 < 2 ^ sc) by (apply Z.pow_pos_nonneg; lia).
    lia. }
  destruct (split_block_inv tiles owned q (free_list k p) b (get_size_for_class sc)
              HIq Hun Hno Hb ltac:(lia) Hpos) as (p' & tiles' & b' & Hrun & HI' & Hch & Hb' & Hf').
  exists (free_list k p), p', tiles'. split; [done |]. split; [done |]. split; [done |].
  right. split; [done |]. by exists b'.
Qed.

Lemma seqZ_elem k m n : k ∈ seqZ m n → m ≤ k < m + n.
Proof.
  intros Hin. apply list_elem_of_lookup in Hin as [i Hi].
  apply lookup_seqZ in Hi. lia.
Qed.

Lemma allocate_from_size_class_inv tiles owned p sc :
  heap_inv tiles owned p → 0 ≤ sc →
  ∃ a p' tiles', allocate_from_size_class sc p = (Returned a, p')
                 ∧ heap_inv tiles' owned p' ∧ chunks_ p' = chunks_ p ∧ taken owned p' a.
Proof.
  intros HI Hsc. unfold allocate_from_size_class.
  destruct (Z.leb_spec NUM_SIZE_CLASSES sc) as [| Hlt].
  { exists nullptr, p, tiles. split; [done |]. split; [done |]. split; [done | by left]. }
  rewrite bind_get.
  destruct (Z.eqb_spec (free_list sc p) nullptr) as [Hnull | Hnz]; cbn [negb].
  { apply (take_from_larger_inv tiles); [done | | done].
    intros k Hk%seqZ_elem. lia. }
  destruct (free_head _ _ _ sc HI ltac:(lia) Hnz) as [b Hb].
  rewrite (bind_load _ _ _ b Hb), bind_modify, bind_store. unfold ret.
  set (q := set_free_list sc (next_free b) p).
  destruct (heap_inv_pop tiles owned p sc (free_list sc p) b q HI ltac:(lia) eq_refl Hnz Hb
              eq_refl eq_refl eq_refl) as (HIq & Hun & Hfree & Hclass).
  pose proof (free_not_owned _ _ _ HI _ _ Hb Hfree) as Hno.
  set (b' := mkBlock (size b) (size_class b) false nullptr (magic b)).
  assert (HI' : heap_inv tiles owned (set_blocks (λ h, <[free_list sc p := b']> h) q)).
  { by apply (heap_inv_mark tiles owned q (free_list sc p) b b'). }
  eexists _, _, tiles. split; [reflexivity |]. split; [done |]. split; [done |].
  right. split; [done |]. exists b'. split; [| done]. simpl. by rewrite lookup_insert_eq.
Qed.

Lemma align_up_range v a : 0 ≤ align_up v a < 2 ^ 64.
Proof. unfold align_up. apply u64_range. Qed.

(** [add_chunk] either throws and leaves the pool as it was, or adds a
    chunk whose only block is on its free list. *)
Lemma add_chunk_inv tiles owned p os m :
  heap_inv tiles owned p → os_ok os p →
  (∃ e, add_chunk os m p = (Thrown e, p))
  ∨ (∃ p' tiles', add_chunk os m p = (Returned tt, p') ∧ heap_inv tiles' owned p').
Proof.
  intros HI Hos. unfold add_chunk. rewrite bind_get. cbv zeta.
  set (n := align_up _ _). unfold new_Chunk.
  destruct (mmap os n) as [addr |] eqn:Hmap; [| left; by eexists].
  rewrite bind_ret.
  destruct (Z.ltb_spec n sizeof_Block) as [| Hn]; [left; by eexists |].
  right. cbn [memory chunk_size is_arena_chunk].
  pose proof (align_up_range (Z.max (u64 (m + sizeof_Block)) (default_chunk_size_ p))
                (u64 (if sysconf_page_size os <=? 0 then 4096 else sysconf_page_size os)))
    as Hrange. fold n in Hrange.
  assert (Hsz : u64 (n - sizeof_Block) = n - sizeof_Block).
  { apply u64_small. unfold sizeof_Block in *. lia. }
  rewrite !Hsz.
  set (Bn := new_Block (n - sizeof_Block) (get_size_class (n - sizeof_Block))).
  set (q1 := push_chunk (mkChunk addr n n false) (set_blocks (λ h, <[addr := Bn]> h) p)).
  destruct (heap_inv_new_chunk tiles owned p os n addr q1 HI Hos Hmap Hn eq_refl eq_refl
              eq_refl) as (HI1 & Hun1 & Hno1 & Hnz).
  assert (Hq1 : blocks q1 !! addr = Some Bn) by (simpl; by rewrite lookup_insert_eq).
  pose proof (class_range _ _ _ HI1 addr Bn Hq1) as Hclass.
  rewrite bind_store.
  set (s1 := set_blocks (λ h, <[addr := Bn]> h) p).
  assert (Hs1 : blocks s1 !! addr = Some Bn) by (simpl; by rewrite lookup_insert_eq).
  rewrite (bind_returned _ _ _ _ _ (add_block_to_free_list_valid addr s1 Bn Hnz Hs1 eq_refl)).
  rewrite bind_modify. unfold modify.
  replace (Z.min (size_class Bn) (NUM_SIZE_CLASSES - 1)) with (size_class Bn)
    by (unfold NUM_SIZE_CLASSES in *; lia).
  eexists _, _. split; [reflexivity |].
  eapply (heap_inv_push _ owned q1 addr Bn); try done.
Qed.

Lemma heap_inv_own tiles owned p al a :
  heap_inv tiles owned p → owns (blocks p) al a → a ∉ snd <$> owned →
  heap_inv tiles ((al, a) :: owned) p.
Proof.
  intros [H1 H2 H3 H4 H5 H6 H7 H8 H9] Ho Hno. split; try done.
  - by constructor.
  - rewrite fmap_cons. by constructor.
Qed.

Lemma effective_size_ge sz al : 0 ≤ sz → sz ≤ effective_size sz al.
Proof.
  intros Hsz. unfold effective_size.
  destruct (Z.ltb_spec (u64 (sz + al - 1)) sz); lia.
Qed.

(** [allocate] keeps the heap in shape: a non-null result is a new range
    inside a block that backs no other range. *)
Lemma allocate_inv tiles owned p os sz al :
  heap_inv tiles owned p → os_ok os p → 0 ≤ sz < 2 ^ 64 → 0 ≤ al < 2 ^ 64 →
  match allocate os sz al p with
  | (Returned ptr, p1) =>
      ∃ tiles1, if ptr =? nullptr then heap_inv tiles1 owned p1
                else ∃ a, heap_inv tiles1 ((mkAllocation ptr sz al, a) :: owned) p1
  | (Thrown _, p1) => ∃ tiles1, heap_inv tiles1 owned p1
  | (Aborted, _) => True
  | (Undefined, _) => False
  end.
Proof.
  intros HI Hos Hsz Hal. unfold allocate.
  destruct (Z.eqb_spec sz 0) as [| Hnz]; [by exists tiles |].
  cbv zeta.
  set (esn := effective_size sz (effective_alignment al)).
  pose proof (get_size_class_range esn) as Hsc.
  destruct (allocate_from_size_class_inv tiles owned p (get_size_class esn) HI ltac:(lia))
    as (a & p' & tiles' & Hrun & HI' & Hch & Htaken).
  rewrite (bind_returned _ _ _ _ _ Hrun).
  match goal with |- context [bind (if _ then _ else _) ?K] => set (k := K) end.
  assert (Htail : ∀ a pf tilesf, heap_inv tilesf owned pf → taken owned pf a →
            match k a pf with
            | (Returned ptr, p1) =>
                ∃ tiles1, if ptr =? nullptr then heap_inv tiles1 owned p1
                          else ∃ a, heap_inv tiles1 ((mkAllocation ptr sz al, a) :: owned) p1
            | (Thrown _, p1) => ∃ tiles1, heap_inv tiles1 owned p1
            | (Aborted, _) => True
            | (Undefined, _) => False
            end).
  { clear dependent a. clear dependent p'. clear tiles'.
    intros a pf tilesf HIf Htaken. unfold k.
    destruct (Z.eqb_spec a nullptr) as [| Hanz]; [by exists tilesf |].
    destruct Htaken as [| (Hno & b & Hb & Hbusy)]; [done |].
    destruct (block_bounds _ _ _ _ _ HIf Hb) as (Hv & Hs & Hapos & Hend).
    rewrite (bind_load _ _ _ b Hb), Hv, Hbusy. cbn [negb andb].
    rewrite bind_assert_true.
    destruct ((esn <=? size b) || (sz <=? size b)) eqn:Hfit;
      [rewrite bind_assert_true | by rewrite bind_assert_false].
    assert (Hpos : 0 < size b).
    { pose proof (effective_size_ge sz (effective_alignment al) ltac:(lia)). fold esn in H.
      apply orb_true_iff in Hfit as [H1%Z.leb_le | H1%Z.leb_le]; lia. }
    pose proof (data_eq _ _ _ _ _ HIf Hb Hpos) as Hdata.
    pose proof (busy_unlisted _ _ _ HIf _ _ Hb Hbusy) as Hun.
    destruct (std_align _ _ _ _) as [ptr |] eqn:Halign.
    - rewrite bind_modify. unfold ret.
      destruct (effective_alignment_pow2 al Hal) as (j & Hj & Hea).
      destruct (std_align_spec (effective_alignment al) sz (data a) (size b) ptr j Hj Hea ltac:(lia) ltac:(rewrite Hdata; unfold sizeof_Block; lia) Hs
                  ltac:(rewrite Hdata; lia) Halign) as (Hlo & Hhi & Hmod).
      rewrite Hdata in Hlo, Hhi. exists tilesf.
      destruct (Z.eqb_spec ptr nullptr) as [-> | _].
      { unfold nullptr, sizeof_Block in *. lia. }
      exists a. apply heap_inv_own; [by eapply heap_inv_ext; [| | | exact HIf] | | done].
      exists b. simpl. repeat split; (done || lia).
    - rewrite (bind_returned _ _ _ _ _ (add_block_to_free_list_valid a pf b Hanz Hb Hv)).
      pose proof (class_range _ _ _ HIf a b Hb) as Hclass.
      replace (Z.min (size_class b) (NUM_SIZE_CLASSES - 1)) with (size_class b)
        by (unfold NUM_SIZE_CLASSES in *; lia).
      set (b1 := mkBlock (size b) (size_class b) true (free_list (size_class b) pf) (magic b)).
      erewrite bind_load by (simpl; apply lookup_insert_eq).
      rewrite bind_store. unfold ret. exists tilesf. simpl.
      eapply (heap_inv_push tilesf owned pf a b); try done.
      simpl. by rewrite insert_insert_eq. }
  destruct (Z.eqb_spec a nullptr) as [-> | Hanz].
  - assert (Hos' : os_ok os p') by (unfold os_ok; by rewrite Hch).
    destruct (add_chunk_inv tiles' owned p' os (u64 (sizeof_Block + esn)) HI' Hos')
      as [[e He] | (p2 & tiles2 & He & HI2)].
    + unfold bind at 1. unfold bind at 1. rewrite He. by exists tiles'.
    + unfold bind at 1. rewrite (bind_returned _ _ _ _ _ He).
      destruct (allocate_from_size_class_inv tiles2 owned p2 (get_size_class esn) HI2
                  ltac:(lia)) as (a3 & p3 & tiles3 & Hrun3 & HI3 & _ & Htaken3).
      rewrite Hrun3. by apply (Htail a3 p3 tiles3).
  - rewrite bind_ret. by apply (Htail a p' tiles').
Qed.

(** *** Finding the block of a pointer *)

Lemma data_le a : 0 ≤ a → data a ≤ a + sizeof_Block.
Proof.
  intros Ha. unfold data, u64. apply Z.mod_le; unfold sizeof_Block; lia.
Qed.

(** The scan of a chunk reaches the block whose data area holds the
    pointer. *)
Lemma scan_blocks_finds p x bx ptr : ∀ l cur e fuel,
  tiled (blocks p) cur e l → x ∈ l → blocks p !! x = Some bx →
  x + sizeof_Block ≤ ptr < x + sizeof_Block + size bx →
  0 ≤ cur → e ≤ 2 ^ 64 → (length l < fuel)%nat →
  scan_blocks fuel e cur ptr p = (Returned (Some x), p).
Proof.
  induction l as [| y l IH]; intros cur e fuel Ht Hx Hbx Hptr Hcur He Hfuel;
    [by apply elem_of_nil in Hx |].
  simpl in Ht. destruct Ht as (-> & b & Hb & Hv & Hs & Ht).
  destruct fuel as [| fuel]; [cbn [length] in Hfuel; lia |].
  cbn [length] in Hfuel. cbn [scan_blocks].
  pose proof (tiled_le _ _ _ _ Ht) as Hle.
  destruct (Z.ltb_spec cur e) as [_ |]; [| unfold sizeof_Block in *; lia].
  rewrite (bind_load _ _ _ b Hb), Hv. cbn [negb]. cbv zeta.
  apply elem_of_cons in Hx as [-> | Hx].
  - assert (b = bx) as -> by congruence.
    assert (Hd : data cur = cur + sizeof_Block).
    { unfold data. apply u64_small. unfold sizeof_Block in *. lia. }
    rewrite Hd.
    destruct (Z.leb_spec (cur + sizeof_Block) ptr); [| lia].
    destruct (Z.ltb_spec ptr (cur + sizeof_Block + size bx)); [done | lia].
  - destruct (tiled_elem _ _ _ _ x Ht Hx) as (b' & Hb' & _ & _ & Hlo & _).
    pose proof (data_le cur Hcur) as Hd.
    destruct (Z.ltb_spec ptr (data cur + size b)) as [| _]; [unfold sizeof_Block in *; lia |].
    rewrite andb_false_r.
    apply IH; try done; unfold sizeof_Block in *; lia.
Qed.

Lemma find_block_finds tiles owned p x bx ptr :
  heap_inv tiles owned p → blocks p !! x = Some bx →
  x + sizeof_Block ≤ ptr < x + sizeof_Block + size bx →
  find_block (chunks_ p) ptr p = (Returned (Some x), p).
Proof.
  intros HI Hbx Hptr.
  destruct (tile_index _ _ _ x HI (header_tile _ _ _ HI _ _ Hbx))
    as (i & c & l & Hc & Hl & Hxl & Ht).
  destruct (tiled_elem _ _ _ _ x Ht Hxl) as (b' & Hb' & _ & _ & Hlo & Hhi).
  assert (b' = bx) as -> by congruence.
  pose proof (hi_space _ _ _ HI) as Hsp. rewrite Forall_forall in Hsp.
  destruct (Hsp c (list_elem_of_lookup_2 _ _ _ Hc)) as (Hm & Hend & Hused).
  assert (Hothers : ∀ c', c' ∈ chunks_ p → c' = c ∨ apart (extent c) (extent c')).
  { intros c' [j Hj]%list_elem_of_lookup.
    destruct (decide (i = j)) as [-> | Hne]; [left; congruence |].
    right. by apply (proj2 (hi_chunks _ _ _ HI) i j). }
  assert (Hin : c ∈ chunks_ p) by by eapply list_elem_of_lookup_2.
  assert (Hcont : contains c ptr = true).
  { unfold contains. apply andb_true_iff. split; [apply Z.leb_le | apply Z.ltb_lt];
      unfold sizeof_Block in *; lia. }
  revert Hothers Hin. generalize (chunks_ p) as cs.
  induction cs as [| c' cs IH]; intros Hothers Hin; [by apply elem_of_nil in Hin |].
  cbn [find_block].
  destruct (contains c' ptr) eqn:Hc'.
  - assert (c' = c) as ->.
    { destruct (Hothers c' (list_elem_of_here _ _)) as [| Hap]; [done |]. exfalso.
      unfold contains in Hc'. apply andb_true_iff in Hc' as [H1%Z.leb_le H2%Z.ltb_lt].
      unfold apart, extent in Hap. simpl in Hap. unfold sizeof_Block in *. lia. }
    rewrite Hused.
    rewrite (bind_returned _ _ _ _ _
               (scan_blocks_finds p x bx ptr l (memory c) (memory c + chunk_size c)
                  (scan_fuel c) Ht Hxl Hbx Hptr ltac:(lia) Hend
                  ltac:(unfold scan_fuel; rewrite Hused;
                        pose proof (tiled_length _ _ _ _ Ht) as Hlen;
                        assert (Z.of_nat (length l) ≤ chunk_size c / sizeof_Block)
                          by (apply Z.div_le_lower_bound; unfold sizeof_Block in *; lia);
                        lia))).
    done.
  - apply IH.
    + intros c'' Hc''. by apply Hothers, list_elem_of_further.
    + apply elem_of_cons in Hin as [-> | Hin]; [congruence | done].
Qed.

(** *** Release *)

Lemma owned_block tiles owned p al al' x :
  heap_inv tiles owned p → (al, x) ∈ owned → (al', x) ∈ owned → al = al'.
Proof.
  intros HI [i Hi]%list_elem_of_lookup [j Hj]%list_elem_of_lookup.
  pose proof (hi_distinct _ _ _ HI) as Hnd. rewrite NoDup_alt in Hnd.
  assert (i = j) as ->.
  { apply (Hnd i j x); rewrite list_lookup_fmap; [by rewrite Hi | by rewrite Hj]. }
  congruence.
Qed.

Lemma heap_inv_disown tiles owned p (P : allocation * Z → Prop) `{∀ o, Decision (P o)} :
  heap_inv tiles owned p → heap_inv tiles (filter P owned) p.
Proof.
  intros [H1 H2 H3 H4 H5 H6 H7 H8 H9]. split; try done.
  - rewrite Forall_forall in H8. apply Forall_forall.
    intros o [_ Ho]%list_elem_of_filter. by apply H8.
  - clear H8. induction owned as [| o owned IH]; [done |].
    rewrite fmap_cons in H9. apply NoDup_cons in H9 as [Hno Hnd].
    rewrite filter_cons. destruct (decide (P o)); [| by apply IH].
    rewrite fmap_cons. apply NoDup_cons. split; [| by apply IH].
    intros (o' & Ho' & [_ Hin]%list_elem_of_filter)%list_elem_of_fmap.
    apply Hno, list_elem_of_fmap. by exists o'.
Qed.

(** [release] of a pointer that [allocate] handed out puts its block back
    on a free list; the ranges of the other blocks stay. *)
Lemma release_inv tiles owned p ptr :
  heap_inv tiles owned p → ptr = nullptr ∨ ptr ∈ alloc_ptr <$> (fst <$> owned) →
  ∃ p1, release ptr p = (Returned tt, p1)
        ∧ heap_inv tiles (filter (λ o, alloc_ptr o.1 ≠ ptr) owned) p1
        ∧ (ptr ≠ nullptr → deallocation_count_ p1 = u64 (deallocation_count_ p + 1)).
Proof.
  intros HI Hok. unfold release.
  destruct (Z.eqb_spec ptr nullptr) as [| Hnz].
  { exists p. split; [done |]. split; [by apply heap_inv_disown | done]. }
  destruct Hok as [| Hin]; [done |].
  apply list_elem_of_fmap in Hin as (al & Hptr & Hin).
  apply list_elem_of_fmap in Hin as ([al0 x] & Hal & Hin). simpl in Hal. subst al0.
  destruct (owned_busy _ _ _ HI _ _ Hin) as (bx & Hbx & Hbusy & Hsz & Hlo & Hhi & _).
  rewrite <- Hptr in Hlo, Hhi.
  rewrite bind_get.
  rewrite (bind_returned _ _ _ _ _
             (find_block_finds tiles owned p x bx ptr HI Hbx ltac:(lia))).
  destruct (block_bounds _ _ _ _ _ HI Hbx) as (Hv & Hs & Hxpos & Hend).
  rewrite (bind_load _ _ _ bx Hbx), Hv, Hbusy. cbn [negb andb].
  rewrite bind_modify, bind_store.
  set (owned' := filter (λ o, alloc_ptr o.1 ≠ ptr) owned).
  assert (HI' : heap_inv tiles owned' p) by by apply heap_inv_disown.
  assert (Hno : x ∉ snd <$> owned').
  { intros ([al' x'] & Hx' & [Hne Hin']%list_elem_of_filter)%list_elem_of_fmap.
    simpl in Hx', Hne. subst x'.
    rewrite (owned_block _ _ _ _ _ _ HI Hin' Hin) in Hne. congruence. }
  pose proof (busy_unlisted _ _ _ HI _ _ Hbx Hbusy) as Hun.
  set (b1 := mkBlock (size bx) (size_class bx) true (next_free bx) (magic bx)).
  set (q1 := set_blocks _ _).
  assert (HI1 : heap_inv tiles owned' q1 ∧ unlisted q1 x).
  { by apply (heap_inv_mark tiles owned' p x bx b1). }
  destruct HI1 as [HI1 Hun1].
  assert (Hq1 : blocks q1 !! x = Some b1) by (simpl; by rewrite lookup_insert_eq).
  assert (Hxnz : x ≠ nullptr) by (unfold nullptr; lia).
  rewrite (add_block_to_free_list_valid x q1 b1 Hxnz Hq1 Hv).
  pose proof (class_range _ _ _ HI1 x b1 Hq1) as Hclass.
  replace (Z.min (size_class b1) (NUM_SIZE_CLASSES - 1)) with (size_class b1)
    by (unfold NUM_SIZE_CLASSES in *; lia).
  eexists. split; [reflexivity |]. split; [| done].
  by eapply (heap_inv_push tiles owned' q1 x b1).
Qed.

(** *** Runs *)

Lemma filter_fst_owned ptr (owned : list (allocation * Z)) :
  filter (λ a, alloc_ptr a ≠ ptr) (fst <$> owned)
  = fst <$> filter (λ o, alloc_ptr o.1 ≠ ptr) owned.
Proof.
  induction owned as [| o owned IH]; [done |].
  rewrite fmap_cons, !filter_cons.
  destruct (decide (alloc_ptr o.1 ≠ ptr)); [rewrite fmap_cons |]; by rewrite IH.
Qed.

Lemma heap_step_inv c tiles owned p live1 p1 :
  heap_inv tiles owned p → call_ok c (fst <$> owned) p →
  heap_step c (fst <$> owned) p = Some (live1, p1) →
  ∃ tiles1 owned1, heap_inv tiles1 owned1 p1 ∧ live1 = fst <$> owned1.
Proof.
  intros HI Hok Hstep. destruct c as [os sz al | ptr | os n]; simpl in Hok, Hstep.
  - destruct Hok as (Hos & Hsz & Hal).
    pose proof (allocate_inv tiles owned p os sz al HI Hos Hsz Hal) as Hinv.
    destruct (allocate os sz al p) as [[ptr | e | |] p']; try done;
      apply (inj Some) in Hstep; injection Hstep as <- <-.
    + destruct Hinv as [tiles1 Hinv]. destruct (ptr =? nullptr).
      * by exists tiles1, owned.
      * destruct Hinv as [a Hinv]. by exists tiles1, ((mkAllocation ptr sz al, a) :: owned).
    + destruct Hinv as [tiles1 Hinv]. by exists tiles1, owned.
  - destruct (release_inv tiles owned p ptr HI Hok) as (p' & Hrel & HI' & _).
    rewrite Hrel in Hstep. apply (inj Some) in Hstep. injection Hstep as <- <-.
    eexists tiles, _. split; [exact HI' |]. apply filter_fst_owned.
  - destruct Hok as [Hos Hn]. unfold pre_allocate in Hstep.
    destruct (add_chunk_inv tiles owned p os n HI Hos) as [[e He] | (p' & tiles' & He & HI')];
      rewrite He in Hstep; apply (inj Some) in Hstep; injection Hstep as <- <-.
    + by exists tiles, owned.
    + by exists tiles', owned.
Qed.

Lemma heap_run_inv calls : ∀ tiles owned p live1 p1,
  heap_inv tiles owned p → run_ok calls (fst <$> owned) p →
  heap_run calls (fst <$> owned) p = Some (live1, p1) →
  ∃ tiles1 owned1, heap_inv tiles1 owned1 p1 ∧ live1 = fst <$> owned1.
Proof.
  induction calls as [| c calls IH]; intros tiles owned p live1 p1 HI Hok Hrun.
  - simpl in Hrun. apply (inj Some) in Hrun. injection Hrun as <- <-. by exists tiles, owned.
  - cbn [run_ok heap_run] in Hok, Hrun. destruct Hok as [Hc Hok].
    destruct (heap_step c (fst <$> owned) p) as [[live2 p2] |] eqn:Hstep; [| done].
    destruct (heap_step_inv c tiles owned p live2 p2 HI Hc Hstep)
      as (tiles2 & owned2 & HI2 & ->).
    by apply (IH tiles2 owned2 p2).
Qed.

Lemma heap_inv_empty : heap_inv [] [] empty_pool.
Proof.
  split.
  - split; [apply Forall_nil_2 | intros i j c1 c2 H; simpl in H; by rewrite lookup_nil in H].
  - apply Forall_nil_2.
  - apply Forall2_nil_2.
  - intros a [b Hb]. simpl in Hb. by rewrite lookup_empty in Hb.
  - intros a b Hb. simpl in Hb. by rewrite lookup_empty in Hb.
  - reflexivity.
  - intros sc Hsc. exists []. split; [| split; [constructor | by intros a ?%elem_of_nil]].
    cbn [chain]. unfold free_list, empty_pool. cbn [free_lists_].
    destruct (lookup_lt_is_Some_2 (replicate (Z.to_nat NUM_SIZE_CLASSES) nullptr)
                (Z.to_nat sc)) as [v Hv]; [rewrite length_replicate; lia |].
    rewrite Hv. by apply lookup_replicate in Hv as [-> _].
  - apply Forall_nil_2.
  - apply NoDup_nil_2.
Qed.

Lemma heap_inv_new os n p0 :
  os_ok os empty_pool → new_MemoryPool os n = (Returned tt, p0) →
  ∃ tiles, heap_inv tiles [] p0.
Proof.
  intros Hos. unfold new_MemoryPool. destruct (0 <? n).
  - destruct (add_chunk_inv [] [] empty_pool os n heap_inv_empty Hos)
      as [[e He] | (p' & tiles' & He & HI')]; rewrite He; [done |].
    intros [= <-]. by exists tiles'.
  - intros [= <-]. exists []. apply heap_inv_empty.
Qed.

Lemma owned_apart tiles owned p :
  heap_inv tiles owned p →
  ForallOrdPairs (λ a1 a2, apart (alloc_range a1) (alloc_range a2)) (fst <$> owned).
Proof.
  intros HI.
  assert (Hall : ∀ o, o ∈ owned → owns (blocks p) o.1 o.2).
  { intros o Ho. pose proof (hi_owned _ _ _ HI) as H. rewrite Forall_forall in H. by apply H. }
  pose proof (hi_distinct _ _ _ HI) as Hnd.
  pose proof (tiles_apart _ _ _ HI) as Hap. clear HI.
  induction owned as [| [al x] owned IH]; [constructor |].
  rewrite fmap_cons in Hnd. apply NoDup_cons in Hnd as [Hno Hnd].
  rewrite fmap_cons. constructor.
  - apply Forall_forall. intros al' ([al0 y] & -> & Hin)%list_elem_of_fmap. simpl.
    destruct (Hall (al, x) (list_elem_of_here _ _)) as (bx & Hbx & _ & _ & Hlo & Hhi & _).
    destruct (Hall (al0, y) (list_elem_of_further _ _ _ Hin))
      as (by_ & Hby & _ & _ & Hlo' & Hhi' & _).
    simpl in *.
    assert (Hne : x ≠ y).
    { intros ->. apply Hno, list_elem_of_fmap. by exists (al0, y). }
    unfold apart, alloc_range. simpl.
    destruct (Hap x y bx by_ Hbx Hby Hne); unfold sizeof_Block in *; lia.
  - apply IH; [| done]. intros o Ho. by apply Hall, list_elem_of_further.
Qed.

Lemma owned_placed tiles owned p :
  heap_inv tiles owned p →
  Forall (λ a, 0 < alloc_size a
               ∧ alloc_ptr a mod effective_alignment (alloc_alignment a) = 0
               ∧ ∃ c, c ∈ chunks_ p ∧ memory c + sizeof_Block ≤ alloc_ptr a
                      ∧ alloc_ptr a + alloc_size a ≤ memory c + chunk_size c)
         (fst <$> owned).
Proof.
  intros HI. apply Forall_forall. intros al ([al0 x] & -> & Hin)%list_elem_of_fmap. simpl.
  destruct (owned_busy _ _ _ HI _ _ Hin) as (b & Hb & _ & Hsz & Hlo & Hhi & Hmod).
  destruct (tile_facts _ _ _ HI x (header_tile _ _ _ HI _ _ Hb))
    as (c & _ & b' & Hc & _ & _ & _ & Hb' & _ & _ & Hclo & Hchi & _).
  assert (b' = b) as -> by congruence.
  split; [done |]. split; [done |]. exists c. split; [done |]. lia.
Qed.

(** X24: a pool made by the constructor never hands out memory twice.
    After any sequence of [allocate], [release] and [pre_allocate] calls
    in which [mmap] answers with fresh mappings and [release] is only given
    pointers that are handed out at that moment (or null), the ranges handed
    out and not yet released are pairwise apart; each one is not empty,
    starts at a multiple of the alignment [allocate] worked with, and lies
    inside one chunk of the pool behind its first block header. *)
Theorem live_ranges_apart os n p0 calls live p :
  os_ok os empty_pool → new_MemoryPool os n = (Returned tt, p0) →
  run_ok calls [] p0 → heap_run calls [] p0 = Some (live, p) →
  ForallOrdPairs (λ a1 a2, apart (alloc_range a1) (alloc_range a2)) live
  ∧ Forall (λ a, 0 < alloc_size a
                 ∧ alloc_ptr a mod effective_alignment (alloc_alignment a) = 0
                 ∧ ∃ c, c ∈ chunks_ p ∧ memory c + sizeof_Block ≤ alloc_ptr a
                        ∧ alloc_ptr a + alloc_size a ≤ memory c + chunk_size c) live.
Proof.
  intros Hos Hnew Hok Hrun.
  destruct (heap_inv_new os n p0 Hos Hnew) as [tiles HI].
  destruct (heap_run_inv calls tiles [] p0 live p HI Hok Hrun) as (tiles1 & owned1 & HI1 & ->).
  split; [by eapply owned_apart | by eapply owned_placed].
Qed.

(** X25: in a state that a pool made by the constructor has reached
    through [allocate], [release] and [pre_allocate] calls, with fresh
    mappings from [mmap] and with [release] given only pointers handed out
    at that moment (or null), [release] of a pointer that is handed out
    finds its block: it returns, and the deallocation counter goes up by
    one; [release] of a null pointer returns as well.  [pre_allocate]
    returns, or throws and leaves the pool as it was.  [allocate] returns,
    throws or stops at one of its [assert]s.  None of the three reads a
    block header where none was written. *)
Theorem calls_find_their_blocks os n p0 calls live p c :
  os_ok os empty_pool → new_MemoryPool os n = (Returned tt, p0) →
  run_ok calls [] p0 → heap_run calls [] p0 = Some (live, p) →
  call_ok c live p →
  match c with
  | Allocate os1 size_bytes alignment_bytes =>
      (allocate os1 size_bytes alignment_bytes p).1 ≠ Undefined
  | Release user_ptr =>
      ∃ p1, release user_ptr p = (Returned tt, p1)
            ∧ (user_ptr ≠ nullptr →
               deallocation_count_ p1 = u64 (deallocation_count_ p + 1))
  | PreAllocate os1 additional_bytes =>
      (∃ e, pre_allocate os1 additional_bytes p = (Thrown e, p))
      ∨ (∃ p1, pre_allocate os1 additional_bytes p = (Returned tt, p1))
  end.
Proof.
  intros Hos Hnew Hok Hrun Hc.
  destruct (heap_inv_new os n p0 Hos Hnew) as [tiles HI].
  destruct (heap_run_inv calls tiles [] p0 live p HI Hok Hrun) as (tiles1 & owned1 & HI1 & ->).
  destruct c as [os1 sz al | ptr | os1 m]; simpl in Hc.
  - destruct Hc as (Hos1 & Hsz & Hal).
    pose proof (allocate_inv tiles1 owned1 p os1 sz al HI1 Hos1 Hsz Hal) as Hinv.
    by destruct (allocate os1 sz al p) as [[ptr | e | |] p'].
  - destruct (release_inv tiles1 owned1 p ptr HI1 Hc) as (p1 & Hrel & _ & Hcount).
    by exists p1.
  - destruct Hc as [Hos1 Hm]. unfold pre_allocate.
    destruct (add_chunk_inv tiles1 owned1 p os1 m HI1 Hos1)
      as [[e He] | (p1 & tiles2 & He & _)]; [left; by exists e | right; by exists p1].
Qed.

(** *** The sample run *)

Lemma os_ok_exhausted p : os_ok exhausted_os p.
Proof. by intros n addr H. Qed.

Lemma os_ok_mapping_at addr p :
  0 < addr → addr + 2 ^ 32 ≤ 2 ^ 64 →
  Forall (λ c, 0 ≤ chunk_size c ∧ (memory c + chunk_size c ≤ addr ∨ addr + 2 ^ 32 ≤ memory c))
         (chunks_ p) →
  os_ok (mapping_at addr) p.
Proof.
  intros Hpos Hend Hall n a Hmap. unfold mapping_at in Hmap. simpl in Hmap.
  destruct (Z.leb_spec n (2 ^ 32)) as [Hn |]; [| done]. injection Hmap as <-.
  split; [done |]. split; [lia |].
  eapply Forall_impl; [exact Hall |]. intros c [H0 Hc]. unfold apart, extent. simpl. lia.
Qed.

Lemma run_ok_cons c rest live p live1 p1 :
  call_ok c live p → heap_step c live p = Some (live1, p1) → run_ok rest live1 p1 →
  run_ok (c :: rest) live p.
Proof. intros Hc Hstep Hrest. cbn [run_ok]. by rewrite Hstep. Qed.

Lemma sample_os_ok : os_ok (mapping_at 1048576) empty_pool.
Proof. apply os_ok_mapping_at; [lia | lia | apply Forall_nil_2]. Qed.

Lemma sample_pool_new : new_MemoryPool (mapping_at 1048576) 4096 = (Returned tt, sample_pool).
Proof. vm_compute. reflexivity. Qed.

Lemma sample_run_ok : run_ok sample_calls [] sample_pool.
Proof.
  unfold sample_calls.
  eapply run_ok_cons; [| vm_compute; reflexivity |].
  { split; [apply os_ok_exhausted | lia]. }
  eapply run_ok_cons; [| vm_compute; reflexivity |].
  { split; [apply os_ok_exhausted | lia]. }
  eapply run_ok_cons; [| vm_compute; reflexivity |].
  { right. apply list_elem_of_further, list_elem_of_here. }
  eapply run_ok_cons; [| vm_compute; reflexivity |].
  { split; [apply os_ok_exhausted | lia]. }
  eapply run_ok_cons; [| vm_compute; reflexivity |].
  { split; [| lia]. apply os_ok_mapping_at; [lia | lia |].
    repeat constructor; simpl; lia. }
  eapply run_ok_cons; [| vm_compute; reflexivity |].
  { by left. }
  exact I.
Qed.

Lemma sample_heap_run : heap_run sample_calls [] sample_pool = Some (sample_live, sample_final).
Proof. vm_compute. reflexivity. Qed.

Lemma live_ranges_apart_witness :
  os_ok (mapping_at 1048576) empty_pool
  ∧ new_MemoryPool (mapping_at 1048576) 4096 = (Returned tt, sample_pool)
  ∧ run_ok sample_calls [] sample_pool
  ∧ heap_run sample_calls [] sample_pool = Some (sample_live, sample_final)
  ∧ (ForallOrdPairs (λ a1 a2, apart (alloc_range a1) (alloc_range a2)) sample_live
     ∧ Forall (λ a, 0 < alloc_size a
                    ∧ alloc_ptr a mod effective_alignment (alloc_alignment a) = 0
                    ∧ ∃ c, c ∈ chunks_ sample_final ∧ memory c + sizeof_Block ≤ alloc_ptr a
                           ∧ alloc_ptr a + alloc_size a ≤ memory c + chunk_size c)
              sample_live).
Proof.
  split; [exact sample_os_ok |]. split; [exact sample_pool_new |].
  split; [exact sample_run_ok |]. split; [exact sample_heap_run |].
  exact (live_ranges_apart (mapping_at 1048576) 4096 sample_pool sample_calls sample_live
           sample_final sample_os_ok sample_pool_new sample_run_ok sample_heap_run).
Defined.

Lemma calls_find_their_blocks_witness :
  os_ok (mapping_at 1048576) empty_pool
  ∧ new_MemoryPool (mapping_at 1048576) 4096 = (Returned tt, sample_pool)
  ∧ run_ok sample_calls [] sample_pool
  ∧ heap_run sample_calls [] sample_pool = Some (sample_live, sample_final)
  ∧ call_ok (Release 1048640) sample_live sample_final
  ∧ ∃ p1, release 1048640 sample_final = (Returned tt, p1)
          ∧ (1048640 ≠ nullptr →
             deallocation_count_ p1 = u64 (deallocation_count_ sample_final + 1)).
Proof.
  assert (Hc : call_ok (Release 1048640) sample_live sample_final).
  { right. unfold sample_live. rewrite !fmap_cons. apply list_elem_of_here. }
  split; [exact sample_os_ok |]. split; [exact sample_pool_new |].
  split; [exact sample_run_ok |]. split; [exact sample_heap_run |].
  split; [exact Hc |].
  exact (calls_find_their_blocks (mapping_at 1048576) 4096 sample_pool sample_calls
           sample_live sample_final (Release 1048640)
           sample_os_ok sample_pool_new sample_run_ok sample_heap_run Hc).
Defined.

End PoolHeapFacts.

(** ** Task scheduler *)

Module SchedFacts.
Import Sched.

(** *** Sorting *)

Lemma insert_sorted_perm lt x l : Permutation (insert_sorted lt x l) (x :: l).
Proof.
  induction l as [| y l IH]; simpl; [done |].
  destruct (lt x y); [done |].
  rewrite IH. apply perm_swap.
Qed.

Lemma insert_sorted_sorted lt x l :
  (∀ a b, lt a b = true → lt b a = false) →
  Sorted (λ a b, lt b a = false) l →
  Sorted (λ a b, lt b a = false) (insert_sorted lt x l).
Proof.
  intros Hasym Hs. induction Hs as [| y l Hs IH Hhd]; simpl.
  - repeat constructor.
  - destruct (lt x y) eqn:E.
    + constructor; [by constructor |]. constructor. by apply Hasym.
    + constructor; [exact IH |].
      destruct Hhd as [| z l Hz]; simpl.
      * by constructor.
      * destruct (lt x z); by constructor.
Qed.

Lemma insertion_sort_is_std_sort : is_std_sort insertion_sort.
Proof.
  split.
  - intros lt l. unfold insertion_sort.
    induction l as [| x l IH]; simpl; [done |].
    rewrite insert_sorted_perm. by constructor.
  - intros lt l Hasym. unfold insertion_sort.
    induction l as [| x l IH]; simpl; [constructor |].
    by apply insert_sorted_sorted.
Qed.

(** *** Validation and the hyperperiod *)

Lemma validate_task_definition_true s task :
  validate_task_definition s task = true →
  Z.rem (period task) (basic_time_unit_ s) = 0
  ∧ worst_case_execution_time task ≤ period task
  ∧ deadline task ≤ period task
  ∧ 0 < period task.
Proof.
  unfold validate_task_definition.
  destruct (Z.eqb_spec (Z.rem (period task) (basic_time_unit_ s)) 0); simpl; [| done].
  destruct (Z.ltb_spec (period task) (worst_case_execution_time task)); [done |].
  destruct (Z.ltb_spec (period task) (deadline task)); [done |].
  destruct (Z.leb_spec (period task) 0); [done |]. lia.
Qed.

(** [std::lcm] gives the least common multiple when that fits [int64_t]. *)
Lemma compute_lcm_fits a b :
  0 < a → 0 < b → Z.lcm a b < 2 ^ 63 → compute_lcm a b = Z.lcm a b.
Proof.
  intros Ha Hb Hfit. unfold compute_lcm.
  destruct (Z.eqb_spec a 0); [lia |]. destruct (Z.eqb_spec b 0); [lia |]. cbn [orb].
  rewrite (Z.abs_eq a), (Z.abs_eq b) by lia.
  pose proof (Z.gcd_nonneg a b) as Hg0.
  assert (Hg : Z.gcd a b ≠ 0) by (intros E; apply Z.gcd_eq_0_l in E; lia).
  assert (Heq : a / Z.gcd a b * b = Z.lcm a b).
  { unfold Z.lcm.
    rewrite <- (Z.divide_div_mul_exact b (Z.gcd a b) a Hg (Z.gcd_divide_r a b)).
    rewrite (Z.mul_comm (a / Z.gcd a b) b).
    rewrite <- (Z.divide_div_mul_exact a (Z.gcd a b) b Hg (Z.gcd_divide_l a b)).
    rewrite (Z.mul_comm b a). apply eq_sym, Z.abs_eq.
    apply Z.div_pos; lia. }
  rewrite Heq. apply i64_small. pose proof (Z.lcm_nonneg a b). lia.
Qed.

Lemma lcm_pos a b : 0 < a → 0 < b → 0 < Z.lcm a b.
Proof.
  intros Ha Hb. pose proof (Z.lcm_nonneg a b).
  destruct (Z.eq_dec (Z.lcm a b) 0) as [E | ?]; [| lia].
  apply Z.lcm_eq_0 in E. lia.
Qed.

Lemma fold_lcm_spec rest : ∀ h0,
  0 < h0 → Forall (λ t, 0 < period t) rest →
  let hp := fold_left (λ hp t, Z.lcm hp (period t)) rest h0 in
  0 < hp ∧ (h0 | hp) ∧ Forall (λ t, (period t | hp)) rest
  ∧ ∀ m, (h0 | m) → Forall (λ t, (period t | m)) rest → (hp | m).
Proof.
  induction rest as [| t rest IH]; intros h0 Hh0 Hpos; simpl.
  - split; [done |]. split; [done |]. split; [constructor |]. auto.
  - apply Forall_cons in Hpos as [Ht Hrest].
    pose proof (lcm_pos h0 (period t) Hh0 Ht) as Hl.
    destruct (IH _ Hl Hrest) as (Hp & Hd & Hall & Hleast).
    split; [exact Hp |]. split; [| split].
    + etrans; [apply Z.divide_lcm_l | exact Hd].
    + constructor; [| exact Hall].
      etrans; [apply Z.divide_lcm_r | exact Hd].
    + intros m Hm Hms. apply Forall_cons in Hms as [Htm Hrm].
      apply Hleast; [| exact Hrm]. by apply Z.lcm_least.
Qed.

(** As long as the least common multiple of all periods fits, so do the
    intermediate results of the loop of [compute_hyperperiod]. *)
Lemma fold_compute_lcm_fits rest : ∀ h0,
  0 < h0 → Forall (λ t, 0 < period t) rest →
  fold_left (λ hp t, Z.lcm hp (period t)) rest h0 < 2 ^ 63 →
  fold_left (λ hp t, compute_lcm hp (period t)) rest h0
  = fold_left (λ hp t, Z.lcm hp (period t)) rest h0.
Proof.
  induction rest as [| t rest IH]; intros h0 Hh0 Hpos Hfit; [done |].
  apply Forall_cons in Hpos as [Ht Hrest]. cbn [fold_left] in *.
  pose proof (lcm_pos h0 (period t) Hh0 Ht) as Hl.
  destruct (fold_lcm_spec rest _ Hl Hrest) as (Hp & Hd & _).
  pose proof (Z.divide_pos_le _ _ Hp Hd).
  rewrite compute_lcm_fits by lia. by apply IH.
Qed.

Lemma periods_lcm_spec tasks :
  Forall (λ t, 0 < period t) tasks →
  0 < periods_lcm tasks ∧ Forall (λ t, (period t | periods_lcm tasks)) tasks
  ∧ ∀ m, Forall (λ t, (period t | m)) tasks → (periods_lcm tasks | m).
Proof.
  induction 1 as [| t tasks Ht Hts (Hp & Hd & Hleast)]; simpl.
  - split; [lia |]. split; [constructor |]. intros m _. apply Z.divide_1_l.
  - split; [by apply lcm_pos |]. split.
    + constructor; [apply Z.divide_lcm_l |].
      eapply Forall_impl; [exact Hd |]. intros t' Ht'. simpl.
      etrans; [exact Ht' | apply Z.divide_lcm_r].
    + intros m Hm. apply Forall_cons in Hm as [H1 H2].
      apply Z.lcm_least; [done | by apply Hleast].
Qed.

(** For a validated, non-empty task set whose periods have a least common
    multiple within [int64_t], the hyperperiod is that multiple. *)
Lemma compute_hyperperiod_spec s :
  all_valid s → task_definitions_ s ≠ [] → periods_lcm (task_definitions_ s) < 2 ^ 63 →
  let hp := compute_hyperperiod s in
  hp = periods_lcm (task_definitions_ s)
  ∧ 0 < hp ∧ Forall (λ t, (period t | hp)) (task_definitions_ s)
  ∧ ∀ m, Forall (λ t, (period t | m)) (task_definitions_ s) → (hp | m).
Proof.
  unfold all_valid, compute_hyperperiod. intros Hv Hne Hfit.
  assert (Hpos : Forall (λ t, 0 < period t) (task_definitions_ s)).
  { eapply Forall_impl; [exact Hv |]. simpl. intros t Ht.
    by apply validate_task_definition_true in Ht as (_ & _ & _ & ?). }
  destruct (periods_lcm_spec _ Hpos) as (HLp & HLd & HLleast).
  destruct (task_definitions_ s) as [| t0 rest]; [done |].
  pose proof Hpos as Hpos'. apply Forall_cons in Hpos' as [Hp0 Hrest].
  destruct (fold_lcm_spec rest (period t0) Hp0 Hrest) as (Hp & Hd & Hall & Hleast).
  assert (Heq : fold_left (λ hp t, Z.lcm hp (period t)) rest (period t0)
                = periods_lcm (t0 :: rest)).
  { apply Z.divide_antisym_nonneg; [lia | lia | |].
    - pose proof HLd as HLd'. apply Forall_cons in HLd' as [H0 Hr]. by apply Hleast.
    - apply HLleast. by constructor. }
  cbv zeta. rewrite fold_compute_lcm_fits by (done || lia).
  rewrite Heq. done.
Qed.

(** *** The instances of a hyperperiod *)

Lemma instance_count_nonneg hp tasks :
  0 ≤ hp → Forall (λ t, 0 < period t) tasks →
  0 ≤ instance_count hp tasks
  ∧ Forall (λ t, 0 ≤ hp / period t ≤ instance_count hp tasks) tasks.
Proof.
  intros Hhp. induction 1 as [| t tasks Ht Hts [IH1 IH2]]; simpl; [split; [lia | constructor] |].
  pose proof (Z.div_pos hp (period t) Hhp Ht).
  split; [lia |]. constructor; [lia |].
  eapply Forall_impl; [exact IH2 |]. simpl. intros. lia.
Qed.

Lemma executions_per_hyperperiod hp task :
  0 ≤ hp → 0 < period task → hp / period task < 2 ^ 64 →
  u64 (Z.quot hp (period task)) = hp / period task.
Proof.
  intros Hhp Hp Hlt. rewrite Z.quot_div_nonneg by lia.
  apply u64_small. pose proof (Z.div_pos hp (period task) Hhp Hp). lia.
Qed.

Lemma expected_executions_count hp tasks :
  0 ≤ hp → Forall (λ t, 0 < period t) tasks → instance_count hp tasks < 2 ^ 64 →
  expected_executions hp tasks = instance_count hp tasks.
Proof.
  intros Hhp Hpos Hlt. unfold expected_executions.
  assert (Hgen : ∀ acc, 0 ≤ acc → acc + instance_count hp tasks < 2 ^ 64 →
    fold_left (λ acc task, u64 (acc + u64 (Z.quot hp (period task)))) tasks acc
    = acc + instance_count hp tasks).
  { clear Hlt. induction Hpos as [| t tasks Ht Hts IH]; intros acc Hacc Hlt; simpl in *; [lia |].
    destruct (instance_count_nonneg hp tasks Hhp Hts) as [Hn _].
    pose proof (Z.div_pos hp (period t) Hhp Ht).
    rewrite executions_per_hyperperiod by lia.
    rewrite u64_small by lia. rewrite IH by lia. lia. }
  rewrite Hgen; lia.
Qed.

Lemma all_instances_keys hp tasks :
  0 ≤ hp → Forall (λ t, 0 < period t) tasks → instance_count hp tasks < 2 ^ 64 →
  entry_key <$> all_instances hp tasks = expected_entries hp tasks.
Proof.
  intros Hhp Hpos Hlt. unfold all_instances, expected_entries.
  destruct (instance_count_nonneg hp tasks Hhp Hpos) as [_ Hb].
  assert (Hall : Forall (λ t, 0 < period t ∧ hp / period t < 2 ^ 64) tasks).
  { apply Forall_and. split; [exact Hpos |].
    eapply Forall_impl; [exact Hb |]. simpl. intros. lia. }
  assert (Hgen : ∀ n : nat,
    entry_key <$> concat (imap (λ i, task_instances hp (n + i)) tasks)
    = concat (imap (λ i task, (λ k, ((n + i)%nat, k)) <$> seqZ 0 (hp / period task)) tasks)).
  { clear Hlt Hb Hpos.
    induction Hall as [| t tasks [Hpt Ht] Hts IH]; intros n; simpl; [done |].
    rewrite fmap_app. f_equal.
    - unfold task_instances. rewrite executions_per_hyperperiod by lia.
      rewrite <- list_fmap_compose. by apply list_fmap_ext.
    - specialize (IH (S n)).
      erewrite (imap_ext _ (λ i, task_instances hp (S n + i))); [rewrite IH |].
      + f_equal. apply imap_ext. intros i x _. simpl.
        by replace (n + S i)%nat with (S (n + i)) by lia.
      + intros i x _. simpl. by replace (n + S i)%nat with (S (n + i)) by lia. }
  apply (Hgen 0%nat).
Qed.

Lemma task_at_lookup tasks id task : tasks !! id = Some task → task_at tasks id = task.
Proof. unfold task_at. by intros ->. Qed.

Lemma instance_bounds tasks hp e task :
  tasks_checked tasks → tasks !! task_id e = Some task →
  0 ≤ instance_number e < hp / period task →
  0 ≤ instance_number e * period task
  ∧ instance_number e * period task + period task ≤ hp
  ∧ worst_case_execution_time task ≤ period task
  ∧ deadline task ≤ period task.
Proof.
  intros Hv Hid Hk. unfold tasks_checked in Hv. rewrite Forall_forall in Hv.
  destruct (Hv task) as (HW & HD & HP); [by eapply list_elem_of_lookup_2 |].
  pose proof (Z.mul_div_le hp (period task) HP). nia.
Qed.

Lemma typed_lookup tasks (id : nat) task :
  durations_typed tasks → tasks !! id = Some task →
  - 2 ^ 63 ≤ worst_case_execution_time task ∧ - 2 ^ 63 ≤ deadline task.
Proof.
  intros Ht Hid. unfold durations_typed in Ht. rewrite Forall_forall in Ht.
  destruct (Ht task (list_elem_of_lookup_2 _ _ _ Hid)) as (_ & ? & ?). lia.
Qed.

(** Within a hyperperiod that fits [int64_t] the release times are exact. *)
Lemma all_instances_are_instances hp tasks :
  0 ≤ hp < 2 ^ 63 → tasks_checked tasks → durations_typed tasks →
  instance_count hp tasks < 2 ^ 64 →
  Forall (is_instance tasks hp) (all_instances hp tasks).
Proof.
  intros Hhp Hchk Htyped Hlt.
  assert (Hpos : Forall (λ t, 0 < period t) tasks).
  { eapply Forall_impl; [exact Hchk |]. simpl. tauto. }
  destruct (instance_count_nonneg hp tasks ltac:(lia) Hpos) as [_ Hb].
  apply Forall_forall. intros e He. unfold all_instances in He.
  apply list_elem_of_In, in_concat in He as (l & Hl & He).
  apply list_elem_of_In, elem_of_lookup_imap in Hl as (id & task & -> & Hid).
  rewrite Forall_forall in Hpos, Hb.
  assert (Hin : task ∈ tasks) by (by eapply list_elem_of_lookup_2).
  specialize (Hpos _ Hin). specialize (Hb _ Hin). simpl in *.
  unfold task_instances in He. rewrite executions_per_hyperperiod in He by lia.
  apply list_elem_of_In, list_elem_of_fmap in He as (k & -> & Hk).
  apply elem_of_seqZ in Hk. cbv zeta.
  destruct (instance_bounds tasks hp (mkExec id 0 0 k) task Hchk Hid ltac:(simpl; lia))
    as (H0 & H1 & HW & _). simpl in H0, H1.
  destruct (typed_lookup _ _ _ Htyped Hid) as [Hwl _].
  exists task. simpl. rewrite !i64_small by lia. repeat split; try done; lia.
Qed.

(** *** Placing the instances *)

(** A property that every pass of the slot search keeps holds when the
    search is over. *)
Lemma reschedule_passes_inv (Inv : search → Prop) btu tasks hp table e :
  (∀ n, Inv (Searching n) → Inv (reschedule_pass btu tasks hp table e n)) →
  ∀ k st, Inv st → Inv (reschedule_passes k btu tasks hp table e st).
Proof.
  intros Hpass. induction k as [| k IH]; intros [n | found] Hst; simpl; auto.
Qed.

(** The slot found belongs to the instance that was to be placed. *)
Lemma reschedule_key btu tasks hp table e t :
  reschedule btu tasks hp table e = Some t → entry_key t = entry_key e.
Proof.
  unfold reschedule.
  pose proof (reschedule_passes_inv
                (λ st, match st with
                       | Over (Some t) => entry_key t = entry_key e
                       | _ => True
                       end) btu tasks hp table e) as H.
  specialize (H ltac:(intros n _; unfold reschedule_pass; destruct (n <? hp); [| done];
                      cbv zeta; destruct (_ <? _); [done |];
                      destruct (conflicts_with _ _); done)
                64%nat (Searching (start_time e)) I).
  destruct (reschedule_passes _ _ _ _ _ _ _) as [n | [t' |]]; intros [=]. by subst.
Qed.

Lemma place_keys btu tasks hp table e :
  place btu tasks hp table e = table
  ∨ ∃ t, place btu tasks hp table e = table ++ [t] ∧ entry_key t = entry_key e.
Proof.
  unfold place. destruct (conflicts_with table e); simpl.
  - destruct (reschedule btu tasks hp table e) as [t |] eqn:Hr; [| by left].
    right. exists t. split; [done |]. by eapply reschedule_key.
  - right. by exists e.
Qed.

(** The placement loop adds at most one entry per instance, and when it
    adds one for every instance the entries are those of the instances, in
    order. *)
Lemma fold_place_keys btu tasks hp l : ∀ table,
  let r := fold_left (place btu tasks hp) l table in
  (length r ≤ length table + length l)%nat
  ∧ (length r = (length table + length l)%nat →
     entry_key <$> r = (entry_key <$> table) ++ (entry_key <$> l)).
Proof.
  induction l as [| e l IH]; intros table; simpl.
  - split; [lia |]. intros _. by rewrite app_nil_r.
  - destruct (place_keys btu tasks hp table e) as [-> | (t & -> & Hkey)].
    + destruct (IH table) as (Hlen & _). split; [lia |]. intros Heq. lia.
    + destruct (IH (table ++ [t])) as (Hlen & Hkeys).
      rewrite length_app in Hlen, Hkeys. simpl in Hlen, Hkeys.
      split; [lia |]. intros Heq.
      rewrite Hkeys by lia. rewrite fmap_app, <- app_assoc. simpl. by rewrite Hkey.
Qed.

Lemma ForallOrdPairs_snoc {A} (R : A → A → Prop) l x :
  ForallOrdPairs R l → Forall (λ a, R a x) l → ForallOrdPairs R (l ++ [x]).
Proof.
  induction 1 as [| a l Ha Hl IH]; intros Hx; simpl.
  - repeat constructor.
  - apply Forall_cons in Hx as [Hax Hlx]. constructor; [| by apply IH].
    apply Forall_app. split; [exact Ha | by constructor].
Qed.

Lemma has_timing_conflict_sym a b : has_timing_conflict a b = has_timing_conflict b a.
Proof. unfold has_timing_conflict. by rewrite orb_comm. Qed.

Lemma ForallOrdPairs_perm {A} (R : A → A → Prop) l1 l2 :
  (∀ a b, R a b → R b a) → Permutation l1 l2 →
  ForallOrdPairs R l1 → ForallOrdPairs R l2.
Proof.
  intros Hsym Hp. induction Hp as [| x l l' Hp IH | x y l | l l' l'' Hp1 IH1 Hp2 IH2]; intros H.
  - done.
  - inversion H as [| ? ? Hx Hl]; subst. constructor; [| by apply IH].
    by rewrite <- Hp.
  - inversion H as [| ? ? Hy Hl]; subst. inversion Hl as [| ? ? Hx Hl']; subst.
    apply Forall_cons in Hy as [Hyx Hy].
    constructor; [constructor; [by apply Hsym | done] |].
    constructor; done.
  - by apply IH2, IH1.
Qed.

Lemma ForallOrdPairs_lookup {A} (R : A → A → Prop) l (i j : nat) a b :
  ForallOrdPairs R l → (i < j)%nat → l !! i = Some a → l !! j = Some b → R a b.
Proof.
  intros H. revert i j. induction H as [| x l Hx Hl IH]; intros i j Hij Hi Hj; [done |].
  destruct j as [| j]; [lia |]. simpl in Hj. destruct i as [| i].
  - simpl in Hi. injection Hi as ->. rewrite Forall_forall in Hx.
    apply Hx. by eapply list_elem_of_lookup_2.
  - simpl in Hi. apply (IH i j); [lia | done | done].
Qed.

Lemma conflicts_with_false table t :
  conflicts_with table t = false → Forall (λ a, has_timing_conflict t a = false) table.
Proof.
  unfold conflicts_with. induction table as [| a table IH]; simpl; [constructor |].
  intros H. apply orb_false_iff in H as [H1 H2]. constructor; auto.
Qed.

Section Placement.

(** The times of the slot search stay within [int64_t] when the
    hyperperiod and the periods are multiples of the basic time unit, the
    durations of the tasks are [int64_t] values that passed the checks of
    [add_task], and an execution that starts at the hyperperiod would end
    in range. *)
Variables (btu : Duration) (tasks : list TaskDefinition) (hp : Duration).
Hypothesis Hbtu : 0 < btu.
Hypothesis Hgrid : Forall (λ t, (btu | period t)) tasks.
Hypothesis Hhp : (btu | hp).
Hypothesis Hchk : tasks_checked tasks.
Hypothesis Htyped : durations_typed tasks.
Hypothesis Hfit : Forall (λ t, hp + Z.max 0 (worst_case_execution_time t) < 2 ^ 63) tasks.

Lemma instance_in_window e : is_instance tasks hp e → in_window btu tasks hp e.
Proof.
  intros (task & Hid & Hk & Hs & He).
  destruct (instance_bounds tasks hp e task Hchk Hid Hk) as (H0 & H1 & HW & HD).
  exists task. split; [done |]. split; [done |]. split; [lia |].
  split; [rewrite Hs, Z.sub_diag; apply Z.divide_0_r |]. split; [done |]. lia.
Qed.

Lemma in_window_entry_ok e : in_window btu tasks hp e → entry_ok tasks hp e.
Proof.
  intros (task & Hid & Hk & Hrel & _ & Hend & Hlim).
  destruct (instance_bounds tasks hp e task Hchk Hid Hk) as (H0 & H1 & HW & _).
  unfold entry_ok, wcet_of. rewrite (task_at_lookup _ _ _ Hid). split; [done |]. lia.
Qed.

(** One pass of the slot search from a slot on the grid of the basic time
    unit, at or after the release of the instance. *)
Lemma reschedule_pass_window table e n :
  is_instance tasks hp e → start_time e ≤ n → (btu | n - start_time e) →
  match reschedule_pass btu tasks hp table e n with
  | Searching n' => n' = n + btu ∧ n' ≤ hp ∧ (btu | n' - start_time e)
  | Over (Some t) =>
      entry_key t = entry_key e ∧ in_window btu tasks hp t ∧ conflicts_with table t = false
  | Over None => True
  end.
Proof.
  intros (task & Hid & Hk & Hs & He) Hn Hdiv.
  destruct (instance_bounds tasks hp e task Hchk Hid Hk) as (H0 & H1 & HW & HD).
  destruct (typed_lookup _ _ _ Htyped Hid) as [Hwl Hdl].
  rewrite Forall_forall in Hgrid, Hfit.
  pose proof (Hgrid task (list_elem_of_lookup_2 _ _ _ Hid)) as Hg.
  pose proof (Hfit task (list_elem_of_lookup_2 _ _ _ Hid)) as Hf.
  unfold reschedule_pass.
  destruct (Z.ltb_spec n hp) as [Hlt |]; [| done].
  cbv zeta. rewrite (task_at_lookup _ _ _ Hid). cbn [task_id instance_number end_time].
  assert (Hstep : n + btu ≤ hp).
  { assert (Hd : (btu | hp - n)).
    { replace (hp - n) with (hp - (n - start_time e) - start_time e) by lia.
      apply Z.divide_sub_r; [by apply Z.divide_sub_r |].
      rewrite Hs. by apply Z.divide_mul_r. }
    pose proof (Z.divide_pos_le btu (hp - n) ltac:(lia) Hd). lia. }
  rewrite (i64_small (n + btu)) by lia.
  rewrite (i64_small (n + btu + worst_case_execution_time task)) by lia.
  rewrite (i64_small (instance_number e * period task)) by lia.
  rewrite (i64_small (instance_number e * period task + deadline task)) by lia.
  destruct (Z.ltb_spec (instance_number e * period task + deadline task)
                       (n + btu + worst_case_execution_time task)) as [? | Hlate]; [done |].
  assert (Hdiv' : (btu | n + btu - start_time e)).
  { replace (n + btu - start_time e) with (n - start_time e + btu) by lia.
    apply Z.divide_add_r; [done | apply Z.divide_refl]. }
  destruct (conflicts_with table _) eqn:Hc.
  - split; [done |]. split; [lia | done].
  - split; [done |]. split; [| exact Hc]. exists task. simpl.
    split; [done |]. split; [done |]. split; [lia |].
    split; [by rewrite <- Hs |]. split; [done |]. lia.
Qed.

Lemma reschedule_found table e t :
  is_instance tasks hp e → reschedule btu tasks hp table e = Some t →
  entry_key t = entry_key e ∧ in_window btu tasks hp t ∧ conflicts_with table t = false.
Proof.
  intros Hi. unfold reschedule.
  pose proof (reschedule_passes_inv
                (λ st, match st with
                       | Searching n' => start_time e ≤ n' ∧ (btu | n' - start_time e)
                       | Over (Some t) =>
                           entry_key t = entry_key e ∧ in_window btu tasks hp t
                           ∧ conflicts_with table t = false
                       | Over None => True
                       end) btu tasks hp table e) as H.
  assert (Hpass : ∀ n, start_time e ≤ n ∧ (btu | n - start_time e) →
            match reschedule_pass btu tasks hp table e n with
            | Searching n' => start_time e ≤ n' ∧ (btu | n' - start_time e)
            | Over (Some t) =>
                entry_key t = entry_key e ∧ in_window btu tasks hp t
                ∧ conflicts_with table t = false
            | Over None => True
            end).
  { intros n [Hn Hd]. pose proof (reschedule_pass_window table e n Hi Hn Hd) as Hw.
    destruct (reschedule_pass btu tasks hp table e n) as [n' | [t' |]]; [| done | done].
    destruct Hw as (-> & _ & Hd'). split; [lia | done]. }
  specialize (H Hpass 64%nat (Searching (start_time e))
                ltac:(split; [lia | rewrite Z.sub_diag; apply Z.divide_0_r])).
  destruct (reschedule_passes _ _ _ _ _ _ _) as [n | [t' |]]; intros [=]. by subst.
Qed.

Lemma reschedule_passes_over k table e found :
  reschedule_passes k btu tasks hp table e (Over found) = Over found.
Proof. by destruct k. Qed.

(** [2 ^ k] passes move a search that is not over [2 ^ k] basic time units
    ahead. *)
Lemma reschedule_passes_progress table e :
  is_instance tasks hp e →
  ∀ k n, start_time e ≤ n → (btu | n - start_time e) →
  match reschedule_passes k btu tasks hp table e (Searching n) with
  | Searching n' => n + 2 ^ Z.of_nat k * btu ≤ n' ∧ n' ≤ hp ∧ (btu | n' - start_time e)
  | Over _ => True
  end.
Proof.
  intros Hi. induction k as [| k IH]; intros n Hn Hd.
  - cbn [reschedule_passes].
    pose proof (reschedule_pass_window table e n Hi Hn Hd) as Hw.
    destruct (reschedule_pass btu tasks hp table e n) as [n' | found]; [| done].
    destruct Hw as (-> & Hle & Hd'). split; [simpl; lia | done].
  - cbn [reschedule_passes]. specialize (IH n Hn Hd) as IH1.
    destruct (reschedule_passes k btu tasks hp table e (Searching n)) as [n1 | found].
    + destruct IH1 as (H1 & _ & Hd1).
      assert (0 < 2 ^ Z.of_nat k) by (apply Z.pow_pos_nonneg; lia).
      specialize (IH n1 ltac:(nia) Hd1).
      destruct (reschedule_passes k btu tasks hp table e (Searching n1)) as [n2 | found];
        [| done].
      destruct IH as (H2 & Hle & Hd2). split; [| done].
      rewrite Nat2Z.inj_succ, Z.pow_succ_r by lia. lia.
    + by rewrite reschedule_passes_over.
Qed.

(** The slot search ends: it is over before the [2 ^ 64] passes that
    [reschedule] follows are used up. *)
Lemma reschedule_ends table e :
  is_instance tasks hp e →
  ∃ found, reschedule_passes 64 btu tasks hp table e (Searching (start_time e)) = Over found.
Proof.
  intros Hi.
  pose proof (reschedule_passes_progress table e Hi 64%nat (start_time e) ltac:(lia)
                ltac:(rewrite Z.sub_diag; apply Z.divide_0_r)) as Hp.
  destruct (reschedule_passes _ _ _ _ _ _ _) as [n' | found]; [| by exists found].
  exfalso. destruct Hp as (Hfar & Hle & _).
  destruct Hi as (task & Hid & Hk & Hs & He).
  destruct (instance_bounds tasks hp e task Hchk Hid Hk) as (H0 & _).
  rewrite Forall_forall in Hfit.
  pose proof (Hfit task (list_elem_of_lookup_2 _ _ _ Hid)) as Hf.
  change (2 ^ Z.of_nat 64) with (2 ^ 64) in Hfar. nia.
Qed.

Lemma place_cases table e :
  is_instance tasks hp e →
  place btu tasks hp table e = table
  ∨ ∃ t, place btu tasks hp table e = table ++ [t]
         ∧ entry_key t = entry_key e ∧ in_window btu tasks hp t
         ∧ conflicts_with table t = false.
Proof.
  intros Hi. unfold place.
  destruct (conflicts_with table e) eqn:Hc; simpl.
  - destruct (reschedule btu tasks hp table e) as [t |] eqn:Hr; [| by left].
    right. exists t. split; [done |]. by apply reschedule_found.
  - right. exists e. split; [done |]. split; [done |].
    split; [by apply instance_in_window | exact Hc].
Qed.

Lemma fold_place_inv l : ∀ table,
  Forall (is_instance tasks hp) l →
  table_ok tasks hp table → Forall (in_window btu tasks hp) table →
  let r := fold_left (place btu tasks hp) l table in
  table_ok tasks hp r ∧ Forall (in_window btu tasks hp) r.
Proof.
  intros table Hl. revert table.
  induction Hl as [| e l He Hl IH]; intros table Hok Hwin; simpl; [done |].
  destruct (place_cases table e He) as [-> | (t & -> & Hkey & Hw & Hc)]; [by apply IH |].
  apply IH.
  - destruct Hok as [Hfop Hall]. split.
    + apply ForallOrdPairs_snoc; [exact Hfop | by apply conflicts_with_false].
    + apply Forall_app. split; [exact Hall |]. constructor; [| constructor].
      by apply in_window_entry_ok.
  - apply Forall_app. split; [exact Hwin | by constructor].
Qed.

End Placement.

(** *** Non-overlapping executions fit in the hyperperiod *)

Lemma sumZ_filter_split {A} (f : A → Z) (P : A → Prop) `{!∀ x, Decision (P x)} l :
  sumZ f l = sumZ f (filter P l) + sumZ f (filter (λ x, ¬ P x) l).
Proof.
  induction l as [| x l IH]; [done |].
  rewrite !filter_cons. simpl. destruct (decide (P x)); destruct (decide (¬ P x));
    try done; simpl; lia.
Qed.

Lemma ForallOrdPairs_filter {A} (R : A → A → Prop) (P : A → Prop)
    `{!∀ x, Decision (P x)} l :
  ForallOrdPairs R l → ForallOrdPairs R (filter P l).
Proof.
  induction 1 as [| a l Ha Hl IH]; [constructor |].
  rewrite filter_cons. destruct (decide (P a)); [| exact IH].
  constructor; [| exact IH].
  rewrite Forall_forall in *. intros x Hx. apply Ha.
  apply list_elem_of_filter in Hx. tauto.
Qed.

Lemma packing n : ∀ (l : list ScheduledExecution) lo hi,
  (length l ≤ n)%nat → lo ≤ hi →
  ForallOrdPairs (λ a b, has_timing_conflict b a = false) l →
  Forall (λ e, lo ≤ start_time e ∧ start_time e < end_time e ∧ end_time e ≤ hi) l →
  sumZ (λ e, end_time e - start_time e) l ≤ hi - lo.
Proof.
  induction n as [| n IH]; intros l lo hi Hlen Hlohi Hfop Hall.
  - destruct l; [simpl; lia | simpl in Hlen; lia].
  - destruct l as [| p l]; [simpl; lia |].
    inversion Hfop as [| ? ? Hp Hl]; subst.
    apply Forall_cons in Hall as [Hpb Hall]. simpl in Hlen.
    rewrite Forall_forall in Hp, Hall.
    simpl. rewrite (sumZ_filter_split _ (λ q, end_time q ≤ start_time p) l).
    assert (Hleft : sumZ (λ e, end_time e - start_time e)
                      (filter (λ q, end_time q ≤ start_time p) l) ≤ start_time p - lo).
    { apply IH; [| lia | by apply ForallOrdPairs_filter |].
      - pose proof (length_filter (λ q, end_time q ≤ start_time p) l). lia.
      - apply Forall_forall. intros q Hq. apply list_elem_of_filter in Hq as [Hq1 Hq2].
        specialize (Hall q Hq2). simpl in *. lia. }
    assert (Hright : sumZ (λ e, end_time e - start_time e)
                       (filter (λ q, ¬ end_time q ≤ start_time p) l) ≤ hi - end_time p).
    { apply IH; [| lia | by apply ForallOrdPairs_filter |].
      - pose proof (length_filter (λ q, ¬ end_time q ≤ start_time p) l). lia.
      - apply Forall_forall. intros q Hq. apply list_elem_of_filter in Hq as [Hq1 Hq2].
        specialize (Hall q Hq2). specialize (Hp q Hq2). simpl in *.
        unfold has_timing_conflict in Hp. apply negb_false_iff, orb_true_iff in Hp.
        rewrite !Z.leb_le in Hp. lia. }
    lia.
Qed.

(** The positive execution times of a well-formed table add up to at most
    the hyperperiod. *)
Lemma table_load tasks hp table :
  0 ≤ hp → table_ok tasks hp table →
  sumZ (λ e, Z.max 0 (wcet_of tasks e)) table ≤ hp.
Proof.
  intros Hhp [Hfop Hall].
  rewrite (sumZ_filter_split _ (λ e, 0 < wcet_of tasks e) table).
  rewrite Forall_forall in Hall.
  assert (H0 : sumZ (λ e, Z.max 0 (wcet_of tasks e))
                 (filter (λ e, ¬ 0 < wcet_of tasks e) table) = 0).
  { rewrite (sumZ_ext _ (λ _, 0)); [rewrite sumZ_const; lia |].
    intros e He. apply list_elem_of_filter in He as [He _]. lia. }
  rewrite H0, Z.add_0_r.
  rewrite (sumZ_ext _ (λ e, end_time e - start_time e)).
  - replace hp with (hp - 0) by lia.
    apply (packing (length (filter (λ e, 0 < wcet_of tasks e) table))); [lia | lia | |].
    + by apply ForallOrdPairs_filter.
    + apply Forall_forall. intros e He. apply list_elem_of_filter in He as [Hpos He].
      destruct (Hall e He) as [Hend Hb]. specialize (Hb Hpos). lia.
  - intros e He. apply list_elem_of_filter in He as [Hpos He].
    destruct (Hall e He) as [Hend _]. lia.
Qed.

(** Summing over the entries of a complete table, task by task. *)
Lemma expected_entries_sum (g : TaskDefinition → Z) tasks hp :
  0 ≤ hp → Forall (λ t, 0 < period t) tasks →
  sumZ (λ key : nat * Z, g (task_at tasks key.1)) (expected_entries hp tasks)
  = sumZ (λ t, hp / period t * g t) tasks.
Proof.
  intros Hhp Hpos. unfold expected_entries.
  assert (Hgen : ∀ suf pre, tasks = pre ++ suf →
    sumZ (λ key : nat * Z, g (task_at tasks key.1))
      (concat (imap (λ i task, (λ k, ((length pre + i)%nat, k)) <$> seqZ 0 (hp / period task))
                    suf))
    = sumZ (λ t, hp / period t * g t) suf).
  { induction suf as [| t suf IH]; intros pre Heq; [done |].
    simpl. rewrite sumZ_app, sumZ_fmap.
    assert (Ht : task_at tasks (length pre + 0) = t).
    { apply task_at_lookup. rewrite Heq, Nat.add_0_r. apply list_lookup_middle. done. }
    rewrite (sumZ_ext _ (λ _, g t)) by (intros k _; simpl; by rewrite Ht).
    rewrite sumZ_const, length_seqZ.
    assert (Hpt : 0 < period t).
    { rewrite Forall_forall in Hpos. apply Hpos. rewrite Heq.
      apply elem_of_app. right. apply list_elem_of_here. }
    pose proof (Z.div_pos hp (period t) Hhp Hpt).
    rewrite Z2Nat.id by lia. f_equal.
    rewrite <- (IH (pre ++ [t])) by (by rewrite <- app_assoc).
    f_equal. f_equal. apply imap_ext. intros i x _. simpl.
    rewrite length_app. simpl. by replace (length pre + 1 + i)%nat with (length pre + S i)%nat by lia. }
  apply (Hgen tasks []). done.
Qed.

Lemma expected_entries_length tasks hp :
  0 ≤ hp → Forall (λ t, 0 < period t) tasks →
  Z.of_nat (length (expected_entries hp tasks)) = instance_count hp tasks.
Proof.
  intros Hhp Hpos.
  pose proof (expected_entries_sum (λ _, 1) tasks hp Hhp Hpos) as H.
  cbv beta in H. rewrite sumZ_const in H. rewrite Z.mul_1_r in H. rewrite H.
  unfold instance_count, sumZ. clear. induction tasks as [| t tasks IH]; simpl; [done |].
  rewrite IH. lia.
Qed.

(** The exact utilization, scaled by the hyperperiod, is the execution time
    demanded within one hyperperiod. *)
Lemma utilization_demand hp tasks :
  0 < hp → Forall (λ t, 0 < period t ∧ (period t | hp)) tasks →
  (1 < exact_utilization tasks)%Q →
  hp < sumZ (λ t, hp / period t * worst_case_execution_time t) tasks.
Proof.
  intros Hhp Hall HU.
  assert (Heq : (inject_Z (sumZ (λ t, (hp / period t * worst_case_execution_time t)%Z) tasks)
                 == inject_Z hp * exact_utilization tasks)%Q).
  { clear HU. induction Hall as [| t tasks [Hp [c Hc]] Hts IH]; simpl.
    - unfold Qeq. simpl. lia.
    - rewrite inject_Z_plus, IH, Qmult_plus_distr_r.
      apply Qplus_comp; [| reflexivity].
      unfold Qeq, inject_Z, Qmult. simpl.
      rewrite Pos.mul_1_l, Z2Pos.id by lia. subst hp. rewrite Z.div_mul by lia. lia. }
  rewrite Zlt_Qlt, Heq.
  rewrite <- (Qmult_1_r (inject_Z hp)) at 1.
  apply Qmult_lt_l; [| exact HU].
  unfold Qlt. simpl. lia.
Qed.

(** *** The table built by [generate_schedule_table] *)

Lemma all_valid_checked s :
  all_valid s →
  tasks_checked (task_definitions_ s) ∧ Forall (λ t, 0 < period t) (task_definitions_ s).
Proof.
  unfold all_valid, tasks_checked. intros Hv. split.
  - eapply Forall_impl; [exact Hv |]. simpl. intros t Ht.
    apply validate_task_definition_true in Ht. tauto.
  - eapply Forall_impl; [exact Hv |]. simpl. intros t Ht.
    apply validate_task_definition_true in Ht. tauto.
Qed.

Lemma all_valid_grid s :
  0 < basic_time_unit_ s → all_valid s →
  Forall (λ t, (basic_time_unit_ s | period t)) (task_definitions_ s).
Proof.
  intros Hbtu Hv. eapply Forall_impl; [exact Hv |]. intros t Ht.
  apply validate_task_definition_true in Ht as (Hrem & _).
  apply Z.rem_divide; [lia | done].
Qed.

(** The entries of the table, whatever times the computation gave them:
    at most one per instance, and one per instance when the table is
    full. *)
Lemma generate_schedule_table_keys sort s hp :
  is_std_sort sort → Forall (λ t, 0 < period t) (task_definitions_ s) → 0 ≤ hp →
  instance_count hp (task_definitions_ s) < 2 ^ 64 →
  let table := generate_schedule_table sort s hp in
  Z.of_nat (length table) ≤ instance_count hp (task_definitions_ s)
  ∧ (Z.of_nat (length table) = instance_count hp (task_definitions_ s) →
     Permutation (entry_key <$> table) (expected_entries hp (task_definitions_ s))).
Proof.
  intros [Hperm _] Hpos Hhp Hcount.
  pose proof (expected_entries_length _ hp Hhp Hpos) as Hlen.
  unfold generate_schedule_table.
  destruct (task_definitions_ s) as [| t0 rest] eqn:Htasks.
  { simpl in *. split; [lia |]. intros _. unfold expected_entries. simpl. constructor. }
  rewrite <- Htasks in *. clear Htasks t0 rest.
  set (tasks := task_definitions_ s) in *.
  set (sorted := sort (release_order tasks) (all_instances hp tasks)).
  set (r := fold_left (place (basic_time_unit_ s) tasks hp) sorted []).
  cbv zeta.
  assert (Hsorted : Permutation sorted (all_instances hp tasks)) by apply Hperm.
  assert (Hkeys : Permutation (entry_key <$> sorted) (expected_entries hp tasks)).
  { rewrite <- (all_instances_keys hp tasks) by done. by apply fmap_Permutation. }
  assert (Hlens : Z.of_nat (length sorted) = instance_count hp tasks).
  { rewrite <- Hlen, <- (Permutation_length Hkeys). by rewrite length_fmap. }
  destruct (fold_place_keys (basic_time_unit_ s) tasks hp sorted []) as (Hle & Hcomplete).
  fold r in Hle, Hcomplete. simpl in Hle, Hcomplete.
  rewrite (Permutation_length (Hperm start_order r)).
  split; [lia |]. intros Hfull.
  specialize (Hcomplete ltac:(lia)).
  rewrite (fmap_Permutation entry_key _ _ (Hperm start_order r)), Hcomplete. exact Hkeys.
Qed.

(** The table when no time of the computation leaves [int64_t]: its
    entries do not overlap, each lies in the window of its instance, and
    they are in the order of their start times. *)
Lemma generate_schedule_table_timeline sort s hp :
  is_std_sort sort → 0 < basic_time_unit_ s → all_valid s →
  0 ≤ hp → (basic_time_unit_ s | hp) →
  durations_typed (task_definitions_ s) →
  Forall (λ t, hp + Z.max 0 (worst_case_execution_time t) < 2 ^ 63) (task_definitions_ s) →
  instance_count hp (task_definitions_ s) < 2 ^ 64 →
  let table := generate_schedule_table sort s hp in
  table_ok (task_definitions_ s) hp table
  ∧ Forall (in_window (basic_time_unit_ s) (task_definitions_ s) hp) table
  ∧ StronglySorted (λ a b, start_time a ≤ start_time b) table.
Proof.
  intros [Hperm Hsort] Hbtu Hv Hhp Hdiv Htyped Hfit Hcount.
  destruct (all_valid_checked s Hv) as [Hchk Hpos].
  pose proof (all_valid_grid s Hbtu Hv) as Hgrid.
  unfold generate_schedule_table.
  destruct (task_definitions_ s) as [| t0 rest] eqn:Htasks.
  { simpl. split; [split; constructor |]. split; constructor. }
  assert (Hhp63 : hp < 2 ^ 63).
  { apply Forall_cons in Hfit as [H0 _]. lia. }
  rewrite <- Htasks in *. clear Htasks t0 rest.
  set (tasks := task_definitions_ s) in *.
  set (sorted := sort (release_order tasks) (all_instances hp tasks)).
  set (r := fold_left (place (basic_time_unit_ s) tasks hp) sorted []).
  cbv zeta.
  assert (Hinst : Forall (is_instance tasks hp) sorted).
  { eapply Permutation_Forall; [symmetry; apply Hperm |].
    by apply all_instances_are_instances. }
  destruct (fold_place_inv (basic_time_unit_ s) tasks hp Hbtu Hgrid Hdiv Hchk Htyped Hfit
              sorted [] Hinst) as ([Hfop Hall] & Hwin).
  { split; constructor. }
  { constructor. }
  fold r in Hfop, Hall, Hwin.
  split; [split |]; [| | split].
  - eapply ForallOrdPairs_perm; [| symmetry; apply Hperm | exact Hfop].
    intros a b Hab. by rewrite has_timing_conflict_sym.
  - eapply Permutation_Forall; [symmetry; apply Hperm | exact Hall].
  - eapply Permutation_Forall; [symmetry; apply Hperm | exact Hwin].
  - apply Sorted_StronglySorted.
    { intros a b c. lia. }
    eapply Sorted_ind with (P := λ l, Sorted (λ a b, start_time a ≤ start_time b) l).
    3:{ apply (Hsort start_order r). intros a b. unfold start_order. lia. }
    + constructor.
    + intros a l _ IH Hhd. constructor; [done |].
      destruct Hhd as [| b l' Hb]; constructor. unfold start_order in Hb. lia.
Qed.

(** A full table carries the whole demand of the task set, which
    therefore is at most the hyperperiod. *)
Lemma generate_schedule_table_load sort s hp :
  is_std_sort sort → 0 < basic_time_unit_ s → all_valid s →
  0 ≤ hp → (basic_time_unit_ s | hp) →
  durations_typed (task_definitions_ s) →
  Forall (λ t, hp + Z.max 0 (worst_case_execution_time t) < 2 ^ 63) (task_definitions_ s) →
  instance_count hp (task_definitions_ s) < 2 ^ 64 →
  Z.of_nat (length (generate_schedule_table sort s hp))
  = instance_count hp (task_definitions_ s) →
  sumZ (λ t, hp / period t * Z.max 0 (worst_case_execution_time t)) (task_definitions_ s)
  ≤ hp.
Proof.
  intros Hsort Hbtu Hv Hhp Hdiv Htyped Hfit Hcount Hfull.
  destruct (all_valid_checked s Hv) as [Hchk Hpos].
  destruct (generate_schedule_table_keys sort s hp Hsort Hpos Hhp Hcount) as [_ Hkeys].
  specialize (Hkeys Hfull).
  destruct (generate_schedule_table_timeline sort s hp Hsort Hbtu Hv Hhp Hdiv Htyped Hfit
              Hcount) as (Hok & _).
  pose proof (table_load _ hp _ Hhp Hok) as Hload.
  rewrite <- (expected_entries_sum (λ t, Z.max 0 (worst_case_execution_time t))) by done.
  rewrite <- (sumZ_perm _ _ _ Hkeys), sumZ_fmap. exact Hload.
Qed.

(** *** Conversions to [double] and the quotient of equal operands *)

Lemma digits2_pos_bounds p :
  2 ^ (Z.pos (digits2_pos p) - 1) ≤ Z.pos p < 2 ^ Z.pos (digits2_pos p).
Proof.
  induction p as [p IH | p IH |]; simpl digits2_pos.
  - rewrite Pos2Z.inj_succ. replace (Z.succ (Z.pos (digits2_pos p)) - 1)
      with (Z.succ (Z.pos (digits2_pos p) - 1)) by lia.
    rewrite !Z.pow_succ_r by lia. lia.
  - rewrite Pos2Z.inj_succ. replace (Z.succ (Z.pos (digits2_pos p)) - 1)
      with (Z.succ (Z.pos (digits2_pos p) - 1)) by lia.
    rewrite !Z.pow_succ_r by lia. lia.
  - simpl. lia.
Qed.

Lemma Zdigits2_bounds m :
  0 < m → 1 ≤ Zdigits2 m ∧ 2 ^ (Zdigits2 m - 1) ≤ m < 2 ^ Zdigits2 m.
Proof.
  destruct m as [| p | p]; intros Hm; try lia. simpl.
  split; [lia | apply digits2_pos_bounds].
Qed.

Lemma Zdigits2_le m k : 0 < m → 0 ≤ k → m < 2 ^ k → Zdigits2 m ≤ k.
Proof.
  intros Hm Hk Hlt. destruct (Zdigits2_bounds m Hm) as (Hd & Hlo & _).
  destruct (Z.le_gt_cases (Zdigits2 m) k) as [? | Hgt]; [done |].
  assert (2 ^ k ≤ 2 ^ (Zdigits2 m - 1)) by (apply Z.pow_le_mono_r; lia). lia.
Qed.

Lemma shr_1_m mrs : 0 ≤ shr_m mrs → shr_m (shr_1 mrs) = shr_m mrs / 2.
Proof.
  destruct mrs as [m r s]. simpl. intros Hm.
  destruct m as [| [p | p |] | p]; cbn [shr_m shr_1].
  - reflexivity.
  - apply (Z.div_unique _ _ _ 1); lia.
  - apply (Z.div_unique _ _ _ 0); lia.
  - reflexivity.
  - simpl in Hm. lia.
Qed.

Lemma iter_pos_shr_1_m n : ∀ mrs,
  0 ≤ shr_m mrs → shr_m (SpecFloat.iter_pos shr_1 n mrs) = shr_m mrs / 2 ^ Z.pos n.
Proof.
  assert (Hnn : ∀ a k, 0 ≤ a → 0 ≤ k → 0 ≤ a / 2 ^ k).
  { intros. apply Z.div_pos; [done |]. apply Z.pow_pos_nonneg; lia. }
  assert (Hp : ∀ k, 0 ≤ k → 0 < 2 ^ k) by (intros; apply Z.pow_pos_nonneg; lia).
  induction n as [n IH | n IH |]; intros mrs Hm; simpl SpecFloat.iter_pos.
  - assert (H1 : 0 ≤ shr_m (shr_1 mrs)) by (rewrite shr_1_m by done; apply (Hnn _ 1); lia).
    pose proof (IH _ H1) as H2.
    assert (H3 : 0 ≤ shr_m (SpecFloat.iter_pos shr_1 n (shr_1 mrs)))
      by (rewrite H2; apply Hnn; lia).
    rewrite (IH _ H3), H2, shr_1_m by done.
    pose proof (Hp (Z.pos n) ltac:(lia)).
    rewrite !Z.div_div by lia.
    f_equal. rewrite Pos2Z.inj_xI.
    replace (2 * Z.pos n + 1) with (1 + Z.pos n + Z.pos n) by lia.
    rewrite !Z.pow_add_r by lia. lia.
  - pose proof (IH _ Hm) as H2.
    assert (H3 : 0 ≤ shr_m (SpecFloat.iter_pos shr_1 n mrs))
      by (rewrite H2; apply Hnn; lia).
    rewrite (IH _ H3), H2.
    pose proof (Hp (Z.pos n) ltac:(lia)).
    rewrite !Z.div_div by lia.
    f_equal. rewrite <- Z.pow_add_r by lia. f_equal. lia.
  - apply shr_1_m. exact Hm.
Qed.

Lemma shr_record_of_loc_m m l : shr_m (shr_record_of_loc m l) = m.
Proof. by destruct l as [| []]. Qed.

(** Shifting a positive mantissa to its canonical exponent leaves it
    positive and raises the exponent by less than its number of digits. *)
Lemma shr_fexp_pos m e l :
  0 < m → -1074 ≤ e →
  0 < shr_m (shr_fexp 53 1024 m e l).1 ≤ m
  ∧ e ≤ (shr_fexp 53 1024 m e l).2 ≤ e + Zdigits2 m.
Proof.
  intros Hm He. destruct (Zdigits2_bounds m Hm) as (Hd & Hlo & Hhi).
  unfold shr_fexp, shr, fexp, emin.
  set (n := Z.max (Zdigits2 m + e - 53) (3 - 1024 - 53) - e).
  assert (Hn : n ≤ Zdigits2 m - 1) by lia.
  destruct n as [| p | p] eqn:En; simpl fst; simpl snd;
    rewrite ?shr_record_of_loc_m; try lia.
  rewrite iter_pos_shr_1_m by (rewrite shr_record_of_loc_m; lia).
  rewrite shr_record_of_loc_m.
  assert (Hpow : 2 ^ Z.pos p ≤ 2 ^ (Zdigits2 m - 1)) by (apply Z.pow_le_mono_r; lia).
  assert (Hpos : 0 < 2 ^ Z.pos p) by (apply Z.pow_pos_nonneg; lia).
  split; [| lia]. split.
  - apply Z.div_str_pos. lia.
  - apply Z.div_le_upper_bound; [done |]. nia.
Qed.

Lemma round_nearest_even_bounds m l :
  m ≤ round_nearest_even m l ≤ m + 1.
Proof.
  unfold round_nearest_even. destruct l as [| []]; try lia.
  destruct (Z.even m); lia.
Qed.

Lemma binary_round_aux_finite m e l :
  0 < m < 2 ^ 120 → -1074 ≤ e ≤ 0 →
  ∃ m' e', binary_round_aux 53 1024 false m e l = S754_finite false m' e'.
Proof.
  intros Hm He. unfold binary_round_aux.
  destruct (shr_fexp_pos m e l ltac:(lia) ltac:(lia)) as [Hm1 He1].
  pose proof (Zdigits2_le m 120 ltac:(lia) ltac:(lia) ltac:(lia)) as Hd1.
  destruct (shr_fexp 53 1024 m e l) as [mrs1 e1]. simpl in Hm1, He1.
  pose proof (round_nearest_even_bounds (shr_m mrs1) (loc_of_shr_record mrs1)) as Hr.
  set (m2 := round_nearest_even (shr_m mrs1) (loc_of_shr_record mrs1)) in *.
  destruct (shr_fexp_pos m2 e1 loc_Exact ltac:(lia) ltac:(lia)) as [Hm3 He3].
  pose proof (Zdigits2_le m2 121 ltac:(lia) ltac:(lia) ltac:(lia)) as Hd2.
  destruct (shr_fexp 53 1024 m2 e1 loc_Exact) as [mrs3 e3]. simpl in Hm3, He3.
  destruct (shr_m mrs3) as [| p | p]; try lia.
  destruct (Z.leb_spec e3 (1024 - 53)); [eauto | lia].
Qed.

Lemma pos_iter_xO p k : Z.pos (Pos.iter xO p k) = Z.pos p * 2 ^ Z.pos k.
Proof.
  apply (Pos.iter_ind positive xO p (λ k q, Z.pos q = Z.pos p * 2 ^ Z.pos k)).
  - simpl. lia.
  - intros k' q Hq. rewrite Pos2Z.inj_xO, Hq, Pos2Z.inj_succ, Z.pow_succ_r by lia. lia.
Qed.

(** Every positive 64-bit integer converts to a finite positive double. *)
Lemma double_of_Z_finite n :
  0 < n < 2 ^ 63 → ∃ m e, double_of_Z n = S754_finite false m e.
Proof.
  intros Hn. destruct n as [| p | p]; try lia.
  unfold double_of_Z, binary_normalize, binary_round.
  destruct (digits2_pos_bounds p) as [Hlo Hhi].
  assert (Hd : Z.pos (digits2_pos p) ≤ 63).
  { apply (Zdigits2_le (Z.pos p)); lia. }
  unfold shl_align, fexp, emin.
  destruct (Z.max (Z.pos (digits2_pos p) + 0 - 53) (3 - 1024 - 53) - 0) as [| k | k] eqn:Ek.
  - apply binary_round_aux_finite; [| lia].
    split; [lia |]. assert (2 ^ 63 < 2 ^ 120) by (apply Z.pow_lt_mono_r; lia). lia.
  - apply binary_round_aux_finite; [| lia].
    split; [lia |]. assert (2 ^ 63 < 2 ^ 120) by (apply Z.pow_lt_mono_r; lia). lia.
  - apply binary_round_aux_finite; [| lia]. rewrite pos_iter_xO.
    assert (Hk : Z.pos k ≤ 52) by lia.
    assert (2 ^ Z.pos k ≤ 2 ^ 52) by (apply Z.pow_le_mono_r; lia).
    assert (0 < 2 ^ Z.pos k) by (apply Z.pow_pos_nonneg; lia).
    split; [lia |].
    assert (2 ^ 63 * 2 ^ 52 < 2 ^ 120) by (rewrite <- Z.pow_add_r by lia; apply Z.pow_lt_mono_r; lia).
    nia.
Qed.

(** A finite positive double divided by itself is exactly one. *)
Lemma fdiv_same m e :
  fdiv (S754_finite false m e) (S754_finite false m e) = double_one.
Proof.
  unfold fdiv, SFdiv, SFdiv_core_binary.
  replace (Zdigits2 (Z.pos m) + e - (Zdigits2 (Z.pos m) + e)) with 0 by lia.
  rewrite Z.sub_diag.
  change (Z.min (fexp 53 1024 0) 0) with (-53).
  change (0 - -53) with 53.
  assert (Hdiv : Z.div_eucl (Z.shiftl (Z.pos m) 53) (Z.pos m) = (2 ^ 53, 0)).
  { pose proof (Z.div_eucl_eq (Z.shiftl (Z.pos m) 53) (Z.pos m) ltac:(lia)) as Heq.
    pose proof (Z.mod_pos_bound (Z.shiftl (Z.pos m) 53) (Z.pos m) ltac:(lia)) as Hb.
    unfold Z.modulo in Hb.
    destruct (Z.div_eucl (Z.shiftl (Z.pos m) 53) (Z.pos m)) as [q r].
    rewrite Z.shiftl_mul_pow2 in Heq by lia.
    assert (q = 2 ^ 53) by nia. subst q. f_equal. lia. }
  cbv iota.
  match goal with
  | |- context [IntDef.Z.div_eucl ?a ?b] =>
      change (IntDef.Z.div_eucl a b) with (Z.div_eucl (Z.shiftl (Z.pos m) 53) (Z.pos m))
  end.
  rewrite Hdiv. unfold new_location.
  destruct (Z.even (Z.pos m)); reflexivity.
Qed.

(** *** [add_task] and [finalize_schedule] *)

Lemma add_task_valid task s ok s1 :
  0 < basic_time_unit_ s → all_valid s → add_task task s = (ok, s1) →
  0 < basic_time_unit_ s1 ∧ all_valid s1
  ∧ task_definitions_ s1 = task_definitions_ s ++ (if ok then [task] else []).
Proof.
  intros Hbtu Hv. unfold add_task.
  destruct (is_running_ s); [intros [= <- <-]; by rewrite app_nil_r |].
  destruct (bool_decide _); [intros [= <- <-]; by rewrite app_nil_r |].
  destruct (validate_task_definition s task) eqn:Hval; simpl;
    [| intros [= <- <-]; by rewrite app_nil_r].
  intros [= <- <-]. simpl. split; [done |]. split; [| done].
  unfold all_valid in *. simpl. apply Forall_app. split; [exact Hv |].
  constructor; [exact Hval | constructor].
Qed.

(** Schedulers are built by the constructor followed by [add_task]: their
    basic time unit is positive and their tasks are validated. *)
Lemma add_tasks_valid tasks : ∀ s s',
  0 < basic_time_unit_ s → all_valid s → add_tasks tasks s = Some s' →
  0 < basic_time_unit_ s' ∧ all_valid s'
  ∧ task_definitions_ s' = task_definitions_ s ++ tasks.
Proof.
  induction tasks as [| task tasks IH]; intros s s' Hbtu Hv Hadd; simpl in Hadd.
  - injection Hadd as <-. by rewrite app_nil_r.
  - destruct (add_task task s) as [ok s1] eqn:E. destruct ok; [| done].
    destruct (add_task_valid _ _ _ _ Hbtu Hv E) as (Hbtu1 & Hv1 & Ht1).
    destruct (IH _ _ Hbtu1 Hv1 Hadd) as (Hbtu' & Hv' & Ht').
    split; [done |]. split; [done |]. by rewrite Ht', Ht1, <- app_assoc.
Qed.

Lemma new_TaskScheduler_valid btu :
  0 < basic_time_unit_ (new_TaskScheduler btu) ∧ all_valid (new_TaskScheduler btu)
  ∧ task_definitions_ (new_TaskScheduler btu) = [].
Proof.
  unfold new_TaskScheduler, all_valid. simpl.
  split; [destruct (Z.leb_spec btu 0); lia |]. split; [constructor | done].
Qed.

Lemma finalize_schedule_nonempty sort s :
  task_definitions_ s ≠ [] →
  finalize_schedule sort s =
    let hp := compute_hyperperiod s in
    if negb (check_schedulability s) then
      (mkReport false (Some hp) (Some (basic_time_unit_ s)) None None
                ["Failed Liu & Layland schedulability test"] [],
       set_schedule hp (schedule_table_ s) s)
    else
      let table := generate_schedule_table sort s hp in
      let utilization := total_utilization (task_definitions_ s) in
      let total := Z.of_nat (length table) in
      if total <? expected_executions hp (task_definitions_ s) then
        (mkReport false (Some hp) (Some (basic_time_unit_ s)) (Some utilization)
                  (Some total) ["Some task instances could not be scheduled"] [],
         set_schedule hp table s)
      else
        (mkReport true (Some hp) (Some (basic_time_unit_ s)) (Some utilization)
                  (Some total) []
                  ((if fgt utilization (fdiv (double_of_Z 8) (double_of_Z 10))
                    then [HighCpuUtilization (fmul utilization (double_of_Z 100))]
                    else [])
                   ++ (if 10 * 1000000000 <? hp
                       then [LongHyperperiod (Z.quot hp 1000000)] else [])),
         set_schedule hp table s).
Proof.
  intros Hne. unfold finalize_schedule.
  destruct (task_definitions_ s) eqn:E; [done |]. reflexivity.
Qed.

(** A report that says schedulable comes from the last branch of
    [finalize_schedule]. *)
Lemma finalize_schedule_schedulable sort s r s' :
  finalize_schedule sort s = (r, s') → is_schedulable r = true →
  let hp := compute_hyperperiod s in
  let table := generate_schedule_table sort s hp in
  task_definitions_ s ≠ []
  ∧ check_schedulability s = true
  ∧ expected_executions hp (task_definitions_ s) ≤ Z.of_nat (length table)
  ∧ s' = set_schedule hp table s
  ∧ hyperperiod r = Some hp
  ∧ total_executions_per_hyperperiod r = Some (Z.of_nat (length table)).
Proof.
  intros Hfin Hs.
  destruct (decide (task_definitions_ s = [])) as [He | Hne].
  { unfold finalize_schedule in Hfin. rewrite He in Hfin.
    injection Hfin as <- <-. done. }
  rewrite (finalize_schedule_nonempty sort s Hne) in Hfin. cbv zeta in Hfin.
  destruct (check_schedulability s); simpl in Hfin;
    [| injection Hfin as <- <-; done].
  destruct (Z.ltb_spec (Z.of_nat (length (generate_schedule_table sort s (compute_hyperperiod s))))
              (expected_executions (compute_hyperperiod s) (task_definitions_ s)))
    as [Hlt | Hge]; injection Hfin as <- <-; [done |].
  simpl. done.
Qed.

(** What a report that says schedulable tells about the table, for a
    validated task set whose periods have a least common multiple within
    [int64_t]: the hyperperiod is that multiple and every instance has its
    entry. *)
Lemma schedulable_table_keys sort s r s' :
  is_std_sort sort → all_valid s →
  periods_lcm (task_definitions_ s) < 2 ^ 63 →
  instance_count (periods_lcm (task_definitions_ s)) (task_definitions_ s) < 2 ^ 64 →
  finalize_schedule sort s = (r, s') → is_schedulable r = true →
  let hp := periods_lcm (task_definitions_ s) in
  compute_hyperperiod s = hp
  ∧ s' = set_schedule hp (generate_schedule_table sort s hp) s
  ∧ 0 < hp
  ∧ Forall (λ t, (period t | hp)) (task_definitions_ s)
  ∧ (∀ m, Forall (λ t, (period t | m)) (task_definitions_ s) → (hp | m))
  ∧ Z.of_nat (length (generate_schedule_table sort s hp))
    = instance_count hp (task_definitions_ s)
  ∧ Permutation (entry_key <$> generate_schedule_table sort s hp)
                (expected_entries hp (task_definitions_ s)).
Proof.
  intros Hsort Hv Hfit Hcount Hfin Hs.
  destruct (finalize_schedule_schedulable sort s r s' Hfin Hs)
    as (Hne & _ & Hexp & Hs' & _).
  cbv zeta in Hexp, Hs'.
  destruct (compute_hyperperiod_spec s Hv Hne Hfit) as (Hhp & Hpos & Hdiv & Hleast).
  cbv zeta in Hhp. rewrite Hhp in *.
  destruct (all_valid_checked s Hv) as [_ Hppos].
  rewrite expected_executions_count in Hexp by (done || lia).
  destruct (generate_schedule_table_keys sort s (periods_lcm (task_definitions_ s)) Hsort
              Hppos ltac:(lia) Hcount)
    as [Hle Hfull].
  assert (Hlen : Z.of_nat (length (generate_schedule_table sort s
                                     (periods_lcm (task_definitions_ s))))
                 = instance_count (periods_lcm (task_definitions_ s)) (task_definitions_ s))
    by lia.
  cbv zeta. repeat split; try done. by apply Hfull.
Qed.

Lemma instance_count_sumZ hp tasks : instance_count hp tasks = sumZ (λ t, hp / period t) tasks.
Proof. reflexivity. Qed.

(** C4, amended: when [finalize_schedule] reports a schedulable task set
    whose periods have a least common multiple that fits the 64-bit
    nanosecond count, the hyperperiod it stores is that least common
    multiple, the finalized table has exactly the sum over the tasks of
    [hyperperiod / period] entries, the report carries that count, and the
    entries are, up to order, one per task [i] and instance number
    [0 .. hyperperiod / period_i - 1].  The tasks are those accepted by
    [add_task], and the number of instances fits the [size_t] in which the
    code counts them. *)
Theorem hyperperiod_coverage sort s r s' :
  is_std_sort sort → all_valid s →
  periods_lcm (task_definitions_ s) < 2 ^ 63 →
  instance_count (periods_lcm (task_definitions_ s)) (task_definitions_ s) < 2 ^ 64 →
  finalize_schedule sort s = (r, s') → is_schedulable r = true →
  let hp := hyperperiod_ s' in
  let tasks := task_definitions_ s in
  hyperperiod r = Some hp
  ∧ hp = periods_lcm tasks
  ∧ 0 < hp
  ∧ Forall (λ t, (period t | hp)) tasks
  ∧ (∀ m, Forall (λ t, (period t | m)) tasks → (hp | m))
  ∧ Z.of_nat (length (schedule_table_ s')) = sumZ (λ t, hp / period t) tasks
  ∧ total_executions_per_hyperperiod r = Some (sumZ (λ t, hp / period t) tasks)
  ∧ Permutation (entry_key <$> schedule_table_ s') (expected_entries hp tasks).
Proof.
  intros Hsort Hv Hfit Hcount Hfin Hs.
  destruct (schedulable_table_keys sort s r s' Hsort Hv Hfit Hcount Hfin Hs)
    as (Hhp & Hs' & Hpos & Hdiv & Hleast & Hlen & Hperm).
  destruct (finalize_schedule_schedulable sort s r s' Hfin Hs)
    as (_ & _ & _ & _ & Hrhp & Htot).
  cbv zeta in Hrhp, Htot. rewrite Hhp in Hrhp, Htot.
  cbv zeta. rewrite Hs'. simpl.
  rewrite <- instance_count_sumZ.
  split; [exact Hrhp |]. split; [done |]. split; [exact Hpos |]. split; [exact Hdiv |].
  split; [exact Hleast |]. split; [exact Hlen |]. split; [| exact Hperm].
  rewrite Htot. f_equal. exact Hlen.
Qed.

Lemma sumZ_le {A} (f g : A → Z) l : (∀ x, x ∈ l → f x ≤ g x) → sumZ f l ≤ sumZ g l.
Proof.
  induction l as [| x l IH]; intros H; simpl; [lia |].
  pose proof (H x (list_elem_of_here _ _)).
  assert (sumZ f l ≤ sumZ g l) by (apply IH; intros y Hy; apply H; by apply list_elem_of_further).
  lia.
Qed.

Lemma overload_rejected sort s :
  is_std_sort sort → 0 < basic_time_unit_ s → all_valid s →
  durations_typed (task_definitions_ s) → times_fit (task_definitions_ s) →
  instance_count (periods_lcm (task_definitions_ s)) (task_definitions_ s) < 2 ^ 64 →
  (1 < exact_utilization (task_definitions_ s))%Q →
  is_schedulable (finalize_schedule sort s).1 = false.
Proof.
  intros Hsort Hbtu Hv Htyped Hfit Hcount HU.
  destruct (finalize_schedule sort s) as [r s'] eqn:Hfin. simpl.
  destruct (is_schedulable r) eqn:Hs; [exfalso | done].
  destruct (finalize_schedule_schedulable sort s r s' Hfin Hs) as (Hne & _).
  assert (Hfit63 : periods_lcm (task_definitions_ s) < 2 ^ 63).
  { unfold times_fit in Hfit. destruct (task_definitions_ s) as [| t0 rest]; [done |].
    apply Forall_cons in Hfit as [H0 _]. lia. }
  destruct (schedulable_table_keys sort s r s' Hsort Hv Hfit63 Hcount Hfin Hs)
    as (_ & _ & Hpos & Hdiv & _ & Hlen & _).
  destruct (all_valid_checked s Hv) as [_ Hppos].
  assert (Hgrid : (basic_time_unit_ s | periods_lcm (task_definitions_ s))).
  { pose proof (all_valid_grid s Hbtu Hv) as Hg.
    destruct (task_definitions_ s) as [| t0 rest]; [done |].
    apply Forall_cons in Hg as [Hg0 _]. apply Forall_cons in Hdiv as [Hd0 _]. by etrans. }
  pose proof (generate_schedule_table_load sort s (periods_lcm (task_definitions_ s)) Hsort
                Hbtu Hv ltac:(lia) Hgrid Htyped Hfit Hcount Hlen) as Hload.
  set (hp := periods_lcm (task_definitions_ s)) in *.
  assert (Hdemand : hp < sumZ (λ t, hp / period t * worst_case_execution_time t)
                               (task_definitions_ s)).
  { apply utilization_demand; [done | | done]. apply Forall_and. by split. }
  assert (Hmono : sumZ (λ t, hp / period t * worst_case_execution_time t) (task_definitions_ s)
                  ≤ sumZ (λ t, hp / period t * Z.max 0 (worst_case_execution_time t))
                         (task_definitions_ s)).
  { apply sumZ_le. intros t Ht. rewrite Forall_forall in Hppos.
    pose proof (Z.div_pos hp (period t) ltac:(lia) (Hppos t Ht)). nia. }
  lia.
Qed.

Lemma single_task_finalize sort s task :
  is_std_sort sort → task_definitions_ s = [task] →
  0 < period task < 2 ^ 63 →
  worst_case_execution_time task = period task →
  is_schedulable (finalize_schedule sort s).1 = true.
Proof.
  intros [Hperm _] Htasks Hper HW.
  rewrite finalize_schedule_nonempty by (by rewrite Htasks). cbv zeta.
  assert (Htot : total_utilization [task] = double_one).
  { unfold total_utilization. simpl. rewrite HW.
    destruct (double_of_Z_finite (period task) Hper) as (m & e & ->).
    rewrite fdiv_same. reflexivity. }
  unfold check_schedulability. rewrite Htasks, Htot.
  change (fgt double_one double_one) with false. simpl negb. cbv iota.
  assert (Hq : u64 (Z.quot (period task) (period task)) = 1)
    by (rewrite Z.quot_same by lia; reflexivity).
  assert (Hhp : compute_hyperperiod s = period task).
  { unfold compute_hyperperiod. by rewrite Htasks. }
  assert (Hsingle : ∀ lt (x : ScheduledExecution), sort lt [x] = [x]).
  { intros lt x. apply Permutation_length_1_inv. symmetry. apply Hperm. }
  assert (Htable : length (generate_schedule_table sort s (period task)) = 1%nat).
  { unfold generate_schedule_table. rewrite Htasks.
    unfold all_instances, task_instances. simpl. rewrite Hq.
    rewrite (Permutation_length (Hperm _ _)).
    change (seqZ 0 1) with [0]. simpl.
    rewrite (Hsingle (release_order [task])). reflexivity. }
  rewrite Hhp, Htable. unfold expected_executions. simpl. rewrite Hq. reflexivity.
Qed.

Lemma single_task_accepted sort btu task_name per prio critical :
  is_std_sort sort →
  0 < per < 2 ^ 63 →
  Z.rem per (basic_time_unit_ (new_TaskScheduler btu)) = 0 →
  let task := mkTask task_name per per per prio critical in
  ∃ s1, add_task task (new_TaskScheduler btu) = (true, s1)
        ∧ task_definitions_ s1 = [task]
        ∧ is_schedulable (finalize_schedule sort s1).1 = true.
Proof.
  intros Hsort Hper Hrem task.
  assert (Hval : validate_task_definition (new_TaskScheduler btu) task = true).
  { unfold validate_task_definition. simpl period. rewrite Hrem. simpl.
    rewrite Z.ltb_irrefl. destruct (Z.leb_spec per 0); [lia | done]. }
  destruct (add_task task (new_TaskScheduler btu)) as [ok s1] eqn:Hadd.
  assert (Hok : ok = true).
  { unfold add_task in Hadd. rewrite Hval in Hadd. simpl in Hadd. by injection Hadd as <- _. }
  subst ok. exists s1. split; [done |].
  destruct (new_TaskScheduler_valid btu) as (Hb & Hv & Ht).
  destruct (add_task_valid _ _ _ _ Hb Hv Hadd) as (_ & _ & Htasks).
  rewrite Ht in Htasks. simpl in Htasks. split; [exact Htasks |].
  by apply (single_task_finalize sort s1 task).
Qed.

(** C3, amended: for a task set whose tasks pass validation,
    [finalize_schedule] reports [is_schedulable = false] whenever the total
    utilization, the sum of [worst_case_execution_time / period], is
    strictly greater than one: for the exact rational sum as long as no
    time of the schedule computation leaves the 64-bit nanosecond count
    (the least common multiple of the periods plus any execution time stays
    below [2^63]), and for the sum the code computes in double precision
    without that condition.  A single task whose execution time and
    deadline equal its period, a multiple of the basic time unit, has
    utilization exactly one, is accepted by [add_task] and is reported
    schedulable. *)
Theorem utilization_admission sort :
  is_std_sort sort →
  (∀ s, 0 < basic_time_unit_ s → all_valid s →
        durations_typed (task_definitions_ s) → times_fit (task_definitions_ s) →
        instance_count (periods_lcm (task_definitions_ s)) (task_definitions_ s) < 2 ^ 64 →
        (1 < exact_utilization (task_definitions_ s))%Q →
        is_schedulable (finalize_schedule sort s).1 = false)
  ∧ (∀ s, fgt (total_utilization (task_definitions_ s)) double_one = true →
          is_schedulable (finalize_schedule sort s).1 = false)
  ∧ (∀ btu task_name per prio critical,
       0 < per < 2 ^ 63 →
       Z.rem per (basic_time_unit_ (new_TaskScheduler btu)) = 0 →
       let task := mkTask task_name per per per prio critical in
       ∃ s1, add_task task (new_TaskScheduler btu) = (true, s1)
             ∧ task_definitions_ s1 = [task]
             ∧ exact_utilization [task] == 1
             ∧ is_schedulable (finalize_schedule sort s1).1 = true).
Proof.
  intros Hsort. split; [| split].
  - intros s. by apply overload_rejected.
  - intros s Hgt.
    destruct (decide (task_definitions_ s = [])) as [He | Hne].
    { unfold finalize_schedule. by rewrite He. }
    rewrite finalize_schedule_nonempty by done. cbv zeta.
    unfold check_schedulability. by rewrite Hgt.
  - intros btu task_name per prio critical Hper Hrem task.
    destruct (single_task_accepted sort btu task_name per prio critical Hsort Hper Hrem)
      as (s1 & Hadd & Htasks & Hs).
    exists s1. split; [exact Hadd |]. split; [exact Htasks |]. split; [| exact Hs].
    unfold exact_utilization, Qeq. simpl. rewrite Z2Pos.id by lia. lia.
Qed.

(** C5, amended: [finalize_schedule] keeps no record of having run.  A
    second call on the unchanged task set is not rejected: it recomputes the
    schedule, returns the same report as the first call and leaves the
    scheduler in the same state; in particular a task set reported
    schedulable the first time is reported schedulable again. *)
Theorem finalize_schedule_idempotent sort s :
  let '(r1, s1) := finalize_schedule sort s in
  finalize_schedule sort s1 = (r1, s1)
  ∧ (is_schedulable r1 = true → is_schedulable (finalize_schedule sort s1).1 = true).
Proof.
  assert (H : ∀ r1 s1, finalize_schedule sort s = (r1, s1) →
                       finalize_schedule sort s1 = (r1, s1)).
  { intros r1 s1 Hfin.
    destruct (decide (task_definitions_ s = [])) as [He | Hne].
    { unfold finalize_schedule in Hfin. rewrite He in Hfin. injection Hfin as <- <-.
      unfold finalize_schedule. by rewrite He. }
    rewrite (finalize_schedule_nonempty sort s Hne) in Hfin. cbv zeta in Hfin.
    destruct (check_schedulability s) eqn:Hc; simpl in Hfin.
    - destruct (Z.of_nat (length (generate_schedule_table sort s (compute_hyperperiod s)))
                <? expected_executions (compute_hyperperiod s) (task_definitions_ s)) eqn:Hlt;
        injection Hfin as <- <-; rewrite finalize_schedule_nonempty by done; cbv zeta.
      + change (check_schedulability (set_schedule _ _ s)) with (check_schedulability s).
        rewrite Hc. simpl negb. cbv iota.
        change (compute_hyperperiod (set_schedule ?a ?b s)) with (compute_hyperperiod s).
        change (generate_schedule_table sort (set_schedule ?a ?b s) ?c)
          with (generate_schedule_table sort s c).
        simpl task_definitions_. rewrite Hlt. reflexivity.
      + change (check_schedulability (set_schedule _ _ s)) with (check_schedulability s).
        rewrite Hc. simpl negb. cbv iota.
        change (compute_hyperperiod (set_schedule ?a ?b s)) with (compute_hyperperiod s).
        change (generate_schedule_table sort (set_schedule ?a ?b s) ?c)
          with (generate_schedule_table sort s c).
        simpl task_definitions_. rewrite Hlt. reflexivity.
    - injection Hfin as <- <-. rewrite finalize_schedule_nonempty by done. cbv zeta.
      change (check_schedulability (set_schedule _ _ s)) with (check_schedulability s).
      rewrite Hc. reflexivity. }
  destruct (finalize_schedule sort s) as [r1 s1] eqn:Hfin.
  rewrite (H r1 s1 eq_refl). split; [done |]. simpl. done.
Qed.

(** *** The scenarios of the specification *)

Lemma scenario1_scheduler_valid :
  0 < basic_time_unit_ scenario1_scheduler ∧ all_valid scenario1_scheduler.
Proof. split; [done |]. repeat constructor. Qed.

Lemma scenario2_scheduler_valid :
  0 < basic_time_unit_ scenario2_scheduler ∧ all_valid scenario2_scheduler.
Proof. split; [done |]. repeat constructor. Qed.

Lemma scenario1_scheduler_fits :
  durations_typed (task_definitions_ scenario1_scheduler)
  ∧ times_fit (task_definitions_ scenario1_scheduler)
  ∧ periods_lcm (task_definitions_ scenario1_scheduler) < 2 ^ 63
  ∧ instance_count (periods_lcm (task_definitions_ scenario1_scheduler))
                   (task_definitions_ scenario1_scheduler) < 2 ^ 64.
Proof.
  split; [| split; [| split]]; [| | done | done].
  - repeat constructor; simpl; lia.
  - unfold times_fit. repeat constructor.
Qed.

Lemma scenario2_scheduler_fits :
  durations_typed (task_definitions_ scenario2_scheduler)
  ∧ times_fit (task_definitions_ scenario2_scheduler)
  ∧ instance_count (periods_lcm (task_definitions_ scenario2_scheduler))
                   (task_definitions_ scenario2_scheduler) < 2 ^ 64.
Proof.
  split; [| split]; [| | done].
  - repeat constructor; simpl; lia.
  - unfold times_fit. repeat constructor.
Qed.

Lemma utilization_admission_witness :
  is_std_sort insertion_sort
  ∧ 0 < basic_time_unit_ scenario2_scheduler
  ∧ all_valid scenario2_scheduler
  ∧ durations_typed (task_definitions_ scenario2_scheduler)
  ∧ times_fit (task_definitions_ scenario2_scheduler)
  ∧ instance_count (periods_lcm (task_definitions_ scenario2_scheduler))
                   (task_definitions_ scenario2_scheduler) < 2 ^ 64
  ∧ (1 < exact_utilization (task_definitions_ scenario2_scheduler))%Q
  ∧ is_schedulable (finalize_schedule insertion_sort scenario2_scheduler).1 = false
  ∧ 0 < 10 < 2 ^ 63
  ∧ Z.rem 10 (basic_time_unit_ (new_TaskScheduler 1)) = 0
  ∧ ∃ s1, add_task (mkTask "T" 10 10 10 0 false) (new_TaskScheduler 1) = (true, s1)
          ∧ is_schedulable (finalize_schedule insertion_sort s1).1 = true.
Proof.
  pose proof insertion_sort_is_std_sort as Hsort.
  destruct scenario2_scheduler_valid as [Hbtu Hv].
  destruct scenario2_scheduler_fits as (Htyped & Hfit & Hcount).
  assert (HU : (1 < exact_utilization (task_definitions_ scenario2_scheduler))%Q)
    by (vm_compute; done).
  assert (Hper : 0 < 10 < 2 ^ 63) by lia.
  assert (Hrem : Z.rem 10 (basic_time_unit_ (new_TaskScheduler 1)) = 0) by reflexivity.
  destruct (utilization_admission insertion_sort Hsort) as (H1 & _ & H3).
  split; [exact Hsort |]. split; [exact Hbtu |]. split; [exact Hv |].
  split; [exact Htyped |]. split; [exact Hfit |].
  split; [exact Hcount |]. split; [exact HU |].
  split; [exact (H1 scenario2_scheduler Hbtu Hv Htyped Hfit Hcount HU) |].
  split; [exact Hper |]. split; [exact Hrem |].
  destruct (H3 1 "T" 10 0 false Hper Hrem) as (s1 & Hadd & _ & _ & Hs).
  exists s1. split; [exact Hadd | exact Hs].
Defined.

Lemma hyperperiod_coverage_witness :
  let r := (finalize_schedule insertion_sort scenario1_scheduler).1 in
  let s' := (finalize_schedule insertion_sort scenario1_scheduler).2 in
  is_std_sort insertion_sort
  ∧ all_valid scenario1_scheduler
  ∧ periods_lcm (task_definitions_ scenario1_scheduler) < 2 ^ 63
  ∧ instance_count (periods_lcm (task_definitions_ scenario1_scheduler))
                   (task_definitions_ scenario1_scheduler) < 2 ^ 64
  ∧ finalize_schedule insertion_sort scenario1_scheduler = (r, s')
  ∧ is_schedulable r = true
  ∧ hyperperiod_ s' = 100
  ∧ Z.of_nat (length (schedule_table_ s'))
    = sumZ (λ t, hyperperiod_ s' / period t) (task_definitions_ scenario1_scheduler)
  ∧ length (schedule_table_ s') = 17%nat.
Proof.
  intros r s'.
  pose proof insertion_sort_is_std_sort as Hsort.
  destruct scenario1_scheduler_valid as [Hbtu Hv].
  destruct scenario1_scheduler_fits as (_ & _ & Hfit & Hcount).
  assert (Hfin : finalize_schedule insertion_sort scenario1_scheduler = (r, s'))
    by (vm_compute; reflexivity).
  assert (Hs : is_schedulable r = true) by (vm_compute; reflexivity).
  destruct (hyperperiod_coverage insertion_sort scenario1_scheduler r s'
              Hsort Hv Hfit Hcount Hfin Hs) as (_ & _ & _ & _ & _ & Hlen & _).
  split; [exact Hsort |]. split; [exact Hv |].
  split; [exact Hfit |]. split; [exact Hcount |]. split; [exact Hfin |]. split; [exact Hs |].
  split; [vm_compute; reflexivity |]. split; [exact Hlen |].
  vm_compute; reflexivity.
Defined.

(** C4 as stated fails: the periods [2^32] and [2^32 + 1] pass validation
    and their least common multiple, [2^64 + 2^32], is beyond [int64_t].
    [finalize_schedule] stores the hyperperiod [2^32], which the second
    period does not divide, and reports the task set schedulable with a
    table of one entry, where the sum of [lcm / period] is [2^33 + 1]. *)
Lemma hyperperiod_overflow_counterexample :
  let s := long_period_scheduler in
  let r := (finalize_schedule insertion_sort s).1 in
  let s' := (finalize_schedule insertion_sort s).2 in
  task_definitions_ s = long_period_tasks
  ∧ all_valid s
  ∧ is_schedulable r = true
  ∧ periods_lcm (task_definitions_ s) = 2 ^ 64 + 2 ^ 32
  ∧ hyperperiod_ s' = 2 ^ 32
  ∧ hyperperiod_ s' mod (2 ^ 32 + 1) ≠ 0
  ∧ length (schedule_table_ s') = 1%nat
  ∧ sumZ (λ t, periods_lcm (task_definitions_ s) / period t) (task_definitions_ s)
    = 2 ^ 33 + 1
  ∧ Z.of_nat (length (schedule_table_ s'))
    ≠ sumZ (λ t, periods_lcm (task_definitions_ s) / period t) (task_definitions_ s).
Proof.
  cbv zeta. split; [reflexivity |]. split; [repeat constructor |].
  split; [vm_compute; reflexivity |]. split; [vm_compute; reflexivity |].
  split; [vm_compute; reflexivity |]. split; [vm_compute; discriminate |].
  split; [vm_compute; reflexivity |]. split; [vm_compute; reflexivity |].
  vm_compute. discriminate.
Qed.

(** C3 as stated fails in two ways.  With the tasks
    [overloaded_tasks] the exact utilization is [1 + 1 / (2^54 + 1)], the
    sum in double precision is [1.0] and the hyperperiod wraps to [1024],
    in which the second task has no instance: the set is reported
    schedulable.  With the tasks [late_slot_tasks] the hyperperiod fits, the
    exact utilization is [1 + 2^-62], and the first task is given a slot
    whose end wraps below zero and conflicts with nothing: the set is
    reported schedulable as well. *)
Lemma overload_accepted_counterexample :
  (all_valid overloaded_scheduler
   ∧ task_definitions_ overloaded_scheduler = overloaded_tasks
   ∧ (1 < exact_utilization (task_definitions_ overloaded_scheduler))%Q
   ∧ periods_lcm (task_definitions_ overloaded_scheduler) = 2 ^ 64 + 1024
   ∧ is_schedulable (finalize_schedule insertion_sort overloaded_scheduler).1 = true)
  ∧ (all_valid late_slot_scheduler
     ∧ task_definitions_ late_slot_scheduler = late_slot_tasks
     ∧ durations_typed (task_definitions_ late_slot_scheduler)
     ∧ (1 < exact_utilization (task_definitions_ late_slot_scheduler))%Q
     ∧ periods_lcm (task_definitions_ late_slot_scheduler) = 2 ^ 62
     ∧ is_schedulable (finalize_schedule insertion_sort late_slot_scheduler).1 = true
     ∧ schedule_table_ (finalize_schedule insertion_sort late_slot_scheduler).2
       = [mkExec 1 0 1 0; mkExec 0 (2 ^ 62) (- 2 ^ 63) 0]).
Proof.
  split.
  - split; [repeat constructor |]. split; [reflexivity |].
    split; [vm_compute; reflexivity |]. split; [vm_compute; reflexivity |].
    vm_compute. reflexivity.
  - split; [repeat constructor |]. split; [reflexivity |].
    split; [repeat constructor; simpl; lia |].
    split; [vm_compute; reflexivity |]. split; [vm_compute; reflexivity |].
    split; vm_compute; reflexivity.
Qed.

(** C5 as stated fails: the second call on the unchanged task set of
    scenario 1 reports schedulable again. *)
Lemma second_finalize_accepted :
  let first := finalize_schedule insertion_sort scenario1_scheduler in
  let second := finalize_schedule insertion_sort first.2 in
  task_definitions_ first.2 = task_definitions_ scenario1_scheduler
  ∧ is_schedulable first.1 = true
  ∧ is_schedulable second.1 = true
  ∧ is_schedulable second.1 ≠ false
  ∧ second.1 = first.1.
Proof. vm_compute. repeat split; discriminate. Qed.

Lemma finalize_schedule_idempotent_witness :
  let '(r1, s1) := finalize_schedule insertion_sort scenario1_scheduler in
  finalize_schedule insertion_sort s1 = (r1, s1)
  ∧ (is_schedulable r1 = true →
     is_schedulable (finalize_schedule insertion_sort s1).1 = true).
Proof. exact (finalize_schedule_idempotent insertion_sort scenario1_scheduler). Defined.

(** *** The timeline of the schedule table *)

(** The finalized table of a schedulable report when no time of the
    computation leaves [int64_t]. *)
Lemma schedulable_table_timeline sort s r s' :
  is_std_sort sort → 0 < basic_time_unit_ s → all_valid s →
  durations_typed (task_definitions_ s) → times_fit (task_definitions_ s) →
  instance_count (periods_lcm (task_definitions_ s)) (task_definitions_ s) < 2 ^ 64 →
  finalize_schedule sort s = (r, s') → is_schedulable r = true →
  let hp := periods_lcm (task_definitions_ s) in
  hyperperiod_ s' = hp ∧ 0 < hp ∧ (basic_time_unit_ s | hp)
  ∧ table_ok (task_definitions_ s) hp (schedule_table_ s')
  ∧ Forall (in_window (basic_time_unit_ s) (task_definitions_ s) hp) (schedule_table_ s')
  ∧ StronglySorted (λ a b, start_time a ≤ start_time b) (schedule_table_ s').
Proof.
  intros Hsort Hbtu Hv Htyped Hfit Hcount Hfin Hs.
  destruct (finalize_schedule_schedulable sort s r s' Hfin Hs) as (Hne & _).
  assert (Hfit63 : periods_lcm (task_definitions_ s) < 2 ^ 63).
  { unfold times_fit in Hfit. destruct (task_definitions_ s) as [| t0 rest]; [done |].
    apply Forall_cons in Hfit as [H0 _]. lia. }
  destruct (schedulable_table_keys sort s r s' Hsort Hv Hfit63 Hcount Hfin Hs)
    as (_ & -> & Hpos & Hdiv & _).
  assert (Hgrid : (basic_time_unit_ s | periods_lcm (task_definitions_ s))).
  { pose proof (all_valid_grid s Hbtu Hv) as Hg.
    destruct (task_definitions_ s) as [| t0 rest]; [done |].
    apply Forall_cons in Hg as [Hg0 _]. apply Forall_cons in Hdiv as [Hd0 _]. by etrans. }
  destruct (generate_schedule_table_timeline sort s (periods_lcm (task_definitions_ s))
              Hsort Hbtu Hv ltac:(lia) Hgrid Htyped Hfit Hcount) as (Hok & Hwin & Hsorted).
  cbv zeta. simpl. done.
Qed.

(** X14: the table of a schedulable report is a sequential timeline.  When
    every task has a positive execution time and no time of the schedule
    computation leaves the 64-bit nanosecond count (the least common
    multiple of the periods plus any execution time stays below [2^63]),
    each entry of the finalized table ends before or when the next one
    starts, so no two entries overlap and the table is in the order of
    execution, and every entry starts at or after zero, lasts a positive
    time and ends within the hyperperiod. *)
Theorem schedule_table_sequential sort s r s' :
  is_std_sort sort → 0 < basic_time_unit_ s → all_valid s →
  durations_typed (task_definitions_ s) → times_fit (task_definitions_ s) →
  instance_count (periods_lcm (task_definitions_ s)) (task_definitions_ s) < 2 ^ 64 →
  Forall (λ t, 0 < worst_case_execution_time t) (task_definitions_ s) →
  finalize_schedule sort s = (r, s') → is_schedulable r = true →
  let table := schedule_table_ s' in
  (∀ (i j : nat) a b, (i < j)%nat → table !! i = Some a → table !! j = Some b →
                      end_time a ≤ start_time b)
  ∧ Forall (λ e, 0 ≤ start_time e ∧ start_time e < end_time e
                 ∧ end_time e ≤ hyperperiod_ s') table.
Proof.
  intros Hsort Hbtu Hv Htyped Hfit Hcount Hwcet Hfin Hs.
  destruct (schedulable_table_timeline sort s r s' Hsort Hbtu Hv Htyped Hfit Hcount Hfin Hs)
    as (Hhp & Hpos & _ & [Hfop _] & Hwin & Hsorted).
  destruct (all_valid_checked s Hv) as [Hchk Hppos].
  cbv zeta. rewrite Hhp.
  set (hp := periods_lcm (task_definitions_ s)) in *.
  set (table := schedule_table_ s') in *.
  assert (Hbounds : Forall (λ e, 0 ≤ start_time e ∧ start_time e < end_time e
                                 ∧ end_time e ≤ hp) table).
  { eapply Forall_impl; [exact Hwin |].
    intros e (task & Hid & Hk & Hrel & _ & Hend & Hlim).
    rewrite Forall_forall in Hwcet.
    pose proof (Hwcet task (list_elem_of_lookup_2 _ _ _ Hid)) as Hw.
    destruct (instance_bounds _ hp e task Hchk Hid Hk) as (H0 & H1 & _).
    lia. }
  split; [| exact Hbounds].
  intros i j a b Hij Hi Hj.
  pose proof (ForallOrdPairs_lookup _ _ i j a b Hfop Hij Hi Hj) as Hnc.
  assert (Hle : start_time a ≤ start_time b).
  { clear -Hsorted Hij Hi Hj. revert i j Hij Hi Hj.
    induction Hsorted as [| x l Hs IH Hx]; intros i j Hij Hi Hj; [done |].
    destruct j as [| j]; [lia |]. simpl in Hj. destruct i as [| i].
    - simpl in Hi. injection Hi as ->. rewrite Forall_forall in Hx.
      apply Hx. by eapply list_elem_of_lookup_2.
    - simpl in Hi. apply (IH i j); [lia | done | done]. }
  rewrite Forall_forall in Hbounds.
  pose proof (Hbounds a (list_elem_of_lookup_2 _ _ _ Hi)) as Ha.
  pose proof (Hbounds b (list_elem_of_lookup_2 _ _ _ Hj)) as Hb.
  unfold has_timing_conflict in Hnc. apply negb_false_iff, orb_prop in Hnc.
  destruct Hnc as [Hnc | Hnc]; apply Z.leb_le in Hnc; lia.
Qed.

(** X15: when no time of the schedule computation leaves the 64-bit
    nanosecond count, every entry of the table of a schedulable report is
    an instance of a task of the scheduler with an instance number below
    [hyperperiod / period]; it starts at the release time of the instance,
    [instance * period], or a whole number of basic time units later, lasts
    the execution time of the task, ends before the next release of the
    task, and starts on a multiple of the basic time unit, as the
    hyperperiod is. *)
Theorem schedule_table_windows sort s r s' :
  is_std_sort sort → 0 < basic_time_unit_ s → all_valid s →
  durations_typed (task_definitions_ s) → times_fit (task_definitions_ s) →
  instance_count (periods_lcm (task_definitions_ s)) (task_definitions_ s) < 2 ^ 64 →
  finalize_schedule sort s = (r, s') → is_schedulable r = true →
  Forall (λ e, in_window (basic_time_unit_ s) (task_definitions_ s) (hyperperiod_ s') e
               ∧ (basic_time_unit_ s | start_time e))
         (schedule_table_ s')
  ∧ (basic_time_unit_ s | hyperperiod_ s').
Proof.
  intros Hsort Hbtu Hv Htyped Hfit Hcount Hfin Hs.
  destruct (schedulable_table_timeline sort s r s' Hsort Hbtu Hv Htyped Hfit Hcount Hfin Hs)
    as (Hhp & Hpos & Hdiv & _ & Hwin & _).
  pose proof (all_valid_grid s Hbtu Hv) as Hgrid.
  rewrite Hhp. split; [| done].
  eapply Forall_impl; [exact Hwin |].
  intros e He. split; [done |].
  destruct He as (task & Hid & _ & _ & Hd & _).
  rewrite Forall_forall in Hgrid.
  pose proof (Hgrid task (list_elem_of_lookup_2 _ _ _ Hid)) as Hp.
  replace (start_time e)
    with (start_time e - instance_number e * period task + instance_number e * period task)
    by lia.
  apply Z.divide_add_r; [done |]. by apply Z.divide_mul_r.
Qed.

(** *** The registry of [add_task] *)

Lemma new_TaskScheduler_registry btu : registry_ok (new_TaskScheduler btu).
Proof.
  split; [| done]. intros n id. unfold new_TaskScheduler. simpl. split.
  - by rewrite lookup_empty.
  - by intros (t & Ht & _).
Qed.

Lemma registry_known s n :
  registry_ok s → is_Some (task_name_to_id_ s !! n) ↔ n ∈ name <$> task_definitions_ s.
Proof.
  intros [Hn _]. split.
  - intros [id Hid]. apply Hn in Hid as (t & Ht & <-).
    apply list_elem_of_fmap. exists t. split; [done |]. by eapply list_elem_of_lookup_2.
  - intros Hin. apply list_elem_of_fmap in Hin as (t & -> & Ht).
    apply list_elem_of_lookup in Ht as [id Hid].
    exists id. apply Hn. by exists t.
Qed.

(** [add_task] on a consistent registry: the task is refused when the
    scheduler runs, when its name is the name of a task added before, or
    when it fails the checks; otherwise it is appended. *)
Lemma add_task_cases task s :
  registry_ok s →
  add_task task s
  = if is_running_ s || bool_decide (name task ∈ name <$> task_definitions_ s)
       || negb (validate_task_definition s task)
    then (false, s)
    else (true,
          mkScheduler (basic_time_unit_ s) (hyperperiod_ s)
                      (task_definitions_ s ++ [task]) (schedule_table_ s)
                      (<[name task := length (task_definitions_ s)]> (task_name_to_id_ s))
                      (is_running_ s)
                      (task_metrics_ s ++ [mkMetrics 0 0 0 0 0])).
Proof.
  intros Hr. unfold add_task. destruct (is_running_ s); [done |]. simpl.
  rewrite (bool_decide_ext _ _ (registry_known s (name task) Hr)).
  destruct (bool_decide _); [done |]. simpl.
  by destruct (validate_task_definition s task).
Qed.

Lemma add_task_registry task s : registry_ok s → registry_ok (add_task task s).2.
Proof.
  intros Hr. rewrite (add_task_cases task s Hr).
  destruct (is_running_ s); [done |]. simpl.
  destruct (bool_decide_reflect (name task ∈ name <$> task_definitions_ s)) as [| Hnew];
    [done |]. simpl.
  destruct (validate_task_definition s task); [| done]. simpl.
  destruct Hr as [Hn Hm]. split; simpl.
  - intros n id. destruct (decide (name task = n)) as [<- | Hne].
    + split.
      * rewrite lookup_insert_eq. intros [= <-]. exists task.
        split; [| done]. by rewrite list_lookup_middle.
      * intros (t & Ht & He). rewrite lookup_insert_eq. f_equal.
        apply lookup_app_Some in Ht as [Ht | [Hge Ht]].
        -- exfalso. apply Hnew. rewrite <- He. apply list_elem_of_fmap.
           exists t. split; [done |]. by eapply list_elem_of_lookup_2.
        -- apply list_lookup_singleton_Some in Ht as [Hz _]. lia.
    + rewrite lookup_insert_ne by done. rewrite Hn. split.
      * intros (t & Ht & He). exists t. split; [| done].
        apply lookup_app_Some. by left.
      * intros (t & Ht & He). exists t. split; [| done].
        apply lookup_app_Some in Ht as [Ht | [Hge Ht]]; [done |].
        apply list_lookup_singleton_Some in Ht as [_ <-]. done.
  - rewrite !length_app. simpl. lia.
Qed.

Lemma add_each_snoc tasks task s :
  add_each (tasks ++ [task]) s = (add_task task (add_each tasks s)).2.
Proof. unfold add_each. by rewrite fold_left_app. Qed.

Lemma add_each_registry tasks s : registry_ok s → registry_ok (add_each tasks s).
Proof.
  intros Hr. induction tasks as [| task tasks IH] using rev_ind; [done |].
  rewrite add_each_snoc. by apply add_task_registry.
Qed.

Lemma registry_NoDup s : registry_ok s → NoDup (name <$> task_definitions_ s).
Proof.
  intros [Hn _]. apply NoDup_alt. intros i j n Hi Hj.
  apply list_lookup_fmap_Some in Hi as (ti & Hti & Hi).
  apply list_lookup_fmap_Some in Hj as (tj & Htj & Hj).
  assert (H1 : task_name_to_id_ s !! n = Some i) by (apply Hn; by exists ti).
  assert (H2 : task_name_to_id_ s !! n = Some j) by (apply Hn; by exists tj).
  congruence.
Qed.

(** A scheduler on which only [add_task] was called has all-zero metrics. *)
Lemma add_each_metrics tasks btu :
  Forall (λ m, m = mkMetrics 0 0 0 0 0) (task_metrics_ (add_each tasks (new_TaskScheduler btu))).
Proof.
  induction tasks as [| task tasks IH] using rev_ind; [constructor |].
  rewrite add_each_snoc.
  rewrite (add_task_cases task _ (add_each_registry tasks _ (new_TaskScheduler_registry btu))).
  destruct (_ || _ || _); [done |]. simpl.
  apply Forall_app. split; [done |]. by constructor.
Qed.

Lemma add_each_sublist tasks : ∀ s,
  ∃ added, task_definitions_ (add_each tasks s) = task_definitions_ s ++ added
           ∧ sublist added tasks.
Proof.
  induction tasks as [| task tasks IH]; intros s.
  - exists []. by rewrite app_nil_r.
  - unfold add_each. simpl. fold (add_each tasks (add_task task s).2).
    destruct (IH (add_task task s).2) as (added & -> & Hsub).
    assert (Hcases : task_definitions_ (add_task task s).2 = task_definitions_ s
                     ∨ task_definitions_ (add_task task s).2 = task_definitions_ s ++ [task]).
    { unfold add_task. destruct (is_running_ s); [by left |].
      destruct (bool_decide _); [by left |].
      destruct (negb _); [by left | by right]. }
    destruct Hcases as [-> | ->].
    + exists added. split; [done |]. by apply sublist_cons.
    + exists (task :: added). split; [by rewrite <- app_assoc | by apply sublist_skip].
Qed.

(** X16: whatever sequence of [add_task] calls a new scheduler receives,
    the tasks it holds are a subsequence of the tasks offered and have
    pairwise different names, the name map sends a name to an index exactly
    when the task at that index has the name, and for every task held the
    metrics looked up by name are the metrics looked up by index: the
    all-zero record, neither lookup failing its assertion. *)
Theorem task_registry (btu : Duration) (offered : list TaskDefinition) :
  let s := add_each offered (new_TaskScheduler btu) in
  sublist (task_definitions_ s) offered
  ∧ NoDup (name <$> task_definitions_ s)
  ∧ (∀ n id, task_name_to_id_ s !! n = Some id
             ↔ ∃ t, task_definitions_ s !! id = Some t ∧ name t = n)
  ∧ (∀ id t, task_definitions_ s !! id = Some t →
             get_task_metrics s id = Metrics (mkMetrics 0 0 0 0 0)
             ∧ get_task_metrics_by_name s (name t) = Metrics (mkMetrics 0 0 0 0 0)).
Proof.
  intros s.
  pose proof (add_each_registry offered _ (new_TaskScheduler_registry btu)) as Hr.
  fold s in Hr.
  split.
  { destruct (add_each_sublist offered (new_TaskScheduler btu)) as (added & E & Hsub).
    fold s in E. by rewrite E. }
  split; [by apply registry_NoDup |].
  split; [by destruct Hr |].
  intros id t Ht.
  assert (Hm : task_metrics_ s !! id = Some (mkMetrics 0 0 0 0 0)).
  { destruct (lookup_lt_is_Some_2 (task_metrics_ s) id) as [m Hm].
    - destruct Hr as [_ ->]. by eapply lookup_lt_Some.
    - pose proof (add_each_metrics offered btu) as Hz. fold s in Hz.
      rewrite Forall_forall in Hz.
      by rewrite <- (Hz m (list_elem_of_lookup_2 _ _ _ Hm)). }
  unfold get_task_metrics, get_task_metrics_by_name.
  assert (Hid : task_name_to_id_ s !! name t = Some id).
  { apply Hr. by exists t. }
  by rewrite Hid, Hm.
Qed.

(** *** [validate_task_set] and [build_scheduler] *)

Lemma validate_task_definition_btu s1 s2 task :
  basic_time_unit_ s1 = basic_time_unit_ s2 →
  validate_task_definition s1 task = validate_task_definition s2 task.
Proof. intros E. unfold validate_task_definition. by rewrite E. Qed.

Lemma first_refused_ext s1 s2 tasks : ∀ seen1 seen2 pos,
  basic_time_unit_ s1 = basic_time_unit_ s2 → (∀ n, n ∈ seen1 ↔ n ∈ seen2) →
  first_refused s1 seen1 pos tasks = first_refused s2 seen2 pos tasks.
Proof.
  induction tasks as [| task tasks IH]; intros seen1 seen2 pos Hb Hs; [done |].
  simpl. rewrite (validate_task_definition_btu s1 s2 task Hb).
  rewrite (bool_decide_ext _ _ (Hs (name task))).
  destruct (_ || _); [done |]. apply IH; [done |].
  intros n. rewrite !elem_of_cons. by rewrite Hs.
Qed.

Lemma first_refused_lookup s tasks : ∀ seen pos k t,
  first_refused s seen pos tasks = Some (k, t) →
  (pos ≤ k)%nat ∧ tasks !! (k - pos)%nat = Some t.
Proof.
  induction tasks as [| task tasks IH]; intros seen pos k t Hf; [done |].
  simpl in Hf. destruct (_ || _).
  - injection Hf as <- <-. by rewrite Nat.sub_diag.
  - apply IH in Hf as [Hle Hl]. split; [lia |].
    replace (k - pos)%nat with (S (k - S pos)) by lia. done.
Qed.

Lemma builder_loops sort tasks : ∀ s pos,
  registry_ok s → is_running_ s = false →
  match first_refused s (name <$> task_definitions_ s) pos tasks with
  | Some (k, t) =>
      validate_tasks sort tasks s = invalid_task_report t
      ∧ ∃ s', build_tasks sort tasks s = (false, s')
              ∧ task_definitions_ s' = task_definitions_ s ++ take (k - pos) tasks
              ∧ (pos ≤ k)%nat
  | None =>
      ∃ s', add_tasks tasks s = Some s'
            ∧ task_definitions_ s' = task_definitions_ s ++ tasks
            ∧ validate_tasks sort tasks s = (finalize_schedule sort s').1
            ∧ build_tasks sort tasks s
              = (is_schedulable (finalize_schedule sort s').1, (finalize_schedule sort s').2)
  end.
Proof.
  induction tasks as [| task tasks IH]; intros s pos Hr Hrun.
  - simpl. exists s. rewrite app_nil_r. split; [done |]. split; [done |].
    split; [done |]. by destruct (finalize_schedule sort s).
  - pose proof (add_task_registry task s Hr) as Hr1.
    simpl. rewrite (add_task_cases task s Hr), Hrun in *. simpl in *.
    destruct (bool_decide (name task ∈ name <$> task_definitions_ s) ||
              negb (validate_task_definition s task)) eqn:Hc.
    + split; [done |]. exists s. rewrite Nat.sub_diag. simpl.
      rewrite app_nil_r. done.
    + set (s1 := mkScheduler _ _ _ _ _ _ _) in *.
      specialize (IH s1 (S pos) Hr1 eq_refl).
      rewrite (first_refused_ext s s1 tasks (name task :: (name <$> task_definitions_ s))
                 (name <$> task_definitions_ s1) (S pos)); [| done |].
      2:{ intros n. unfold s1. simpl. rewrite fmap_app. simpl.
          rewrite elem_of_cons, elem_of_app, list_elem_of_singleton. tauto. }
      destruct (first_refused s1 _ (S pos) tasks) as [[k t] |].
      * destruct IH as (Hv & s' & Hb & Ht & Hk). split; [done |].
        exists s'. split; [done |]. split; [| lia].
        rewrite Ht. unfold s1. simpl. rewrite <- app_assoc. simpl.
        replace (k - pos)%nat with (S (k - S pos)) by lia. done.
      * destruct IH as (s' & Ha & Ht & Hv & Hb). exists s'.
        split; [done |]. split; [| done].
        rewrite Ht. unfold s1. simpl. by rewrite <- app_assoc.
Qed.

(** X18: what [TaskSetBuilder::validate] and [build_scheduler] do with a
    list of tasks, read off the list.  If some task repeats the name of an
    earlier one or fails the checks of [validate_task_definition], then for
    the first such task [validate] reports it as invalid and
    [build_scheduler], given a new scheduler of the same basic time unit,
    returns false and leaves in it the tasks that come before.  Otherwise
    all tasks are added in order, [validate] is the report of
    [finalize_schedule] on them and [build_scheduler] returns its verdict. *)
Theorem builder_outcome sort (b : TaskSetBuilder) :
  let s0 := new_TaskScheduler (builder_basic_time_unit_ b) in
  match first_refused s0 [] 0 (tasks_ b) with
  | Some (k, t) =>
      tasks_ b !! k = Some t
      ∧ validate sort b = invalid_task_report t
      ∧ ∃ s', build_scheduler sort b s0 = (false, s')
              ∧ task_definitions_ s' = take k (tasks_ b)
  | None =>
      ∃ s, add_tasks (tasks_ b) s0 = Some s
           ∧ task_definitions_ s = tasks_ b
           ∧ validate sort b = (finalize_schedule sort s).1
           ∧ build_scheduler sort b s0
             = (is_schedulable (finalize_schedule sort s).1, (finalize_schedule sort s).2)
  end.
Proof.
  intros s0.
  pose proof (builder_loops sort (tasks_ b) s0 0
                (new_TaskScheduler_registry _) eq_refl) as H.
  change (name <$> task_definitions_ s0) with (@nil string) in H.
  destruct (first_refused s0 [] 0 (tasks_ b)) as [[k t] |] eqn:Hf.
  - destruct H as (Hv & s' & Hb & Ht & _). rewrite Nat.sub_0_r in Ht.
    split; [| split; [done | by exists s']].
    apply first_refused_lookup in Hf as [_ Hl]. by rewrite Nat.sub_0_r in Hl.
  - exact H.
Qed.

(** *** [execute_one_hyperperiod] *)

Lemma runs_of_cons id e o table obs :
  runs_of id (e :: table) (o :: obs)
  = if decide (task_id e = id) then (e, o) :: runs_of id table obs
    else runs_of id table obs.
Proof. unfold runs_of. simpl. rewrite filter_cons. simpl. done. Qed.

Lemma execute_entries_fold tasks start table : ∀ obs metrics,
  length obs = length table →
  Forall (λ o, running o = true ∧ exit o ≠ ThrowsOther) obs →
  Forall (λ e, is_Some (tasks !! task_id e)) table →
  length metrics = length tasks →
  ∃ metrics',
    execute_entries tasks start table obs metrics = (Completed, metrics')
    ∧ length metrics' = length metrics
    ∧ ∀ id task m, tasks !! id = Some task → metrics !! id = Some m →
        metrics' !! id = Some (after_runs start task (runs_of id table obs) m).
Proof.
  induction table as [| e table IH]; intros obs metrics Hlen Hobs Hids Hm.
  - exists metrics. destruct obs; done.
  - destruct obs as [| o obs]; [done |].
    apply Forall_cons in Hobs as [[Hrun Hexit] Hobs].
    apply Forall_cons in Hids as [[task0 Ht0] Hids].
    destruct (lookup_lt_is_Some_2 metrics (task_id e)) as [m0 Hm0].
    { rewrite Hm. by eapply lookup_lt_Some. }
    simpl in Hlen. simpl. rewrite Hrun, Ht0, Hm0. simpl.
    set (metrics1 := <[task_id e := update_metrics start task0 e o m0]> metrics).
    destruct (IH obs metrics1) as (metrics' & Hex & Hlen' & Hall).
    { lia. } { done. } { done. } { unfold metrics1. by rewrite length_insert. }
    exists metrics'. split; [by destruct (exit o) |].
    split; [unfold metrics1 in Hlen'; by rewrite length_insert in Hlen' |].
    intros id task m Ht Hmid. rewrite runs_of_cons.
    destruct (decide (task_id e = id)) as [<- | Hne].
    + assert (task = task0) as -> by congruence.
      assert (m = m0) as -> by congruence.
      unfold after_runs. simpl. apply Hall; [done |].
      unfold metrics1. apply list_lookup_insert_eq. by eapply lookup_lt_Some.
    + apply Hall; [done |]. unfold metrics1. by rewrite list_lookup_insert_ne.
Qed.

Lemma after_runs_snoc start task runs eo m :
  after_runs start task (runs ++ [eo]) m
  = update_metrics start task eo.1 eo.2 (after_runs start task runs m).
Proof. unfold after_runs. by rewrite fold_left_app. Qed.

Lemma u64_idemp z : u64 (u64 z) = u64 z.
Proof. unfold u64. by rewrite Z.mod_mod. Qed.

Lemma i64_idemp z : i64 (i64 z) = i64 z.
Proof. apply i64_small, i64_range. Qed.

(** The fields of the metrics after a list of runs. *)
Lemma after_runs_fields start task runs m :
  let m' := after_runs start task runs m in
  let times := (λ eo : ScheduledExecution * observation, actual_execution_time eo.2) <$> runs in
  (runs ≠ [] →
   executions_completed m' = u64 (executions_completed m + Z.of_nat (length runs))
   ∧ total_execution_time m' = i64 (total_execution_time m + sumZ (λ x, x) times))
  ∧ u64 (executions_completed m') = u64 (executions_completed m + Z.of_nat (length runs))
  ∧ u64 (deadline_misses m')
    = u64 (deadline_misses m
           + Z.of_nat (length (filter (λ eo, late start task eo = true) runs)))
  ∧ i64 (total_execution_time m') = i64 (total_execution_time m + sumZ (λ x, x) times)
  ∧ max_execution_time m' = foldr Z.max (max_execution_time m) times
  ∧ last times = (if runs is [] then None else Some (last_execution_time m')).
Proof.
  induction runs as [| eo runs IH] using rev_ind.
  - cbv zeta. simpl. rewrite !Z.add_0_r. done.
  - cbv zeta in *. rewrite after_runs_snoc.
    destruct IH as (_ & Hc & Hd & Ht & Hmax & _).
    set (m1 := after_runs start task runs m) in *.
    rewrite fmap_app, length_app, filter_app, length_app. simpl.
    assert (Hcount : u64 (executions_completed m1 + 1)
                     = u64 (executions_completed m + Z.of_nat (length runs + 1))).
    { rewrite <- u64_add_l, Hc, u64_add_l. f_equal. lia. }
    assert (Htotal : i64 (total_execution_time m1 + actual_execution_time eo.2)
                     = i64 (total_execution_time m
                            + sumZ (λ x, x)
                                (((λ eo : ScheduledExecution * observation,
                                     actual_execution_time eo.2) <$> runs)
                                 ++ [actual_execution_time eo.2]))).
    { rewrite <- i64_add_l, Ht, i64_add_l. f_equal.
      clear. induction (_ <$> runs) as [| x l IHl]; simpl; lia. }
    split; [done |]. split; [by rewrite u64_idemp |].
    split.
    { rewrite filter_cons, filter_nil. simpl.
      change (deadline task <? elapsed_since_release start task eo.1 eo.2)
        with (late start task eo).
      destruct (late start task eo) eqn:Hl.
      - rewrite decide_True by done. simpl. rewrite u64_idemp.
        rewrite <- u64_add_l, Hd, u64_add_l. f_equal.
        rewrite Nat2Z.inj_add, Z.add_assoc. done.
      - rewrite decide_False by done. simpl. rewrite Hd. f_equal.
        by rewrite Nat.add_0_r. }
    split; [by rewrite i64_idemp |].
    split.
    { rewrite Hmax. clear. generalize (max_execution_time m). intros a.
      induction (_ <$> runs) as [| x l IHl]; simpl; [lia |]. rewrite <- IHl. lia. }
    rewrite last_snoc. by destruct (runs ++ [eo]) eqn:E; [destruct runs |].
Qed.

Lemma runs_of_length id table obs :
  length obs = length table →
  length (runs_of id table obs) = length (filter (λ k, k.1 = id) (entry_key <$> table)).
Proof.
  revert obs. induction table as [| e table IH]; intros [| o obs] Hlen; try done.
  rewrite runs_of_cons. simpl. rewrite filter_cons. simpl.
  destruct (decide (task_id e = id)); simpl; rewrite IH; (done || (simpl in Hlen; lia)).
Qed.

Lemma filter_fst_same (a : nat) (l : list Z) :
  filter (λ k : nat * Z, k.1 = a) ((λ k, (a, k)) <$> l) = (λ k, (a, k)) <$> l.
Proof.
  induction l as [| x l IH]; [done |].
  rewrite fmap_cons, filter_cons, decide_True by done. by rewrite IH.
Qed.

Lemma filter_fst_other (a b : nat) (l : list Z) :
  a ≠ b → filter (λ k : nat * Z, k.1 = a) ((λ k, (b, k)) <$> l) = [].
Proof.
  intros Hne. induction l as [| x l IH]; [done |].
  rewrite fmap_cons, filter_cons, decide_False by (simpl; congruence). done.
Qed.

Lemma filter_concat_nil {A} (P : A → Prop) `{!∀ x, Decision (P x)} (l : list (list A)) :
  Forall (Forall (λ x, ¬ P x)) l → filter P (concat l) = [].
Proof.
  induction l as [| x l IH]; intros Hf; [done |].
  apply Forall_cons in Hf as [Hx Hf]. simpl. rewrite filter_app, IH by done.
  rewrite app_nil_r. induction x as [| y x IHx]; [done |].
  apply Forall_cons in Hx as [Hy Hx]. rewrite filter_cons, decide_False by done.
  by apply IHx.
Qed.

Lemma expected_entries_of_task tasks hp id task :
  0 ≤ hp → tasks !! id = Some task → 0 < period task →
  length (filter (λ k : nat * Z, k.1 = id) (expected_entries hp tasks))
  = Z.to_nat (hp / period task).
Proof.
  intros Hhp Hid Hp. unfold expected_entries.
  assert (Hgen : ∀ suf (n i : nat), suf !! i = Some task →
    length (filter (λ k : nat * Z, k.1 = (n + i)%nat)
              (concat (imap (λ j t, (λ k, ((n + j)%nat, k)) <$> seqZ 0 (hp / period t)) suf)))
    = Z.to_nat (hp / period task)).
  { induction suf as [| t suf IH]; intros n i Hi; [done |].
    rewrite imap_cons. simpl concat. rewrite filter_app, length_app.
    assert (Hrest : imap ((λ j t0, (λ k, ((n + j)%nat, k)) <$> seqZ 0 (hp / period t0)) ∘ S) suf
                 = imap (λ j t0, (λ k, ((S n + j)%nat, k)) <$> seqZ 0 (hp / period t0)) suf).
    { apply imap_ext. intros j x _. simpl.
      by replace (n + S j)%nat with (S (n + j)) by lia. }
    rewrite Hrest.
    destruct i as [| i].
    - simpl in Hi. injection Hi as ->.
      rewrite filter_fst_same, length_fmap, length_seqZ.
      rewrite filter_concat_nil; [simpl; lia |].
      apply Forall_forall. intros x Hx. apply elem_of_lookup_imap in Hx as (j & t' & -> & _).
      apply Forall_forall. intros k Hk. apply list_elem_of_fmap in Hk as (z & -> & _).
      simpl. lia.
    - simpl in Hi. rewrite filter_fst_other by lia. simpl.
      replace (n + S i)%nat with (S n + i)%nat by lia. by apply IH. }
  apply (Hgen tasks 0%nat id Hid).
Qed.

Lemma expected_entries_task tasks hp key :
  key ∈ expected_entries hp tasks → is_Some (tasks !! key.1).
Proof.
  unfold expected_entries. intros Hin.
  apply list_elem_of_In, in_concat in Hin as (l & Hl & Hin).
  apply list_elem_of_In, elem_of_lookup_imap in Hl as (id & task & -> & Hid).
  apply list_elem_of_In, list_elem_of_fmap in Hin as (k & -> & _). by exists task.
Qed.

(** X17: one pass of [execute_one_hyperperiod] over a finalized
    schedulable table, during which the scheduler stays running and no task
    function throws anything but a [std::exception].  The periods have a
    least common multiple that fits the 64-bit nanosecond count.  The pass
    completes, and for every task: it was run [hyperperiod / period] times
    and its completed executions went up by that number; its deadline
    misses went up by the number of runs that ended later than its deadline
    after their release (both counters modulo [2^64]); its total execution
    time went up by the sum of the measured times (in 64-bit signed
    arithmetic); its maximum is the largest of the old maximum and the
    measured times; its last execution time is the time of its last run. *)
Theorem hyperperiod_metrics sort s r s' hyperperiod_start obs :
  is_std_sort sort → all_valid s →
  periods_lcm (task_definitions_ s) < 2 ^ 63 →
  instance_count (periods_lcm (task_definitions_ s)) (task_definitions_ s) < 2 ^ 64 →
  length (task_metrics_ s) = length (task_definitions_ s) →
  finalize_schedule sort s = (r, s') → is_schedulable r = true →
  length obs = length (schedule_table_ s') →
  Forall (λ o, running o = true ∧ exit o ≠ ThrowsOther) obs →
  ∃ metrics',
    execute_one_hyperperiod hyperperiod_start obs s' = (Completed, set_metrics metrics' s')
    ∧ length metrics' = length (task_metrics_ s)
    ∧ ∀ id task m,
        task_definitions_ s !! id = Some task → task_metrics_ s !! id = Some m →
        ∃ m', metrics' !! id = Some m' ∧
          let runs := runs_of id (schedule_table_ s') obs in
          let times :=
            (λ eo : ScheduledExecution * observation, actual_execution_time eo.2) <$> runs in
          Z.of_nat (length runs) = hyperperiod_ s' / period task
          ∧ 1 ≤ hyperperiod_ s' / period task
          ∧ executions_completed m'
            = u64 (executions_completed m + hyperperiod_ s' / period task)
          ∧ u64 (deadline_misses m')
            = u64 (deadline_misses m
                   + Z.of_nat (length (filter (λ eo, late hyperperiod_start task eo = true)
                                              runs)))
          ∧ total_execution_time m' = i64 (total_execution_time m + sumZ (λ x, x) times)
          ∧ max_execution_time m' = foldr Z.max (max_execution_time m) times
          ∧ last times = Some (last_execution_time m').
Proof.
  intros Hsort Hv Hfit Hcount Hlen Hfin Hs Hobs Hrun.
  destruct (schedulable_table_keys sort s r s' Hsort Hv Hfit Hcount Hfin Hs)
    as (_ & Hs' & Hpos & Hdiv & _ & _ & Hperm).
  cbv zeta in Hs'. subst s'. simpl in *.
  destruct (all_valid_checked s Hv) as [Hchk Hppos].
  set (hp := periods_lcm (task_definitions_ s)) in *.
  set (table := generate_schedule_table sort s hp) in *.
  destruct (execute_entries_fold (task_definitions_ s) hyperperiod_start table obs
              (task_metrics_ s) Hobs Hrun) as (metrics' & Hex & Hlen' & Hall).
  { apply Forall_forall. intros e He.
    assert (Hk : entry_key e ∈ expected_entries hp (task_definitions_ s)).
    { rewrite <- Hperm. apply list_elem_of_fmap. by exists e. }
    apply expected_entries_task in Hk as [task Ht]. by exists task. }
  { done. }
  exists metrics'. unfold execute_one_hyperperiod. simpl. rewrite Hex.
  split; [done |]. split; [done |].
  intros id task m Hid Hm. eexists. split; [by apply Hall |].
  assert (Hp : 0 < period task).
  { rewrite Forall_forall in Hppos. apply Hppos. by eapply list_elem_of_lookup_2. }
  assert (Hn : length (runs_of id table obs) = Z.to_nat (hp / period task)).
  { rewrite runs_of_length by done.
    rewrite (Permutation_length (filter_Permutation _ _ _ Hperm)).
    apply expected_entries_of_task; (done || lia). }
  assert (Hk : 1 ≤ hp / period task).
  { rewrite Forall_forall in Hdiv.
    destruct (Hdiv task (list_elem_of_lookup_2 _ _ _ Hid)) as [q Hq].
    rewrite Hq, Z.div_mul by lia. nia. }
  pose proof (after_runs_fields hyperperiod_start task (runs_of id table obs) m)
    as (Hc & _ & Hd & _ & Hmax & Hlast).
  assert (Hne' : runs_of id table obs ≠ []).
  { intros E. rewrite E in Hn. simpl in Hn. lia. }
  destruct (Hc Hne') as [Hc1 Hc2].
  cbv zeta. split; [lia |]. split; [done |].
  split; [rewrite Hc1; f_equal; lia |].
  split; [done |]. split; [done |]. split; [done |].
  rewrite Hlast. by destruct (runs_of id table obs).
Qed.

(** *** The scenarios, continued *)

Lemma schedule_table_sequential_witness :
  let r := (finalize_schedule insertion_sort scenario1_scheduler).1 in
  let s' := (finalize_schedule insertion_sort scenario1_scheduler).2 in
  is_std_sort insertion_sort
  ∧ 0 < basic_time_unit_ scenario1_scheduler
  ∧ all_valid scenario1_scheduler
  ∧ durations_typed (task_definitions_ scenario1_scheduler)
  ∧ times_fit (task_definitions_ scenario1_scheduler)
  ∧ instance_count (periods_lcm (task_definitions_ scenario1_scheduler))
                   (task_definitions_ scenario1_scheduler) < 2 ^ 64
  ∧ Forall (λ t, 0 < worst_case_execution_time t) (task_definitions_ scenario1_scheduler)
  ∧ finalize_schedule insertion_sort scenario1_scheduler = (r, s')
  ∧ is_schedulable r = true
  ∧ (∀ (i j : nat) a b, (i < j)%nat →
       schedule_table_ s' !! i = Some a → schedule_table_ s' !! j = Some b →
       end_time a ≤ start_time b)
  ∧ Forall (λ e, 0 ≤ start_time e ∧ start_time e < end_time e
                 ∧ end_time e ≤ hyperperiod_ s') (schedule_table_ s').
Proof.
  intros r s'.
  pose proof insertion_sort_is_std_sort as Hsort.
  destruct scenario1_scheduler_valid as [Hbtu Hv].
  destruct scenario1_scheduler_fits as (Htyped & Hfit & _ & Hcount).
  assert (Hwcet : Forall (λ t, 0 < worst_case_execution_time t)
                         (task_definitions_ scenario1_scheduler))
    by (repeat constructor).
  assert (Hfin : finalize_schedule insertion_sort scenario1_scheduler = (r, s'))
    by (vm_compute; reflexivity).
  assert (Hs : is_schedulable r = true) by (vm_compute; reflexivity).
  split; [exact Hsort |]. split; [exact Hbtu |]. split; [exact Hv |].
  split; [exact Htyped |]. split; [exact Hfit |].
  split; [exact Hcount |]. split; [exact Hwcet |]. split; [exact Hfin |].
  split; [exact Hs |].
  exact (schedule_table_sequential insertion_sort scenario1_scheduler r s'
           Hsort Hbtu Hv Htyped Hfit Hcount Hwcet Hfin Hs).
Defined.

Lemma schedule_table_windows_witness :
  let r := (finalize_schedule insertion_sort scenario1_scheduler).1 in
  let s' := (finalize_schedule insertion_sort scenario1_scheduler).2 in
  is_std_sort insertion_sort
  ∧ 0 < basic_time_unit_ scenario1_scheduler
  ∧ all_valid scenario1_scheduler
  ∧ durations_typed (task_definitions_ scenario1_scheduler)
  ∧ times_fit (task_definitions_ scenario1_scheduler)
  ∧ instance_count (periods_lcm (task_definitions_ scenario1_scheduler))
                   (task_definitions_ scenario1_scheduler) < 2 ^ 64
  ∧ finalize_schedule insertion_sort scenario1_scheduler = (r, s')
  ∧ is_schedulable r = true
  ∧ Forall (λ e, in_window (basic_time_unit_ scenario1_scheduler)
                           (task_definitions_ scenario1_scheduler) (hyperperiod_ s') e
                 ∧ (basic_time_unit_ scenario1_scheduler | start_time e))
           (schedule_table_ s')
  ∧ (basic_time_unit_ scenario1_scheduler | hyperperiod_ s').
Proof.
  intros r s'.
  pose proof insertion_sort_is_std_sort as Hsort.
  destruct scenario1_scheduler_valid as [Hbtu Hv].
  destruct scenario1_scheduler_fits as (Htyped & Hfit & _ & Hcount).
  assert (Hfin : finalize_schedule insertion_sort scenario1_scheduler = (r, s'))
    by (vm_compute; reflexivity).
  assert (Hs : is_schedulable r = true) by (vm_compute; reflexivity).
  split; [exact Hsort |]. split; [exact Hbtu |]. split; [exact Hv |].
  split; [exact Htyped |]. split; [exact Hfit |].
  split; [exact Hcount |]. split; [exact Hfin |]. split; [exact Hs |].
  exact (schedule_table_windows insertion_sort scenario1_scheduler r s'
           Hsort Hbtu Hv Htyped Hfit Hcount Hfin Hs).
Defined.

Lemma hyperperiod_metrics_witness :
  let r := (finalize_schedule insertion_sort scenario1_scheduler).1 in
  let s' := (finalize_schedule insertion_sort scenario1_scheduler).2 in
  let obs := replicate 17 (mkObservation true 5 7 ThrowsStdException) in
  is_std_sort insertion_sort
  ∧ all_valid scenario1_scheduler
  ∧ periods_lcm (task_definitions_ scenario1_scheduler) < 2 ^ 63
  ∧ instance_count (periods_lcm (task_definitions_ scenario1_scheduler))
                   (task_definitions_ scenario1_scheduler) < 2 ^ 64
  ∧ length (task_metrics_ scenario1_scheduler)
    = length (task_definitions_ scenario1_scheduler)
  ∧ finalize_schedule insertion_sort scenario1_scheduler = (r, s')
  ∧ is_schedulable r = true
  ∧ length obs = length (schedule_table_ s')
  ∧ Forall (λ o, running o = true ∧ exit o ≠ ThrowsOther) obs
  ∧ ∃ metrics',
      execute_one_hyperperiod 0 obs s' = (Completed, set_metrics metrics' s')
      ∧ length metrics' = length (task_metrics_ scenario1_scheduler)
      ∧ ∃ m', metrics' !! 1%nat = Some m'
              ∧ executions_completed m' = u64 (0 + hyperperiod_ s' / 20).
Proof.
  intros r s' obs.
  pose proof insertion_sort_is_std_sort as Hsort.
  destruct scenario1_scheduler_valid as [Hbtu Hv].
  destruct scenario1_scheduler_fits as (_ & _ & Hfit & Hcount).
  assert (Hlen : length (task_metrics_ scenario1_scheduler)
                 = length (task_definitions_ scenario1_scheduler)) by reflexivity.
  assert (Hfin : finalize_schedule insertion_sort scenario1_scheduler = (r, s'))
    by (vm_compute; reflexivity).
  assert (Hs : is_schedulable r = true) by (vm_compute; reflexivity).
  assert (Hobs : length obs = length (schedule_table_ s')) by (vm_compute; reflexivity).
  assert (Hrun : Forall (λ o, running o = true ∧ exit o ≠ ThrowsOther) obs).
  { apply Forall_replicate. split; [reflexivity | discriminate]. }
  split; [exact Hsort |]. split; [exact Hv |].
  split; [exact Hfit |]. split; [exact Hcount |]. split; [exact Hlen |]. split; [exact Hfin |].
  split; [exact Hs |]. split; [exact Hobs |]. split; [exact Hrun |].
  destruct (hyperperiod_metrics insertion_sort scenario1_scheduler r s' 0 obs
              Hsort Hv Hfit Hcount Hlen Hfin Hs Hobs Hrun) as (metrics' & Hex & Hl & Hall).
  exists metrics'. split; [exact Hex |]. split; [exact Hl |].
  destruct (Hall 1%nat (new_TaskDefinition "B" 20 3 0 5 false) (mkMetrics 0 0 0 0 0)
              eq_refl eq_refl) as (m' & Hm' & _ & _ & Hc & _).
  exists m'. split; [exact Hm' | exact Hc].
Defined.

End SchedFacts.

(** ** Event logger *)

Module EventLogFacts.
Import EventLog.

(** The checksum of the ASCII digits 1 to 9 is the CRC-32 check value. *)
Example crc32_check_value :
  calculate_data_checksum [49; 50; 51; 52; 53; 54; 55; 56; 57] = 0xCBF43926.
Proof. reflexivity. Qed.

(** Every call takes the current counter as its sequence number and leaves
    the counter one higher, whatever happens to the frame. *)
Lemma write_log_entry_sequence now disk_ok type data_payload payload_size lg :
  let '(o, lg') := write_log_entry now disk_ok type data_payload payload_size lg in
  sequence_number (outcome_header o) = current_sequence_number_ lg
  ∧ current_sequence_number_ lg' = u64 (current_sequence_number_ lg + 1).
Proof.
  unfold write_log_entry.
  destruct (negb (is_open (log_file_stream_ lg)) || negb (good (log_file_stream_ lg)));
    simpl; [done |].
  by destruct disk_ok.
Qed.

Lemma write_log_entry_unhealthy now disk_ok type data_payload payload_size lg :
  is_healthy lg = false →
  ∃ h, (write_log_entry now disk_ok type data_payload payload_size lg).1 = Lost h.
Proof.
  unfold is_healthy, write_log_entry. intros Hh.
  destruct (is_open (log_file_stream_ lg)), (good (log_file_stream_ lg));
    try discriminate; simpl; eauto.
Qed.

Lemma run_assigned calls : ∀ lg os lg',
  0 ≤ current_sequence_number_ lg < 2 ^ 64 →
  run calls lg = (os, lg') →
  assigned os
  = (λ i, u64 (current_sequence_number_ lg + i)) <$> seqZ 0 (Z.of_nat (length os))
  ∧ current_sequence_number_ lg'
    = u64 (current_sequence_number_ lg + Z.of_nat (length os)).
Proof.
  induction calls as [| c rest IH]; intros lg os lg' Hc Heq; simpl in Heq.
  - injection Heq as <- <-. simpl. rewrite Z.add_0_r. split; [done |].
    symmetry. by apply u64_small.
  - destruct c as [now disk_ok type data_payload payload_size
                  | new_filename open_ok file_empty disk_ok].
    + pose proof (write_log_entry_sequence now disk_ok type data_payload payload_size lg)
        as Hstep.
      destruct (write_log_entry now disk_ok type data_payload payload_size lg)
        as [o lg1] eqn:E1.
      destruct (run rest lg1) as [os1 lg2] eqn:E2.
      injection Heq as <- <-. destruct Hstep as [Hseq Hcur].
      destruct (IH _ _ _ ltac:(rewrite Hcur; apply u64_range) E2) as [Has Hfin].
      split.
      * cbn [assigned fmap list_fmap length]. fold (assigned os1).
        rewrite Nat2Z.inj_succ, seqZ_cons by lia. cbn [fmap list_fmap].
        rewrite Z.add_0_r, (u64_small _ Hc), Hseq. f_equal.
        rewrite Has, Z.pred_succ, <- (fmap_add_seqZ 1 0), <- list_fmap_compose.
        apply list_fmap_ext. intros _ i _. simpl.
        rewrite Hcur, u64_add_l. f_equal. lia.
      * rewrite Hfin, Hcur, u64_add_l. f_equal. simpl length. lia.
    + apply IH in Heq; [exact Heq | exact Hc].
Qed.

Lemma logged_sorted (os : list outcome) : ∀ n,
  assigned os = seqZ n (Z.of_nat (length os)) →
  StronglySorted Z.lt (logged os) ∧ Forall (λ x, n ≤ x) (logged os).
Proof.
  unfold logged.
  induction os as [| o os IH]; intros n Has.
  - split; constructor.
  - cbn [assigned fmap list_fmap length] in Has. fold (assigned os) in Has.
    rewrite Nat2Z.inj_succ, seqZ_cons, Z.pred_succ in Has by lia.
    injection Has as Ho Hrest.
    destruct (IH _ Hrest) as [Hs Hf].
    assert (Hf' : Forall (λ x, n ≤ x) (assigned (filter (λ o, is_logged o = true) os))).
    { eapply Forall_impl; [exact Hf |]. simpl. intros. lia. }
    rewrite filter_cons. destruct (decide (is_logged o = true)); [| done].
    cbn [assigned fmap list_fmap].
    fold (assigned (filter (λ o, is_logged o = true) os)).
    split.
    + constructor; [exact Hs |].
      eapply Forall_impl; [exact Hf |]. simpl. intros. lia.
    + constructor; [lia | exact Hf'].
Qed.

(** C8: within one [EventLogger], from its construction on, the sequence
    numbers assigned by the calls of [write_log_entry] are [0, 1, 2, ...] in
    call order, whatever rotations happen in between, hence strictly
    increasing; the numbers of the frames that reached a file are strictly
    increasing and pairwise different; and a call made while the stream is
    closed or in an error state writes no frame but still takes a number and
    advances the counter.  The run makes at most [2 ^ 64] calls, the range
    of the 64-bit counter. *)
Theorem sequence_numbers_monotone
    filename binary_mode file_empty disk_ok (calls : list call) lg0 os lg' :
  new_EventLogger filename binary_mode true file_empty disk_ok = Some lg0 →
  run calls lg0 = (os, lg') →
  Z.of_nat (length os) ≤ 2 ^ 64 →
  assigned os = seqZ 0 (Z.of_nat (length os))
  ∧ current_sequence_number_ lg' = u64 (Z.of_nat (length os))
  ∧ StronglySorted Z.lt (assigned os)
  ∧ StronglySorted Z.lt (logged os)
  ∧ NoDup (logged os)
  ∧ ∀ now disk_ok' type data_payload payload_size lg,
      is_healthy lg = false →
      let '(o, lg1) := write_log_entry now disk_ok' type data_payload payload_size lg in
      is_logged o = false
      ∧ sequence_number (outcome_header o) = current_sequence_number_ lg
      ∧ current_sequence_number_ lg1 = u64 (current_sequence_number_ lg + 1).
Proof.
  intros Hnew Hrun Hlen.
  assert (H0 : current_sequence_number_ lg0 = 0).
  { unfold new_EventLogger in Hnew. simpl in Hnew. by injection Hnew as <-. }
  destruct (run_assigned calls lg0 os lg' ltac:(rewrite H0; lia) Hrun) as [Has Hfin].
  rewrite H0 in Has, Hfin. simpl in Hfin.
  assert (Has' : assigned os = seqZ 0 (Z.of_nat (length os))).
  { rewrite Has. rewrite <- (list_fmap_id (seqZ 0 (Z.of_nat (length os)))) at 2.
    apply list_fmap_ext. intros i x Hx. apply lookup_seqZ in Hx as [-> Hi]. simpl.
    apply u64_small. lia. }
  assert (Hsorted : ∀ m n, StronglySorted Z.lt (seqZ m (Z.of_nat n))).
  { intros m n. revert m. induction n as [| n IHn]; intros m; [constructor |].
    rewrite Nat2Z.inj_succ, seqZ_cons, Z.pred_succ by lia.
    constructor; [apply IHn |]. apply Forall_forall. intros x Hx.
    apply elem_of_seqZ in Hx. lia. }
  destruct (logged_sorted os 0 Has') as [Hlog _].
  split; [exact Has' |]. split; [exact Hfin |].
  split; [rewrite Has'; apply Hsorted |]. split; [exact Hlog |]. split.
  - clear -Hlog. induction Hlog as [| x l Hs IH Hf]; constructor; [| done].
    intros Hin. rewrite Forall_forall in Hf. specialize (Hf x Hin). lia.
  - intros now disk_ok' type data_payload payload_size lg Hh.
    pose proof (write_log_entry_sequence now disk_ok' type data_payload payload_size lg) as Hs.
    destruct (write_log_entry_unhealthy now disk_ok' type data_payload payload_size lg Hh)
      as [h Hlost].
    destruct (write_log_entry now disk_ok' type data_payload payload_size lg) as [o lg1].
    simpl in Hlost. subst o. by destruct Hs.
Qed.

Lemma sequence_numbers_monotone_witness :
  let os := (run faulty_disk_calls faulty_disk_logger).1 in
  let lg' := (run faulty_disk_calls faulty_disk_logger).2 in
  new_EventLogger "events.log" true true true true = Some faulty_disk_logger
  ∧ run faulty_disk_calls faulty_disk_logger = (os, lg')
  ∧ Z.of_nat (length os) ≤ 2 ^ 64
  ∧ is_logged <$> os = [true; false; false; true]
  ∧ assigned os = [0; 1; 2; 3]
  ∧ logged os = [0; 3]
  ∧ current_sequence_number_ lg' = 4
  ∧ StronglySorted Z.lt (logged os).
Proof.
  intros os lg'.
  assert (Hnew : new_EventLogger "events.log" true true true true = Some faulty_disk_logger)
    by reflexivity.
  assert (Hrun : run faulty_disk_calls faulty_disk_logger = (os, lg'))
    by apply surjective_pairing.
  assert (Hlen : Z.of_nat (length os) ≤ 2 ^ 64) by (vm_compute; discriminate).
  destruct (sequence_numbers_monotone "events.log" true true true faulty_disk_calls
              faulty_disk_logger os lg' Hnew Hrun Hlen) as (_ & _ & _ & Hsorted & _).
  split; [exact Hnew |]. split; [exact Hrun |]. split; [exact Hlen |].
  split; [vm_compute; reflexivity |]. split; [vm_compute; reflexivity |].
  split; [vm_compute; reflexivity |]. split; [vm_compute; reflexivity | exact Hsorted].
Defined.

End EventLogFacts.

(** ** Facts about the checksum, the log file and the replay engine *)

Module EventReplayFacts.

Import EventLog EventReplay.

(** *** The checksum *)

Lemma crc_rounds_add j k c : crc_rounds (j + k) c = crc_rounds k (crc_rounds j c).
Proof. revert c. induction j as [| j IH]; intros c; [done |]. simpl. apply IH. Qed.

Lemma crc_round_range c :
  0 ≤ c < 2 ^ 32 → 0 ≤ crc_rounds 1 c < 2 ^ 32.
Proof.
  intros Hc. simpl.
  assert (Hs : 0 ≤ Z.shiftr c 1 < 2 ^ 31).
  { rewrite Z.shiftr_div_pow2 by lia. change (2 ^ 1) with 2.
    split; [apply Z.div_pos; lia | apply Z.div_lt_upper_bound; lia]. }
  destruct (Z.land c 1 =? 0); [lia |].
  assert (H0 : 0 ≤ Z.lxor (Z.shiftr c 1) 0xEDB88320) by (apply Z.lxor_nonneg; lia).
  split; [done |].
  destruct (Z.eq_dec (Z.lxor (Z.shiftr c 1) 0xEDB88320) 0) as [-> | Hnz]; [lia |].
  apply Z.log2_lt_pow2; [lia |].
  eapply Z.le_lt_trans; [apply Z.log2_lxor; lia |].
  apply Z.max_lub_lt.
  - destruct (Z.eq_dec (Z.shiftr c 1) 0) as [-> | Hn]; [done |].
    apply Z.log2_lt_pow2; lia.
  - done.
Qed.

Lemma crc_rounds_range j : ∀ c, 0 ≤ c < 2 ^ 32 → 0 ≤ crc_rounds j c < 2 ^ 32.
Proof.
  induction j as [| j IH]; intros c Hc; [done |].
  change (S j) with (1 + j)%nat. rewrite crc_rounds_add. apply IH, crc_round_range, Hc.
Qed.

Lemma land_1 z : Z.land z 1 = z mod 2.
Proof. exact (Z.land_ones z 1 ltac:(lia)). Qed.

Lemma land_1_lxor x y :
  (Z.land (Z.lxor x y) 1 =? 0) = Bool.eqb (Z.land x 1 =? 0) (Z.land y 1 =? 0).
Proof.
  rewrite !land_1, <- !Z.bit0_mod, Z.lxor_spec.
  by destruct (Z.testbit x 0), (Z.testbit y 0).
Qed.

(** One round is linear for exclusive or. *)
Lemma crc_round_lxor x y :
  crc_rounds 1 (Z.lxor x y) = Z.lxor (crc_rounds 1 x) (crc_rounds 1 y).
Proof.
  simpl. rewrite land_1_lxor, Z.shiftr_lxor.
  destruct (Z.land x 1 =? 0), (Z.land y 1 =? 0); simpl.
  - done.
  - by rewrite Z.lxor_assoc.
  - rewrite !Z.lxor_assoc. f_equal. apply Z.lxor_comm.
  - rewrite Z.lxor_assoc, (Z.lxor_comm _ (Z.lxor _ 0xEDB88320)), !Z.lxor_assoc.
    rewrite Z.lxor_nilpotent, Z.lxor_0_r. done.
Qed.

Lemma crc_rounds_lxor j : ∀ x y,
  crc_rounds j (Z.lxor x y) = Z.lxor (crc_rounds j x) (crc_rounds j y).
Proof.
  induction j as [| j IH]; intros x y; [done |].
  change (S j) with (1 + j)%nat. by rewrite !crc_rounds_add, crc_round_lxor, IH.
Qed.

(** Rounds only shift a value whose low bits are zero. *)
Lemma crc_rounds_shiftl j : ∀ y, crc_rounds j (Z.shiftl y (Z.of_nat j)) = y.
Proof.
  induction j as [| j IH]; intros y; [by rewrite Z.shiftl_0_r |].
  change (S j) with (1 + j)%nat. rewrite crc_rounds_add.
  replace (Z.of_nat (1 + j)) with (Z.of_nat j + 1) by lia.
  rewrite <- Z.shiftl_shiftl by lia. simpl crc_rounds at 2.
  assert (Hlow : Z.land (Z.shiftl (Z.shiftl y (Z.of_nat j)) 1) 1 = 0).
  { apply Z.bits_inj'. intros n Hn. rewrite Z.land_spec, Z.bits_0.
    destruct (Z.eq_dec n 0) as [-> | Hne].
    - rewrite Z.shiftl_spec_low by lia. done.
    - change 1 with (Z.ones 1) at 2. rewrite Z.ones_spec_high by lia.
      apply andb_false_r. }
  rewrite Hlow. simpl. rewrite Z.shiftr_shiftl_l by lia. simpl.
  rewrite Z.shiftl_0_r. apply IH.
Qed.

Lemma lxor_cancel_r a b p : Z.lxor a p = Z.lxor b p → a = b.
Proof.
  intros E. apply (f_equal (λ z, Z.lxor z p)) in E.
  by rewrite !Z.lxor_assoc, Z.lxor_nilpotent, !Z.lxor_0_r in E.
Qed.

Lemma lxor_cancel_l a b p : Z.lxor p a = Z.lxor p b → a = b.
Proof. rewrite !(Z.lxor_comm p). apply lxor_cancel_r. Qed.

(** One round is injective on 32-bit values. *)
Lemma crc_round_inj x y :
  0 ≤ x < 2 ^ 32 → 0 ≤ y < 2 ^ 32 → crc_rounds 1 x = crc_rounds 1 y → x = y.
Proof.
  intros Hx Hy E. simpl in E.
  assert (Hbit : ∀ c, 0 ≤ c < 2 ^ 32 → Z.testbit (Z.shiftr c 1) 31 = false).
  { intros c Hc. rewrite Z.shiftr_spec by lia.
    destruct (Z.eq_dec c 0) as [-> | Hn]; [apply Z.bits_0 |].
    apply Z.bits_above_log2; [lia |]. apply Z.log2_lt_pow2; lia. }
  assert (Hpoly : Z.testbit 0xEDB88320 31 = true) by done.
  assert (Hlow : (Z.land x 1 =? 0) = (Z.land y 1 =? 0)).
  { apply (f_equal (λ z, Z.testbit z 31)) in E.
    destruct (Z.land x 1 =? 0), (Z.land y 1 =? 0); try done;
      rewrite ?Z.lxor_spec, ?Hbit, ?Hpoly in E by done; done. }
  assert (Hhigh : Z.shiftr x 1 = Z.shiftr y 1).
  { rewrite <- Hlow in E. destruct (Z.land x 1 =? 0); [done |].
    by apply lxor_cancel_r in E. }
  rewrite !land_1 in Hlow.
  rewrite !Z.shiftr_div_pow2 in Hhigh by lia. change (2 ^ 1) with 2 in *.
  pose proof (Z.div_mod x 2 ltac:(lia)). pose proof (Z.div_mod y 2 ltac:(lia)).
  pose proof (Z.mod_pos_bound x 2 ltac:(lia)). pose proof (Z.mod_pos_bound y 2 ltac:(lia)).
  destruct (Z.eqb_spec (x mod 2) 0), (Z.eqb_spec (y mod 2) 0); try done; lia.
Qed.

Lemma crc_rounds_inj j : ∀ x y,
  0 ≤ x < 2 ^ 32 → 0 ≤ y < 2 ^ 32 → crc_rounds j x = crc_rounds j y → x = y.
Proof.
  induction j as [| j IH]; intros x y Hx Hy E; [done |].
  change (S j) with (1 + j)%nat in E. rewrite !crc_rounds_add in E.
  apply IH in E; [| by apply crc_round_range..].
  by apply crc_round_inj.
Qed.

Lemma lxor_range a b : 0 ≤ a < 2 ^ 32 → 0 ≤ b < 2 ^ 32 → 0 ≤ Z.lxor a b < 2 ^ 32.
Proof.
  intros Ha Hb. assert (H0 : 0 ≤ Z.lxor a b) by (apply Z.lxor_nonneg; lia).
  split; [done |].
  destruct (Z.eq_dec (Z.lxor a b) 0) as [-> | Hn]; [lia |].
  apply Z.log2_lt_pow2; [lia |].
  eapply Z.le_lt_trans; [apply Z.log2_lxor; lia |].
  apply Z.max_lub_lt.
  - destruct (Z.eq_dec a 0) as [-> | ?]; [done |]. apply Z.log2_lt_pow2; lia.
  - destruct (Z.eq_dec b 0) as [-> | ?]; [done |]. apply Z.log2_lt_pow2; lia.
Qed.

Lemma byte_range b : is_byte b → 0 ≤ b < 2 ^ 32.
Proof. unfold is_byte. lia. Qed.

Lemma le_value_range w :
  Forall is_byte w → 0 ≤ le_value w < 256 ^ Z.of_nat (length w).
Proof.
  induction 1 as [| b w Hb _ IH]; [simpl; lia |].
  cbn [le_value length]. rewrite Nat2Z.inj_succ, Z.pow_succ_r by lia.
  unfold is_byte in Hb. lia.
Qed.

Lemma le_value_inj w : ∀ w',
  length w = length w' → Forall is_byte w → Forall is_byte w' →
  le_value w = le_value w' → w = w'.
Proof.
  induction w as [| b w IH]; intros [| b' w'] Hlen Hw Hw' E; try done.
  apply Forall_cons in Hw as [Hb Hw]. apply Forall_cons in Hw' as [Hb' Hw'].
  simpl in E, Hlen. unfold is_byte in Hb, Hb'.
  assert (b = b') by lia. subst b'.
  f_equal. apply IH; [lia | done | done | lia].
Qed.

Lemma byte_add_lxor b v : is_byte b → b + 256 * v = Z.lxor b (Z.shiftl v 8).
Proof.
  intros Hb. rewrite Z.shiftl_mul_pow2 by lia. rewrite (Z.mul_comm 256).
  change 256 with (2 ^ 8). apply Z.add_nocarry_lxor.
  apply Z.bits_inj'. intros n Hn. rewrite Z.land_spec, Z.bits_0.
  destruct (Z.lt_ge_cases n 8) as [Hlt | Hge].
  - rewrite Z.mul_pow2_bits_low by lia. apply andb_false_r.
  - destruct (Z.eq_dec b 0) as [-> | Hnz]; [by rewrite Z.bits_0 |].
    rewrite (Z.bits_above_log2 b n); [done | unfold is_byte in Hb; lia |].
    eapply Z.lt_le_trans; [| exact Hge]. apply Z.log2_lt_pow2; unfold is_byte in Hb; lia.
Qed.

(** The bytes of a window enter the register as one exclusive or with
    their little-endian value, followed by eight rounds per byte. *)
Lemma crc_window w : ∀ crc,
  Forall is_byte w →
  fold_left (λ crc b, crc_rounds 8 (Z.lxor crc b)) w crc
  = crc_rounds (8 * length w) (Z.lxor crc (le_value w)).
Proof.
  induction w as [| b w IH]; intros crc Hw.
  - simpl. by rewrite Z.lxor_0_r.
  - apply Forall_cons in Hw as [Hb Hw].
    cbn [fold_left le_value length]. rewrite IH by done.
    replace (8 * S (length w))%nat with (8 + 8 * length w)%nat by lia.
    rewrite crc_rounds_add. f_equal.
    rewrite byte_add_lxor by done.
    rewrite <- Z.lxor_assoc.
    rewrite (crc_rounds_lxor 8 (Z.lxor crc b) (Z.shiftl (le_value w) 8)).
    f_equal. symmetry. exact (crc_rounds_shiftl 8 (le_value w)).
Qed.

Lemma crc_fold_range data : ∀ crc,
  Forall is_byte data → 0 ≤ crc < 2 ^ 32 →
  0 ≤ fold_left (λ crc b, crc_rounds 8 (Z.lxor crc b)) data crc < 2 ^ 32.
Proof.
  induction data as [| b data IH]; intros crc Hd Hc; [done |].
  apply Forall_cons in Hd as [Hb Hd]. cbn [fold_left]. apply IH; [done |].
  apply crc_rounds_range, lxor_range; [done | by apply byte_range].
Qed.

Lemma crc_fold_inj data : ∀ c1 c2,
  Forall is_byte data → 0 ≤ c1 < 2 ^ 32 → 0 ≤ c2 < 2 ^ 32 →
  fold_left (λ crc b, crc_rounds 8 (Z.lxor crc b)) data c1
  = fold_left (λ crc b, crc_rounds 8 (Z.lxor crc b)) data c2 →
  c1 = c2.
Proof.
  induction data as [| b data IH]; intros c1 c2 Hd H1 H2 E; [done |].
  apply Forall_cons in Hd as [Hb Hd]. cbn [fold_left] in E.
  apply IH in E; [| done | apply crc_rounds_range, lxor_range; (done || by apply byte_range)..].
  apply crc_rounds_inj in E; [| apply lxor_range; (done || by apply byte_range)..].
  by apply lxor_cancel_r in E.
Qed.

Lemma calculate_data_checksum_range data :
  Forall is_byte data → 0 ≤ calculate_data_checksum data < 2 ^ 32.
Proof.
  intros Hd. unfold calculate_data_checksum, internal_calculate_checksum_eventlog.
  apply lxor_range; [| lia]. apply crc_fold_range; [done | lia].
Qed.

(** X19: the checksum tells apart any two payloads of the same length that
    differ only within a window of at most four consecutive bytes, that is,
    it detects every corruption confined to 32 consecutive bits, wherever
    the window lies in the payload. *)
Theorem checksum_detects_burst (before window window' after : list Z) :
  Forall is_byte (before ++ window ++ after) → Forall is_byte window' →
  length window = length window' → (length window ≤ 4)%nat → window ≠ window' →
  calculate_data_checksum (before ++ window ++ after)
  ≠ calculate_data_checksum (before ++ window' ++ after).
Proof.
  intros Hall Hw' Hlen Hshort Hne E.
  apply Forall_app in Hall as [Hb Hall]. apply Forall_app in Hall as [Hw Ha].
  unfold calculate_data_checksum, internal_calculate_checksum_eventlog in E.
  apply lxor_cancel_r in E. rewrite !fold_left_app in E.
  set (c := fold_left _ before _) in E.
  assert (Hc : 0 ≤ c < 2 ^ 32) by (apply crc_fold_range; [done | lia]).
  assert (Hv : ∀ w, Forall is_byte w → (length w ≤ 4)%nat → 0 ≤ le_value w < 2 ^ 32).
  { intros w Hbytes Hl. pose proof (le_value_range w Hbytes) as Hr.
    assert (256 ^ Z.of_nat (length w) ≤ 256 ^ 4) by (apply Z.pow_le_mono_r; lia).
    change (2 ^ 32) with (256 ^ 4). lia. }
  apply crc_fold_inj in E; [| done | apply crc_fold_range; done..].
  rewrite !crc_window in E by done. rewrite <- Hlen in E.
  apply crc_rounds_inj in E; [| apply lxor_range; [done | apply Hv; (done || lia)]..].
  apply lxor_cancel_l in E. by apply le_value_inj in E.
Qed.

Lemma checksum_detects_burst_witness :
  Forall is_byte ([65; 76] ++ [1; 2; 3] ++ [9]) ∧ Forall is_byte [1; 7; 3]
  ∧ length [1; 2; 3] = length [1; 7; 3] ∧ (length [1; 2; 3] ≤ 4)%nat
  ∧ [1; 2; 3] ≠ [1; 7; 3]
  ∧ calculate_data_checksum ([65; 76] ++ [1; 2; 3] ++ [9])
    ≠ calculate_data_checksum ([65; 76] ++ [1; 7; 3] ++ [9]).
Proof.
  assert (H1 : Forall is_byte ([65; 76] ++ [1; 2; 3] ++ [9]))
    by (repeat constructor; unfold is_byte; lia).
  assert (H2 : Forall is_byte [1; 7; 3]) by (repeat constructor; unfold is_byte; lia).
  assert (H3 : length [1; 2; 3] = length [1; 7; 3]) by reflexivity.
  assert (H4 : (length [1; 2; 3] ≤ 4)%nat) by (simpl; lia).
  assert (H5 : [1; 2; 3] ≠ [1; 7; 3]) by discriminate.
  split; [exact H1 |]. split; [exact H2 |]. split; [exact H3 |]. split; [exact H4 |].
  split; [exact H5 |].
  exact (checksum_detects_burst [65; 76] [1; 2; 3] [1; 7; 3] [9] H1 H2 H3 H4 H5).
Defined.

(** *** The bytes of a header *)

Lemma length_le_bytes n : ∀ z, length (le_bytes n z) = n.
Proof. induction n as [| n IH]; intros z; simpl; [done | by rewrite IH]. Qed.

Lemma le_bytes_bytes n : ∀ z, Forall is_byte (le_bytes n z).
Proof.
  induction n as [| n IH]; intros z; simpl; constructor; [| apply IH].
  unfold is_byte. apply Z.mod_pos_bound. lia.
Qed.

Lemma le_value_le_bytes n : ∀ z, le_value (le_bytes n z) = z mod 256 ^ Z.of_nat n.
Proof.
  induction n as [| n IH]; intros z.
  - simpl. by rewrite Z.mod_1_r.
  - cbn [le_bytes le_value]. rewrite IH, Nat2Z.inj_succ, Z.pow_succ_r by lia.
    rewrite Z.rem_mul_r by lia. lia.
Qed.

Lemma le_value_le_bytes_small n z :
  0 ≤ z < 256 ^ Z.of_nat n → le_value (le_bytes n z) = z.
Proof. intros Hz. rewrite le_value_le_bytes. by apply Z.mod_small. Qed.

Lemma length_header_bytes h padding :
  length padding = 4%nat → Z.of_nat (length (header_bytes h padding)) = sizeof_EventHeader.
Proof.
  intros Hp. unfold header_bytes. rewrite !length_app, !length_le_bytes, Hp. done.
Qed.

Lemma decode_header_bytes h padding rest :
  0 ≤ timestamp_ns h < 2 ^ 64 → 0 ≤ sequence_number h < 2 ^ 64 →
  0 ≤ data_size_bytes h < 2 ^ 32 → 0 ≤ data_checksum h < 2 ^ 32 →
  decode_header (header_bytes h padding ++ rest)
  = mkStored (timestamp_ns h) (sequence_number h) (EventType_value (event_type h))
             (data_size_bytes h) (data_checksum h).
Proof.
  intros Ht Hs Hd Hc. unfold decode_header, header_bytes.
  assert (Htake : ∀ n z (l : list Z), take n (le_bytes n z ++ l) = le_bytes n z).
  { intros n z l. rewrite take_app_length'; [done | by rewrite length_le_bytes]. }
  assert (Hdrop : ∀ n z (l : list Z), drop n (le_bytes n z ++ l) = l).
  { intros n z l. rewrite drop_app_length'; [done | by rewrite length_le_bytes]. }
  rewrite <- !app_assoc.
  rewrite Htake.
  change 24%nat with (8 + (8 + (4 + 4)))%nat.
  change 20%nat with (8 + (8 + 4))%nat.
  change 16%nat with (8 + 8)%nat.
  rewrite <- !drop_drop, !Hdrop, !Htake.
  rewrite !le_value_le_bytes_small; [done | | | | |]; try done.
  destruct (event_type h); simpl; lia.
Qed.

(** *** Reading from the stream *)

Lemma stream_read_enough n f taken rest :
  in_good f = true → drop (position f) (content f) = taken ++ rest → length taken = n →
  stream_read n f
  = (taken, mkInput (in_is_open f) (content f) (position f + n) (eofbit f) (failbit f)).
Proof.
  intros Hg Hd Hn. unfold stream_read. rewrite Hg, Hd.
  rewrite length_app, Hn.
  destruct (Nat.leb_spec n (n + length rest)) as [_ | ?]; [| lia].
  by rewrite take_app_length'.
Qed.

Lemma stream_read_short n f :
  in_good f = true → (length (drop (position f) (content f)) < n)%nat →
  stream_read n f
  = (drop (position f) (content f),
     mkInput (in_is_open f) (content f) (length (content f)) true true).
Proof.
  intros Hg Hl. unfold stream_read. rewrite Hg.
  destruct (Nat.leb_spec n (length (drop (position f) (content f)))) as [? | _]; [lia |].
  done.
Qed.

Lemma in_good_bits f : in_good f = true → eofbit f = false ∧ failbit f = false.
Proof. unfold in_good. by destruct (eofbit f), (failbit f). Qed.

(** Reading one frame. *)
Lemma read_next_event_frame f h padding payload rest :
  in_is_open f = true → in_good f = true →
  drop (position f) (content f) = header_bytes h padding ++ payload ++ rest →
  length padding = 4%nat →
  0 ≤ timestamp_ns h < 2 ^ 64 → 0 ≤ sequence_number h < 2 ^ 64 →
  0 ≤ data_checksum h < 2 ^ 32 →
  data_size_bytes h = Z.of_nat (length payload) →
  Z.of_nat (length payload) ≤ MAX_EVENT_DATA_SIZE →
  read_next_event true f
  = (Some (mkStored (timestamp_ns h) (sequence_number h) (EventType_value (event_type h))
                    (data_size_bytes h) (data_checksum h), payload),
     mkInput true (content f)
             (position f + length (header_bytes h padding) + length payload) false false).
Proof.
  intros Ho Hg Hd Hp Ht Hs Hc Hsize Hmax.
  destruct (in_good_bits f Hg) as [He Hf].
  pose proof (length_header_bytes h padding Hp) as Hlen.
  assert (Hl32 : length (header_bytes h padding) = Z.to_nat sizeof_EventHeader) by lia.
  pose proof (decode_header_bytes h padding [] Ht Hs) as Hdec.
  rewrite app_nil_r in Hdec.
  specialize (Hdec ltac:(unfold MAX_EVENT_DATA_SIZE in Hmax; lia) Hc).
  unfold read_next_event. rewrite Ho, Hg, He. cbn [negb orb].
  rewrite (stream_read_enough _ f (header_bytes h padding) (payload ++ rest) Hg Hd Hl32).
  cbv beta iota zeta.
  rewrite Hlen, Z.eqb_refl, Hdec. cbn [negb stored_data_size_bytes].
  rewrite Ho, He, Hf.
  destruct (Z.ltb_spec 0 (data_size_bytes h)) as [Hpos | Hzero].
  - destruct (Z.ltb_spec MAX_EVENT_DATA_SIZE (data_size_bytes h)) as [? | _]; [lia |].
    cbn [negb].
    rewrite (stream_read_enough _ _ payload rest); cycle 1.
    { done. }
    { cbn [position content]. rewrite <- drop_drop, Hd.
      rewrite <- Hl32. by rewrite drop_app_length. }
    { lia. }
    cbv beta iota zeta. rewrite <- Hsize, Z.eqb_refl. cbn [negb].
    cbn [in_is_open content position eofbit failbit].
    do 3 f_equal; lia.
  - assert (payload = []) as -> by (destruct payload; [done | simpl in Hsize; lia]).
    change (length (@nil Z)) with 0%nat. by rewrite Nat.add_0_r, Hl32.
Qed.

(** At the end of the file [read_next_event] returns false and leaves the
    stream at the end with [eofbit] and [failbit] set. *)
Lemma read_next_event_end alloc_ok f :
  in_is_open f = true → in_good f = true → drop (position f) (content f) = [] →
  read_next_event alloc_ok f
  = (None, mkInput true (content f) (length (content f)) true true).
Proof.
  intros Ho Hg Hd. destruct (in_good_bits f Hg) as [He Hf].
  unfold read_next_event. rewrite Ho, Hg, He. cbn [negb orb].
  rewrite stream_read_short by (done || (rewrite Hd; simpl; unfold sizeof_EventHeader; lia)).
  rewrite Hd, Ho. done.
Qed.

(** *** What the logger writes *)

Lemma write_log_entry_healthy en lg :
  is_healthy lg = true →
  write_log_entry (entry_now en) true (entry_type en) (Some (entry_payload en))
                  (Z.of_nat (length (entry_payload en))) lg
  = (Logged (logged_header (EventLog.current_sequence_number_ lg) en),
     mkLogger
       (mkStream true true
          (output (EventLog.log_file_stream_ lg)
           ++ [logged_item (use_binary_format_ lg) (EventLog.current_sequence_number_ lg) en]))
       (u64 (EventLog.current_sequence_number_ lg + 1)) (log_filename_ lg)
       (use_binary_format_ lg)
       (u64 (total_events_logged_count_ lg + 1))
       (u64 (total_bytes_written_count_ lg
             + item_size (logged_item (use_binary_format_ lg)
                                      (EventLog.current_sequence_number_ lg) en)))).
Proof.
  unfold is_healthy. intros Hh. apply andb_prop in Hh as [Ho Hg].
  unfold write_log_entry, logged_item, logged_header, stream_write.
  rewrite Ho, Hg. cbn [negb orb andb].
  assert (Hp : (if 0 <? Z.of_nat (length (entry_payload en))
                then take (Z.to_nat (Z.of_nat (length (entry_payload en)))) (entry_payload en)
                else []) = entry_payload en).
  { destruct (Z.ltb_spec 0 (Z.of_nat (length (entry_payload en)))) as [? | Hz].
    - by rewrite Nat2Z.id, firstn_all.
    - destruct (entry_payload en); [done | simpl in Hz; lia]. }
  rewrite Hp.
  rewrite bool_decide_eq_true_2 by (by eexists). rewrite andb_true_r.
  destruct (use_binary_format_ lg); cbn [item_size]; by rewrite ?u64_add_r.
Qed.

Lemma log_entries_spec entries : ∀ lg,
  is_healthy lg = true →
  0 ≤ total_events_logged_count_ lg < 2 ^ 64 →
  0 ≤ total_bytes_written_count_ lg < 2 ^ 64 →
  let lg' := log_entries entries lg in
  let items := items_from (use_binary_format_ lg) (EventLog.current_sequence_number_ lg)
                          entries in
  EventLog.log_file_stream_ lg'
  = mkStream true true (output (EventLog.log_file_stream_ lg) ++ items)
  ∧ use_binary_format_ lg' = use_binary_format_ lg
  ∧ total_events_logged_count_ lg'
    = u64 (total_events_logged_count_ lg + Z.of_nat (length entries))
  ∧ total_bytes_written_count_ lg'
    = u64 (total_bytes_written_count_ lg + sumZ item_size items).
Proof.
  induction entries as [| en entries IH]; intros lg Hh He Hb; cbv zeta.
  - simpl. rewrite app_nil_r, !Z.add_0_r, !u64_small by done.
    unfold is_healthy in Hh. apply andb_prop in Hh as [Ho Hg].
    destruct (EventLog.log_file_stream_ lg) as [o g out]. simpl in *. by subst.
  - unfold log_entries. cbn [fold_left].
    rewrite (write_log_entry_healthy en lg Hh). cbn [snd].
    set (lg1 := mkLogger _ _ _ _ _ _).
    fold (log_entries entries lg1).
    destruct (IH lg1 eq_refl (u64_range _) (u64_range _)) as (Hs & Hf & Hev & Hby).
    rewrite Hs, Hf, Hev, Hby. unfold lg1.
    cbn [EventLog.log_file_stream_ output use_binary_format_ EventLog.current_sequence_number_
         total_events_logged_count_ total_bytes_written_count_ items_from length sumZ
         fold_right].
    rewrite <- app_assoc. split; [done |]. split; [done |].
    rewrite !u64_add_l. fold (sumZ item_size (items_from (use_binary_format_ lg)
      (u64 (EventLog.current_sequence_number_ lg + 1)) entries)).
    split; f_equal; lia.
Qed.

Lemma length_string_bytes s : length (string_bytes s) = String.length s.
Proof.
  unfold string_bytes. rewrite length_fmap.
  induction s as [| a s IH]; simpl; [done | by rewrite IH].
Qed.

(** The size of a file is the sum of the sizes of the items written. *)
Lemma file_image_length items file :
  file_image items file → Z.of_nat (length file) = sumZ item_size items.
Proof.
  induction 1 as [| text items bytes _ IH | h payload padding items bytes Hp _ _ IH
                  | h line items bytes _ IH]; [done | | |];
    cbn [sumZ fold_right item_size] in *; fold (sumZ item_size items) in *;
    rewrite ?length_app, ?length_string_bytes, ?Nat2Z.inj_add, <- ?IH.
  - unfold strlen. lia.
  - pose proof (length_header_bytes h padding Hp). lia.
  - unfold strlen. lia.
Qed.

(** X23: a logger that opened an empty file and whose writes all succeed
    counts exactly the bytes of the file as long as every entry is logged
    with its payload (a data pointer to as many bytes as the size says, or
    the size zero): after any number of such entries, in the binary or in
    the text format, [get_total_bytes_written] is the size of the file
    (modulo [2^64]) and [get_total_events_logged] the number of entries.
    An entry logged next in the binary format with a null data pointer and
    a size [n > 0] breaks the count: only the header of 32 bytes is
    appended to the file, and the counter goes up by [32 + n]. *)
Theorem bytes_written_is_file_size filename binary_mode lg0 entries file :
  new_EventLogger filename binary_mode true true true = Some lg0 →
  file_image (output (EventLog.log_file_stream_ (log_entries entries lg0))) file →
  total_bytes_written_count_ (log_entries entries lg0) = u64 (Z.of_nat (length file))
  ∧ total_events_logged_count_ (log_entries entries lg0)
    = u64 (Z.of_nat (length entries))
  ∧ ∀ now type payload_size file1,
      binary_mode = true → 0 < payload_size →
      let lg1 := (write_log_entry now true type None payload_size
                    (log_entries entries lg0)).2 in
      file_image (output (EventLog.log_file_stream_ lg1)) file1 →
      Z.of_nat (length file1) = Z.of_nat (length file) + sizeof_EventHeader
      ∧ total_events_logged_count_ lg1 = u64 (Z.of_nat (length entries) + 1)
      ∧ total_bytes_written_count_ lg1
        = u64 (Z.of_nat (length file) + sizeof_EventHeader + payload_size).
Proof.
  intros Hnew Himg. unfold new_EventLogger in Hnew. simpl in Hnew.
  injection Hnew as <-.
  set (lg0 := mkLogger _ _ _ _ _ _) in *.
  destruct (log_entries_spec entries lg0 eq_refl ltac:(simpl; lia) (u64_range _))
    as (Hs & Hf & Hev & Hby).
  rewrite Hs in Himg. cbn [output] in Himg.
  pose proof (file_image_length _ _ Himg) as Hlen.
  assert (Hbytes : total_bytes_written_count_ (log_entries entries lg0)
                   = u64 (Z.of_nat (length file))).
  { rewrite Hlen, Hby. unfold lg0.
    cbn [EventLog.log_file_stream_ output use_binary_format_
         EventLog.current_sequence_number_ total_bytes_written_count_ app sumZ fold_right
         item_size].
    rewrite u64_add_l. f_equal. }
  assert (Hevents : total_events_logged_count_ (log_entries entries lg0)
                    = u64 (Z.of_nat (length entries))).
  { rewrite Hev. unfold lg0. cbn [total_events_logged_count_]. f_equal. }
  split; [exact Hbytes |]. split; [exact Hevents |].
  intros now type payload_size file1 -> Hsize lg1 Himg1.
  subst lg1. unfold write_log_entry in Himg1 |- *.
  rewrite Hs, Hf in Himg1. rewrite Hs, Hf, Hbytes, Hevents.
  unfold lg0 in Himg1, Hlen |- *.
  cbn [is_open good negb orb use_binary_format_ snd stream_write andb
       EventLog.log_file_stream_ output total_bytes_written_count_
       total_events_logged_count_] in Himg1, Hlen |- *.
  rewrite (file_image_length _ _ Himg1), sumZ_app, <- Hlen.
  cbn [sumZ fold_right item_size length]. rewrite u64_add_l, u64_add_l, u64_add_r.
  split; [lia |]. split; [done |]. f_equal. lia.
Qed.

(** *** Reading back what was logged *)

Lemma file_bytes_image padding items :
  length padding = 4%nat → Forall is_byte padding →
  file_image items (file_bytes padding items).
Proof.
  intros Hl Hp. unfold file_bytes.
  induction items as [| [text | h payload | h line] items IH]; cbn [fmap list_fmap concat].
  - constructor.
  - by constructor.
  - rewrite <- app_assoc. by constructor.
  - by constructor.
Qed.

Lemma file_image_app items1 : ∀ items2 bytes,
  file_image (items1 ++ items2) bytes →
  ∃ bytes1 bytes2, bytes = bytes1 ++ bytes2 ∧ file_image items1 bytes1
                   ∧ file_image items2 bytes2.
Proof.
  induction items1 as [| item items1 IH]; intros items2 bytes H.
  - exists [], bytes. split; [done |]. split; [constructor | done].
  - simpl in H. inversion H as [| text its bs Hrest | h payload padding its bs Hl Hp Hrest
                                | h line its bs Hrest]; subst;
      destruct (IH _ _ Hrest) as (b1 & b2 & -> & H1 & H2).
    + exists (string_bytes text ++ b1), b2. rewrite <- app_assoc.
      split; [done |]. split; [by constructor | done].
    + exists (header_bytes h padding ++ payload ++ b1), b2. rewrite <- !app_assoc.
      split; [done |]. split; [by constructor | done].
    + exists (string_bytes line ++ b1), b2. rewrite <- app_assoc.
      split; [done |]. split; [by constructor | done].
Qed.

Lemma logged_header_ranges seq en :
  0 ≤ seq < 2 ^ 64 → entry_ok en →
  0 ≤ timestamp_ns (logged_header seq en) < 2 ^ 64
  ∧ 0 ≤ sequence_number (logged_header seq en) < 2 ^ 64
  ∧ 0 ≤ data_checksum (logged_header seq en) < 2 ^ 32
  ∧ data_size_bytes (logged_header seq en) = Z.of_nat (length (entry_payload en)).
Proof.
  intros Hs [Hb Hmax]. unfold logged_header. cbn.
  split; [apply u64_range |]. split; [done |]. split.
  - destruct (_ <? _); [by apply calculate_data_checksum_range | lia].
  - unfold u32. apply Z.mod_small. unfold MAX_EVENT_DATA_SIZE in Hmax. lia.
Qed.

Lemma stored_logged_header seq en :
  stored (logged_header seq en)
  = mkStored (timestamp_ns (logged_header seq en)) (sequence_number (logged_header seq en))
             (EventType_value (event_type (logged_header seq en)))
             (data_size_bytes (logged_header seq en))
             (data_checksum (logged_header seq en)).
Proof. done. Qed.

Lemma read_events_S fuel alloc_ok f :
  read_events (S fuel) alloc_ok f
  = match read_next_event alloc_ok f with
    | (None, f1) => ([], f1)
    | (Some event, f1) =>
        let '(events, f2) := read_events fuel alloc_ok f1 in (event :: events, f2)
    end.
Proof. done. Qed.

(** Reading the frames of a list of entries, one after the other, then
    the end of the file. *)
Lemma read_events_frames file entries : ∀ seq pos bytes,
  Forall entry_ok entries → 0 ≤ seq < 2 ^ 64 →
  drop pos file = bytes → file_image (items_from true seq entries) bytes →
  read_events (S (length entries)) true (stream_at file pos)
  = (events_from seq entries, stream_end file).
Proof.
  unfold stream_at, stream_end.
  induction entries as [| en entries IH]; intros seq pos bytes Hok Hseq Hd Himg.
  - inversion Himg; subst. cbn [length]. rewrite read_events_S.
    by rewrite read_next_event_end.
  - apply Forall_cons in Hok as [Hen Hok].
    cbn [items_from logged_item] in Himg.
    inversion Himg as [| | h payload padding its bs Hl Hp Hrest [Eh Ep Ei] Hbytes |].
    rewrite <- Hbytes in Hd. clear Hbytes Himg. subst h payload its.
    destruct (logged_header_ranges seq en Hseq Hen) as (Ht & Hs & Hc & Hsz).
    cbn [length]. rewrite read_events_S.
    rewrite (read_next_event_frame (mkInput true file pos false false)
               (logged_header seq en) padding
               (entry_payload en) bs eq_refl eq_refl Hd Hl Ht Hs Hc Hsz (proj2 Hen)).
    cbn [content position].
    rewrite (IH (u64 (seq + 1)) _ bs Hok (u64_range _)); [done | | done].
    rewrite <- !drop_drop, Hd.
    rewrite drop_app_length. by rewrite drop_app_length.
Qed.

Lemma calculate_data_checksum_nil : calculate_data_checksum [] = 0.
Proof. done. Qed.

Lemma events_from_indexed entries : ∀ k : nat,
  Forall entry_ok entries → Z.of_nat (k + length entries) ≤ 2 ^ 64 →
  events_from (Z.of_nat k) entries = imap (λ i, event_of (k + i)) entries.
Proof.
  induction entries as [| en entries IH]; intros k Hok Hn; [done |].
  apply Forall_cons in Hok as [[Hb Hmax] Hok]. cbn [length] in Hn.
  cbn [events_from imap]. f_equal.
  - unfold event_of, stored, logged_header. cbn. rewrite Nat.add_0_r. do 2 f_equal.
    + unfold u32. apply Z.mod_small. unfold MAX_EVENT_DATA_SIZE in Hmax. lia.
    + destruct (Z.ltb_spec 0 (Z.of_nat (length (entry_payload en)))) as [? | Hz]; [done |].
      destruct (entry_payload en); [done | simpl in Hz; lia].
  - destruct entries as [| en' entries']; [done |]. cbn [length] in Hn.
    rewrite u64_small by lia. replace (Z.of_nat k + 1) with (Z.of_nat (S k)) by lia.
    rewrite IH by (done || (cbn [length]; lia)). apply imap_ext. intros i x _. simpl.
    f_equal. lia.
Qed.

Lemma validate_event_of seq en :
  entry_ok en → validate_event_checksum (event_of seq en).1 (event_of seq en).2 = true.
Proof.
  intros [Hb Hmax]. unfold validate_event_checksum, event_of. cbn.
  destruct (decide (entry_payload en = [])) as [-> | Hne].
  - done.
  - rewrite bool_decide_eq_false_2, andb_false_r by done.
    rewrite Z.eqb_refl. cbn. apply Z.eqb_refl.
Qed.

(** The file of a logger that opened an empty file in the binary format and
    then logged [entries]. *)
Lemma logged_file filename lg0 entries file :
  new_EventLogger filename true true true true = Some lg0 →
  file_image (output (EventLog.log_file_stream_ (log_entries entries lg0))) file →
  ∃ frames, file = string_bytes binary_header_magic ++ frames
            ∧ file_image (items_from true 0 entries) frames.
Proof.
  intros Hnew Himg. unfold new_EventLogger in Hnew. simpl in Hnew.
  injection Hnew as <-.
  set (lg0 := mkLogger _ _ _ _ _ _) in *.
  destruct (log_entries_spec entries lg0 eq_refl ltac:(simpl; lia) (u64_range _))
    as (Hs & _).
  rewrite Hs in Himg. cbn in Himg.
  inversion Himg as [| text its bs Hrest | |]; subst. by exists bs.
Qed.

Lemma skip_magic_found frames :
  skip_magic (stream_at (string_bytes binary_header_magic ++ frames) 0)
  = stream_at (string_bytes binary_header_magic ++ frames) 13.
Proof.
  unfold skip_magic, stream_at.
  rewrite (stream_read_enough 13 _ (string_bytes binary_header_magic) frames); done.
Qed.

Lemma new_EventReplayEngine_open file callback :
  new_EventReplayEngine true file callback
  = Some (mkEngine (skip_magic (stream_at file 0)) callback false false float_one 0).
Proof. done. Qed.

(** X20: logging and reading back.  A binary logger opens an empty file
    and logs entries with payloads of at most 16 MiB, every write
    succeeding.  A replay engine opened on the resulting file then reads
    with [read_next_event] exactly the logged events, in order: each with
    its timestamp, its sequence number (its position in the log), its type,
    its size, the checksum of its payload and the payload itself.  Every
    event passes [validate_event_checksum], and the call after the last
    event returns false at the end of the file. *)
Theorem log_replay_round_trip filename lg0 entries file callback e :
  new_EventLogger filename true true true true = Some lg0 →
  Forall entry_ok entries → Z.of_nat (length entries) ≤ 2 ^ 64 →
  file_image (output (EventLog.log_file_stream_ (log_entries entries lg0))) file →
  new_EventReplayEngine true file callback = Some e →
  read_events (S (length entries)) true (log_file_stream_ e)
  = (imap event_of entries, stream_end file)
  ∧ Forall (λ event, validate_event_checksum event.1 event.2 = true)
           (imap event_of entries).
Proof.
  intros Hnew Hok Hn Himg He.
  destruct (logged_file filename lg0 entries file Hnew Himg) as (frames & -> & Hframes).
  rewrite new_EventReplayEngine_open in He. apply (inj Some) in He as <-.
  cbn [log_file_stream_]. rewrite skip_magic_found. split.
  - rewrite (read_events_frames _ entries 0 13 frames Hok ltac:(lia)); [| done | done].
    f_equal. exact (events_from_indexed entries 0 Hok Hn).
  - apply Forall_forall. intros event Hin.
    apply elem_of_lookup_imap in Hin as (i & en & -> & Hi).
    apply validate_event_of. rewrite Forall_forall in Hok. apply Hok.
    by eapply list_elem_of_lookup_2.
Qed.

(** *** Replaying what was logged *)

Lemma replay_iterations_S stop_after alloc_ok start found e :
  replay_iterations (S stop_after) alloc_ok start found e
  = match read_next_event alloc_ok (log_file_stream_ e) with
    | (None, f) =>
        ([], mkEngine f (has_callback e) (is_replaying_ e) (is_paused_ e)
                      (replay_speed_factor_ e) (current_replay_sequence_number_ e))
    | (Some (header, data_buffer), f) =>
        let e1 := mkEngine f (has_callback e) (is_replaying_ e) (is_paused_ e)
                           (replay_speed_factor_ e) (stored_sequence_number header) in
        if found || (start <=? stored_sequence_number header) then
          let e2 := mkEngine f (has_callback e) (is_replaying_ e)
                             (if SFeqb (replay_speed_factor_ e) float_zero
                              then true else is_paused_ e)
                             (replay_speed_factor_ e) (stored_sequence_number header) in
          let '(dispatched, e3) := replay_iterations stop_after alloc_ok start true e2 in
          (if has_callback e then (header, data_buffer) :: dispatched else dispatched, e3)
        else replay_iterations stop_after alloc_ok start false e1
    end.
Proof. done. Qed.

Lemma last_cons_default {A} (x : A) (l : list A) d :
  default d (last (x :: l)) = default x (last l).
Proof.
  revert d x. induction l as [| y l IH]; intros d x; [done |].
  change (last (x :: y :: l)) with (last (y :: l)). by rewrite (IH d y), (IH x y).
Qed.

Lemma if_same {A} (b : bool) (x : A) : (if b then x else x) = x.
Proof. by destruct b. Qed.

(** The loop of [replay_loop] over the frames of a list of entries. *)
Lemma replay_iterations_frames file start entries : ∀ m seq pos bytes found e,
  Forall entry_ok entries → 0 ≤ seq < 2 ^ 64 →
  log_file_stream_ e = stream_at file pos → drop pos file = bytes →
  file_image (items_from true seq entries) bytes →
  ∃ e', replay_iterations m true start found e
        = (if has_callback e
           then dispatch_from start found (take m (events_from seq entries)) else [],
           e')
        ∧ has_callback e' = has_callback e
        ∧ is_replaying_ e' = is_replaying_ e
        ∧ replay_speed_factor_ e' = replay_speed_factor_ e
        ∧ current_replay_sequence_number_ e'
          = default (current_replay_sequence_number_ e)
                    (last ((λ event, stored_sequence_number event.1)
                           <$> take m (events_from seq entries)))
        ∧ ((m ≤ length entries)%nat → ∃ pos', log_file_stream_ e' = stream_at file pos')
        ∧ ((length entries < m)%nat → log_file_stream_ e' = stream_end file).
Proof.
  induction entries as [| en entries IH]; intros m seq pos bytes found e Hok Hseq Hf Hd Himg.
  - destruct m as [| m].
    + exists e. cbn. split; [by destruct (has_callback e) |].
      repeat split; try done; [by exists pos | lia].
    + inversion Himg; subst. rewrite replay_iterations_S, Hf.
      unfold stream_at. rewrite read_next_event_end by done.
      cbn [events_from take dispatch_from]. rewrite if_same.
      eexists. split; [done |].
      cbn. repeat split; try done. lia.
  - destruct m as [| m].
    + exists e. cbn. split; [by destruct (has_callback e) |].
      repeat split; try done; [by exists pos | lia].
    + apply Forall_cons in Hok as [Hen Hok].
      cbn [items_from logged_item] in Himg.
      inversion Himg as [| | h payload padding its bs Hl Hp Hrest [Eh Ep Ei] Hbytes |].
      rewrite <- Hbytes in Hd. clear Hbytes Himg. subst h payload its.
      destruct (logged_header_ranges seq en Hseq Hen) as (Ht & Hs & Hc & Hsz).
      rewrite replay_iterations_S, Hf. unfold stream_at.
      rewrite (read_next_event_frame (mkInput true file pos false false)
                 (logged_header seq en) padding
                 (entry_payload en) bs eq_refl eq_refl Hd Hl Ht Hs Hc Hsz (proj2 Hen)).
      cbn [content position stored_sequence_number sequence_number logged_header].
      set (pos1 := (pos + length (header_bytes (logged_header seq en) padding)
                    + length (entry_payload en))%nat).
      assert (Hd1 : drop pos1 file = bs).
      { unfold pos1. rewrite <- !drop_drop, Hd.
        rewrite drop_app_length. by rewrite drop_app_length. }
      cbn [events_from take dispatch_from fst stored stored_sequence_number
           sequence_number logged_header fmap list_fmap].
      destruct (found || (start <=? seq)) eqn:Hfound.
      * cbv zeta.
        match goal with
        | |- context [replay_iterations m true start true ?e2] =>
            destruct (IH m (u64 (seq + 1)) pos1 bs true e2 Hok (u64_range _) eq_refl Hd1 Hrest)
              as (e' & Hrun & Hcb & Hrep & Hsp & Hcur & Hle & Hgt)
        end.
        rewrite Hrun. cbn [has_callback] in *. exists e'.
        split; [by destruct (has_callback e) |].
        split; [done |]. split; [done |]. split; [done |].
        split; [| split; [intros Hm; apply Hle; cbn [length] in Hm; lia
                          | intros Hm; apply Hgt; cbn [length] in Hm; lia]].
        rewrite Hcur. cbn [current_replay_sequence_number_].
        by rewrite last_cons_default.
      * match goal with
        | |- context [replay_iterations m true start false ?e1] =>
            destruct (IH m (u64 (seq + 1)) pos1 bs false e1 Hok (u64_range _) eq_refl Hd1 Hrest)
              as (e' & Hrun & Hcb & Hrep & Hsp & Hcur & Hle & Hgt)
        end.
        rewrite Hrun. cbn [has_callback] in *. exists e'.
        split; [done |].
        split; [done |]. split; [done |]. split; [done |].
        split; [| split; [intros Hm; apply Hle; cbn [length] in Hm; lia
                          | intros Hm; apply Hgt; cbn [length] in Hm; lia]].
        rewrite Hcur. cbn [current_replay_sequence_number_].
        by rewrite last_cons_default.
Qed.

(** Events numbered from [k] on: [replay_loop] skips those below
    [start]. *)
Lemma dispatch_from_indexed start events : ∀ k : Z,
  (∀ (i : nat) event, events !! i = Some event →
                      stored_sequence_number event.1 = k + Z.of_nat i) →
  dispatch_from start true events = events
  ∧ dispatch_from start false events = drop (Z.to_nat (start - k)) events.
Proof.
  induction events as [| event events IH]; intros k Hidx.
  - by rewrite drop_nil.
  - pose proof (Hidx 0%nat event eq_refl) as H0. rewrite Z.add_0_r in H0.
    destruct (IH (k + 1)) as [IHt IHf].
    { intros i ev Hi. rewrite (Hidx (S i) ev Hi). lia. }
    cbn [dispatch_from orb]. rewrite IHt. split; [done |].
    rewrite H0. destruct (Z.leb_spec start k) as [Hle | Hgt].
    + replace (Z.to_nat (start - k)) with 0%nat by lia. done.
    + rewrite IHf. replace (Z.to_nat (start - k)) with (S (Z.to_nat (start - (k + 1)))) by lia.
      done.
Qed.

Lemma event_of_indexed entries m (i : nat) event :
  take m (imap event_of entries) !! i = Some event →
  stored_sequence_number event.1 = 0 + Z.of_nat i.
Proof.
  intros Hi. apply lookup_take_Some in Hi as [Hi _].
  apply list_lookup_imap_Some in Hi as (en & _ & ->). done.
Qed.

Lemma last_sequence_number entries m :
  default 0 (last ((λ event : StoredHeader * list Z, stored_sequence_number event.1)
                   <$> take m (imap event_of entries)))
  = Z.max 0 (Z.of_nat (m `min` length entries) - 1).
Proof.
  rewrite last_lookup, length_fmap, length_take, length_imap.
  destruct (m `min` length entries)%nat as [| j] eqn:Hmin.
  - destruct (take m (imap event_of entries)) eqn:E; [done |].
    apply (f_equal length) in E. rewrite length_take, length_imap, Hmin in E. done.
  - cbn [Nat.pred]. destruct (lookup_lt_is_Some_2 (take m (imap event_of entries)) j)
      as [event Hev].
    { rewrite length_take, length_imap. lia. }
    rewrite list_lookup_fmap, Hev. cbn.
    rewrite (event_of_indexed entries m j event Hev). lia.
Qed.

Lemma start_replay_logged frames e0 pos0 :
  log_file_stream_ e0 = stream_at (string_bytes binary_header_magic ++ frames) pos0 →
  is_replaying_ e0 = false →
  start_replay e0
  = Started (mkEngine (stream_at (string_bytes binary_header_magic ++ frames) 13)
                      (has_callback e0) true false (replay_speed_factor_ e0)
                      (current_replay_sequence_number_ e0)).
Proof.
  intros Hf Hrep. unfold start_replay. rewrite Hrep, Hf.
  change (rewind (stream_at (string_bytes binary_header_magic ++ frames) pos0))
    with (stream_at (string_bytes binary_header_magic ++ frames) 0).
  by rewrite skip_magic_found.
Qed.

Lemma replay_logged frames entries e0 pos0 m start :
  file_image (items_from true 0 entries) frames →
  Forall entry_ok entries → Z.of_nat (length entries) ≤ 2 ^ 64 → 0 ≤ start →
  log_file_stream_ e0 = stream_at (string_bytes binary_header_magic ++ frames) pos0 →
  is_replaying_ e0 = false →
  ∃ e', replay m true start e0
        = Some (if has_callback e0
                then drop (Z.to_nat start) (take m (imap event_of entries)) else [],
                e')
        ∧ has_callback e' = has_callback e0
        ∧ is_replaying_ e' = false ∧ is_paused_ e' = false
        ∧ current_replay_sequence_number_ e'
          = default (current_replay_sequence_number_ e0)
                    (last ((λ event : StoredHeader * list Z, stored_sequence_number event.1)
                           <$> take m (imap event_of entries)))
        ∧ ((m ≤ length entries)%nat →
           ∃ pos', log_file_stream_ e'
                   = stream_at (string_bytes binary_header_magic ++ frames) pos')
        ∧ ((length entries < m)%nat →
           log_file_stream_ e' = stream_end (string_bytes binary_header_magic ++ frames)).
Proof.
  intros Hframes Hok Hn Hstart Hf Hrep.
  set (file := string_bytes binary_header_magic ++ frames) in *.
  unfold replay. rewrite (start_replay_logged frames e0 pos0 Hf Hrep). fold file.
  unfold replay_loop.
  match goal with
  | |- context [replay_iterations m true start ?found ?e1] =>
      destruct (replay_iterations_frames file start entries m 0 13 frames found e1
                  Hok ltac:(lia) eq_refl) as (e' & Hrun & Hcb & _ & _ & Hcur & Hle & Hgt);
        [by (unfold file; rewrite drop_app_length') | done |]
  end.
  rewrite Hrun. cbn [has_callback current_replay_sequence_number_] in *.
  assert (Hev : events_from 0 entries = imap event_of entries)
    by exact (events_from_indexed entries 0 Hok Hn).
  rewrite Hev in *.
  destruct (dispatch_from_indexed start (take m (imap event_of entries)) 0
              (event_of_indexed entries m)) as [Ht Hfalse].
  eexists. split.
  { f_equal. f_equal. destruct (has_callback e0); [| done].
    destruct (Z.eqb_spec start 0) as [-> | Hne].
    - by rewrite Ht.
    - rewrite Hfalse. by rewrite Z.sub_0_r. }
  cbn. done.
Qed.

(** X21: replaying a log from a sequence number.  On the file of a binary
    logger as in X20, [start_replay(start)] on a new engine with a callback,
    stopped after [stop_after] iterations if at all, passes to the callback
    exactly the events read whose sequence number is at least [start],
    oldest first: the first [stop_after] logged events without the first
    [start] of them.  When the loop ends the engine is neither replaying
    nor paused, and [get_current_replay_sequence] is the number of the last
    event read. *)
Theorem replay_from_sequence_number filename lg0 entries file e stop_after start :
  new_EventLogger filename true true true true = Some lg0 →
  Forall entry_ok entries → Z.of_nat (length entries) ≤ 2 ^ 64 →
  file_image (output (EventLog.log_file_stream_ (log_entries entries lg0))) file →
  new_EventReplayEngine true file true = Some e →
  0 ≤ start →
  ∃ e', replay stop_after true start e
        = Some (drop (Z.to_nat start) (take stop_after (imap event_of entries)), e')
        ∧ is_replaying_ e' = false ∧ is_paused_ e' = false
        ∧ current_replay_sequence_number_ e'
          = Z.max 0 (Z.of_nat (stop_after `min` length entries) - 1).
Proof.
  intros Hnew Hok Hn Himg He Hstart.
  destruct (logged_file filename lg0 entries file Hnew Himg) as (frames & -> & Hframes).
  rewrite new_EventReplayEngine_open in He. apply (inj Some) in He as <-.
  rewrite skip_magic_found.
  destruct (replay_logged frames entries
              (mkEngine (stream_at (string_bytes binary_header_magic ++ frames) 13)
                        true false false float_one 0)
              13 stop_after start Hframes Hok Hn Hstart eq_refl eq_refl)
    as (e' & Hrun & _ & Hrep & Hp & Hcur & _).
  exists e'. split; [exact Hrun |]. split; [done |]. split; [done |].
  rewrite Hcur. apply last_sequence_number.
Qed.

(** X22: starting a replay again.  After a replay of such a file that was
    stopped before it met the end of the file, [start_replay] rewinds and
    the second replay passes on the events from the start of the file
    again.  After a replay that ran to the end of the file, [start_replay]
    throws: the stream still has [eofbit] and [failbit] set when its state
    is checked, and nothing is replayed. *)
Theorem replay_restart filename lg0 entries file e stop_after start dispatched e1
    stop_after' start' :
  new_EventLogger filename true true true true = Some lg0 →
  Forall entry_ok entries → Z.of_nat (length entries) ≤ 2 ^ 64 →
  file_image (output (EventLog.log_file_stream_ (log_entries entries lg0))) file →
  new_EventReplayEngine true file true = Some e →
  0 ≤ start → 0 ≤ start' →
  replay stop_after true start e = Some (dispatched, e1) →
  ((stop_after ≤ length entries)%nat →
   ∃ e2, replay stop_after' true start' e1
         = Some (drop (Z.to_nat start') (take stop_after' (imap event_of entries)), e2))
  ∧ ((length entries < stop_after)%nat →
     start_replay e1 = StartThrows e1 ∧ replay stop_after' true start' e1 = None).
Proof.
  intros Hnew Hok Hn Himg He Hstart Hstart' Hrun1.
  destruct (logged_file filename lg0 entries file Hnew Himg) as (frames & -> & Hframes).
  rewrite new_EventReplayEngine_open in He. apply (inj Some) in He as <-.
  rewrite skip_magic_found in Hrun1.
  destruct (replay_logged frames entries
              (mkEngine (stream_at (string_bytes binary_header_magic ++ frames) 13)
                        true false false float_one 0)
              13 stop_after start Hframes Hok Hn Hstart eq_refl eq_refl)
    as (e' & Hrun & Hcb & Hrep & _ & _ & Hle & Hgt).
  rewrite Hrun in Hrun1. injection Hrun1 as _ <-.
  split.
  - intros Hm. destruct (Hle Hm) as [pos' Hpos'].
    destruct (replay_logged frames entries e' pos' stop_after' start'
                Hframes Hok Hn Hstart' Hpos' Hrep) as (e2 & Hrun2 & _).
    exists e2. rewrite Hrun2. cbn [has_callback] in Hcb. by rewrite Hcb.
  - intros Hm. specialize (Hgt Hm).
    assert (Hthrows : start_replay e' = StartThrows e').
    { unfold start_replay. rewrite Hrep, Hgt. done. }
    split; [done |]. unfold replay. by rewrite Hthrows.
Qed.

(** *** A run with three entries *)

Lemma three_entries_ok : Forall entry_ok three_entries.
Proof.
  repeat constructor; unfold is_byte, MAX_EVENT_DATA_SIZE; simpl; lia.
Qed.

Lemma three_entries_image :
  file_image
    (output (EventLog.log_file_stream_ (log_entries three_entries three_entries_logger)))
    three_entries_file.
Proof.
  apply file_bytes_image; [done |]. repeat constructor; unfold is_byte; lia.
Qed.

Lemma log_replay_round_trip_witness :
  new_EventLogger "events.log" true true true true = Some three_entries_logger
  ∧ Forall entry_ok three_entries
  ∧ Z.of_nat (length three_entries) ≤ 2 ^ 64
  ∧ file_image
      (output (EventLog.log_file_stream_ (log_entries three_entries three_entries_logger)))
      three_entries_file
  ∧ new_EventReplayEngine true three_entries_file true = Some three_entries_engine
  ∧ read_events (S (length three_entries)) true (log_file_stream_ three_entries_engine)
    = (imap event_of three_entries, stream_end three_entries_file)
  ∧ Forall (λ event, validate_event_checksum event.1 event.2 = true)
           (imap event_of three_entries).
Proof.
  assert (H1 : new_EventLogger "events.log" true true true true = Some three_entries_logger)
    by reflexivity.
  pose proof three_entries_ok as H2.
  assert (H3 : Z.of_nat (length three_entries) ≤ 2 ^ 64) by (simpl; lia).
  pose proof three_entries_image as H4.
  assert (H5 : new_EventReplayEngine true three_entries_file true = Some three_entries_engine)
    by reflexivity.
  split; [exact H1 |]. split; [exact H2 |]. split; [exact H3 |]. split; [exact H4 |].
  split; [exact H5 |].
  exact (log_replay_round_trip "events.log" three_entries_logger three_entries
           three_entries_file true three_entries_engine H1 H2 H3 H4 H5).
Defined.

Lemma replay_from_sequence_number_witness :
  new_EventLogger "events.log" true true true true = Some three_entries_logger
  ∧ Forall entry_ok three_entries
  ∧ Z.of_nat (length three_entries) ≤ 2 ^ 64
  ∧ file_image
      (output (EventLog.log_file_stream_ (log_entries three_entries three_entries_logger)))
      three_entries_file
  ∧ new_EventReplayEngine true three_entries_file true = Some three_entries_engine
  ∧ 0 ≤ 1
  ∧ ∃ e', replay 10 true 1 three_entries_engine
          = Some (drop (Z.to_nat 1) (take 10 (imap event_of three_entries)), e')
          ∧ is_replaying_ e' = false ∧ is_paused_ e' = false
          ∧ current_replay_sequence_number_ e'
            = Z.max 0 (Z.of_nat (10 `min` length three_entries) - 1).
Proof.
  assert (H1 : new_EventLogger "events.log" true true true true = Some three_entries_logger)
    by reflexivity.
  pose proof three_entries_ok as H2.
  assert (H3 : Z.of_nat (length three_entries) ≤ 2 ^ 64) by (simpl; lia).
  pose proof three_entries_image as H4.
  assert (H5 : new_EventReplayEngine true three_entries_file true = Some three_entries_engine)
    by reflexivity.
  assert (H6 : 0 ≤ 1) by lia.
  split; [exact H1 |]. split; [exact H2 |]. split; [exact H3 |]. split; [exact H4 |].
  split; [exact H5 |]. split; [exact H6 |].
  exact (replay_from_sequence_number "events.log" three_entries_logger three_entries
           three_entries_file three_entries_engine 10 1 H1 H2 H3 H4 H5 H6).
Defined.

Lemma replay_restart_witness :
  let first := default ([], three_entries_engine) (replay 10 true 0 three_entries_engine) in
  new_EventLogger "events.log" true true true true = Some three_entries_logger
  ∧ Forall entry_ok three_entries
  ∧ Z.of_nat (length three_entries) ≤ 2 ^ 64
  ∧ file_image
      (output (EventLog.log_file_stream_ (log_entries three_entries three_entries_logger)))
      three_entries_file
  ∧ new_EventReplayEngine true three_entries_file true = Some three_entries_engine
  ∧ 0 ≤ 0 ∧ 0 ≤ 2
  ∧ replay 10 true 0 three_entries_engine = Some (first.1, first.2)
  ∧ (length three_entries < 10)%nat
  ∧ start_replay first.2 = StartThrows first.2
  ∧ replay 5 true 2 first.2 = None.
Proof.
  intros first.
  assert (H1 : new_EventLogger "events.log" true true true true = Some three_entries_logger)
    by reflexivity.
  pose proof three_entries_ok as H2.
  assert (H3 : Z.of_nat (length three_entries) ≤ 2 ^ 64) by (simpl; lia).
  pose proof three_entries_image as H4.
  assert (H5 : new_EventReplayEngine true three_entries_file true = Some three_entries_engine)
    by reflexivity.
  assert (H6 : 0 ≤ 0) by lia.
  assert (H7 : 0 ≤ 2) by lia.
  assert (H8 : replay 10 true 0 three_entries_engine = Some (first.1, first.2))
    by (vm_compute; reflexivity).
  assert (H9 : (length three_entries < 10)%nat) by (simpl; lia).
  split; [exact H1 |]. split; [exact H2 |]. split; [exact H3 |]. split; [exact H4 |].
  split; [exact H5 |]. split; [exact H6 |]. split; [exact H7 |]. split; [exact H8 |].
  split; [exact H9 |].
  exact (proj2 (replay_restart "events.log" three_entries_logger three_entries
                  three_entries_file three_entries_engine 10 0 first.1 first.2 5 2
                  H1 H2 H3 H4 H5 H6 H7 H8) H9).
Defined.

Lemma bytes_written_is_file_size_witness :
  new_EventLogger "events.log" true true true true = Some three_entries_logger
  ∧ file_image
      (output (EventLog.log_file_stream_ (log_entries three_entries three_entries_logger)))
      three_entries_file
  ∧ total_bytes_written_count_ (log_entries three_entries three_entries_logger)
    = u64 (Z.of_nat (length three_entries_file))
  ∧ total_events_logged_count_ (log_entries three_entries three_entries_logger)
    = u64 (Z.of_nat (length three_entries))
  ∧ ∀ now type payload_size file1,
      true = true → 0 < payload_size →
      let lg1 := (write_log_entry now true type None payload_size
                    (log_entries three_entries three_entries_logger)).2 in
      file_image (output (EventLog.log_file_stream_ lg1)) file1 →
      Z.of_nat (length file1) = Z.of_nat (length three_entries_file) + sizeof_EventHeader
      ∧ total_events_logged_count_ lg1 = u64 (Z.of_nat (length three_entries) + 1)
      ∧ total_bytes_written_count_ lg1
        = u64 (Z.of_nat (length three_entries_file) + sizeof_EventHeader + payload_size).
Proof.
  assert (H1 : new_EventLogger "events.log" true true true true = Some three_entries_logger)
    by reflexivity.
  pose proof three_entries_image as H4.
  split; [exact H1 |]. split; [exact H4 |].
  exact (bytes_written_is_file_size "events.log" true three_entries_logger three_entries
           three_entries_file H1 H4).
Defined.

End EventReplayFacts.
